(** * Verification of the VS Code search walker and embedded JavaScript mode

    These parts of the repository are embedded here:

    - [FileWalker]: the file search walker (class [FileWalker] with [walk],
      [cancel], [recurseWithNodeJS], [recurseWithNativeCommand]).  The walker
      is callback driven; the embedding keeps the callbacks that node's event
      loop still has to run in an explicit list, and a run is a list of events
      (the completion of one outstanding request, or a call of [cancel] by the
      owner of the search).
    - [JavaScriptMode]: the language service host and the operations of the
      embedded JavaScript language mode ([getLanguageServiceHost],
      [doResolve], [findDocumentSymbols], [findDefinition], [findReferences],
      [convertRange]), and its other operations ([doComplete],
      [doSignatureHelp], [computeInitialIndent], [generateIndent],
      [getCurrentDirectory]).
    - [SearchEngine]: the class [Engine], which owns a walker.
    - [GitEditorDefs]: the handler of the editor requests of git
      ([GitEditor.handle]).
    - [WorkspaceTrust]: the dialog of a workspace trust request
      ([WorkspaceTrustRequestHandler]) and the telemetry of the trust of the
      workspace ([WorkspaceTrustTelemetryContribution]).
    - [ThemeDefs]: the loader of colour themes ([ColorThemeData.ensureLoaded],
      [_loadThemeDocument]). *)

From Stdlib Require Import String Ascii List Arith Lia Bool.
From Stdlib Require Import DecimalString DecimalNat.
From stdpp Require Import base option list gmap sets strings.

Local Open Scope string_scope.
Local Open Scope list_scope.

(** ** Strings as the source uses them *)

Module Str.

(** [s.startsWith(p)] *)
Definition startsWith (p s : string) : bool := String.prefix p s.

(** [s.substr(n)]: the text from index [n] on, empty when [n] is past the end. *)
Fixpoint substr (n : nat) (s : string) : string :=
  match n, s with
  | O, _ => s
  | S n', String _ s' => substr n' s'
  | S _, EmptyString => EmptyString
  end.

(** [s.indexOf(needle) >= 0] *)
Definition contains (needle s : string) : bool :=
  match String.index 0 needle s with Some _ => true | None => false end.

(** [strings.replaceAll(s, from, to)] for a one character [from]. *)
Fixpoint replaceAllChar (from : ascii) (to : string) (s : string) : string :=
  match s with
  | EmptyString => EmptyString
  | String c s' =>
      if Ascii.eqb c from then to +:+ replaceAllChar from to s'
      else String c (replaceAllChar from to s')
  end.

(** [s.replace(from, to)]: the first occurrence only, as JavaScript does for
    a string pattern. *)
Fixpoint replaceFirst (from to s : string) : string :=
  if String.prefix from s then to +:+ substr (String.length from) s
  else match s with
       | String c s' => String c (replaceFirst from to s')
       | EmptyString => EmptyString
       end.

Fixpoint ltrimChar (c : ascii) (s : string) : string :=
  match s with
  | String d s' => if Ascii.eqb d c then ltrimChar c s' else s
  | EmptyString => EmptyString
  end.

Fixpoint rtrimChar (c : ascii) (s : string) : string :=
  match s with
  | EmptyString => EmptyString
  | String d s' =>
      match rtrimChar c s' with
      | EmptyString => if Ascii.eqb d c then EmptyString else String d EmptyString
      | r => String d r
      end
  end.

(** [strings.trim(haystack, '/')]: leading and trailing slashes removed. *)
Definition trimSlash (s : string) : string := rtrimChar "/" (ltrimChar "/" s).

(** [String(n)] for a non-negative integer. *)
Definition ofNat (n : nat) : string := NilZero.string_of_uint (Nat.to_uint n).

End Str.

(** ** The file walker *)

Module FileWalker.

(** A node error; the walker only ever inspects its [code]. *)
Record Error := { code : string }.

Inductive IOResult (A : Type) :=
| IOErr (e : Error)
| IOOk (a : A).
Arguments IOErr {A} e.
Arguments IOOk {A} a.

Definition ENOTDIR : string := "ENOTDIR".

(** [glob.IExpression]: patterns switched on or off.  Its interpretation
    belongs to [glob.match], which the walker imports. *)
Definition IExpression := list (string * bool).

Inductive Platform := darwin | linux | otherPlatform.

(** What the walker imports from node and from the rest of the workbench
    ([path], [fs], [extfs], [glob], [filters], [child_process]).  None of it
    is under src; the walker is verified for every implementation of these. *)
Record Env := {
  platform : Platform;
  sep : string;
  isAbsolute : string -> bool;
  join : string -> string -> string;
  basename : string -> string;
  dirname : string -> string;
  normalizeNFC : string -> string;
  (** [extfs.readdir] *)
  readdir : string -> IOResult (list string);
  (** [fs.stat] followed by [stat.isDirectory()] *)
  stat : string -> IOResult bool;
  (** [fs.lstat] followed by [lstat.isSymbolicLink()] *)
  lstat : string -> IOResult bool;
  realpath : string -> IOResult string;
  (** [glob.match(expression, path, siblings?)] *)
  glob_match : option IExpression -> string -> option (list string) -> bool;
  (** [filters.matchesFuzzy(pattern, word, enableSeparateSubstringMatching)];
      the matches are (start, end) pairs *)
  matchesFuzzy : string -> string -> bool -> option (list (nat * nat));
  (** the lines the native listing command prints for a folder, decoded and
      split ([LineDecoder]), the last unterminated line included *)
  nativeLines : string -> list string
}.

(** [IRawSearch] without [rootPaths], which [walk] receives separately. *)
Record IRawSearch := {
  cfg_filePattern : option string;
  cfg_excludePattern : option IExpression;
  cfg_includePattern : option IExpression;
  cfg_maxResults : option nat;
  cfg_matchFuzzy : bool;
  cfg_disableFastFileLookup : bool
}.

(** The fields of a [FileWalker] instance. *)
Record Walker := {
  config : IRawSearch;
  filePattern : option string;
  excludePattern : option IExpression;
  includePattern : option IExpression;
  maxResults : option nat;
  isLimitHit : bool;
  resultCount : nat;
  isCanceled : bool;
  searchInPath : bool;
  matchFuzzy : bool;
  disableFastFileLookup : bool;
  runningNative : option nat;
  walkedPaths : gset string
}.

(** JavaScript truthiness of an optional string: [undefined] and the empty
    string are false. *)
Definition truthy (s : option string) : bool :=
  match s with
  | Some s => negb (String.eqb s "")
  | None => false
  end.

(** [config.maxResults || null] *)
Definition orNull (n : option nat) : option nat :=
  match n with
  | Some (S m) => Some (S m)
  | _ => None
  end.

(** The constructor. *)
Definition new (env : Env) (cfg : IRawSearch) : Walker :=
  let inPath :=
    truthy (cfg_filePattern cfg) &&
    match cfg_filePattern cfg with
    | Some p => Str.contains (sep env) p
    | None => false
    end in
  {| config := cfg;
     filePattern :=
       if inPath then option_map (Str.replaceAllChar "\" "/") (cfg_filePattern cfg)
       else cfg_filePattern cfg;
     excludePattern := cfg_excludePattern cfg;
     includePattern := cfg_includePattern cfg;
     maxResults := orNull (cfg_maxResults cfg);
     isLimitHit := false;
     resultCount := 0;
     isCanceled := false;
     searchInPath := inPath;
     matchFuzzy := cfg_matchFuzzy cfg;
     disableFastFileLookup := cfg_disableFastFileLookup cfg;
     runningNative := None;
     walkedPaths := ∅ |}.

(** *** The event loop

    Every asynchronous request of the walker ([fs.stat], [extfs.readdir],
    [fs.lstat], [fs.realpath], the close of the native command) is kept with
    the variables its callback closes over until the event loop runs it. *)

(** The callbacks handed down through [flow.parallel]: [PerEntry j i] is
    [perEntryCallback] for root [i] of the fan-out [j] started by [walk];
    [Clb j i done] is [clb] for entry [i] of the fan-out [j] started by
    [recurseWithNodeJS], whose own completion is reported to [done]. *)
Inductive Callback :=
| PerEntry (j i : nat)
| Clb (j i : nat) (done : Callback).

(** The variables of one [flow.parallel] call; [callback] is the final
    callback it was given: the one of [walk], which calls [done], when [None],
    and otherwise the one of [recurseWithNodeJS], which calls the [done] that
    function received. *)
Record Join := {
  total : nat;
  doneCount : nat;
  errors : list (option Error);
  didErrorOccur : bool;
  callback : option Callback
}.

Inductive Pending :=
| StatFilePattern (path : string) (rootPaths : list string)
| ReaddirRoot (absolutePath : string) (perEntryCallback : Callback)
| StatRelative (basePath absolutePath : string) (files : list string)
    (perEntryCallback : Callback)
| ReaddirEntry (absolutePath relativeParentPath : string) (files : list string)
    (file relativeFilePath currentPath : string) (clb : Callback)
| LstatLink (absolutePath : string) (files : list string) (file : string)
    (currentPath relativeFilePath : string) (children : list string)
    (clb : Callback)
| RealpathLink (absolutePath : string) (files : list string) (file : string)
    (currentPath relativeFilePath : string) (children : list string)
    (clb : Callback)
| NativeClose (pid : nat) (absolutePath : string) (done : Callback).

(** What the caller of [walk] observes: the calls of [onResult] and of
    [done], newest first. *)
Inductive Output :=
| OnResult (path : string)
| Done (error : option Error) (limitHit : bool).

(** A directory handed to [recurseWithNodeJS]; [key] is the path under which
    it was remembered in [walkedPaths] ([None] for a root folder, which is not
    remembered).  The list of visits is a history kept for the proofs, the
    source does not store it. *)
Record Visit := { dir : string; key : option string }.

Record World := {
  walker : Walker;
  pending : list Pending;
  joins : list Join;
  nextPid : nat;
  output : list Output;
  visits : list Visit;
  (** a callback that never returns blocks the event loop for good *)
  hung : bool
}.

Definition withWalker (f : Walker -> Walker) (w : World) : World :=
  {| walker := f (walker w); pending := pending w; joins := joins w;
     nextPid := nextPid w; output := output w; visits := visits w;
     hung := hung w |}.

Definition withPending (f : list Pending -> list Pending) (w : World) : World :=
  {| walker := walker w; pending := f (pending w); joins := joins w;
     nextPid := nextPid w; output := output w; visits := visits w;
     hung := hung w |}.

Definition withJoins (f : list Join -> list Join) (w : World) : World :=
  {| walker := walker w; pending := pending w; joins := f (joins w);
     nextPid := nextPid w; output := output w; visits := visits w;
     hung := hung w |}.

Definition emit (o : Output) (w : World) : World :=
  {| walker := walker w; pending := pending w; joins := joins w;
     nextPid := nextPid w; output := o :: output w; visits := visits w;
     hung := hung w |}.

Definition noteVisit (v : Visit) (w : World) : World :=
  {| walker := walker w; pending := pending w; joins := joins w;
     nextPid := nextPid w; output := output w; visits := v :: visits w;
     hung := hung w |}.

Definition withNextPid (n : nat) (w : World) : World :=
  {| walker := walker w; pending := pending w; joins := joins w;
     nextPid := n; output := output w; visits := visits w;
     hung := hung w |}.

Definition hang (w : World) : World :=
  {| walker := walker w; pending := pending w; joins := joins w;
     nextPid := nextPid w; output := output w; visits := visits w;
     hung := true |}.

(** Setters for the fields of the walker that change during a search. *)
Definition setLimitHit (b : bool) (k : Walker) : Walker :=
  {| config := config k; filePattern := filePattern k;
     excludePattern := excludePattern k; includePattern := includePattern k;
     maxResults := maxResults k; isLimitHit := b;
     resultCount := resultCount k; isCanceled := isCanceled k;
     searchInPath := searchInPath k; matchFuzzy := matchFuzzy k;
     disableFastFileLookup := disableFastFileLookup k;
     runningNative := runningNative k; walkedPaths := walkedPaths k |}.

Definition setResultCount (n : nat) (k : Walker) : Walker :=
  {| config := config k; filePattern := filePattern k;
     excludePattern := excludePattern k; includePattern := includePattern k;
     maxResults := maxResults k; isLimitHit := isLimitHit k;
     resultCount := n; isCanceled := isCanceled k;
     searchInPath := searchInPath k; matchFuzzy := matchFuzzy k;
     disableFastFileLookup := disableFastFileLookup k;
     runningNative := runningNative k; walkedPaths := walkedPaths k |}.

Definition setCanceled (b : bool) (k : Walker) : Walker :=
  {| config := config k; filePattern := filePattern k;
     excludePattern := excludePattern k; includePattern := includePattern k;
     maxResults := maxResults k; isLimitHit := isLimitHit k;
     resultCount := resultCount k; isCanceled := b;
     searchInPath := searchInPath k; matchFuzzy := matchFuzzy k;
     disableFastFileLookup := disableFastFileLookup k;
     runningNative := runningNative k; walkedPaths := walkedPaths k |}.

Definition setRunningNative (p : option nat) (k : Walker) : Walker :=
  {| config := config k; filePattern := filePattern k;
     excludePattern := excludePattern k; includePattern := includePattern k;
     maxResults := maxResults k; isLimitHit := isLimitHit k;
     resultCount := resultCount k; isCanceled := isCanceled k;
     searchInPath := searchInPath k; matchFuzzy := matchFuzzy k;
     disableFastFileLookup := disableFastFileLookup k;
     runningNative := p; walkedPaths := walkedPaths k |}.

Definition setWalkedPaths (s : gset string) (k : Walker) : Walker :=
  {| config := config k; filePattern := filePattern k;
     excludePattern := excludePattern k; includePattern := includePattern k;
     maxResults := maxResults k; isLimitHit := isLimitHit k;
     resultCount := resultCount k; isCanceled := isCanceled k;
     searchInPath := searchInPath k; matchFuzzy := matchFuzzy k;
     disableFastFileLookup := disableFastFileLookup k;
     runningNative := runningNative k; walkedPaths := s |}.

(** [onResult({ path })] *)
Definition onResult (path : string) : World -> World := emit (OnResult path).

(** Hand a request to the event loop. *)
Definition request (p : Pending) : World -> World :=
  withPending (fun ps => ps ++ [p]).

(** *** [flow.parallel] *)

(** Modelled from the spec: [flow.parallel] (vs/base/node/flow) is not under
    src.  The spec calls it a fan-out join: every entry of the list is started,
    in order, without waiting for the others; the final callback runs once,
    after every entry has called back, and receives the errors of the entries
    if one of them reported an error and [null] otherwise.  An empty list goes
    to the final callback at once. *)
Definition newJoin (n : nat) (callback : option Callback) : Join :=
  {| total := n; doneCount := 0; errors := replicate n None;
     didErrorOccur := false; callback := callback |}.

Definition settle (i : nat) (error : option Error) (jn : Join) : Join :=
  {| total := total jn; doneCount := S (doneCount jn);
     errors := <[i := error]> (errors jn);
     didErrorOccur :=
       match error with Some _ => true | None => didErrorOccur jn end;
     callback := callback jn |}.

(** The entry [i] of fan-out [j] calls back with [error]; the result is the
    argument for the final callback when this was the last entry. *)
Definition entryDone (j i : nat) (error : option Error) (w : World)
  : World * option (option (list (option Error))) :=
  match joins w !! j with
  | None => (w, None)
  | Some jn =>
      let jn' := settle i error jn in
      let w' := withJoins (fun js => <[j := jn']> js) w in
      if Nat.eqb (doneCount jn') (total jn') then
        (w', Some (if didErrorOccur jn' then Some (errors jn') else None))
      else (w', None)
  end.

(** [arrays.coalesce] *)
Definition coalesce (l : list (option Error)) : list Error := omap id l.

(** Running a callback.  For [PerEntry] the final callback of the fan-out is
    the one [walk] passes: [done(err ? err[0] : null, this.isLimitHit)]; for
    [Clb] it is the one of [recurseWithNodeJS], which coalesces the errors and
    reports the first to its own [done]. *)
Fixpoint invoke (cb : Callback) (error : option Error) (w : World) : World :=
  match cb with
  | PerEntry j i =>
      match entryDone j i error w with
      | (w', Some err) =>
          let first := match err with Some es => mjoin (head es) | None => None end in
          emit (Done first (isLimitHit (walker w'))) w'
      | (w', None) => w'
      end
  | Clb j i done =>
      match entryDone j i error w with
      | (w', Some err) =>
          let first := match err with Some es => head (coalesce es) | None => None end in
          invoke done first w'
      | (w', None) => w'
      end
  end.

(** [flow.parallel(list, fn, callback)]: [fn j i item] starts entry [i] of
    the fan-out [j]; [final] is what [callback] does for an empty list (for a
    non-empty list it runs from [invoke], when the last entry calls back). *)
Fixpoint forEachFrom {A : Type} (fn : nat -> A -> World -> World) (i : nat)
    (items : list A) (w : World) : World :=
  match items with
  | [] => w
  | x :: rest => forEachFrom fn (S i) rest (fn i x w)
  end.

Definition parallel {A : Type} (items : list A)
    (fn : nat -> nat -> A -> World -> World) (callback : option Callback)
    (final : World -> World) (w : World) : World :=
  match items with
  | [] => final w
  | _ :: _ =>
      let j := length (joins w) in
      forEachFrom (fn j) 0 items
        (withJoins (fun js => js ++ [newJoin (length items) callback]) w)
  end.

(** *** The methods of [FileWalker] *)

Section Methods.

Context (env : Env).

Definition terminateNative (k : Walker) : Walker :=
  match runningNative k with
  | Some _ => setRunningNative None k
  | None => k
  end.

Definition resetState (k : Walker) : Walker :=
  terminateNative (setLimitHit false (setResultCount 0 (setWalkedPaths ∅ k))).

Definition cancel (w : World) : World :=
  withWalker (fun k => terminateNative (setCanceled true k)) w.

Definition isFilePatternMatch (k : Walker) (name path : string) : bool :=
  match filePattern k with
  | Some pat =>
      if truthy (Some pat) then
        match matchesFuzzy env pat
                (if matchFuzzy k || searchInPath k then path else name)
                (matchFuzzy k) with
        | Some res => negb (Nat.eqb (length res) 0)
        | None => false
        end
      else true
  | None => true
  end.

(** [!this.includePattern || glob.match(this.includePattern, path, siblings)] *)
Definition included (k : Walker) (path : string) (siblings : option (list string))
  : bool :=
  match includePattern k with
  | None => true
  | Some e => glob_match env (Some e) path siblings
  end.

(** [this.config.filePattern === name] *)
Definition isExactPattern (k : Walker) (name : string) : bool :=
  match cfg_filePattern (config k) with
  | Some p => String.eqb p name
  | None => false
  end.

(** The block the source repeats at each place a file is accepted:
    [this.resultCount++], then the limit test, then [onResult] unless the
    limit is hit. *)
Definition report (path : string) (w : World) : World :=
  let w1 := withWalker (fun k => setResultCount (S (resultCount k)) k) w in
  let w2 :=
    match maxResults (walker w1) with
    | Some m =>
        if Nat.ltb m (resultCount (walker w1))
        then withWalker (setLimitHit true) w1 else w1
    | None => w1
    end in
  if isLimitHit (walker w2) then w2 else onResult path w2.

Definition recurseWithNodeJS (absolutePath relativeParentPath : string)
    (files : list string) (done : Callback) (w : World) : World :=
  parallel files
    (fun j i file w =>
       let clb := Clb j i done in
       let k := walker w in
       if isCanceled k || isLimitHit k then invoke clb None w
       else
         let siblings := if isExactPattern k file then [] else files in
         let relativeFilePath :=
           Str.trimSlash (relativeParentPath +:+ "/" +:+ file) in
         if glob_match env (excludePattern k) relativeFilePath (Some siblings)
         then invoke clb None w
         else
           let currentPath := join env absolutePath file in
           request (ReaddirEntry absolutePath relativeParentPath files file
                      relativeFilePath currentPath clb) w)
    (Some done) (invoke done None) w.

Definition recurseWithNativeCommand (absolutePath : string) (done : Callback)
    (w : World) : World :=
  let pid := nextPid w in
  request (NativeClose pid absolutePath done)
    (withWalker (setRunningNative (Some pid)) (withNextPid (S pid) w)).

Definition recurse (absolutePath : string) (files : list string)
    (done : Callback) (w : World) : World :=
  if disableFastFileLookup (walker w)
  then recurseWithNodeJS absolutePath "" files done
         (noteVisit {| dir := absolutePath; key := None |} w)
  else recurseWithNativeCommand absolutePath done w.

(** The callback [walk] gives to [checkFilePatternAbsoluteMatch]. *)
Definition walkRoots (rootPaths : list string) (exists_ : bool) (w : World)
  : World :=
  let w1 :=
    match exists_, filePattern (walker w) with
    | true, Some pat => onResult pat w
    | _, _ => w
    end in
  parallel rootPaths
    (fun j i absolutePath => request (ReaddirRoot absolutePath (PerEntry j i)))
    None (fun w => emit (Done None (isLimitHit (walker w))) w) w1.

Definition checkFilePatternAbsoluteMatch (rootPaths : list string)
    (clb : bool -> World -> World) (w : World) : World :=
  match filePattern (walker w) with
  | Some pat =>
      if negb (truthy (Some pat)) || negb (isAbsolute env pat) then clb false w
      else if existsb (String.eqb pat) rootPaths then clb false w
      else request (StatFilePattern pat rootPaths) w
  | None => clb false w
  end.

Definition walk (rootPaths : list string) (w : World) : World :=
  checkFilePatternAbsoluteMatch rootPaths (walkRoots rootPaths)
    (withWalker resetState w).

(** The callback [walk] gives to [checkFilePatternRelativeMatch]. *)
Definition walkInto (absolutePath : string) (files : list string)
    (perEntryCallback : Callback) (match_ : option string) (w : World) : World :=
  recurse absolutePath files perEntryCallback
    match match_ with
    | Some m => onResult m w
    | None => w
    end.

Definition checkFilePatternRelativeMatch (basePath : string)
    (files : list string) (perEntryCallback : Callback) (w : World) : World :=
  let k := walker w in
  match filePattern k with
  | Some pat =>
      if negb (truthy (Some pat)) || isAbsolute env pat || negb (searchInPath k)
      then walkInto basePath files perEntryCallback None w
      else request (StatRelative basePath (join env basePath pat) files
                      perEntryCallback) w
  | None => walkInto basePath files perEntryCallback None w
  end.

(** [!error && !stat.isDirectory()] *)
Definition isExistingFile (r : IOResult bool) : bool :=
  match r with
  | IOOk isDirectory => negb isDirectory
  | IOErr _ => false
  end.

(** The callback of [extfs.readdir(absolutePath, ...)] in [walk]. *)
Definition onReaddirRoot (absolutePath : string) (perEntryCallback : Callback)
    (w : World) : World :=
  let k := walker w in
  if isCanceled k || isLimitHit k then invoke perEntryCallback None w
  else
    match readdir env absolutePath with
    | IOOk files =>
        checkFilePatternRelativeMatch absolutePath files perEntryCallback w
    | IOErr error =>
        let w1 :=
          if String.eqb (code error) ENOTDIR
             && negb (isCanceled k) && negb (isLimitHit k)
          then
            if glob_match env (excludePattern k) absolutePath None then w
            else if isFilePatternMatch k (basename env absolutePath) absolutePath
                    && included k absolutePath None
            then report absolutePath w
            else w
          else w in
        invoke perEntryCallback None w1
    end.

(** The continuation of [realPathLink] in [recurseWithNodeJS]. *)
Definition walkChildren (realpath currentPath relativeFilePath : string)
    (children : list string) (clb : Callback) (w : World) : World :=
  if bool_decide (realpath ∈ walkedPaths (walker w)) then invoke clb None w
  else
    recurseWithNodeJS currentPath relativeFilePath children clb
      (noteVisit {| dir := currentPath; key := Some realpath |}
         (withWalker (fun k => setWalkedPaths ({[realpath]} ∪ walkedPaths k) k) w)).

(** The callback of [extfs.readdir(currentPath, ...)] in [recurseWithNodeJS]. *)
Definition onReaddirEntry (absolutePath relativeParentPath : string)
    (files : list string) (file relativeFilePath currentPath : string)
    (clb : Callback) (w : World) : World :=
  match readdir env currentPath with
  | IOOk children =>
      request (LstatLink absolutePath files file currentPath relativeFilePath
                 children clb) w
  | IOErr error =>
      let k := walker w in
      let w1 :=
        if String.eqb (code error) ENOTDIR
           && negb (isCanceled k) && negb (isLimitHit k)
        then
          if isFilePatternMatch k file relativeFilePath
             && included k relativeFilePath None
          then report currentPath w
          else w
        else w in
      invoke clb None w1
  end.

(** [realPathLink]: the callback of [fs.lstat], then of [fs.realpath]. *)
Definition onLstatLink (absolutePath : string) (files : list string)
    (file currentPath relativeFilePath : string) (children : list string)
    (clb : Callback) (w : World) : World :=
  match lstat env currentPath with
  | IOErr _ => invoke clb None w
  | IOOk true =>
      request (RealpathLink absolutePath files file currentPath
                 relativeFilePath children clb) w
  | IOOk false =>
      walkChildren currentPath currentPath relativeFilePath children clb w
  end.

Definition onRealpathLink (currentPath relativeFilePath : string)
    (children : list string) (clb : Callback) (w : World) : World :=
  match realpath env currentPath with
  | IOErr _ => invoke clb None w
  | IOOk rp => walkChildren rp currentPath relativeFilePath children clb w
  end.

(** *** The native command

    [mapFoldersToFilepaths] and [mapFoldersToFilenames] are objects whose keys
    are later listed with [Object.keys]; they are kept in insertion order.
    (JavaScript lists keys that are canonical array indices first; a folder path
    printed by the listing command is not one.) *)

Fixpoint pushTo (folder item : string) (m : list (string * list string))
  : list (string * list string) :=
  match m with
  | [] => [(folder, [item])]
  | (f, items) :: rest =>
      if String.eqb f folder then (f, items ++ [item]) :: rest
      else (f, items) :: pushTo folder item rest
  end.

Fixpoint childrenOf (folder : string) (m : list (string * list string))
  : option (list string) :=
  match m with
  | [] => None
  | (f, items) :: rest =>
      if String.eqb f folder then Some items else childrenOf folder rest
  end.

Definition needsNFCNormalization : bool :=
  match platform env with darwin => true | _ => false end.

Definition usesBackslash : bool :=
  match platform env with otherPlatform => true | _ => false end.

Definition perPathHandler
    (maps : list (string * list string) * list (string * list string))
    (p : string) : list (string * list string) * list (string * list string) :=
  if String.eqb p "" then maps
  else
    let p := if needsNFCNormalization then normalizeNFC env p else p in
    let parent := dirname env p in
    (pushTo parent p (fst maps), pushTo parent (basename env p) (snd maps)).

Definition toRelativeWithSlash (absolutePath path : string) : string :=
  let relativeFilePath := Str.substr (String.length absolutePath + 1) path in
  if usesBackslash then Str.replaceAllChar "\" "/" relativeFilePath
  else relativeFilePath.

(** The [do ... while] loop that walks the parents of a folder up to ['.'].
    [None]: the loop is still running when the fuel is used up.  [path.dirname]
    shortens a relative path at each step, so the length of the path is
    enough fuel for every loop that ends; a loop that does not end (the parent
    of ['/'] is ['/']) never returns. *)
Fixpoint folderKept (fuel : nat) (k : Walker) (relativeFilePath : string)
  : option bool :=
  if glob_match env (excludePattern k) relativeFilePath None then Some false
  else
    let parent := dirname env relativeFilePath in
    if String.eqb parent "." then Some true
    else match fuel with
         | O => None
         | S fuel' => folderKept fuel' k parent
         end.

(** [Object.keys(mapFoldersToFilepaths).filter(...)] *)
Fixpoint keptFolders (k : Walker) (absolutePath : string) (folders : list string)
  : option (list string) :=
  match folders with
  | [] => Some []
  | p :: rest =>
      let rel := toRelativeWithSlash absolutePath p in
      match folderKept (String.length rel) k rel with
      | None => None
      | Some keep =>
          match keptFolders k absolutePath rest with
          | None => None
          | Some l => Some (if keep then p :: l else l)
          end
      end
  end.

(** The body of the final [forEach] over the files found. *)
Definition nativeFile (absolutePath : string)
    (mapFoldersToFilenames : list (string * list string)) (p : string)
    (w : World) : World :=
  let k := walker w in
  if isLimitHit k then w
  else
    let relativeFilePath := toRelativeWithSlash absolutePath p in
    let filename := basename env p in
    let siblings :=
      if isExactPattern k filename then Some []
      else childrenOf (dirname env p) mapFoldersToFilenames in
    if glob_match env (excludePattern k) relativeFilePath siblings then w
    else if isFilePatternMatch k filename relativeFilePath
            && included k relativeFilePath siblings
    then report p w
    else w.

(** The ['close'] handler of the native command.  The ['data'] handlers
    decode lines as long as the search is not cancelled, and [isCanceled] is
    never reset, so a search that is not cancelled at the close has handled
    every line. *)
Definition onNativeClose (absolutePath : string) (done : Callback) (w : World)
  : World :=
  let w0 := withWalker (setRunningNative None) w in
  let k := walker w0 in
  if isCanceled k then invoke done None w0
  else
    let maps := fold_left perPathHandler (nativeLines env absolutePath) ([], []) in
    match keptFolders k absolutePath (map fst (fst maps)) with
    | None => hang w0
    | Some folders =>
        let found := concat (omap (fun p => childrenOf p (fst maps)) folders) in
        invoke done None
          (fold_left (fun w p => nativeFile absolutePath (snd maps) p w) found w0)
    end.

(** *** Events *)

Inductive Event :=
| Fire (i : nat)
| Cancel.

(** The callback of an outstanding request. *)
Definition handle (p : Pending) (w : World) : World :=
  match p with
  | StatFilePattern path rootPaths =>
      walkRoots rootPaths (isExistingFile (stat env path)) w
  | ReaddirRoot absolutePath perEntryCallback =>
      onReaddirRoot absolutePath perEntryCallback w
  | StatRelative basePath absolutePath files perEntryCallback =>
      walkInto basePath files perEntryCallback
        (if isExistingFile (stat env absolutePath) then Some absolutePath else None)
        w
  | ReaddirEntry absolutePath relativeParentPath files file relativeFilePath
      currentPath clb =>
      onReaddirEntry absolutePath relativeParentPath files file relativeFilePath
        currentPath clb w
  | LstatLink absolutePath files file currentPath relativeFilePath children clb =>
      onLstatLink absolutePath files file currentPath relativeFilePath children
        clb w
  | RealpathLink _ _ _ currentPath relativeFilePath children clb =>
      onRealpathLink currentPath relativeFilePath children clb w
  | NativeClose _ absolutePath done => onNativeClose absolutePath done w
  end.

(** One turn of the event loop: request [i] completes and its callback runs
    to the end.  Nothing happens when there is no such request or when the
    loop is blocked. *)
Definition fire (i : nat) (w : World) : World :=
  if hung w then w
  else
    match pending w !! i with
    | Some p => handle p (withPending (delete i) w)
    | None => w
    end.

Definition step (e : Event) (w : World) : World :=
  match e with
  | Fire i => fire i w
  | Cancel => cancel w
  end.

Definition run (events : list Event) (w : World) : World :=
  fold_left (fun w e => step e w) events w.

(** A walker that has just been constructed, with nothing outstanding. *)
Definition fresh (cfg : IRawSearch) : World :=
  {| walker := new env cfg; pending := []; joins := []; nextPid := 0;
     output := []; visits := []; hung := false |}.

(** [new FileWalker(config).walk(rootPaths, onResult, done)] followed by the
    given events. *)
Definition search (cfg : IRawSearch) (rootPaths : list string)
    (events : list Event) : World :=
  run events (walk rootPaths (fresh cfg)).

(** [turns w n w']: the event loop can go from [w] to [w'] in [n] turns,
    with any number of calls of [cancel] in between.  A turn runs the callback
    of a request that is outstanding. *)
Inductive turns : World -> nat -> World -> Prop :=
| turns_stop w : turns w 0 w
| turns_fire w i p n w' :
    hung w = false -> pending w !! i = Some p ->
    turns (fire i w) n w' -> turns w (S n) w'
| turns_cancel w n w' : turns (cancel w) n w' -> turns w n w'.

(** The requests complete in the order in which they were made. *)
Fixpoint fifo (n : nat) : list Event :=
  match n with
  | O => []
  | S n' => Fire 0 :: fifo n'
  end.

End Methods.

(** The results delivered through [onResult], oldest first. *)
Definition results (w : World) : list string :=
  rev (omap (fun o => match o with OnResult p => Some p | Done _ _ => None end)
         (output w)).



(** The requests [checkFilePatternAbsoluteMatch] and
    [checkFilePatternRelativeMatch] make. *)
Definition isStat (p : Pending) : bool :=
  match p with
  | StatFilePattern _ _ | StatRelative _ _ _ _ => true
  | _ => false
  end.

(** The file pattern is absent, empty, or a plain name: not an absolute path
    and without a path separator. *)
Definition isPlainPattern (env : Env) (cfg : IRawSearch) : bool :=
  match cfg_filePattern cfg with
  | Some pat =>
      String.eqb pat "" ||
      (negb (isAbsolute env pat) && negb (Str.contains (sep env) pat))
  | None => true
  end.

Definition isNativeClose (p : Pending) : bool :=
  match p with
  | NativeClose _ _ _ => true
  | _ => false
  end.

(** The keys under which the folders visited so far were remembered. *)
Definition visitedKeys (w : World) : list string := omap key (visits w).

(** The calls of [done], oldest first. *)
Definition doneCalls (w : World) : list (option Error * bool) :=
  rev (omap (fun o => match o with Done e b => Some (e, b) | OnResult _ => None end)
         (output w)).

End FileWalker.

(** ** Concrete file systems

    A small POSIX environment over a finite description of a file system,
    used to run the walker on concrete inputs. *)

Module Posix.

Import FileWalker.

(** The text before and after the last slash; [None] without a slash. *)
Fixpoint splitLast (s : string) : option (string * string) :=
  match s with
  | EmptyString => None
  | String c s' =>
      match splitLast s' with
      | Some (d, b) => Some (String c d, b)
      | None => if Ascii.eqb c "/" then Some (EmptyString, s') else None
      end
  end.

Definition dirname (s : string) : string :=
  match splitLast s with
  | Some (EmptyString, _) => "/"
  | Some (d, _) => d
  | None => "."
  end.

Definition basename (s : string) : string :=
  match splitLast s with
  | Some (_, b) => b
  | None => s
  end.

Definition join (a b : string) : string := a +:+ "/" +:+ b.

(** A file system: the real folders with their entries, the real files, and
    the symbolic links with the real path each points to. *)
Record Disk := {
  folders : list (string * list string);
  files : list string;
  links : list (string * string);
  (** folders that cannot be read, with the error code *)
  locked : list (string * string)
}.

Fixpoint assoc {A : Type} (key : string) (l : list (string * A)) : option A :=
  match l with
  | [] => None
  | (k, v) :: rest => if String.eqb k key then Some v else assoc key rest
  end.

(** [p] is [l] or lies below [l]: the rest of [p] after [l]. *)
Definition below (l p : string) : option string :=
  if String.prefix l p then
    let rest := Str.substr (String.length l) p in
    match rest with
    | EmptyString => Some rest
    | String c _ => if Ascii.eqb c "/" then Some rest else None
    end
  else None.

Fixpoint followLink (ls : list (string * string)) (p : string) : option string :=
  match ls with
  | [] => None
  | (l, target) :: rest =>
      match below l p with
      | Some tail => Some (target +:+ tail)
      | None => followLink rest p
      end
  end.

(** The real path of [p]: links are followed until none applies. *)
Fixpoint resolve (fuel : nat) (d : Disk) (p : string) : string :=
  match fuel with
  | O => p
  | S fuel' =>
      match followLink (links d) p with
      | Some q => resolve fuel' d q
      | None => p
      end
  end.

Definition real (d : Disk) (p : string) : string :=
  resolve (String.length p + length (links d)) d p.

Definition ENOENT : Error := {| code := "ENOENT" |}.

Definition readdir (d : Disk) (p : string) : IOResult (list string) :=
  let r := real d p in
  match assoc r (locked d) with
  | Some c => IOErr {| code := c |}
  | None =>
      match assoc r (folders d) with
      | Some entries => IOOk entries
      | None =>
          if existsb (String.eqb r) (files d)
          then IOErr {| code := ENOTDIR |} else IOErr ENOENT
      end
  end.

Definition exists_ (d : Disk) (r : string) : bool :=
  existsb (String.eqb r) (files d) ||
  match assoc r (folders d) with Some _ => true | None => false end.

Definition stat (d : Disk) (p : string) : IOResult bool :=
  let r := real d p in
  match assoc r (folders d) with
  | Some _ => IOOk true
  | None => if existsb (String.eqb r) (files d) then IOOk false else IOErr ENOENT
  end.

(** [lstat] follows the links of the parent folders only. *)
Definition lstat (d : Disk) (p : string) : IOResult bool :=
  let q :=
    match splitLast p with
    | Some (parent, name) => real d parent +:+ "/" +:+ name
    | None => p
    end in
  match assoc q (links d) with
  | Some _ => IOOk true
  | None => if exists_ d q then IOOk false else IOErr ENOENT
  end.

Definition realpath (d : Disk) (p : string) : IOResult string :=
  let r := real d p in
  if exists_ d r then IOOk r else IOErr ENOENT.

(** Does [needle] occur in [s]? *)
Definition occursIn (needle s : string) : bool := Str.contains needle s.

(** An environment for the disk [d] in which nothing is excluded by a glob
    and a pattern matches the words that contain it; [listing] is what the
    native command prints. *)
Definition env (d : Disk) (listing : string -> list string) : Env :=
  {| platform := linux;
     sep := "/";
     isAbsolute := String.prefix "/";
     FileWalker.join := join;
     FileWalker.basename := basename;
     FileWalker.dirname := dirname;
     normalizeNFC := fun s => s;
     FileWalker.readdir := readdir d;
     FileWalker.stat := stat d;
     FileWalker.lstat := lstat d;
     FileWalker.realpath := realpath d;
     glob_match := fun _ _ _ => false;
     matchesFuzzy := fun pat word _ =>
       if occursIn pat word then Some [(0, String.length pat)] else None;
     nativeLines := listing |}.

Definition noListing : string -> list string := fun _ => [].

Definition plain (maxResults : option nat) (portable : bool) : IRawSearch :=
  {| cfg_filePattern := None;
     cfg_excludePattern := None;
     cfg_includePattern := None;
     cfg_maxResults := maxResults;
     cfg_matchFuzzy := false;
     cfg_disableFastFileLookup := portable |}.

Definition withPattern (pat : string) (c : IRawSearch) : IRawSearch :=
  {| cfg_filePattern := Some pat;
     cfg_excludePattern := cfg_excludePattern c;
     cfg_includePattern := cfg_includePattern c;
     cfg_maxResults := cfg_maxResults c;
     cfg_matchFuzzy := cfg_matchFuzzy c;
     cfg_disableFastFileLookup := cfg_disableFastFileLookup c |}.

(** /proj holds the file a.txt and the folder src with b.txt. *)
Definition projDisk : Disk :=
  {| folders := [("/proj", ["a.txt"; "src"]); ("/proj/src", ["b.txt"])];
     files := ["/proj/a.txt"; "/proj/src/b.txt"];
     links := [];
     locked := [] |}.

(** /r holds the file f and the link l, which points back to /r. *)
Definition loopDisk : Disk :=
  {| folders := [("/r", ["f"; "l"])];
     files := ["/r/f"];
     links := [("/r/l", "/r")];
     locked := [] |}.


(** [projDisk] with two more files of the same name elsewhere. *)
Definition rootsDisk : Disk :=
  {| folders := folders projDisk;
     files := "/x/src/b.txt" :: "/y/src/b.txt" :: files projDisk;
     links := [];
     locked := [] |}.

End Posix.

(** ** The embedded JavaScript mode *)

Module JavaScriptMode.

(** *** Documents, positions and ranges *)

Record Position := { line : nat; character : nat }.

Record Range := { range_start : Position; range_end : Position }.

Record TextDocument := {
  uri : string;
  languageId : string;
  version : nat;
  getText : string
}.

Definition CR : ascii := Ascii.ascii_of_nat 13.
Definition LF : ascii := Ascii.ascii_of_nat 10.

(** Modelled from the spec: [TextDocument] comes from the language server's
    text document library, which is not under src.  The spec describes the
    editor coordinates as line/character based and the engine coordinates as
    offsets into the text of one snapshot.  A line ends with a line feed, a
    carriage return, or a carriage return followed by a line feed;
    [lineOffsetsFrom i text] lists the offsets at which the lines after the
    first one start, for a text that itself starts at offset [i]. *)
Fixpoint lineOffsetsFrom (i : nat) (text : string) : list nat :=
  match text with
  | EmptyString => []
  | String c rest =>
      if Ascii.eqb c CR then
        match rest with
        | String d rest' =>
            if Ascii.eqb d LF then (i + 2) :: lineOffsetsFrom (i + 2) rest'
            else (i + 1) :: lineOffsetsFrom (i + 1) rest
        | EmptyString => [i + 1]
        end
      else if Ascii.eqb c LF then (i + 1) :: lineOffsetsFrom (i + 1) rest
      else lineOffsetsFrom (i + 1) rest
  end.

Definition getLineOffsets (d : TextDocument) : list nat :=
  0 :: lineOffsetsFrom 0 (getText d).

(** The index of the last line that starts at or before [offset], counting
    from [line] for the lines in [starts]. *)
Fixpoint lineAt (starts : list nat) (offset line : nat) : nat :=
  match starts with
  | o :: rest => if Nat.leb o offset then lineAt rest offset (S line) else line
  | [] => line
  end.

(** Modelled from the spec: [document.positionAt(offset)].  An offset past
    the end of the text is taken as the end of the text. *)
Definition positionAt (d : TextDocument) (offset : nat) : Position :=
  let offset := Nat.min offset (String.length (getText d)) in
  let l := lineAt (lineOffsetsFrom 0 (getText d)) offset 0 in
  {| line := l; character := offset - nth l (getLineOffsets d) 0 |}.

(** Modelled from the spec: [document.offsetAt(position)].  A line past the
    last one gives the end of the text, a character past the end of its line
    gives the end of the line. *)
Definition offsetAt (d : TextDocument) (p : Position) : nat :=
  let lineOffsets := getLineOffsets d in
  match lineOffsets !! line p with
  | None => String.length (getText d)
  | Some lineOffset =>
      let nextLineOffset :=
        match lineOffsets !! S (line p) with
        | Some o => o
        | None => String.length (getText d)
        end in
      Nat.max (Nat.min (lineOffset + character p) nextLineOffset) lineOffset
  end.

(** A span as [convertRange] takes it: [{ start: number | undefined,
    length: number | undefined }]. *)
Record Span := { start : option nat; length : option nat }.

(** [span.length || 0] *)
Definition orZero (n : option nat) : nat :=
  match n with
  | Some n => n
  | None => 0
  end.

Definition convertRange (document : TextDocument) (span : Span) : Range :=
  match start span with
  | None =>
      let pos := positionAt document 0 in
      {| range_start := pos; range_end := pos |}
  | Some st =>
      {| range_start := positionAt document st;
         range_end := positionAt document (st + orZero (length span)) |}
  end.

(** *** The engine and its host *)

Inductive ScriptKind := JS | TS.

Record WorkspaceFolder := { folder_name : string; folder_uri : string }.

Record Workspace := { folders : list WorkspaceFolder }.

(** A promise that has settled. *)
Inductive Promise (A : Type) :=
| Fulfilled (a : A)
| Rejected (reason : string).
Arguments Fulfilled {A} a.
Arguments Rejected {A} reason.

(** The state that [getLanguageServiceHost] closes over.  [engine] numbers
    the instance created by [ts.createLanguageService]; [loads] counts the
    times the adapter has imported the engine library. *)
Record Host := {
  scriptKind : ScriptKind;
  experimentalDecorators : bool;
  currentTextDocument : TextDocument;
  currentWorkspace : option Workspace;
  jsLanguageService : Promise nat;
  loads : nat
}.

Record DocumentSpan := { fileName : string; textSpan : Span }.

Record CompletionEntryDetails := {
  displayParts : list string;
  documentation_parts : list string
}.

(** [ts.NavigationBarItem].  The engine gives every item at least one span;
    [span0] is [item.spans[0]]. *)
#[warnings="-register-all"]
Inductive NavigationBarItem :=
| NavItem (text kind : string) (span0 : Span) (childItems : list NavigationBarItem).

Definition itemText (i : NavigationBarItem) : string :=
  match i with NavItem t _ _ _ => t end.
Definition itemKind (i : NavigationBarItem) : string :=
  match i with NavItem _ k _ _ => k end.
Definition itemSpan (i : NavigationBarItem) : Span :=
  match i with NavItem _ _ s _ => s end.
Definition itemChildren (i : NavigationBarItem) : list NavigationBarItem :=
  match i with NavItem _ _ _ c => c end.

(** What the mode imports: node's [path] and [process], the document cache
    ([jsDocuments.get]), and the queries of the TypeScript engine.  The engine
    reads its files through the host, so its answers depend on the state of
    the host. *)
Record Env := {
  normalize : string -> string;
  sep : ascii;
  win32 : bool;
  getEmbeddedDocument : TextDocument -> TextDocument;
  getCompletionEntryDetails :
    Host -> string -> nat -> string -> option CompletionEntryDetails;
  getNavigationBarItems : Host -> string -> option (list NavigationBarItem);
  getDefinitionAtPosition : Host -> string -> nat -> option (list DocumentSpan);
  getReferencesAtPosition : Host -> string -> nat -> option (list DocumentSpan)
}.

(** How an [async] operation ends. *)
Inductive Outcome (A : Type) :=
| Returned (a : A)
| Threw (error : string).
Arguments Returned {A} a.
Arguments Threw {A} error.

Section Mode.

Context (env : Env).

Definition deschemeURI (uri : string) : string :=
  if negb (Str.startsWith "file://" uri) then uri
  else
    let newPath := normalize env (Str.replaceFirst "file://" "" uri) in
    let newPath := Str.replaceAllChar (sep env) "/" newPath in
    if negb (win32 env) then newPath
    else Str.replaceFirst "%3A" ":" (Str.substr 1 newPath).

(** [getLanguageServiceHost(scriptKind)]: the import of the engine library is
    started here, once; [imported] tells whether it succeeds, and [engine] is
    the instance [ts.createLanguageService] then returns. *)
Definition getLanguageServiceHost (kind : ScriptKind) (imported : bool)
    (engine : nat) : Host :=
  {| scriptKind := kind;
     experimentalDecorators := false;
     currentTextDocument :=
       {| uri := "init"; languageId := "javascript"; version := 1;
          getText := "" |};
     currentWorkspace := None;
     jsLanguageService :=
       if imported then Fulfilled engine
       else Rejected "Cannot find module './javascriptLibs'";
     loads := 1 |}.

(** [host.getLanguageService(jsDocument, workspace)] *)
Definition getLanguageService (jsDocument : TextDocument) (workspace : Workspace)
    (h : Host) : Host * Promise nat :=
  ({| scriptKind := scriptKind h;
      experimentalDecorators := experimentalDecorators h;
      currentTextDocument := jsDocument;
      currentWorkspace := Some workspace;
      jsLanguageService := jsLanguageService h;
      loads := loads h |},
   jsLanguageService h).

(** The callbacks of [ts.LanguageServiceHost] through which the engine reads
    the current document. *)
Definition getScriptFileNames (h : Host) : list string :=
  [deschemeURI (uri (currentTextDocument h)); "jquery"].

Definition getScriptVersion (h : Host) (fileName : string) : string :=
  if String.eqb fileName (deschemeURI (uri (currentTextDocument h)))
  then Str.ofNat (version (currentTextDocument h))
  else "1".

(** [getScriptSnapshot(fileName).getText(0, length)] for the current
    document; other files are read from disk or from the library snapshot. *)
Definition getScriptSnapshot (h : Host) (fileName : string) : option string :=
  if String.eqb fileName (deschemeURI (uri (currentTextDocument h)))
  then Some (getText (currentTextDocument h))
  else None.

(** *** The operations of the mode *)

Record ItemData := {
  data_languageId : string;
  data_uri : string;
  data_offset : nat
}.

Record CompletionItem := {
  label : string;
  detail : option string;
  documentation : option string;
  data : option ItemData
}.

(** [ts.displayPartsToString] *)
Definition displayPartsToString (parts : list string) : string :=
  fold_right String.append "" parts.

(** [doResolve(document, item)].  The item is changed in place in the source;
    here the changed item is returned.  Reading [item.data.offset] of an item
    without [data] throws a [TypeError]. *)
Definition doResolve (workspace : Workspace) (document : TextDocument)
    (item : CompletionItem) (h : Host) : Host * Outcome CompletionItem :=
  let jsDocument := getEmbeddedDocument env document in
  let (h1, service) := getLanguageService jsDocument workspace h in
  match service with
  | Rejected reason => (h1, Threw reason)
  | Fulfilled _ =>
      let filePath := deschemeURI (uri jsDocument) in
      match data item with
      | None => (h1, Threw "TypeError")
      | Some d =>
          match getCompletionEntryDetails env h1 filePath (data_offset d)
                  (label item) with
          | Some details =>
              (h1, Returned
                     {| label := label item;
                        detail := Some (displayPartsToString (displayParts details));
                        documentation :=
                          Some (displayPartsToString (documentation_parts details));
                        data := None |})
          | None => (h1, Returned item)
          end
      end
  end.

Inductive SymbolKind :=
| SkVariable | SkFunction | SkEnum | SkModule | SkClass | SkInterface
| SkMethod | SkProperty.

Definition convertSymbolKind (kind : string) : SymbolKind :=
  if String.eqb kind "var" || String.eqb kind "local var"
     || String.eqb kind "const" then SkVariable
  else if String.eqb kind "function" || String.eqb kind "local function"
  then SkFunction
  else if String.eqb kind "enum" then SkEnum
  else if String.eqb kind "module" then SkModule
  else if String.eqb kind "class" then SkClass
  else if String.eqb kind "interface" then SkInterface
  else if String.eqb kind "method" then SkMethod
  else if String.eqb kind "property" || String.eqb kind "getter"
          || String.eqb kind "setter" then SkProperty
  else SkVariable.

Record Location := { loc_uri : string; loc_range : Range }.

Record SymbolInformation := {
  name : string;
  kind : SymbolKind;
  location : Location;
  containerName : option string
}.

(** [String(start)] inside the string concatenation of the signature. *)
Definition startToString (st : option nat) : string :=
  match st with
  | Some n => Str.ofNat n
  | None => "undefined"
  end.

(** [item.text + item.kind + item.spans[0].start] *)
Definition signature (item : NavigationBarItem) : string :=
  itemText item +:+ itemKind item +:+ startToString (start (itemSpan item)).

(** The [result] array and the [existing] object of [findDocumentSymbols]. *)
Record Symbols := {
  result : list SymbolInformation;
  existing : gset string
}.

(** The closure [collectSymbols(item, containerLabel)]. *)
Fixpoint collectSymbols (document jsDocument : TextDocument)
    (item : NavigationBarItem) (containerLabel : option string) (st : Symbols)
  : Symbols :=
  let sig := signature item in
  let fresh :=
    negb (String.eqb (itemKind item) "script")
    && negb (bool_decide (sig ∈ existing st)) in
  let st1 :=
    if fresh then
      {| result :=
           result st ++
           [{| name := itemText item;
               kind := convertSymbolKind (itemKind item);
               location :=
                 {| loc_uri := uri document;
                    loc_range := convertRange jsDocument (itemSpan item) |};
               containerName := containerLabel |}];
         existing := {[sig]} ∪ existing st |}
    else st in
  let containerLabel1 :=
    if fresh then Some (itemText item) else containerLabel in
  match item with
  | NavItem _ _ _ children =>
      fold_left
        (fun st child =>
           collectSymbols document jsDocument child containerLabel1 st)
        children st1
  end.

(** [items.forEach(item => collectSymbols(item))] *)
Definition collectAll (document jsDocument : TextDocument)
    (containerLabel : option string) (items : list NavigationBarItem)
    (st : Symbols) : Symbols :=
  fold_left
    (fun st item => collectSymbols document jsDocument item containerLabel st)
    items st.

Definition findDocumentSymbols (workspace : Workspace) (document : TextDocument)
    (h : Host) : Host * Outcome (list SymbolInformation) :=
  let jsDocument := getEmbeddedDocument env document in
  let (h1, service) := getLanguageService jsDocument workspace h in
  match service with
  | Rejected reason => (h1, Threw reason)
  | Fulfilled _ =>
      let filePath := deschemeURI (uri jsDocument) in
      match getNavigationBarItems env h1 filePath with
      | Some items =>
          (h1, Returned
                 (result (collectAll document jsDocument None items
                            {| result := []; existing := ∅ |})))
      | None => (h1, Returned [])
      end
  end.

Definition toLocation (document jsDocument : TextDocument) (d : DocumentSpan)
  : Location :=
  {| loc_uri := uri document;
     loc_range := convertRange jsDocument (textSpan d) |}.

(** [findDefinition]; [None] is the [null] it returns without a definition. *)
Definition findDefinition (workspace : Workspace) (document : TextDocument)
    (position : Position) (h : Host) : Host * Outcome (option (list Location)) :=
  let jsDocument := getEmbeddedDocument env document in
  let (h1, service) := getLanguageService jsDocument workspace h in
  match service with
  | Rejected reason => (h1, Threw reason)
  | Fulfilled _ =>
      let filePath := deschemeURI (uri jsDocument) in
      match getDefinitionAtPosition env h1 filePath
              (offsetAt jsDocument position) with
      | Some definition =>
          (h1, Returned
                 (Some (map (toLocation document jsDocument)
                          (List.filter
                             (fun d => String.eqb (fileName d) (uri jsDocument))
                             definition))))
      | None => (h1, Returned None)
      end
  end.

Definition findReferences (workspace : Workspace) (document : TextDocument)
    (position : Position) (h : Host) : Host * Outcome (list Location) :=
  let jsDocument := getEmbeddedDocument env document in
  let (h1, service) := getLanguageService jsDocument workspace h in
  match service with
  | Rejected reason => (h1, Threw reason)
  | Fulfilled _ =>
      let filePath := deschemeURI (uri jsDocument) in
      match getReferencesAtPosition env h1 filePath
              (offsetAt jsDocument position) with
      | Some references =>
          (h1, Returned
                 (map (toLocation document jsDocument)
                    (List.filter (fun d => String.eqb (fileName d) filePath)
                       references)))
      | None => (h1, Returned [])
      end
  end.

(** *** [findDocumentSymbols], as the spec words it

    The items of the navigation tree are taken in document order.  An item
    yields a symbol when it is not a script and no symbol with its signature,
    the triple of its name, its kind and its start offset, has been yielded
    before; the container of the symbol is the nearest enclosing item that
    yielded a symbol.  An item is addressed by the path of child indices that
    leads to it, innermost index first. *)

Definition eachChild {A : Type} (f : nat -> NavigationBarItem -> list A)
  : list NavigationBarItem -> nat -> list A :=
  fix each (children : list NavigationBarItem) (i : nat) : list A :=
    match children with
    | [] => []
    | child :: rest => f i child ++ each rest (S i)
    end.

(** The items below and including [item], in document order, with their
    paths. *)
Fixpoint nodes (path : list nat) (item : NavigationBarItem)
  : list (list nat * NavigationBarItem) :=
  match item with
  | NavItem _ _ _ children =>
      (path, item) :: eachChild (fun i child => nodes (i :: path) child) children 0
  end.

Definition forestNodes (path : list nat) (items : list NavigationBarItem)
  : list (list nat * NavigationBarItem) :=
  eachChild (fun i child => nodes (i :: path) child) items 0.

(** The name of the nearest enclosing item that yielded a symbol. *)
Fixpoint nearest (yielded : gmap (list nat) string) (path : list nat)
  : option string :=
  match path with
  | [] => None
  | _ :: parent =>
      match yielded !! parent with
      | Some enclosing => Some enclosing
      | None => nearest yielded parent
      end
  end.

(** The signature of the spec: (name, kind, start-offset). *)
Definition Triple : Type := string * string * option nat.

Definition triple (item : NavigationBarItem) : Triple :=
  (itemText item, itemKind item, start (itemSpan item)).

Record Walk := {
  symbols : list SymbolInformation;
  signatures : gset Triple;
  yielded : gmap (list nat) string
}.

Definition symbolOf (document jsDocument : TextDocument)
    (item : NavigationBarItem) (container : option string) : SymbolInformation :=
  {| name := itemText item;
     kind := convertSymbolKind (itemKind item);
     location :=
       {| loc_uri := uri document;
          loc_range := convertRange jsDocument (itemSpan item) |};
     containerName := container |}.

Definition yields (item : NavigationBarItem) (seen : gset Triple) : bool :=
  negb (String.eqb (itemKind item) "script")
  && negb (bool_decide (triple item ∈ seen)).

Definition visit (document jsDocument : TextDocument) (w : Walk)
    (node : list nat * NavigationBarItem) : Walk :=
  let (path, item) := node in
  if yields item (signatures w) then
    {| symbols :=
         symbols w ++
         [symbolOf document jsDocument item (nearest (yielded w) path)];
       signatures := {[triple item]} ∪ signatures w;
       yielded := <[path := itemText item]> (yielded w) |}
  else w.

Definition symbolsSpec (document jsDocument : TextDocument)
    (items : list NavigationBarItem) : list SymbolInformation :=
  symbols
    (fold_left (visit document jsDocument) (forestNodes [] items)
       {| symbols := []; signatures := ∅; yielded := ∅ |}).

(** The promises returned by a series of [getLanguageService] calls, oldest
    first, and the host after them. *)
Definition requests (calls : list (TextDocument * Workspace)) (h : Host)
  : Host * list (Promise nat) :=
  fold_left
    (fun acc call =>
       let (h1, p) := getLanguageService (fst call) (snd call) (fst acc) in
       (h1, snd acc ++ [p]))
    calls (h, []).

End Mode.

End JavaScriptMode.

(** A small engine for running the mode on concrete inputs. *)
Module ModeExamples.

Import JavaScriptMode.

Definition script (text : string) : TextDocument :=
  {| uri := "file:///w/a.html"; languageId := "javascript"; version := 3;
     getText := text |}.

Definition span (st len : nat) : Span :=
  {| start := Some st; length := Some len |}.

Definition func (name : string) (st : nat) : NavigationBarItem :=
  NavItem name "function" (span st 20) [].

(** The navigation bar of a script with two functions [foo], as the engine
    reports it: the script with its members, then the members on their own. *)
Definition twoFoos : list NavigationBarItem :=
  [NavItem "<global>" "script" (span 0 60) [func "foo" 0; func "foo" 30];
   func "foo" 0; func "foo" 30].

Definition engine : Env :=
  {| normalize := fun p => p;
     sep := "/";
     win32 := false;
     getEmbeddedDocument := fun d => d;
     getCompletionEntryDetails := fun _ _ _ label =>
       if String.eqb label "log"
       then Some {| displayParts := ["(method) "; "log(): void"];
                    documentation_parts := ["Prints to the console."] |}
       else None;
     getNavigationBarItems := fun _ _ => Some twoFoos;
     getDefinitionAtPosition := fun _ _ _ =>
       Some [{| fileName := "file:///w/a.html"; textSpan := span 4 3 |};
             {| fileName := "/w/lib.d.ts"; textSpan := span 100 3 |}];
     getReferencesAtPosition := fun _ _ _ =>
       Some [{| fileName := "/w/a.html"; textSpan := span 4 3 |};
             {| fileName := "/w/other.js"; textSpan := span 7 3 |}] |}.

(** A navigation bar in which an item of another name and kind concatenates
    to the signature string of the second function [foo]. *)
Definition collision : list NavigationBarItem :=
  [func "foo" 0; NavItem "foofunction" "" (span 30 20) []; func "foo" 30].

Definition collisionEngine : Env :=
  {| normalize := normalize engine;
     sep := sep engine;
     win32 := win32 engine;
     getEmbeddedDocument := getEmbeddedDocument engine;
     getCompletionEntryDetails := getCompletionEntryDetails engine;
     getNavigationBarItems := fun _ _ => Some collision;
     getDefinitionAtPosition := getDefinitionAtPosition engine;
     getReferencesAtPosition := getReferencesAtPosition engine |}.

Definition emptyWorkspace : Workspace := {| folders := [] |}.

Definition host : Host := getLanguageServiceHost JS true 0.

Definition logItem : CompletionItem :=
  {| label := "log"; detail := None; documentation := None;
     data := Some {| data_languageId := "javascript";
                     data_uri := "file:///w/a.html"; data_offset := 8 |} |}.

End ModeExamples.

(** ** The search engine *)

Module SearchEngine.

Import FileWalker.

(** [Engine]: the root paths of the configuration and a walker. *)
Record Engine := {
  rootPaths : list string;
  engine_walker : World
}.

Section Engine.

Context (env : Env).

(** [new Engine(config)] *)
Definition newEngine (cfg : IRawSearch) (roots : list string) : Engine :=
  {| rootPaths := roots; engine_walker := fresh env cfg |}.

(** [engine.search(onResult, onProgress, done)] *)
Definition engine_search (e : Engine) : Engine :=
  {| rootPaths := rootPaths e;
     engine_walker := walk env (rootPaths e) (engine_walker e) |}.

(** [engine.cancel()] *)
Definition engine_cancel (e : Engine) : Engine :=
  {| rootPaths := rootPaths e; engine_walker := cancel (engine_walker e) |}.

(** The event loop runs callbacks of the engine's walker. *)
Definition engine_run (events : list Event) (e : Engine) : Engine :=
  {| rootPaths := rootPaths e; engine_walker := run env events (engine_walker e) |}.

End Engine.

End SearchEngine.

Module ModeOperations.

Import JavaScriptMode.

(** *** What the engine answers *)

Record CompletionEntry := {
  entry_name : string;
  entry_sortText : string;
  entry_kind : string
}.

Record SignatureHelpParameter := {
  param_displayParts : list string;
  param_documentation : list string
}.

Record SignatureHelpItem := {
  prefixDisplayParts : list string;
  separatorDisplayParts : list string;
  suffixDisplayParts : list string;
  parameters : list SignatureHelpParameter
}.

Record SignatureHelpItems := {
  items : list SignatureHelpItem;
  selectedItemIndex : nat;
  argumentIndex : nat
}.

(** The further imports of the mode: two more queries of the engine, and
    [getWordAtText] (called with [JS_WORD_REGEX]) and [repeat] of
    [../utils/strings]. *)
Record Services := {
  getCompletionsAtPosition :
    Host -> string -> nat -> option (list CompletionEntry);
  getSignatureHelpItems : Host -> string -> nat -> option SignatureHelpItems;
  getWordAtText : string -> nat -> Span;
  repeat : string -> nat -> string
}.

(** *** What the mode answers *)

Inductive CompletionItemKind :=
| CkKeyword | CkVariable | CkField | CkFunction | CkEnum | CkModule | CkClass
| CkInterface | CkFile | CkProperty.

Record TextEdit := { edit_range : Range; newText : string }.

(** An item of [doComplete].  [base] holds the fields that [doResolve] reads
    and writes; the others are carried along. *)
Record CompletedItem := {
  item_uri : string;
  item_position : Position;
  item_sortText : string;
  item_kind : CompletionItemKind;
  item_textEdit : TextEdit;
  base : CompletionItem
}.

Record CompletionList := { isIncomplete : bool; list_items : list CompletedItem }.

Record ParameterInformation := { pi_label : string; pi_documentation : string }.

Record SignatureInformation := {
  si_label : string;
  si_documentation : option string;
  si_parameters : list ParameterInformation
}.

Record SignatureHelp := {
  activeSignature : nat;
  activeParameter : nat;
  signatures : list SignatureInformation
}.

Record FormattingOptions := { tabSize : nat; insertSpaces : bool }.

Definition TAB : ascii := Ascii.ascii_of_nat 9.

Definition convertKind (kind : string) : CompletionItemKind :=
  if String.eqb kind "primitive type" || String.eqb kind "keyword" then CkKeyword
  else if String.eqb kind "var" || String.eqb kind "local var" then CkVariable
  else if String.eqb kind "property" || String.eqb kind "getter"
          || String.eqb kind "setter" then CkField
  else if String.eqb kind "function" || String.eqb kind "method"
          || String.eqb kind "construct" || String.eqb kind "call"
          || String.eqb kind "index" then CkFunction
  else if String.eqb kind "enum" then CkEnum
  else if String.eqb kind "module" then CkModule
  else if String.eqb kind "class" then CkClass
  else if String.eqb kind "interface" then CkInterface
  else if String.eqb kind "warning" then CkFile
  else CkProperty.

Section Operations.

Context (env : Env) (services : Services) (languageId : string).

(** [getCurrentDirectory] of the host: the first folder of the workspace whose
    path starts the path of the current document.  Before the first call of
    [getLanguageService] there is no workspace. *)
Definition getCurrentDirectory (h : Host) : string :=
  match currentWorkspace h with
  | None => ""
  | Some workspace =>
      match
        List.find
          (fun ws =>
             Str.startsWith (deschemeURI env (folder_uri ws))
               (deschemeURI env (uri (currentTextDocument h))))
          (folders workspace)
      with
      | Some ws => deschemeURI env (folder_uri ws)
      | None => ""
      end
  end.

Definition doComplete (workspace : Workspace) (document : TextDocument)
    (position : Position) (h : Host) : Host * Outcome CompletionList :=
  let jsDocument := getEmbeddedDocument env document in
  let (h1, service) := getLanguageService jsDocument workspace h in
  match service with
  | Rejected reason => (h1, Threw reason)
  | Fulfilled _ =>
      let filePath := deschemeURI env (uri jsDocument) in
      let offset := offsetAt jsDocument position in
      match getCompletionsAtPosition services h1 filePath offset with
      | None => (h1, Returned {| isIncomplete := false; list_items := [] |})
      | Some entries =>
          let replaceRange :=
            convertRange jsDocument
              (getWordAtText services (getText jsDocument) offset) in
          (h1, Returned
                 {| isIncomplete := false;
                    list_items :=
                      map
                        (fun entry =>
                           {| item_uri := uri document;
                              item_position := position;
                              item_sortText := entry_sortText entry;
                              item_kind := convertKind (entry_kind entry);
                              item_textEdit :=
                                {| edit_range := replaceRange;
                                   newText := entry_name entry |};
                              base :=
                                {| label := entry_name entry;
                                   detail := None;
                                   documentation := None;
                                   data :=
                                     Some {| data_languageId := languageId;
                                             data_uri := uri document;
                                             data_offset := offset |} |} |})
                        entries |})
      end
  end.

(** The body of [item.parameters.forEach((p, i, a) => ...)], from index [i]
    on; [n] is [a.length]. *)
Fixpoint eachParameter (separator : list string) (n : nat)
    (ps : list SignatureHelpParameter) (i : nat) (signature : SignatureInformation)
  : SignatureInformation :=
  match ps with
  | [] => signature
  | p :: rest =>
      let label := displayPartsToString (param_displayParts p) in
      let parameter :=
        {| pi_label := label;
           pi_documentation := displayPartsToString (param_documentation p) |} in
      let signature :=
        {| si_label := si_label signature +:+ label;
           si_documentation := si_documentation signature;
           si_parameters := si_parameters signature ++ [parameter] |} in
      let signature :=
        if Nat.ltb i (n - 1) then
          {| si_label := si_label signature +:+ displayPartsToString separator;
             si_documentation := si_documentation signature;
             si_parameters := si_parameters signature |}
        else signature in
      eachParameter separator n rest (S i) signature
  end.

(** The body of [signHelp.items.forEach(item => ...)] up to the [push]. *)
Definition toSignature (item : SignatureHelpItem) : SignatureInformation :=
  let signature :=
    {| si_label := ""; si_documentation := None; si_parameters := [] |} in
  let signature :=
    {| si_label :=
         si_label signature +:+ displayPartsToString (prefixDisplayParts item);
       si_documentation := si_documentation signature;
       si_parameters := si_parameters signature |} in
  let signature :=
    eachParameter (separatorDisplayParts item)
      (List.length (parameters item)) (parameters item) 0 signature in
  {| si_label :=
       si_label signature +:+ displayPartsToString (suffixDisplayParts item);
     si_documentation := si_documentation signature;
     si_parameters := si_parameters signature |}.

Definition doSignatureHelp (workspace : Workspace) (document : TextDocument)
    (position : Position) (h : Host) : Host * Outcome (option SignatureHelp) :=
  let jsDocument := getEmbeddedDocument env document in
  let (h1, service) := getLanguageService jsDocument workspace h in
  match service with
  | Rejected reason => (h1, Threw reason)
  | Fulfilled _ =>
      let filePath := deschemeURI env (uri jsDocument) in
      match getSignatureHelpItems services h1 filePath
              (offsetAt jsDocument position) with
      | Some signHelp =>
          (h1, Returned
                 (Some
                    {| activeSignature := selectedItemIndex signHelp;
                       activeParameter := argumentIndex signHelp;
                       signatures :=
                         fold_left (fun ret item => ret ++ [toSignature item])
                           (items signHelp) [] |}))
      | None => (h1, Returned None)
      end
  end.

(** The loop of [computeInitialIndent] over the text from [lineStart] on. *)
Fixpoint countIndent (tabSize : nat) (content : string) (nChars : nat) : nat :=
  match content with
  | String ch rest =>
      if Ascii.eqb ch " " then countIndent tabSize rest (S nChars)
      else if Ascii.eqb ch TAB then countIndent tabSize rest (nChars + tabSize)
      else nChars
  | EmptyString => nChars
  end.

Definition computeInitialIndent (document : TextDocument) (range : Range)
    (options : FormattingOptions) : nat :=
  let lineStart :=
    offsetAt document {| line := line (range_start range); character := 0 |} in
  let content := getText document in
  let tabSize := if Nat.eqb (tabSize options) 0 then 4 else tabSize options in
  countIndent tabSize (Str.substr lineStart content) 0 / tabSize.

Definition generateIndent (level : nat) (options : FormattingOptions) : string :=
  if insertSpaces options then repeat services " " (level * tabSize options)
  else repeat services (String TAB "") level.

End Operations.

(** [n] times the text [s]. *)
Fixpoint times (n : nat) (s : string) : string :=
  match n with
  | O => ""
  | S n' => s +:+ times n' s
  end.

(** Whether a text contains a character. *)
Fixpoint hasChar (c : ascii) (s : string) : bool :=
  match s with
  | EmptyString => false
  | String d s' => Ascii.eqb d c || hasChar c s'
  end.

(** Whether a text starts with a space or a tab. *)
Definition startsBlank (s : string) : bool :=
  match s with
  | String ch _ => Ascii.eqb ch " " || Ascii.eqb ch TAB
  | EmptyString => false
  end.

End ModeOperations.

(** Answers of the engine for running these operations on concrete inputs. *)
Module OperationExamples.

Import JavaScriptMode ModeOperations.

Definition logSignature : SignatureHelpItem :=
  {| prefixDisplayParts := ["log"; "("];
     separatorDisplayParts := [","; " "];
     suffixDisplayParts := [")"; ": void"];
     parameters :=
       [{| param_displayParts := ["message"; ": any"];
           param_documentation := ["The text."] |};
        {| param_displayParts := ["..."; "rest"; ": any[]"];
           param_documentation := [] |}] |}.

Definition services : Services :=
  {| getCompletionsAtPosition := fun _ _ _ =>
       Some [{| entry_name := "log"; entry_sortText := "0";
                entry_kind := "method" |};
             {| entry_name := "length"; entry_sortText := "1";
                entry_kind := "property" |}];
     getSignatureHelpItems := fun _ _ _ =>
       Some {| items := [logSignature]; selectedItemIndex := 0;
               argumentIndex := 1 |};
     getWordAtText := fun _ offset =>
       {| start := Some offset; length := Some 0 |};
     repeat := fun s n => times n s |}.

(** A document whose second line is indented by two tabs. *)
Definition indented : TextDocument :=
  {| uri := "file:///w/a.html"; languageId := "javascript"; version := 1;
     getText :=
       String "{" (String LF (String TAB (String TAB "x = 1;"))) |}.

(** A Windows machine. *)
Definition windows : Env :=
  {| normalize := fun p => Str.replaceAllChar "/" "\" p;
     sep := "\";
     win32 := true;
     getEmbeddedDocument := fun d => d;
     getCompletionEntryDetails := fun _ _ _ _ => None;
     getNavigationBarItems := fun _ _ => None;
     getDefinitionAtPosition := fun _ _ _ => None;
     getReferencesAtPosition := fun _ _ _ => None |}.

End OperationExamples.

Module GitEditorDefs.

(** What [handle] does that others can see: the calls on [workspace],
    [window] and [workspace.fs], the disposal of its listener, and the call
    [c(true)] that resolves the promise it returned. *)
Inductive Call :=
| OpenTextDocument (uri : string)
| ShowTextDocument (uri : string)
| ListenToVisibleTextEditors
| Dispose
| ReadFile (uri : string)
| WriteFile (path content : string)
| Delete (uri : string)
| Resolve.

(** How [handle] stands: it has returned [undefined]; its promise is
    rejected, one of the calls it awaits having failed; it has returned the
    promise and listens for the editor to go away; the listener has failed,
    which leaves the promise pending for good; or the promise is resolved. *)
Inductive Handling :=
| ReturnedUndefined
| Rejected
| Listening (uri commitMessagePath : string)
| Stuck
| Finished.

Record Request := {
  handling : Handling;
  calls : list Call
}.

(** [`gitcommit://${id}/${commitMessagePath}`] *)
Definition commitUri (id commitMessagePath : string) : string :=
  "gitcommit://" +:+ id +:+ "/" +:+ commitMessagePath.

(** [handle({ commitMessagePath })]: [id] is what [uuid()] returns, [opens]
    and [shows] tell whether [openTextDocument] and [showTextDocument]
    succeed. *)
Definition handle (commitMessagePath : option string) (id : string)
    (opens shows : bool) : Request :=
  match commitMessagePath with
  | None => {| handling := ReturnedUndefined; calls := [] |}
  | Some path =>
      if String.eqb path "" then {| handling := ReturnedUndefined; calls := [] |}
      else
        let uri := commitUri id path in
        if negb opens
        then {| handling := Rejected; calls := [OpenTextDocument uri] |}
        else if negb shows
        then {| handling := Rejected;
                calls := [OpenTextDocument uri; ShowTextDocument uri] |}
        else {| handling := Listening uri path;
                calls := [OpenTextDocument uri; ShowTextDocument uri;
                          ListenToVisibleTextEditors] |}
  end.

(** The visible editors change to those showing the documents [editors];
    [content] is what reading the document of the commit message gives then
    ([None]: the read fails), [writes] and [deletes] tell whether
    [writeFile] and [delete] succeed. *)
Record Change := {
  editors : list string;
  content : option string;
  writes : bool;
  deletes : bool
}.

(** The listener of [window.onDidChangeVisibleTextEditors]. *)
Definition onDidChange (change : Change) (r : Request) : Request :=
  match handling r with
  | Listening uri path =>
      if existsb (String.eqb uri) (editors change) then r
      else
        let calls := calls r ++ [Dispose; ReadFile uri] in
        match content change with
        | None => {| handling := Stuck; calls := calls |}
        | Some text =>
            let calls := calls ++ [WriteFile path text] in
            if negb (writes change) then {| handling := Stuck; calls := calls |}
            else
              let calls := calls ++ [Delete uri] in
              if negb (deletes change)
              then {| handling := Stuck; calls := calls |}
              else {| handling := Finished; calls := calls ++ [Resolve] |}
        end
  | _ => r
  end.

Definition run (changes : list Change) (r : Request) : Request :=
  fold_left (fun r change => onDidChange change r) changes r.

(** The number of times a call was made. *)
Definition count (p : Call -> bool) (r : Request) : nat :=
  List.length (List.filter p (calls r)).

Definition isWrite (c : Call) : bool :=
  match c with WriteFile _ _ => true | _ => false end.

Definition isResolve (c : Call) : bool :=
  match c with Resolve => true | _ => false end.

End GitEditorDefs.

Module WorkspaceTrust.

(** *** The request handler *)

Record Button := { button_label : string; button_type : string }.

(** [WorkspaceTrustRequestOptions]; [message] and [buttons] may be missing. *)
Record WorkspaceTrustRequestOptions := {
  modal : bool;
  message : option string;
  buttons : option (list Button)
}.

(** The calls the handler makes on the dialog, request, command and storage
    services. *)
Inductive Call :=
| Show (severity title : string) (labels : list string) (cancelId : Z)
    (detail : option string)
| CompleteRequest (trusted : option bool)
| CancelRequest
| ExecuteCommand (id : string)
| Store (key : string) (value : bool).

(** What the handler awaits: the result of a dialog that is open, or the end
    of the command it has started. *)
Inductive Awaited :=
| Introduction
| TrustRequest (buttons : list Button)
| ManageFromIntroduction (checkboxChecked : bool)
| ManageFromRequest.

(** The handler: whether the badge is shown, [shouldShowIntroduction], the
    stored value of [workspace.trust.introduction.doNotShowAgain], what it
    awaits and the calls it has made, oldest first. *)
Record Handler := {
  badge : bool;
  shouldShowIntroduction : bool;
  doNotShowAgain : bool;
  awaited : list Awaited;
  calls : list Call
}.

Definition doNotShowAgainKey : string :=
  "workspace.trust.introduction.doNotShowAgain".

Definition newHandler (doNotShowAgain : bool) : Handler :=
  {| badge := false; shouldShowIntroduction := true;
     doNotShowAgain := doNotShowAgain; awaited := []; calls := [] |}.

Definition withBadge (b : bool) (h : Handler) : Handler :=
  {| badge := b; shouldShowIntroduction := shouldShowIntroduction h;
     doNotShowAgain := doNotShowAgain h; awaited := awaited h;
     calls := calls h |}.

Definition call (c : Call) (h : Handler) : Handler :=
  {| badge := badge h; shouldShowIntroduction := shouldShowIntroduction h;
     doNotShowAgain := doNotShowAgain h; awaited := awaited h;
     calls := calls h ++ [c] |}.

Definition await (a : Awaited) (h : Handler) : Handler :=
  {| badge := badge h; shouldShowIntroduction := shouldShowIntroduction h;
     doNotShowAgain := doNotShowAgain h; awaited := awaited h ++ [a];
     calls := calls h |}.

Definition resume (i : nat) (h : Handler) : Handler :=
  {| badge := badge h; shouldShowIntroduction := shouldShowIntroduction h;
     doNotShowAgain := doNotShowAgain h; awaited := delete i (awaited h);
     calls := calls h |}.

(** [storageService.store(key, true, ...)] *)
Definition store (h : Handler) : Handler :=
  call (Store doNotShowAgainKey true)
    {| badge := badge h; shouldShowIntroduction := shouldShowIntroduction h;
       doNotShowAgain := true; awaited := awaited h; calls := calls h |}.

(** [toggleRequestBadge(visible)], up to the point where the introduction
    dialog is open. *)
Definition toggleRequestBadge (visible : bool) (h : Handler) : Handler :=
  let h := withBadge false h in
  if visible then
    let h := withBadge true h in
    if negb (doNotShowAgain h) && shouldShowIntroduction h then
      await Introduction
        (call (Show "Info" "Introducing Workspace Trust" ["Manage"; "Close"] 1
                 None) h)
    else h
  else h.

(** [buttons.findIndex(b => b.type === 'Cancel')] *)
Fixpoint findCancel (buttons : list Button) (i : Z) : Z :=
  match buttons with
  | [] => (-1)%Z
  | b :: rest =>
      if String.eqb (button_type b) "Cancel" then i
      else findCancel rest (i + 1)%Z
  end.

Definition defaultMessage : string :=
  "A feature you are trying to use may be a security risk if you do not trust the source of the files or folders you currently have open.".

Definition defaultButtons : list Button :=
  [{| button_label := "Trust Workspace & Continue";
      button_type := "ContinueWithTrust" |};
   {| button_label := "Learn More"; button_type := "Manage" |}].

Definition LF : ascii := Ascii.ascii_of_nat 10.

(** [localize('immediateTrustRequestDetail', ..., message)] *)
Definition requestDetail (message : string) : string :=
  message +:+ String LF (String LF
    "You should only trust this workspace if you trust its source. Using an untrusted workspace may compromise your device or personal information.").

(** The buttons of the dialog: those of the request or the default ones, with
    a Cancel button pushed where there is none. *)
Definition dialogButtons (requestOptions : WorkspaceTrustRequestOptions)
  : list Button :=
  let buttons :=
    match buttons requestOptions with
    | Some buttons => buttons
    | None => defaultButtons
    end in
  if existsb (fun b => String.eqb (button_type b) "Cancel") buttons then buttons
  else buttons ++ [{| button_label := "Cancel"; button_type := "Cancel" |}].

(** The listener of [onDidInitiateWorkspaceTrustRequest], up to the point
    where the dialog is open.  The buttons are pushed onto the array of the
    request where it has one, so the request is returned as the listener
    leaves it. *)
Definition onDidInitiateWorkspaceTrustRequest
    (requestOptions : WorkspaceTrustRequestOptions) (h : Handler)
  : Handler * WorkspaceTrustRequestOptions :=
  let h := toggleRequestBadge true h in
  if modal requestOptions then
    let message :=
      match message requestOptions with
      | Some m => m
      | None => defaultMessage
      end in
    let buttons := dialogButtons requestOptions in
    (await (TrustRequest buttons)
       (call (Show "Warning" "Do you trust the files in this folder?"
                (map button_label buttons) (findCancel buttons 0)
                (Some (requestDetail message))) h),
     {| modal := modal requestOptions;
        message := WorkspaceTrust.message requestOptions;
        buttons :=
          match WorkspaceTrust.buttons requestOptions with
          | Some _ => Some buttons
          | None => None
          end |})
  else (h, requestOptions).

(** What happens on the event loop: a request is initiated, a request is
    completed, the trust changes, the five seconds after startup are over,
    a dialog is closed with a choice, or a command that was started ends. *)
Inductive Event :=
| Initiate (requestOptions : WorkspaceTrustRequestOptions)
| Completed (trusted : option bool)
| ChangeTrust (trusted : bool)
| Elapsed
| Answer (i : nat) (choice : nat) (checkboxChecked : bool)
| Settled (i : nat) (ok : bool).

(** The code after [await this.dialogService.show(...)]. *)
Definition answer (a : Awaited) (choice : nat) (checkboxChecked : bool)
    (h : Handler) : Handler :=
  match a with
  | Introduction =>
      match choice with
      | 0 =>
          await (ManageFromIntroduction checkboxChecked)
            (call (ExecuteCommand "workbench.trust.manage") (call CancelRequest h))
      | 1 =>
          let h := call (CompleteRequest None) h in
          if checkboxChecked then store h else h
      | _ => if checkboxChecked then store h else h
      end
  | TrustRequest buttons =>
      match buttons !! choice with
      | None => h
      | Some b =>
          if String.eqb (button_type b) "ContinueWithTrust"
          then call (CompleteRequest (Some true)) h
          else if String.eqb (button_type b) "ContinueWithoutTrust"
          then call (CompleteRequest None) h
          else if String.eqb (button_type b) "Manage"
          then await ManageFromRequest
                 (call (ExecuteCommand "workbench.trust.manage")
                    (call CancelRequest h))
          else if String.eqb (button_type b) "Cancel"
          then call CancelRequest h
          else h
      end
  | ManageFromIntroduction _ | ManageFromRequest => h
  end.

(** The code after [await this.commandService.executeCommand(...)]; nothing
    runs when the command fails. *)
Definition settled (a : Awaited) (ok : bool) (h : Handler) : Handler :=
  match a with
  | ManageFromIntroduction checkboxChecked =>
      if ok && checkboxChecked then store h else h
  | _ => h
  end.

Definition isDialog (a : Awaited) : bool :=
  match a with
  | Introduction | TrustRequest _ => true
  | ManageFromIntroduction _ | ManageFromRequest => false
  end.

Definition step (e : Event) (h : Handler) : Handler :=
  match e with
  | Initiate requestOptions =>
      fst (onDidInitiateWorkspaceTrustRequest requestOptions h)
  | Completed trusted =>
      match trusted with
      | Some true => toggleRequestBadge false h
      | _ => h
      end
  | ChangeTrust trusted => if trusted then toggleRequestBadge false h else h
  | Elapsed =>
      {| badge := badge h; shouldShowIntroduction := false;
         doNotShowAgain := doNotShowAgain h; awaited := awaited h;
         calls := calls h |}
  | Answer i choice checkboxChecked =>
      match awaited h !! i with
      | Some a =>
          if isDialog a then answer a choice checkboxChecked (resume i h) else h
      | None => h
      end
  | Settled i ok =>
      match awaited h !! i with
      | Some a => if isDialog a then h else settled a ok (resume i h)
      | None => h
      end
  end.

Definition run (events : list Event) (h : Handler) : Handler :=
  fold_left (fun h e => step e h) events h.

(** *** The telemetry *)

Inductive TelemetryEvent :=
| WorkspaceTrustFolderCounts (trustedFoldersCount untrustedFoldersCount : nat)
| WorkspaceTrustStateChanged (workspaceId : string) (isTrusted : bool)
| WorkspaceFolderDepthBelowTrustedFolder
    (workspaceFolderDepth trustedFolderDepth : nat) (delta : Z).

(** What the telemetry contribution reads: the setting, [resolve] and
    [dirname] of [vs/base/common/path], the workspace with the paths of its
    folders, and the trust storage service. *)
Record Env := {
  isWorkspaceTrustEnabled : bool;
  resolve : string -> string;
  dirname : string -> string;
  workspaceId : string;
  workspaceFolders : list string;
  getFolderTrustStateInfo : string -> bool * string;
  uriTrustInfo : list (string * bool)
}.

Section Telemetry.

Context (env : Env).

Definition logInitialWorkspaceTrustInfo : list TelemetryEvent :=
  if negb (isWorkspaceTrustEnabled env) then []
  else
    [WorkspaceTrustFolderCounts
       (List.length (List.filter (fun item => snd item) (uriTrustInfo env)))
       (List.length (List.filter (fun item => negb (snd item)) (uriTrustInfo env)))].

(** The loop of [getDepth]; [fuel] is what [depth] lacks to 100. *)
Fixpoint climb (fuel : nat) (resolvedPath : string) (depth : nat) : nat :=
  match fuel with
  | O => depth
  | S fuel' =>
      if negb (String.eqb (dirname env resolvedPath) resolvedPath)
      then climb fuel' (dirname env resolvedPath) (S depth)
      else depth
  end.

Definition getDepth (folder : string) : nat := climb 100 (resolve env folder) 0.

Definition logWorkspaceTrustChangeEvent (isTrusted : bool)
  : list TelemetryEvent :=
  if negb (isWorkspaceTrustEnabled env) then []
  else
    WorkspaceTrustStateChanged (workspaceId env) isTrusted ::
    (if isTrusted then
       flat_map
         (fun folder =>
            let (trusted, uri) := getFolderTrustStateInfo env folder in
            if negb trusted then []
            else
              let workspaceFolderDepth := getDepth folder in
              let trustedFolderDepth := getDepth uri in
              let delta :=
                (Z.of_nat workspaceFolderDepth - Z.of_nat trustedFolderDepth)%Z in
              [WorkspaceFolderDepthBelowTrustedFolder workspaceFolderDepth
                 trustedFolderDepth delta])
         (workspaceFolders env)
     else []).

End Telemetry.

(** The [j]th parent of a path. *)
Definition parent (env : Env) (j : nat) (path : string) : string :=
  Nat.iter j (dirname env) path.

(** A file system with slashes: the parent of a path is the path up to its
    last slash, and [/] is its own parent. *)
Fixpoint upToLastSlash (path : string) : option string :=
  match path with
  | EmptyString => None
  | String c rest =>
      match upToLastSlash rest with
      | Some p => Some (String c p)
      | None => if Ascii.eqb c "/" then Some "" else None
      end
  end.

Definition posixDirname (path : string) : string :=
  match upToLastSlash path with
  | Some "" => "/"
  | Some p => p
  | None => "."
  end.

Definition home : Env :=
  {| isWorkspaceTrustEnabled := true;
     resolve := fun p => p;
     dirname := posixDirname;
     workspaceId := "w";
     workspaceFolders := ["/home/me/code/app"; "/tmp/x"];
     getFolderTrustStateInfo := fun folder =>
       if String.prefix "/home/me" folder then (true, "/home/me")
       else (false, folder);
     uriTrustInfo := [("/home/me", true)] |}.

End WorkspaceTrust.

Module ThemeDefs.

(** A value as [Json.parse] and [plist.parse] return it.  The fields of an
    object are kept in the order in which [for ... in] lists them. *)
#[warnings="-register-all"]
Inductive Value :=
| Undefined
| Null
| Boolean (b : bool)
| Number (n : Z)
| Text (s : string)
| Array (items : list Value)
| Object (fields : list (string * Value)).

Definition isArray (v : Value) : bool :=
  match v with Array _ => true | _ => false end.

(** [typeof v === 'object'] *)
Definition isObjectType (v : Value) : bool :=
  match v with Null | Array _ | Object _ => true | _ => false end.

Definition truthy (v : Value) : bool :=
  match v with
  | Undefined | Null => false
  | Boolean b => b
  | Number n => negb (Z.eqb n 0)
  | Text s => negb (String.eqb s "")
  | Array _ | Object _ => true
  end.

Fixpoint field (key : string) (fields : list (string * Value)) : Value :=
  match fields with
  | [] => Undefined
  | (k, v) :: rest => if String.eqb k key then v else field key rest
  end.

(** [v.key] for one of the keys [settings], [syntaxTokens], [colors] and
    [include], which no array, text, number or boolean has.  [None]: the
    access throws a [TypeError]. *)
Definition property (v : Value) (key : string) : option Value :=
  match v with
  | Undefined | Null => None
  | Object fields => Some (field key fields)
  | _ => Some Undefined
  end.

(** [v.key] where [v] is known to be neither [null] nor [undefined]. *)
Definition member (v : Value) (key : string) : Value :=
  match property v key with
  | Some x => x
  | None => Undefined
  end.

Fixpoint characters (s : string) : list Value :=
  match s with
  | EmptyString => []
  | String c rest => Text (String c "") :: characters rest
  end.

(** [...v] as the arguments of a call; [None]: [v] is not iterable. *)
Definition spread (v : Value) : option (list Value) :=
  match v with
  | Array items => Some items
  | Text s => Some (characters s)
  | _ => None
  end.

Fixpoint indexed (i : nat) (items : list Value) : list (string * Value) :=
  match items with
  | [] => []
  | x :: rest => (Str.ofNat i, x) :: indexed (S i) rest
  end.

(** The keys [for (let key in v)] goes through, each with [v[key]]. *)
Definition entries (v : Value) : list (string * Value) :=
  match v with
  | Object fields => fields
  | Array items => indexed 0 items
  | Text s => indexed 0 (characters s)
  | _ => []
  end.

(** [{ scope, settings: { foreground } }] *)
Definition tokenRule (scope foreground : string) : Value :=
  Object [("scope", Text scope);
          ("settings", Object [("foreground", Text foreground)])].

(** The members every object literal inherits from [Object.prototype]. *)
Definition inherited : list string :=
  ["constructor"; "__defineGetter__"; "__defineSetter__"; "hasOwnProperty";
   "__lookupGetter__"; "__lookupSetter__"; "isPrototypeOf";
   "propertyIsEnumerable"; "toString"; "valueOf"; "__proto__";
   "toLocaleString"].

(** [defaultThemeColors[baseTheme] || []], as the arguments of
    [resultRules.push(...defaultRules)].  [defaultThemeColors] is an object
    literal: for the name of an inherited member the lookup gives that
    member, which is not iterable, and the call throws ([None]). *)
Definition defaultRules (baseTheme : string) : option (list Value) :=
  if String.eqb baseTheme "vs" then
    Some [tokenRule "token.info-token" "#316bcd";
          tokenRule "token.warn-token" "#cd9731";
          tokenRule "token.error-token" "#cd3131";
          tokenRule "token.debug-token" "purple"]
  else if String.eqb baseTheme "vs-dark" then
    Some [tokenRule "token.info-token" "#6796e6";
          tokenRule "token.warn-token" "#cd9731";
          tokenRule "token.error-token" "#f44747";
          tokenRule "token.debug-token" "#b267e6"]
  else if String.eqb baseTheme "hc-black" then
    Some [tokenRule "token.info-token" "#6796e6";
          tokenRule "token.warn-token" "#008000";
          tokenRule "token.error-token" "#FF0000";
          tokenRule "token.debug-token" "#b267e6"]
  else if existsb (String.eqb baseTheme) inherited then None
  else Some [].

Section Loader.

(** Colours stay opaque. *)
Context {Color : Type}.

Definition IColorMap := gmap string Color.

(** What the loader imports: [pfs.readFile], [Paths], [Json.parse] (with the
    messages of its errors), [plist.parse], [Color.fromHex],
    [initializeColorMapsFromSettings], [generateStyleSheetContent] and the
    functions of [themes] on the id of a theme.  [None] stands for a file
    that cannot be read and for a call that throws. *)
Record Env := {
  readFile : string -> option string;
  extname : string -> string;
  dirname : string -> string;
  join : string -> Value -> option string;
  parseJson : string -> Value * list string;
  parsePlist : string -> option Value;
  fromHex : Value -> option Color;
  initializeColorMapsFromSettings : list Value -> IColorMap -> option IColorMap;
  generateStyleSheetContent : string -> IColorMap -> option string;
  getBaseThemeId : string -> string;
  getSyntaxThemeId : string -> string
}.

Context (env : Env).

(** How a promise stands when the event loop has nothing more to run for
    it. *)
Inductive Settled (A : Type) :=
| Fulfilled (a : A)
| Rejected
| Unsettled.
Arguments Fulfilled {A} a.
Arguments Rejected {A}.
Arguments Unsettled {A}.

(** [for (let colorId in colors) resultColors[colorId] = Color.fromHex(...)] *)
Fixpoint setColors (colors : list (string * Value)) (resultColors : IColorMap)
  : option IColorMap :=
  match colors with
  | [] => Some resultColors
  | (colorId, colorHex) :: rest =>
      match fromHex env colorHex with
      | None => None
      | Some color => setColors rest (<[colorId := color]> resultColors)
      end
  end.

(** What a JSON document adds to the rules and the colours, and the value of
    its [include]; [None]: the promise is rejected. *)
Definition readJson (content : string) (resultRules : list Value)
    (resultColors : IColorMap) : option (list Value * IColorMap * Value) :=
  let (contentValue, errors) := parseJson env content in
  match errors with
  | _ :: _ => None
  | [] =>
      match property contentValue "settings" with
      | None => None
      | Some settings =>
          let added :=
            match settings with
            | Array items =>
                match initializeColorMapsFromSettings env items resultColors with
                | None => None
                | Some colors => Some (resultRules ++ items, colors)
                end
            | _ =>
                let syntaxTokens := member contentValue "syntaxTokens" in
                let colors := member contentValue "colors" in
                if negb (isArray syntaxTokens) && negb (isObjectType colors)
                then None
                else
                  let rules :=
                    if truthy syntaxTokens
                    then option_map (app resultRules) (spread syntaxTokens)
                    else Some resultRules in
                  match rules with
                  | None => None
                  | Some rules =>
                      if truthy colors then
                        option_map (pair rules)
                          (setColors (entries colors) resultColors)
                      else Some (rules, resultColors)
                  end
            end in
          match added with
          | None => None
          | Some (rules, colors) =>
              Some (rules, colors, member contentValue "include")
          end
      end
  end.

(** The plist branch, inside its [try]. *)
Definition readPlist (content : string) (resultRules : list Value)
    (resultColors : IColorMap) : option (list Value * IColorMap) :=
  match parsePlist env content with
  | None => None
  | Some contentValue =>
      match property contentValue "settings" with
      | Some (Array settings) =>
          match initializeColorMapsFromSettings env settings resultColors with
          | None => None
          | Some colors => Some (resultRules ++ settings, colors)
          end
      | _ => None
      end
  end.

(** [_loadThemeDocument].  The two arrays are changed in place in the source;
    here they are returned.  A document can include a document that includes
    it, so the promise need not settle: [fuel] bounds the number of documents
    read. *)
Fixpoint _loadThemeDocument (fuel : nat) (baseTheme themePath : string)
    (resultRules : list Value) (resultColors : IColorMap)
  : Settled (list Value * IColorMap) :=
  match fuel with
  | O => Unsettled
  | S fuel' =>
      match readFile env themePath with
      | None => Rejected
      | Some content =>
          match defaultRules baseTheme with
          | None => Rejected
          | Some defaults =>
          let resultRules := resultRules ++ defaults in
          if String.eqb (extname env themePath) ".json" then
            match readJson content resultRules resultColors with
            | None => Rejected
            | Some (rules, colors, include) =>
                if truthy include then
                  match join env (dirname env themePath) include with
                  | None => Rejected
                  | Some path =>
                      _loadThemeDocument fuel' baseTheme path rules colors
                  end
                else Fulfilled (rules, colors)
            end
          else
            match readPlist content resultRules resultColors with
            | None => Rejected
            | Some loaded => Fulfilled loaded
            end
          end
      end
  end.

(** The fields of [ColorThemeData] that loading touches, with [id] and
    [path]. *)
Record ColorThemeData := {
  id : string;
  path : string;
  tokenColors : option (list Value);
  colorMap : option IColorMap;
  styleSheetContent : option string;
  isLoaded : bool
}.

(** [ensureLoaded()]: the theme as the promise leaves it, and how the promise
    stands. *)
Definition ensureLoaded (fuel : nat) (theme : ColorThemeData)
  : ColorThemeData * Settled unit :=
  if negb (isLoaded theme) then
    match _loadThemeDocument fuel (getBaseThemeId env (id theme)) (path theme)
            [] ∅ with
    | Fulfilled (tokenColors, colorMap) =>
        match generateStyleSheetContent env
                (getBaseThemeId env (id theme) +:+ "."
                 +:+ getSyntaxThemeId env (id theme))
                colorMap with
        | None => (theme, Rejected)
        | Some content =>
            ({| id := id theme;
                path := path theme;
                tokenColors := Some tokenColors;
                colorMap := Some colorMap;
                styleSheetContent := Some content;
                isLoaded := true |},
             Fulfilled tt)
        end
    | Rejected => (theme, Rejected)
    | Unsettled => (theme, Unsettled)
    end
  else (theme, Fulfilled tt).

End Loader.

Arguments Fulfilled {A} a.
Arguments Rejected {A}.
Arguments Unsettled {A}.

End ThemeDefs.

(** ** Properties of the file walker *)

Module FileWalkerFacts.

Import FileWalker.

(** Case analysis on the conditions and matches a callback goes through. *)
Ltac branch :=
  match goal with
  | |- context [if ?c then _ else _] => destruct c eqn:?
  | |- context [match ?x with _ => _ end] => destruct x eqn:?
  end.

(** An invariant goes through [flow.parallel]'s loop when every entry keeps it. *)
Lemma forEachFrom_keeps {A : Type} (P : World -> Prop)
    (fn : nat -> A -> World -> World) (items : list A) :
  (forall i x w, P w -> P (fn i x w)) ->
  forall i w, P w -> P (forEachFrom fn i items w).
Proof.
  intros Hfn. induction items as [|x rest IH]; intros i w Hw; simpl; auto.
Qed.

Lemma fold_left_keeps {A : Type} (P : World -> Prop)
    (f : World -> A -> World) (items : list A) :
  (forall x w, P w -> P (f w x)) ->
  forall w, P w -> P (fold_left f items w).
Proof.
  intros Hf. induction items as [|x rest IH]; intros w Hw; simpl; auto.
Qed.

Lemma run_keeps (env : Env) (P : World -> Prop) (events : list Event) :
  (forall e w, P w -> P (step env e w)) ->
  forall w, P w -> P (run env events w).
Proof. intros Hs w Hw. unfold run. apply fold_left_keeps; auto. Qed.

(** *** No error reaches [done] *)

Definition cleanJoin (jn : Join) : Prop := didErrorOccur jn = false.





(** Running a callback changes neither the walker nor the results. *)
Lemma invoke_walker cb e w :
  walker (invoke cb e w) = walker w /\ results (invoke cb e w) = results w.
Proof.
  revert e w. induction cb as [j i|j i done IH]; intros e w; simpl.
  - destruct (entryDone j i e w) as [w' r] eqn:He.
    assert (Hw : walker w' = walker w /\ results w' = results w).
    { revert He. unfold entryDone. repeat branch; intros [= <- <-]; auto. }
    destruct r; simpl; auto.
  - destruct (entryDone j i e w) as [w' r] eqn:He.
    assert (Hw : walker w' = walker w /\ results w' = results w).
    { revert He. unfold entryDone. repeat branch; intros [= <- <-]; auto. }
    destruct Hw as [Hk Hr]. destruct r; simpl; auto.
    rewrite <- Hk, <- Hr. apply IH.
Qed.

Lemma entryDone_frame j i e w w' r :
  entryDone j i e w = (w', r) ->
  pending w' = pending w /\ walker w' = walker w.
Proof. unfold entryDone. repeat branch; intros [= <- <-]; auto. Qed.

Lemma invoke_frame cb e w :
  pending (invoke cb e w) = pending w /\
  walkedPaths (walker (invoke cb e w)) = walkedPaths (walker w).
Proof.
  revert e w. induction cb as [j i|j i done IH]; intros e w; simpl.
  - destruct (entryDone j i e w) as [w' r] eqn:He.
    destruct (entryDone_frame _ _ _ _ _ _ He) as [Hp Hw].
    destruct r; simpl; rewrite ?Hp, ?Hw; auto.
  - destruct (entryDone j i e w) as [w' r] eqn:He.
    destruct (entryDone_frame _ _ _ _ _ _ He) as [Hp Hw].
    destruct r; simpl; rewrite ?Hp, ?Hw; auto.
    destruct (IH (match o with Some es => head (coalesce es) | None => None end) w')
      as [Hp' Hw'].
    rewrite Hp', Hw', Hp, Hw. auto.
Qed.

Lemma invoke_visits cb e w : visits (invoke cb e w) = visits w.
Proof.
  revert e w. induction cb as [j i|j i done IH]; intros e w; simpl.
  - destruct (entryDone j i e w) as [w' r] eqn:He.
    assert (Hv : visits w' = visits w).
    { revert He. unfold entryDone. repeat branch; intros [= <- <-]; auto. }
    destruct r; simpl; auto.
  - destruct (entryDone j i e w) as [w' r] eqn:He.
    assert (Hv : visits w' = visits w).
    { revert He. unfold entryDone. repeat branch; intros [= <- <-]; auto. }
    destruct r; simpl; auto. rewrite IH. exact Hv.
Qed.

Section NoError.

Context (env : Env).















End NoError.

(** *** The result cap

    The invariant of a search with [maxResults = M] whose file pattern is a
    plain name (or absent), so that no file is reported for the pattern
    itself: the files accepted so far are counted in [resultCount], the first
    [M] of them were delivered, and the limit flag is set exactly when more
    than [M] were accepted. *)

Section Cap.

Context (env : Env) (M : nat).

Definition plainName (k : Walker) : Prop :=
  match filePattern k with
  | Some pat =>
      truthy (Some pat) = true ->
      isAbsolute env pat = false /\ searchInPath k = false
  | None => True
  end.
















End Cap.

(** *** Folders are remembered before they are walked

    Every key of a visit is in [walkedPaths], and no key occurs twice. *)

Section Once.

Context (env : Env).

(** The key of a folder that is not a root: its own path when [fs.lstat] says
    that it is not a link, the path [fs.realpath] gives otherwise. *)
Definition keyedVisit (v : Visit) : Prop :=
  match key v with
  | None => True
  | Some k =>
      (lstat env (dir v) = IOOk false /\ k = dir v) \/
      (lstat env (dir v) = IOOk true /\ realpath env (dir v) = IOOk k)
  end.

(** A link is looked up with [fs.realpath] only after [fs.lstat] has said
    that it is one. *)
Definition afterLstat (p : Pending) : Prop :=
  match p with
  | RealpathLink _ _ _ currentPath _ _ _ => lstat env currentPath = IOOk true
  | _ => True
  end.

Definition once (w : World) : Prop :=
  NoDup (visitedKeys w) /\
  (forall r, r ∈ visitedKeys w -> r ∈ walkedPaths (walker w)) /\
  Forall keyedVisit (visits w) /\
  Forall afterLstat (pending w).

Lemma once_frame w w' :
  visits w' = visits w -> pending w' = pending w ->
  walkedPaths (walker w') = walkedPaths (walker w) -> once w -> once w'.
Proof.
  intros Hv Hp Hk (H1 & H2 & H3 & H4). unfold once, visitedKeys in *.
  rewrite Hv, Hp, Hk. auto.
Qed.

Lemma once_invoke cb e w : once w -> once (invoke cb e w).
Proof.
  destruct (invoke_frame cb e w) as [Hp Hk]. apply once_frame; auto.
  apply invoke_visits.
Qed.

Lemma once_report path w : once w -> once (report path w).
Proof. apply once_frame; unfold report; repeat branch; reflexivity. Qed.

Lemma once_request p w : afterLstat p -> once w -> once (request p w).
Proof.
  intros Hp (H1 & H2 & H3 & H4). repeat split; auto.
  simpl. apply Forall_app. split; auto.
Qed.

Lemma once_parallel {A : Type} (items : list A) fn k final w :
  (forall j i x w, once w -> once (fn j i x w)) ->
  (forall w, once w -> once (final w)) ->
  once w -> once (parallel items fn k final w).
Proof.
  intros Hfn Hfinal Hw. unfold parallel. destruct items as [|x rest]; auto.
  apply forEachFrom_keeps; auto.
Qed.

Lemma once_recurseWithNodeJS a r fs done w :
  once w -> once (recurseWithNodeJS env a r fs done w).
Proof.
  intros Hw. unfold recurseWithNodeJS. apply once_parallel.
  - intros j i x w' Hw'. repeat branch; auto using once_invoke.
    apply once_request; simpl; auto.
  - intros w'. apply once_invoke.
  - exact Hw.
Qed.

Lemma once_recurse a fs done w : once w -> once (recurse env a fs done w).
Proof.
  intros Hw. unfold recurse, recurseWithNativeCommand. branch.
  - apply once_recurseWithNodeJS. destruct Hw as (H1 & H2 & H3 & H4).
    repeat split; auto. constructor; [exact I|auto].
  - apply once_request; simpl; auto.
Qed.

Lemma once_walkRoots roots b w : once w -> once (walkRoots roots b w).
Proof.
  intros Hw. unfold walkRoots. apply once_parallel.
  - intros. apply once_request; simpl; auto.
  - intros w'. apply once_frame; auto.
  - repeat branch; auto.
Qed.

Lemma once_walkInto a fs cb m w : once w -> once (walkInto env a fs cb m w).
Proof.
  intros Hw. unfold walkInto. apply once_recurse. destruct m; auto.
Qed.

Lemma once_walkChildren rp c r ch cb w :
  (lstat env c = IOOk false /\ rp = c) \/
  (lstat env c = IOOk true /\ realpath env c = IOOk rp) ->
  once w -> once (walkChildren env rp c r ch cb w).
Proof.
  intros Hkey (Hnd & Hin & Hv & Hp). unfold walkChildren.
  destruct (bool_decide (rp ∈ walkedPaths (walker w))) eqn:Hrp.
  - apply once_invoke. repeat split; auto.
  - apply bool_decide_eq_false in Hrp.
    apply once_recurseWithNodeJS. repeat split; auto.
    + unfold visitedKeys; simpl. constructor; auto.
    + unfold visitedKeys; simpl. intros r0 Hr0.
      apply elem_of_cons in Hr0 as [-> | Hr0].
      * apply elem_of_union_l, elem_of_singleton. reflexivity.
      * apply elem_of_union_r, Hin, Hr0.
    + constructor; [exact Hkey|auto].
Qed.

Lemma once_nativeFile a m p w : once w -> once (nativeFile env a m p w).
Proof.
  intros Hw. unfold nativeFile. repeat branch; auto using once_report.
Qed.

Lemma once_handle p w : afterLstat p -> once w -> once (handle env p w).
Proof.
  intros Hp Hw. destruct p; simpl.
  - apply once_walkRoots; auto.
  - unfold onReaddirRoot, checkFilePatternRelativeMatch.
    repeat branch; auto using once_invoke, once_report, once_walkInto.
    all: apply once_request; simpl; auto.
  - apply once_walkInto; auto.
  - unfold onReaddirEntry.
    repeat branch; auto using once_invoke, once_report.
    all: apply once_request; simpl; auto.
  - unfold onLstatLink.
    destruct (lstat env currentPath) as [e|[|]] eqn:Hl.
    + apply once_invoke; auto.
    + apply once_request; simpl; auto.
    + apply once_walkChildren; auto.
  - unfold onRealpathLink. simpl in Hp.
    destruct (realpath env currentPath) as [e|rp] eqn:Hr.
    + apply once_invoke; auto.
    + apply once_walkChildren; auto.
  - unfold onNativeClose.
    assert (H0 : once (withWalker (setRunningNative None) w)).
    { revert Hw. apply once_frame; auto. }
    repeat branch; auto using once_invoke.
    apply once_invoke. apply fold_left_keeps; auto.
    intros. apply once_nativeFile; auto.
Qed.

Lemma once_step e w : once w -> once (step env e w).
Proof.
  intros Hw. destruct e as [i|]; simpl.
  - unfold fire. destruct (hung w); auto.
    destruct (pending w !! i) as [p|] eqn:Hp; auto.
    destruct Hw as (H1 & H2 & H3 & H4). apply once_handle.
    + eapply Forall_lookup_1 in H4; eauto.
    + repeat split; auto. simpl. apply Forall_delete; auto.
  - revert Hw. apply once_frame; auto.
    unfold cancel, terminateNative. simpl. branch; reflexivity.
Qed.

Lemma once_search cfg roots events : once (search env cfg roots events).
Proof.
  unfold search. apply run_keeps; auto using once_step.
  unfold walk, checkFilePatternAbsoluteMatch.
  assert (H0 : once (withWalker resetState (fresh env cfg))).
  { repeat split; unfold visitedKeys; simpl; try constructor.
    intros r Hr. apply elem_of_nil in Hr. destruct Hr. }
  repeat branch; auto using once_walkRoots.
  apply once_request; simpl; auto.
Qed.

End Once.

(** *** The portable walk comes to an end

    The file system is a finite tree of real folders with symbolic links:
    [depth] bounds how far the real folders nest below a path (a child that
    is a real folder lies strictly deeper in that tree than its parent, and no
    path is deeper than [D]), every link points to one of the real paths in
    [R], and a folder has at most [B] entries.  Cycles through links are
    allowed. *)

Section Termination.

Context (env : Env) (depth : string -> nat) (D B : nat) (R : list string).

Record finiteTree : Prop := {
  ft_fanout : forall p fs, readdir env p = IOOk fs -> length fs <= B;
  ft_depth : forall p, depth p <= D;
  ft_child : forall p fs f ch,
    readdir env p = IOOk fs -> f ∈ fs ->
    readdir env (join env p f) = IOOk ch ->
    lstat env (join env p f) = IOOk false ->
    depth (join env p f) < depth p;
  ft_links : forall p r,
    lstat env p = IOOk true -> realpath env p = IOOk r -> r ∈ R
}.

(** The link targets that have not been walked yet. *)
Definition unwalked (W : gset string) : nat :=
  length (filter (fun r => r ∉ W) R).

Definition level (W : gset string) (p : string) : nat :=
  unwalked W * S D + depth p.

(** A bound on the callbacks still to run below an entry of a folder at
    level [n]. *)
Fixpoint cost (n : nat) : nat :=
  match n with
  | O => 3
  | S n' => 3 + S B * cost n'
  end.

Definition top (W : gset string) : nat := cost (unwalked W * S D + D).

Definition weight (W : gset string) (p : Pending) : nat :=
  match p with
  | StatFilePattern _ rootPaths => 1 + length rootPaths * (3 + S B * top W)
  | ReaddirRoot _ _ => 3 + S B * top W
  | StatRelative _ _ _ _ => 2 + S B * top W
  | ReaddirEntry a _ _ _ _ _ _ => cost (level W a)
  | LstatLink a _ _ _ _ _ _ => cost (level W a) - 1
  | RealpathLink a _ _ _ _ _ _ => cost (level W a) - 2
  | NativeClose _ _ _ => 1
  end.

Definition weights (W : gset string) (ps : list Pending) : nat :=
  sum_list_with (weight W) ps.

(** The callbacks still to run are bounded by [measure]. *)
Definition measure (w : World) : nat :=
  weights (walkedPaths (walker w)) (pending w).

(** What an outstanding request knows about the folder it belongs to. *)
Definition wellFormed (p : Pending) : Prop :=
  match p with
  | StatFilePattern _ _ | ReaddirRoot _ _ | NativeClose _ _ _ => True
  | StatRelative basePath _ files _ => readdir env basePath = IOOk files
  | ReaddirEntry a _ files file _ cur _ =>
      readdir env a = IOOk files /\ file ∈ files /\ cur = join env a file
  | LstatLink a files file cur _ children _ =>
      readdir env a = IOOk files /\ file ∈ files /\ cur = join env a file /\
      readdir env cur = IOOk children
  | RealpathLink a files file cur _ children _ =>
      readdir env a = IOOk files /\ file ∈ files /\ cur = join env a file /\
      readdir env cur = IOOk children /\ lstat env cur = IOOk true
  end.

Lemma unwalked_mono W W' : W ⊆ W' -> unwalked W' <= unwalked W.
Proof.
  intros Hsub. unfold unwalked. induction R as [|r rest IH]; simpl; auto.
  rewrite !filter_cons. destruct (decide (r ∉ W')) as [H'|H'].
  - destruct (decide (r ∉ W)) as [H|H]; simpl; [lia|].
    exfalso. apply H. intros Hc. apply H', Hsub, Hc.
  - destruct (decide (r ∉ W)); simpl; lia.
Qed.

Lemma unwalked_insert W r :
  r ∈ R -> r ∉ W -> unwalked ({[r]} ∪ W) < unwalked W.
Proof.
  intros Hin Hr. unfold unwalked. induction R as [|x rest IH]; simpl.
  - apply elem_of_nil in Hin. destruct Hin.
  - rewrite !filter_cons.
    assert (Hmono : length (filter (fun r0 => r0 ∉ {[r]} ∪ W) rest)
                    <= length (filter (fun r0 => r0 ∉ W) rest)).
    { clear. induction rest as [|y l IHl]; simpl; auto.
      rewrite !filter_cons.
      destruct (decide (y ∉ {[r]} ∪ W)) as [H'|H'];
        destruct (decide (y ∉ W)) as [H|H]; simpl; try lia.
      exfalso. apply H. intros Hc. apply H'. apply elem_of_union_r, Hc. }
    apply elem_of_cons in Hin as [<- | Hin].
    + destruct (decide (r ∉ {[r]} ∪ W)) as [H'|H'].
      * exfalso. apply H'. apply elem_of_union_l, elem_of_singleton. reflexivity.
      * destruct (decide (r ∉ W)) as [H|H]; [simpl; lia|contradiction].
    + specialize (IH Hin).
      destruct (decide (x ∉ {[r]} ∪ W)) as [H'|H'];
        destruct (decide (x ∉ W)) as [H|H]; simpl; try lia.
      exfalso. apply H. intros Hc. apply H'. apply elem_of_union_r, Hc.
Qed.

Lemma cost_mono n m : n <= m -> cost n <= cost m.
Proof.
  intros Hle. induction Hle as [|m Hle IH]; auto.
  simpl. lia.
Qed.

Lemma cost_pos n : 3 <= cost n.
Proof. destruct n; simpl; lia. Qed.

Lemma cost_step n m : n < m -> 3 + S B * cost n <= cost m.
Proof.
  intros Hlt. destruct m as [|m]; [lia|]. simpl.
  assert (cost n <= cost m) by (apply cost_mono; lia). nia.
Qed.

Lemma level_mono W W' p : W ⊆ W' -> level W' p <= level W p.
Proof.
  intros Hsub. unfold level. pose proof (unwalked_mono _ _ Hsub). nia.
Qed.

Lemma top_mono W W' : W ⊆ W' -> top W' <= top W.
Proof.
  intros Hsub. unfold top. apply cost_mono.
  pose proof (unwalked_mono _ _ Hsub). nia.
Qed.

Lemma weight_mono W W' p : W ⊆ W' -> weight W' p <= weight W p.
Proof.
  intros Hsub. pose proof (top_mono _ _ Hsub) as Ht.
  assert (Hb : S B * top W' <= S B * top W)
    by (apply Nat.mul_le_mono_l; exact Ht).
  assert (Hc : forall a, cost (level W' a) <= cost (level W a))
    by (intros a; apply cost_mono, level_mono, Hsub).
  destruct p as [path roots| | |a ? ? ? ? ? ?|a ? ? ? ? ? ?|a ? ? ? ? ? ?| ];
    simpl; try lia; try (specialize (Hc a); lia).
  apply le_n_S, Nat.mul_le_mono_l. lia.
Qed.

Lemma weights_mono W W' ps : W ⊆ W' -> weights W' ps <= weights W ps.
Proof.
  intros Hsub. unfold weights. induction ps as [|p ps IH]; simpl; auto.
  pose proof (weight_mono _ _ p Hsub). lia.
Qed.

Lemma weights_app W ps qs : weights W (ps ++ qs) = weights W ps + weights W qs.
Proof. apply sum_list_with_app. Qed.

Lemma weights_delete W ps i p :
  ps !! i = Some p -> weights W ps = weight W p + weights W (delete i ps).
Proof.
  revert i. induction ps as [|q ps IH]; intros [|i] Hp; simpl in *;
    try discriminate.
  - injection Hp as ->. reflexivity.
  - unfold weights in *. simpl. rewrite (IH i Hp). lia.
Qed.

(** [w'] comes from [w] by new requests of weight at most [c], and by
    remembering more walked paths. *)
Definition grows (c : nat) (w w' : World) : Prop :=
  exists news,
    pending w' = pending w ++ news /\
    walkedPaths (walker w) ⊆ walkedPaths (walker w') /\
    Forall wellFormed news /\
    weights (walkedPaths (walker w')) news <= c.

Lemma grows_more w w' :
  pending w' = pending w ->
  walkedPaths (walker w) ⊆ walkedPaths (walker w') ->
  grows 0 w w'.
Proof.
  intros Hp Hw. exists []. rewrite app_nil_r. repeat split; auto.
Qed.

Lemma grows_same w w' :
  pending w' = pending w ->
  walkedPaths (walker w') = walkedPaths (walker w) ->
  grows 0 w w'.
Proof. intros Hp Hw. apply grows_more; auto. rewrite Hw. reflexivity. Qed.

Lemma grows_weaken c c' w w' : c <= c' -> grows c w w' -> grows c' w w'.
Proof.
  intros Hle (news & H1 & H2 & H3 & H4). exists news. repeat split; auto. lia.
Qed.

Lemma grows_trans c1 c2 w w' w'' :
  grows c1 w w' -> grows c2 w' w'' -> grows (c1 + c2) w w''.
Proof.
  intros (n1 & Hp1 & Hs1 & Hf1 & Hc1) (n2 & Hp2 & Hs2 & Hf2 & Hc2).
  exists (n1 ++ n2). repeat split.
  - rewrite Hp2, Hp1, app_assoc. reflexivity.
  - etransitivity; eauto.
  - apply Forall_app; auto.
  - rewrite weights_app.
    pose proof (weights_mono _ _ n1 Hs2). lia.
Qed.

Lemma grows_request p w :
  wellFormed p -> grows (weight (walkedPaths (walker w)) p) w (request p w).
Proof.
  intros Hp. exists [p]. repeat split; auto.
  unfold weights; simpl. lia.
Qed.

Lemma grows_invoke cb e w : grows 0 w (invoke cb e w).
Proof. destruct (invoke_frame cb e w). apply grows_same; auto. Qed.

Lemma grows_report path w : grows 0 w (report path w).
Proof. unfold report. repeat branch; apply grows_same; auto. Qed.

(** The loop of [flow.parallel]: every entry makes requests of weight at
    most [c], whatever has been walked beyond [W0] in the meantime. *)
Lemma grows_forEach {A : Type} (W0 : gset string) (c : nat)
    (fn : nat -> A -> World -> World) (items : list A) :
  (forall i x w, x ∈ items -> W0 ⊆ walkedPaths (walker w) ->
                 grows c w (fn i x w)) ->
  forall i w, W0 ⊆ walkedPaths (walker w) ->
              grows (length items * c) w (forEachFrom fn i items w).
Proof.
  induction items as [|x rest IH]; intros Hfn i w Hw; simpl.
  - apply grows_same; auto.
  - assert (Hx : grows c w (fn i x w)) by (apply Hfn; auto; left).
    eapply grows_trans; [exact Hx|].
    apply IH.
    + intros i' x' w' Hin. apply Hfn. right. exact Hin.
    + destruct Hx as (news & _ & Hs & _). etransitivity; eauto.
Qed.

Lemma grows_recurseWithNodeJS a r fs done w :
  readdir env a = IOOk fs ->
  grows (length fs * cost (level (walkedPaths (walker w)) a)) w
    (recurseWithNodeJS env a r fs done w).
Proof.
  intros Ha. unfold recurseWithNodeJS, parallel.
  destruct fs as [|f rest] eqn:Hfs.
  - eapply grows_weaken; [|apply grows_invoke]. lia.
  - rewrite <- Hfs in *. clear Hfs.
    match goal with
    | |- grows _ w (forEachFrom ?fn ?i ?items ?w1) =>
        assert (H1 : grows 0 w w1) by (apply grows_same; reflexivity);
        assert (H2 : grows (length items * cost (level (walkedPaths (walker w)) a))
                       w1 (forEachFrom fn i items w1))
    end.
    { apply (grows_forEach (walkedPaths (walker w))); [|reflexivity].
      intros i x w' Hx Hsub.
      repeat branch;
        try (eapply grows_weaken; [|apply grows_invoke]; lia).
      eapply grows_weaken; [|apply grows_request].
      - simpl. apply cost_mono, level_mono, Hsub.
      - simpl. auto. }
    eapply grows_weaken; [|eapply grows_trans; [exact H1|exact H2]]. lia.
Qed.

Section Handlers.

Hypothesis tree : finiteTree.

Lemma level_top W a : cost (level W a) <= top W.
Proof.
  unfold top, level. apply cost_mono. pose proof (ft_depth tree a). lia.
Qed.

Lemma top_pos W : 3 <= top W.
Proof. apply cost_pos. Qed.

Lemma grows_recurse a fs cb w :
  readdir env a = IOOk fs ->
  grows (S B * top (walkedPaths (walker w))) w (recurse env a fs cb w).
Proof.
  intros Ha. unfold recurse. pose proof (top_pos (walkedPaths (walker w))).
  branch.
  - eapply grows_weaken;
      [|eapply grows_trans;
         [apply (grows_same w (noteVisit {| dir := a; key := None |} w));
            reflexivity
         |apply grows_recurseWithNodeJS; exact Ha]].
    simpl. pose proof (ft_fanout tree _ _ Ha).
    pose proof (level_top (walkedPaths (walker w)) a). nia.
  - unfold recurseWithNativeCommand.
    eapply grows_weaken;
      [|eapply grows_trans;
         [apply (grows_same w
                   (withWalker (setRunningNative (Some (nextPid w)))
                      (withNextPid (S (nextPid w)) w))); reflexivity
         |apply grows_request; exact I]].
    simpl. nia.
Qed.

Lemma grows_walkInto a fs cb m w :
  readdir env a = IOOk fs ->
  grows (S B * top (walkedPaths (walker w))) w (walkInto env a fs cb m w).
Proof.
  intros Ha. unfold walkInto. destruct m as [path|].
  - eapply grows_weaken;
      [|eapply grows_trans;
         [apply (grows_same w (onResult path w)); reflexivity
         |apply grows_recurse; exact Ha]].
    simpl. lia.
  - apply grows_recurse; exact Ha.
Qed.

Lemma grows_walkChildren rp cur rel children clb w n :
  readdir env cur = IOOk children ->
  (rp ∉ walkedPaths (walker w) ->
   level ({[rp]} ∪ walkedPaths (walker w)) cur < n) ->
  grows (cost n - 3) w (walkChildren env rp cur rel children clb w).
Proof.
  intros Hc Hn. unfold walkChildren.
  destruct (bool_decide (rp ∈ walkedPaths (walker w))) eqn:Hrp.
  - eapply grows_weaken; [|apply grows_invoke]. lia.
  - apply bool_decide_eq_false in Hrp. specialize (Hn Hrp).
    match goal with
    | |- grows _ w (recurseWithNodeJS _ _ _ _ _ ?w1) =>
        assert (H1 : grows 0 w w1)
          by (apply grows_more; [reflexivity|simpl; apply union_subseteq_r]);
        pose proof (grows_recurseWithNodeJS cur rel children clb w1 Hc) as H2
    end.
    eapply grows_weaken; [|eapply grows_trans; [exact H1|exact H2]].
    simpl. pose proof (ft_fanout tree _ _ Hc).
    pose proof (cost_step _ _ Hn). nia.
Qed.

Lemma grows_walkRoots roots b w :
  grows (length roots * (3 + S B * top (walkedPaths (walker w)))) w
    (walkRoots roots b w).
Proof.
  unfold walkRoots, parallel.
  set (w1 := match b with | true => _ | false => w end).
  assert (H1 : grows 0 w w1)
    by (subst w1; repeat branch; apply grows_same; reflexivity).
  assert (Hw1 : walkedPaths (walker w1) = walkedPaths (walker w))
    by (subst w1; repeat branch; reflexivity).
  destruct roots as [|root rest] eqn:Hroots.
  - apply (grows_trans 0 0 w w1); auto. apply grows_same; reflexivity.
  - rewrite <- Hroots. clear Hroots.
    match goal with
    | |- grows ?c w (forEachFrom ?fn ?i ?items ?w2) =>
        assert (H2 : grows 0 w1 w2) by (apply grows_same; reflexivity);
        assert (H3 : grows c w2 (forEachFrom fn i items w2))
    end.
    { apply (grows_forEach (walkedPaths (walker w))).
      - intros i x w' Hx Hsub.
        eapply grows_weaken; [|apply grows_request; exact I].
        simpl. pose proof (top_mono _ _ Hsub). nia.
      - simpl. rewrite Hw1. reflexivity. }
    eapply grows_weaken;
      [|eapply grows_trans; [exact H1|eapply grows_trans; [exact H2|exact H3]]].
    lia.
Qed.

Lemma handle_grows p w :
  wellFormed p ->
  exists c, c < weight (walkedPaths (walker w)) p /\ grows c w (handle env p w).
Proof.
  intros Hp. pose proof (top_pos (walkedPaths (walker w))) as Htop.
  destruct p as [path roots|a cb|b a fs cb|a rpp fs f rel cur clb
                |a fs f cur rel children clb|a fs f cur rel children clb
                |pid a done]; simpl in *.
  - (* fs.stat of the file pattern *)
    exists (length roots * (3 + S B * top (walkedPaths (walker w)))).
    split; [lia|]. apply grows_walkRoots.
  - (* readdir of a root *)
    unfold onReaddirRoot.
    destruct (isCanceled (walker w) || isLimitHit (walker w)).
    { exists 0. split; [lia|apply grows_invoke]. }
    destruct (readdir env a) as [e|files] eqn:Ha.
    + exists 0. split; [lia|].
      match goal with
      | |- grows 0 w (invoke _ _ ?w1) =>
          assert (H1 : grows 0 w w1)
            by (repeat branch;
                  first [apply grows_report|apply grows_same; reflexivity])
      end.
      apply (grows_trans 0 0 w _ _ H1). apply grows_invoke.
    + unfold checkFilePatternRelativeMatch.
      exists (2 + S B * top (walkedPaths (walker w))). split; [lia|].
      repeat branch;
        try (eapply grows_weaken; [|apply (grows_walkInto a files cb None w Ha)];
             lia).
      eapply grows_weaken; [|apply grows_request; exact Ha]. simpl. lia.
  - (* fs.stat of the pattern below a root *)
    exists (S B * top (walkedPaths (walker w))). split; [lia|].
    apply grows_walkInto. exact Hp.
  - (* readdir of an entry *)
    destruct Hp as (Ha & Hf & Hcur).
    pose proof (cost_pos (level (walkedPaths (walker w)) a)).
    unfold onReaddirEntry.
    destruct (readdir env cur) as [e|children] eqn:Hc.
    + exists 0. split; [lia|].
      match goal with
      | |- grows 0 w (invoke _ _ ?w1) =>
          assert (H1 : grows 0 w w1)
            by (repeat branch;
                  first [apply grows_report|apply grows_same; reflexivity])
      end.
      apply (grows_trans 0 0 w _ _ H1). apply grows_invoke.
    + exists (cost (level (walkedPaths (walker w)) a) - 1). split; [lia|].
      eapply grows_weaken; [|apply grows_request]; simpl; auto.
  - (* lstat *)
    destruct Hp as (Ha & Hf & Hcur & Hc).
    pose proof (cost_pos (level (walkedPaths (walker w)) a)).
    unfold onLstatLink.
    destruct (lstat env cur) as [e|[|]] eqn:Hl.
    + exists 0. split; [lia|apply grows_invoke].
    + exists (cost (level (walkedPaths (walker w)) a) - 2). split; [lia|].
      eapply grows_weaken; [|apply grows_request]; simpl; auto.
    + exists (cost (level (walkedPaths (walker w)) a) - 3). split; [lia|].
      apply grows_walkChildren; auto.
      intros _. subst cur.
      pose proof (ft_child tree _ _ _ _ Ha Hf Hc Hl).
      pose proof (level_mono (walkedPaths (walker w))
                    ({[join env a f]} ∪ walkedPaths (walker w)) (join env a f)
                    (union_subseteq_r _ _)).
      unfold level in *. lia.
  - (* realpath *)
    destruct Hp as (Ha & Hf & Hcur & Hc & Hl).
    pose proof (cost_pos (level (walkedPaths (walker w)) a)).
    unfold onRealpathLink.
    destruct (realpath env cur) as [e|rp] eqn:Hr.
    + exists 0. split; [lia|apply grows_invoke].
    + exists (cost (level (walkedPaths (walker w)) a) - 3). split; [lia|].
      apply grows_walkChildren; auto.
      intros Hrp.
      pose proof (unwalked_insert _ _ (ft_links tree _ _ Hl Hr) Hrp).
      pose proof (ft_depth tree cur). unfold level. nia.
  - (* close of the native command *)
    exists 0. split; [lia|]. unfold onNativeClose.
    set (w0 := withWalker (setRunningNative None) w).
    assert (H0 : grows 0 w w0) by (apply grows_same; reflexivity).
    destruct (isCanceled (walker w0)).
    { apply (grows_trans 0 0 w _ _ H0). apply grows_invoke. }
    destruct (keptFolders _ _ _ _) as [folders|].
    + apply (grows_trans 0 0 w _ _ H0).
      eapply (grows_trans 0 0 w0); [|apply grows_invoke].
      apply (fold_left_keeps (grows 0 w0)).
      * intros x w' Hw'. apply (grows_trans 0 0 w0 _ _ Hw').
        unfold nativeFile. repeat branch;
          first [apply grows_report|apply grows_same; reflexivity].
      * apply grows_same; reflexivity.
    + apply grows_same; reflexivity.
Qed.

(** A turn uses up some of the measure. *)
Lemma fire_decreases w i p :
  Forall wellFormed (pending w) -> hung w = false -> pending w !! i = Some p ->
  measure (fire env i w) < measure w /\
  Forall wellFormed (pending (fire env i w)).
Proof.
  intros Hwf Hh Hp. unfold fire. rewrite Hh, Hp.
  assert (Hwp : wellFormed p) by (eapply Forall_lookup_1; eauto).
  destruct (handle_grows p (withPending (delete i) w) Hwp)
    as (c & Hc & news & Hpend & Hsub & Hnews & Hcost).
  simpl in *. split.
  - unfold measure. rewrite Hpend, weights_app.
    rewrite (weights_delete (walkedPaths (walker w)) _ _ _ Hp).
    pose proof (weights_mono _ _ (delete i (pending w)) Hsub). lia.
  - rewrite Hpend. apply Forall_app. split; auto. apply Forall_delete; auto.
Qed.

Lemma cancel_measure w :
  measure (cancel w) = measure w /\ pending (cancel w) = pending w.
Proof.
  unfold cancel, terminateNative, measure; simpl. branch; auto.
Qed.

Lemma turns_bounded w n w' :
  Forall wellFormed (pending w) -> turns env w n w' -> n <= measure w.
Proof.
  intros Hwf Ht. induction Ht as [w|w i p n w' Hh Hp Ht IH|w n w' Ht IH].
  - lia.
  - destruct (fire_decreases w i p Hwf Hh Hp) as [Hlt Hwf'].
    specialize (IH Hwf'). lia.
  - destruct (cancel_measure w) as [Hm Hpd]. rewrite <- Hm. apply IH.
    rewrite Hpd. exact Hwf.
Qed.

Lemma unwalked_le W : unwalked W <= length R.
Proof. unfold unwalked. apply length_filter. Qed.

(** The number of callbacks a walk over [rootPaths] can run. *)
Definition bound (rootPaths : list string) : nat :=
  1 + length rootPaths * (3 + S B * cost (length R * S D + D)).

Lemma bound_top W roots :
  1 + length roots * (3 + S B * top W) <= bound roots.
Proof.
  unfold bound, top. apply le_n_S, Nat.mul_le_mono_l.
  apply Nat.add_le_mono; [apply le_n|]. apply Nat.mul_le_mono_l, cost_mono.
  pose proof (unwalked_le W). nia.
Qed.

Lemma walk_measure cfg roots :
  measure (walk env roots (fresh env cfg)) <= bound roots /\
  Forall wellFormed (pending (walk env roots (fresh env cfg))).
Proof.
  unfold walk, checkFilePatternAbsoluteMatch.
  set (w0 := withWalker resetState (fresh env cfg)).
  assert (Hp0 : pending w0 = []) by reflexivity.
  pose proof (bound_top (walkedPaths (walker w0)) roots) as Hb.
  assert (Hroots : forall b,
             measure (walkRoots roots b w0) <= bound roots /\
             Forall wellFormed (pending (walkRoots roots b w0))).
  { intros b.
    destruct (grows_walkRoots roots b w0) as (news & Hpend & Hsub & Hwf & Hc).
    rewrite Hp0 in Hpend. simpl in Hpend. unfold measure. rewrite Hpend.
    split; auto. lia. }
  repeat branch; auto.
  split.
  - match goal with
    | |- measure (request ?p w0) <= _ =>
        change (measure (request p w0))
          with (weight (walkedPaths (walker w0)) p + 0)
    end.
    rewrite Nat.add_0_r. exact Hb.
  - constructor; simpl; auto.
Qed.

End Handlers.

End Termination.

(** *** The portable walk never blocks the event loop *)

Section Portable.

Context (env : Env).

Definition portable (w : World) : Prop :=
  disableFastFileLookup (walker w) = true /\ hung w = false /\
  Forall (fun p => isNativeClose p = false) (pending w).

Lemma portable_frame w w' :
  walker w' = walker w -> hung w' = hung w -> pending w' = pending w ->
  portable w -> portable w'.
Proof. intros Hk Hh Hp. unfold portable. rewrite Hk, Hh, Hp. auto. Qed.

Lemma portable_request p w :
  isNativeClose p = false -> portable w -> portable (request p w).
Proof.
  intros Hp (H1 & H2 & H3). repeat split; auto. simpl.
  apply Forall_app; auto.
Qed.

Lemma portable_entryDone j i e w w' r :
  portable w -> entryDone j i e w = (w', r) -> portable w'.
Proof.
  intros Hw. unfold entryDone. repeat branch; intros [= <- <-]; auto.
Qed.

Lemma portable_invoke cb e w : portable w -> portable (invoke cb e w).
Proof.
  revert e w. induction cb as [j i|j i done IH]; intros e w Hw; simpl.
  - destruct (entryDone j i e w) as [w' r] eqn:He.
    pose proof (portable_entryDone _ _ _ _ _ _ Hw He). destruct r; auto.
  - destruct (entryDone j i e w) as [w' r] eqn:He.
    pose proof (portable_entryDone _ _ _ _ _ _ Hw He). destruct r; auto.
Qed.

Lemma portable_report path w : portable w -> portable (report path w).
Proof. intros Hw. unfold report. repeat branch; auto. Qed.

Lemma portable_parallel {A : Type} (items : list A) fn k final w :
  (forall j i x w, portable w -> portable (fn j i x w)) ->
  (forall w, portable w -> portable (final w)) ->
  portable w -> portable (parallel items fn k final w).
Proof.
  intros Hfn Hfinal Hw. unfold parallel. destruct items as [|x rest]; auto.
  apply forEachFrom_keeps; auto.
Qed.

Lemma portable_recurseWithNodeJS a r fs done w :
  portable w -> portable (recurseWithNodeJS env a r fs done w).
Proof.
  intros Hw. unfold recurseWithNodeJS. apply portable_parallel.
  - intros j i x w' Hw'. repeat branch;
      auto using portable_invoke, portable_request.
  - intros w'. apply portable_invoke.
  - exact Hw.
Qed.

Lemma portable_walkInto a fs cb m w :
  portable w -> portable (walkInto env a fs cb m w).
Proof.
  intros Hw. unfold walkInto, recurse.
  assert (H1 : portable (match m with Some m0 => onResult m0 w | None => w end))
    by (destruct m; exact Hw).
  destruct H1 as (Hd & Hh & Hp). rewrite Hd.
  apply portable_recurseWithNodeJS. repeat split; auto.
Qed.

Lemma portable_walkRoots roots b w :
  portable w -> portable (walkRoots roots b w).
Proof.
  intros Hw. unfold walkRoots. apply portable_parallel.
  - intros. apply portable_request; auto.
  - auto.
  - repeat branch; auto.
Qed.

Lemma portable_walkChildren rp c r ch cb w :
  portable w -> portable (walkChildren env rp c r ch cb w).
Proof.
  intros Hw. unfold walkChildren. branch; auto using portable_invoke.
  apply portable_recurseWithNodeJS. exact Hw.
Qed.

Lemma portable_handle p w :
  isNativeClose p = false -> portable w -> portable (handle env p w).
Proof.
  intros Hp Hw. destruct p; simpl; try discriminate.
  - apply portable_walkRoots; auto.
  - unfold onReaddirRoot, checkFilePatternRelativeMatch.
    repeat branch;
      auto using portable_invoke, portable_report, portable_walkInto,
        portable_request.
  - apply portable_walkInto; auto.
  - unfold onReaddirEntry.
    repeat branch;
      auto using portable_invoke, portable_report, portable_request.
  - unfold onLstatLink.
    repeat branch;
      auto using portable_invoke, portable_request, portable_walkChildren.
  - unfold onRealpathLink.
    repeat branch; auto using portable_invoke, portable_walkChildren.
Qed.

Lemma portable_fire i w : portable w -> portable (fire env i w).
Proof.
  intros Hw. unfold fire. destruct (hung w); auto.
  destruct (pending w !! i) as [p|] eqn:Hp; auto.
  destruct Hw as (H1 & H2 & H3).
  apply portable_handle.
  - eapply Forall_lookup_1 in H3; eauto.
  - repeat split; auto. simpl. apply Forall_delete; auto.
Qed.

Lemma portable_cancel w : portable w -> portable (cancel w).
Proof.
  intros Hw. unfold cancel, terminateNative, portable in *; simpl.
  branch; exact Hw.
Qed.

Lemma portable_walk cfg roots :
  cfg_disableFastFileLookup cfg = true ->
  portable (walk env roots (fresh env cfg)).
Proof.
  intros Hc. unfold walk, checkFilePatternAbsoluteMatch.
  assert (H0 : portable (withWalker resetState (fresh env cfg))).
  { repeat split; simpl; auto. }
  repeat branch; auto using portable_walkRoots, portable_request.
Qed.

Lemma portable_turns w n w' :
  portable w -> turns env w n w' -> portable w'.
Proof.
  intros Hw Ht. induction Ht; auto using portable_fire, portable_cancel.
Qed.

End Portable.

(** *** Nothing is delivered once a flag is set

    For a search whose file pattern is a plain name (or absent).  [first] is
    [None] as long as the search may deliver results, and holds the results
    delivered so far from the moment [isCanceled] or [isLimitHit] is set. *)

Section Quiet.

Context (env : Env).

Definition stopped (k : Walker) : bool := isCanceled k || isLimitHit k.

Record quiet (first : option (list string)) (w : World) : Prop := {
  quiet_plain : plainName env (walker w);
  quiet_pending : Forall (fun p => isStat p = false) (pending w);
  quiet_results : forall r, first = Some r ->
    stopped (walker w) = true /\ results w = r
}.

Lemma quiet_frame first w w' :
  walker w' = walker w -> pending w' = pending w -> results w' = results w ->
  quiet first w -> quiet first w'.
Proof.
  intros Hk Hp Hr [H1 H2 H3]. split; rewrite ?Hk, ?Hp, ?Hr; auto.
Qed.

Lemma quiet_request first p w :
  isStat p = false -> quiet first w -> quiet first (request p w).
Proof.
  intros Hp [H1 H2 H3]. split; simpl; auto. apply Forall_app; split; auto.
Qed.

Lemma quiet_report first path w :
  stopped (walker w) = false -> quiet first w -> quiet first (report path w).
Proof.
  intros Hs [H1 H2 H3]. split.
  - unfold report. repeat branch; exact H1.
  - unfold report. repeat branch; exact H2.
  - intros r Hr. destruct (H3 r Hr) as [Hs' _]. congruence.
Qed.

Lemma quiet_invoke first cb e w : quiet first w -> quiet first (invoke cb e w).
Proof.
  intros Hw. destruct (invoke_frame cb e w) as [Hp _].
  destruct (invoke_walker cb e w) as [Hk Hr].
  revert Hw. apply quiet_frame; auto.
Qed.

Lemma quiet_parallel {A : Type} first (items : list A) fn k final w :
  (forall j i x w, quiet first w -> quiet first (fn j i x w)) ->
  (forall w, quiet first w -> quiet first (final w)) ->
  quiet first w -> quiet first (parallel items fn k final w).
Proof.
  intros Hfn Hfinal Hw. unfold parallel. destruct items as [|x rest]; auto.
  apply forEachFrom_keeps; auto. revert Hw. apply quiet_frame; auto.
Qed.

Lemma quiet_recurseWithNodeJS first a r fs done w :
  quiet first w -> quiet first (recurseWithNodeJS env a r fs done w).
Proof.
  intros Hw. unfold recurseWithNodeJS. apply quiet_parallel.
  - intros j i x w' Hw'. repeat branch;
      auto using quiet_invoke, quiet_request.
  - intros w'. apply quiet_invoke.
  - exact Hw.
Qed.

Lemma quiet_recurse first a fs done w :
  quiet first w -> quiet first (recurse env a fs done w).
Proof.
  intros Hw. unfold recurse. branch.
  - apply quiet_recurseWithNodeJS. revert Hw. apply quiet_frame; auto.
  - unfold recurseWithNativeCommand. apply quiet_request; auto.
    destruct Hw as [H1 H2 H3]. split; auto.
Qed.

Lemma quiet_walkRoots first roots w :
  quiet first w -> quiet first (walkRoots roots false w).
Proof.
  intros Hw. unfold walkRoots. apply quiet_parallel.
  - intros. apply quiet_request; auto.
  - intros w'. apply quiet_frame; auto.
  - exact Hw.
Qed.

Lemma quiet_walkChildren first rp c r ch cb w :
  quiet first w -> quiet first (walkChildren env rp c r ch cb w).
Proof.
  intros Hw. unfold walkChildren. branch; auto using quiet_invoke.
  apply quiet_recurseWithNodeJS. destruct Hw as [H1 H2 H3]. split; auto.
Qed.

Lemma quiet_relativeMatch first a fs cb w :
  quiet first w -> quiet first (checkFilePatternRelativeMatch env a fs cb w).
Proof.
  intros Hw. unfold checkFilePatternRelativeMatch, walkInto.
  pose proof (quiet_plain _ _ Hw) as Hp. unfold plainName in Hp.
  destruct (filePattern (walker w)) as [pat|]; auto using quiet_recurse.
  destruct (truthy (Some pat)) eqn:Ht; simpl; auto using quiet_recurse.
  destruct (Hp eq_refl) as [Ha Hs]. rewrite Ha, Hs. simpl.
  auto using quiet_recurse.
Qed.

Lemma quiet_nativeFile first a m p w :
  isCanceled (walker w) = false -> quiet first w ->
  isCanceled (walker (nativeFile env a m p w)) = false /\
  quiet first (nativeFile env a m p w).
Proof.
  intros Hc Hw. unfold nativeFile.
  destruct (isLimitHit (walker w)) eqn:Hl; auto.
  assert (Hs : stopped (walker w) = false) by (unfold stopped; rewrite Hc, Hl; auto).
  repeat branch; auto. split; [|apply quiet_report; auto].
  unfold report. repeat branch; exact Hc.
Qed.

Lemma quiet_handle first p w :
  isStat p = false -> quiet first w -> quiet first (handle env p w).
Proof.
  intros Hp Hw. destruct p; simpl; try discriminate.
  - unfold onReaddirRoot.
    destruct (isCanceled (walker w) || isLimitHit (walker w)) eqn:Hs;
      [apply quiet_invoke; auto|].
    repeat branch;
      auto using quiet_invoke, quiet_report, quiet_relativeMatch.
  - unfold onReaddirEntry.
    destruct (readdir env currentPath); [|apply quiet_request; auto].
    apply quiet_invoke.
    destruct (isCanceled (walker w)) eqn:Hc; [rewrite andb_false_r; auto|].
    destruct (isLimitHit (walker w)) eqn:Hl; [rewrite andb_false_r; auto|].
    repeat branch; auto. apply quiet_report; auto.
    unfold stopped. rewrite Hc, Hl. reflexivity.
  - unfold onLstatLink.
    repeat branch;
      auto using quiet_invoke, quiet_request, quiet_walkChildren.
  - unfold onRealpathLink.
    repeat branch; auto using quiet_invoke, quiet_walkChildren.
  - unfold onNativeClose.
    assert (H0 : quiet first (withWalker (setRunningNative None) w))
      by (destruct Hw; split; auto).
    destruct (isCanceled (walker (withWalker (setRunningNative None) w))) eqn:Hc;
      [apply quiet_invoke; auto|].
    repeat branch.
    + apply quiet_invoke.
      apply (fold_left_keeps
               (fun w => isCanceled (walker w) = false /\ quiet first w)); auto.
      intros x w' [Hc' Hw']. apply quiet_nativeFile; auto.
    + revert H0. apply quiet_frame; auto.
Qed.

Lemma quiet_step first e w : quiet first w -> quiet first (step env e w).
Proof.
  intros Hw. destruct e as [i|]; simpl.
  - unfold fire. destruct (hung w); auto.
    destruct (pending w !! i) as [p|] eqn:Hp; auto.
    apply quiet_handle.
    + pose proof (quiet_pending _ _ Hw) as Hall.
      eapply Forall_lookup_1 in Hall; eauto.
    + destruct Hw as [H1 H2 H3]. split; simpl; auto.
      apply Forall_delete; auto.
  - destruct Hw as [H1 H2 H3]. split; auto.
    + unfold cancel, terminateNative. simpl. branch; auto.
    + intros r Hr. destruct (H3 r Hr) as [_ Hres]. split; auto.
      unfold cancel, terminateNative, stopped. simpl. branch; reflexivity.
Qed.

Lemma quiet_walk cfg roots :
  isPlainPattern env cfg = true -> quiet None (walk env roots (fresh env cfg)).
Proof.
  intros Hplain.
  assert (Hin : searchInPath (new env cfg) = false).
  { unfold isPlainPattern in Hplain. simpl. unfold truthy.
    destruct (cfg_filePattern cfg) as [pat|]; auto.
    destruct (String.eqb pat ""); simpl in *; auto.
    apply andb_true_iff in Hplain as [_ Hs].
    apply negb_true_iff in Hs. exact Hs. }
  assert (Hpat : filePattern (new env cfg) = cfg_filePattern cfg).
  { simpl in *. rewrite Hin. reflexivity. }
  assert (H0 : quiet None (withWalker resetState (fresh env cfg))).
  { split; [|constructor|discriminate].
    unfold plainName.
    change (filePattern (walker (withWalker resetState (fresh env cfg))))
      with (filePattern (new env cfg)).
    change (searchInPath (walker (withWalker resetState (fresh env cfg))))
      with (searchInPath (new env cfg)).
    rewrite Hpat, Hin.
    unfold isPlainPattern in Hplain.
    destruct (cfg_filePattern cfg) as [pat|]; auto.
    intros Ht. unfold truthy in Ht. apply negb_true_iff in Ht.
    rewrite Ht in Hplain. simpl in Hplain.
    apply andb_true_iff in Hplain as [Ha _].
    apply negb_true_iff in Ha. split; auto. }
  unfold walk, checkFilePatternAbsoluteMatch.
  pose proof (quiet_plain _ _ H0) as Hp. unfold plainName in Hp.
  destruct (filePattern (walker (withWalker resetState (fresh env cfg))))
    as [pat|]; auto using quiet_walkRoots.
  destruct (truthy (Some pat)) eqn:Ht; simpl; auto using quiet_walkRoots.
  destruct (Hp eq_refl) as [Ha _]. rewrite Ha. simpl.
  auto using quiet_walkRoots.
Qed.

End Quiet.

(** *** [done] is called once, after every request has called back *)

(** How many elements of a list pass a test. *)
Fixpoint tally {A : Type} (f : A -> bool) (l : list A) : nat :=
  match l with
  | [] => 0
  | x :: rest => (if f x then 1 else 0) + tally f rest
  end.

Lemma tally_app {A : Type} (f : A -> bool) l l' :
  tally f (l ++ l') = tally f l + tally f l'.
Proof. induction l as [|x l IH]; simpl; auto. rewrite IH. lia. Qed.

Lemma tally_delete {A : Type} (f : A -> bool) l i x :
  l !! i = Some x ->
  tally f (delete i l) + (if f x then 1 else 0) = tally f l.
Proof.
  revert i. induction l as [|y l IH]; intros [|i] H; simpl in *; try discriminate.
  - injection H as ->. lia.
  - specialize (IH _ H). lia.
Qed.

Lemma tally_insert {A : Type} (f : A -> bool) l i x y :
  l !! i = Some x ->
  tally f (<[i := y]> l) + (if f x then 1 else 0)
  = tally f l + (if f y then 1 else 0).
Proof.
  revert i. induction l as [|z l IH]; intros [|i] H; simpl in *; try discriminate.
  - injection H as ->. lia.
  - specialize (IH _ H). lia.
Qed.

Lemma tally_pos {A : Type} (f : A -> bool) l i x :
  l !! i = Some x -> f x = true -> 0 < tally f l.
Proof.
  revert i. induction l as [|y l IH]; intros [|i] H Hf; simpl in *; try discriminate.
  - injection H as ->. rewrite Hf. lia.
  - specialize (IH _ H Hf). lia.
Qed.

Lemma tally_none {A : Type} (f : A -> bool) l :
  (forall i x, l !! i = Some x -> f x = false) -> tally f l = 0.
Proof.
  induction l as [|y l IH]; intros H; simpl; auto.
  rewrite (H 0 y eq_refl). rewrite IH; auto.
  intros i x Hx. apply (H (S i)). exact Hx.
Qed.

Lemma tally_zero {A : Type} (f : A -> bool) l i x :
  tally f l = 0 -> l !! i = Some x -> f x = false.
Proof.
  intros H0 Hx. destruct (f x) eqn:Hf; auto.
  pose proof (tally_pos f l i x Hx Hf). lia.
Qed.

(** The fan-out whose entry a callback reports to. *)
Definition headJoin (cb : Callback) : nat :=
  match cb with
  | PerEntry j _ => j
  | Clb j _ _ => j
  end.

(** The callback a request will run at the end of its own. *)
Definition callbackOf (p : Pending) : option Callback :=
  match p with
  | StatFilePattern _ _ => None
  | ReaddirRoot _ cb => Some cb
  | StatRelative _ _ _ cb => Some cb
  | ReaddirEntry _ _ _ _ _ _ cb => Some cb
  | LstatLink _ _ _ _ _ _ cb => Some cb
  | RealpathLink _ _ _ _ _ _ cb => Some cb
  | NativeClose _ _ cb => Some cb
  end.

Definition reportsTo (j : nat) (cb : Callback) : bool := Nat.eqb (headJoin cb) j.

Definition waitsOn (j : nat) (p : Pending) : bool :=
  match callbackOf p with
  | Some cb => reportsTo j cb
  | None => false
  end.

(** Some entry of the fan-out has not called back. *)
Definition isOpen (jn : Join) : bool := Nat.ltb (doneCount jn) (total jn).

(** A fan-out that is open and whose final callback reports to fan-out [j]. *)
Definition nestedIn (j : nat) (jn : Join) : bool :=
  isOpen jn &&
  match callback jn with
  | Some done => reportsTo j done
  | None => false
  end.

(** A callback is wired to the fan-outs on record: its fan-out exists and
    the callback it passes on to is that fan-out's final callback. *)
Fixpoint wired (js : list Join) (cb : Callback) : Prop :=
  match cb with
  | PerEntry j _ => exists jn, js !! j = Some jn /\ callback jn = None
  | Clb j _ done =>
      (exists jn, js !! j = Some jn /\ callback jn = Some done) /\ wired js done
  end.

(** The books of the fan-outs balance: of the entries of a fan-out, each has
    called back, or is waiting for a request of its own, or for a fan-out
    nested in it, or its callback is [held] by the code that is running.
    [done] has been called when, and only when, the fan-out of [walk] is
    closed. *)
Record accounted (w : World) (held : list Callback) : Prop := {
  acc_running : hung w = false;
  acc_balance : forall j jn, joins w !! j = Some jn ->
    doneCount jn + tally (waitsOn j) (pending w) + tally (nestedIn j) (joins w)
      + tally (reportsTo j) held = total jn;
  acc_pending :
    Forall (fun p => exists cb, callbackOf p = Some cb /\ wired (joins w) cb)
      (pending w);
  acc_held : Forall (wired (joins w)) held;
  acc_parent : forall j jn done,
    joins w !! j = Some jn -> callback jn = Some done -> headJoin done < j;
  acc_root : forall j jn,
    joins w !! j = Some jn -> callback jn = None -> j = 0;
  acc_clean : Forall cleanJoin (joins w);
  acc_walk : exists j0, joins w !! 0 = Some j0 /\
    doneCalls w = if isOpen j0 then [] else [(None, isLimitHit (walker w))]
}.

Lemma wired_lookup js cb : wired js cb -> exists jn, js !! headJoin cb = Some jn.
Proof. destruct cb; simpl; [intros (jn & H & _)|intros [(jn & H & _) _]]; eauto. Qed.

Lemma wired_lt js cb : wired js cb -> headJoin cb < length js.
Proof.
  intros H. destruct (wired_lookup _ _ H) as [jn Hjn].
  eapply lookup_lt_Some; eauto.
Qed.

Lemma wired_mono js js' cb :
  (forall j jn, js !! j = Some jn ->
     exists jn', js' !! j = Some jn' /\ callback jn' = callback jn) ->
  wired js cb -> wired js' cb.
Proof.
  intros Hjs. induction cb as [j i|j i done IH]; simpl.
  - intros (jn & Hj & Hc). destruct (Hjs _ _ Hj) as (jn' & Hj' & Hc').
    exists jn'. split; congruence.
  - intros [(jn & Hj & Hc) Hd]. split; auto.
    destruct (Hjs _ _ Hj) as (jn' & Hj' & Hc'). exists jn'. split; congruence.
Qed.

Lemma doneCalls_done e b w :
  doneCalls (emit (Done e b) w) = doneCalls w ++ [(e, b)].
Proof. reflexivity. Qed.

(** A callback that is wired and reports to an open fan-out keeps the
    fan-out of [walk] open. *)
Lemma open_to_root w held cb :
  accounted w held -> wired (joins w) cb ->
  (forall jn, joins w !! headJoin cb = Some jn -> isOpen jn = true) ->
  exists j0, joins w !! 0 = Some j0 /\ isOpen j0 = true.
Proof.
  intros Hacc. induction cb as [j i|j i done IH]; simpl.
  - intros (jn & Hj & Hc) Ho.
    assert (j = 0) as -> by (eapply acc_root; eauto).
    exists jn. auto.
  - intros [(jn & Hj & Hc) Hd] Ho. apply IH; auto.
    intros jd Hjd.
    assert (Hn : 0 < tally (nestedIn (headJoin done)) (joins w)).
    { apply (tally_pos _ _ j jn Hj). unfold nestedIn, reportsTo.
      rewrite (Ho _ Hj), Hc, Nat.eqb_refl. reflexivity. }
    pose proof (acc_balance _ _ Hacc _ _ Hjd) as Hb.
    unfold isOpen. apply Nat.ltb_lt. lia.
Qed.

Lemma quiet_of_open w held j0 :
  accounted w held -> joins w !! 0 = Some j0 -> isOpen j0 = true ->
  doneCalls w = [].
Proof.
  intros Hacc H0 Ho. destruct (acc_walk _ _ Hacc) as (j0' & H0' & Hd).
  rewrite H0 in H0'. injection H0' as <-. rewrite Ho in Hd. exact Hd.
Qed.

(** As long as the running code holds a callback, [done] has not been called. *)
Lemma held_quiet w cb held : accounted w (cb :: held) -> doneCalls w = [].
Proof.
  intros Hacc.
  assert (Hw : wired (joins w) cb).
  { pose proof (acc_held _ _ Hacc) as Hh. inversion Hh; auto. }
  destruct (open_to_root _ _ _ Hacc Hw) as (j0 & H0 & Ho).
  - intros jn Hjn. pose proof (acc_balance _ _ Hacc _ _ Hjn) as Hb.
    simpl in Hb. unfold reportsTo at 1 in Hb. rewrite Nat.eqb_refl in Hb.
    unfold isOpen. apply Nat.ltb_lt. lia.
  - eapply quiet_of_open; eauto.
Qed.

(** As long as a request is outstanding, [done] has not been called. *)
Lemma pending_quiet w held i p :
  accounted w held -> pending w !! i = Some p -> doneCalls w = [].
Proof.
  intros Hacc Hp.
  pose proof (acc_pending _ _ Hacc) as Hall.
  destruct (Forall_lookup_1 _ _ _ _ Hall Hp) as (cb & Hcb & Hw).
  destruct (open_to_root _ _ _ Hacc Hw) as (j0 & H0 & Ho).
  - intros jn Hjn. pose proof (acc_balance _ _ Hacc _ _ Hjn) as Hb.
    assert (0 < tally (waitsOn (headJoin cb)) (pending w)).
    { apply (tally_pos _ _ i p Hp). unfold waitsOn, reportsTo.
      rewrite Hcb. apply Nat.eqb_refl. }
    unfold isOpen. apply Nat.ltb_lt. lia.
  - eapply quiet_of_open; eauto.
Qed.

(** What the books depend on. *)
Lemma accounted_frame w w' held :
  hung w' = hung w -> joins w' = joins w -> pending w' = pending w ->
  doneCalls w' = doneCalls w ->
  isLimitHit (walker w') = isLimitHit (walker w) \/ doneCalls w = [] ->
  accounted w held -> accounted w' held.
Proof.
  intros Hh Hj Hp Hd Hl [A1 A2 A3 A4 A5 A6 A7 A8].
  constructor; rewrite ?Hh, ?Hj, ?Hp, ?Hd; auto.
  destruct A8 as (j0 & H0 & Hc). exists j0. split; auto.
  destruct Hl as [-> | Hq]; auto.
  rewrite Hq in Hc. destruct (isOpen j0); [auto|discriminate].
Qed.

(** A request completes: its callback is now held by the code that runs. *)
Lemma accounted_take i p cb w held :
  pending w !! i = Some p -> callbackOf p = Some cb ->
  accounted w held -> accounted (withPending (delete i) w) (cb :: held).
Proof.
  intros Hp Hcb [A1 A2 A3 A4 A5 A6 A7 A8]. constructor; simpl; auto.
  - intros j jn Hj. specialize (A2 _ _ Hj).
    pose proof (tally_delete (waitsOn j) _ _ _ Hp) as Ht.
    unfold waitsOn at 2 in Ht. rewrite Hcb in Ht. lia.
  - apply Forall_delete; auto.
  - constructor; auto.
    destruct (Forall_lookup_1 _ _ _ _ A3 Hp) as (cb' & Hcb' & Hw). congruence.
Qed.

(** A request is made with a callback that was held. *)
Lemma accounted_request p cb w held :
  callbackOf p = Some cb ->
  accounted w (cb :: held) -> accounted (request p w) held.
Proof.
  intros Hcb [A1 A2 A3 A4 A5 A6 A7 A8]. constructor; simpl; auto.
  - intros j jn Hj. specialize (A2 _ _ Hj). rewrite tally_app. simpl in *.
    unfold waitsOn at 2. rewrite Hcb. lia.
  - apply Forall_app; split; auto. constructor; auto.
    exists cb. split; auto. inversion A4; auto.
  - inversion A4; auto.
Qed.

Lemma accounted_report path cb held w :
  accounted w (cb :: held) -> accounted (report path w) (cb :: held).
Proof.
  intros Hacc. pose proof (held_quiet _ _ _ Hacc) as Hq.
  eapply accounted_frame; [| | | |right; exact Hq|exact Hacc];
    unfold report; repeat branch; reflexivity.
Qed.

Lemma accounted_onResult path held w :
  accounted w held -> accounted (onResult path w) held.
Proof. apply accounted_frame; auto. Qed.

Lemma accounted_noteVisit v held w :
  accounted w held -> accounted (noteVisit v w) held.
Proof. apply accounted_frame; auto. Qed.

(** An entry calls back.  When it was not the last one of its fan-out the
    books balance without its callback; when it was, the final callback of the
    fan-out is due: [done] for the fan-out of [walk], and otherwise the callback
    the fan-out was given, which the running code now holds. *)
Lemma accounted_entryDone j i cb held w :
  accounted w (cb :: held) -> headJoin cb = j ->
  match entryDone j i None w with
  | (w', None) => accounted w' held
  | (w', Some err) =>
      err = None /\
      match cb with
      | PerEntry _ _ =>
          accounted (emit (Done None (isLimitHit (walker w'))) w') held
      | Clb _ _ done => accounted w' (done :: held)
      end
  end.
Proof.
  intros Hacc Hj. pose proof (held_quiet _ _ _ Hacc) as Hq.
  destruct Hacc as [A1 A2 A3 A4 A5 A6 A7 A8].
  assert (Hw : wired (joins w) cb) by (inversion A4; auto).
  assert (Hheld : Forall (wired (joins w)) held) by (inversion A4; auto).
  destruct (wired_lookup _ _ Hw) as [jn Hjn]. rewrite Hj in Hjn.
  unfold entryDone. rewrite Hjn. cbv zeta.
  set (jn' := settle i None jn). set (js' := <[j := jn']> (joins w)).
  assert (Hlt : j < length (joins w)) by (eapply lookup_lt_Some; eauto).
  assert (Hcl : didErrorOccur jn' = false).
  { simpl. apply (Forall_lookup_1 _ _ _ _ A7 Hjn). }
  assert (Hrep : reportsTo j cb = true).
  { unfold reportsTo. rewrite Hj. apply Nat.eqb_refl. }
  assert (Hopen : doneCount jn < total jn).
  { specialize (A2 _ _ Hjn). cbn [tally] in A2. rewrite Hrep in A2. lia. }
  assert (Hother : forall x, x <> j -> reportsTo x cb = false).
  { intros x Hx. unfold reportsTo. rewrite Hj. apply Nat.eqb_neq. auto. }
  assert (F1 : forall x jx, joins w !! x = Some jx ->
            exists jx', js' !! x = Some jx' /\ callback jx' = callback jx).
  { intros x jx Hx. destruct (decide (x = j)) as [->|Hne].
    - exists jn'. split; [apply list_lookup_insert_eq; auto|].
      rewrite Hjn in Hx. injection Hx as <-. reflexivity.
    - exists jx. split; auto. unfold js'. rewrite list_lookup_insert_ne; auto. }
  assert (F2 : forall x jx', js' !! x = Some jx' ->
            (x = j /\ jx' = jn') \/ (x <> j /\ joins w !! x = Some jx')).
  { intros x jx' Hx. unfold js' in Hx.
    apply list_lookup_insert_Some in Hx. destruct Hx as [(-> & -> & _)|[Hne Hx]]; auto. }
  assert (Hpar : forall x jx' done,
            js' !! x = Some jx' -> callback jx' = Some done -> headJoin done < x).
  { intros x jx' done Hx Hc. destruct (F2 _ _ Hx) as [[-> ->]|[_ Hx']]; eauto. }
  assert (Hroot : forall x jx',
            js' !! x = Some jx' -> callback jx' = None -> x = 0).
  { intros x jx' Hx Hc. destruct (F2 _ _ Hx) as [[-> ->]|[_ Hx']]; eauto. }
  assert (Hclean : Forall cleanJoin js').
  { apply Forall_insert; auto. }
  assert (Hpend : Forall (fun p => exists cb, callbackOf p = Some cb /\ wired js' cb)
                    (pending w)).
  { eapply Forall_impl; [exact A3|]. intros p (c & Hc & Hwc).
    exists c. split; auto. eapply wired_mono; eauto. }
  assert (Hheld' : Forall (wired js') held).
  { eapply Forall_impl; [exact Hheld|]. intros c Hc. eapply wired_mono; eauto. }
  assert (Hnest : forall x,
            tally (nestedIn x) js' + (if nestedIn x jn then 1 else 0)
            = tally (nestedIn x) (joins w) + (if nestedIn x jn' then 1 else 0)).
  { intros x. apply tally_insert. exact Hjn. }
  assert (Hjo : isOpen jn = true) by (apply Nat.ltb_lt; exact Hopen).
  assert (Hold : forall x, nestedIn x jn =
            match callback jn with Some done => reportsTo x done | None => false end).
  { intros x. unfold nestedIn. rewrite Hjo. reflexivity. }
  assert (Hnew : forall x, nestedIn x jn' = isOpen jn' &&
            match callback jn with Some done => reportsTo x done | None => false end).
  { reflexivity. }
  assert (Hdc : doneCount jn' = S (doneCount jn)) by reflexivity.
  assert (Htot : total jn' = total jn) by reflexivity.
  destruct A8 as (j0 & H0 & Hd0).
  assert (Ho0 : isOpen j0 = true).
  { rewrite Hq in Hd0. destruct (isOpen j0); [auto|discriminate]. }
  destruct (Nat.eqb (doneCount jn') (total jn')) eqn:Hlast;
    change (Nat.eqb (S (doneCount jn)) (total jn) = true) in Hlast ||
    change (Nat.eqb (S (doneCount jn)) (total jn) = false) in Hlast.
  - (* the last entry *)
    apply Nat.eqb_eq in Hlast. rewrite Hcl. split; [reflexivity|].
    assert (Hjc : isOpen jn' = false).
    { unfold isOpen. simpl. apply Nat.ltb_ge. lia. }
    destruct cb as [j' i'|j' i' done]; simpl in Hj; subst j'.
    + destruct Hw as (jn0 & Hjn0 & Hc0). rewrite Hjn in Hjn0. injection Hjn0 as <-.
      assert (j = 0) as -> by eauto.
      constructor; simpl; auto.
      * intros x jx' Hx. specialize (Hnest x). fold js'.
        rewrite Hold, Hnew, Hjc, Hc0 in Hnest. cbn [andb] in Hnest.
        destruct (F2 _ _ Hx) as [[-> ->]|[Hne Hx']].
        -- specialize (A2 _ _ Hjn). cbn [tally] in A2. rewrite Hrep in A2. rewrite Hdc, Htot. lia.
        -- specialize (A2 _ _ Hx'). cbn [tally] in A2. rewrite (Hother _ Hne) in A2. lia.
      * exists jn'. split; [apply list_lookup_insert_eq; auto|].
        rewrite Hjc, doneCalls_done.
        change (doneCalls (withJoins _ w)) with (doneCalls w).
        rewrite Hq. reflexivity.
    + destruct Hw as [(jn0 & Hjn0 & Hc0) Hwd].
      rewrite Hjn in Hjn0. injection Hjn0 as <-.
      assert (Hj0 : j <> 0) by (specialize (A5 _ _ _ Hjn Hc0); lia).
      constructor; simpl; auto.
      * intros x jx' Hx. specialize (Hnest x). fold js'.
        rewrite Hold, Hnew, Hjc, Hc0 in Hnest. cbn [andb] in Hnest.
        destruct (F2 _ _ Hx) as [[-> ->]|[Hne Hx']].
        -- specialize (A2 _ _ Hjn). cbn [tally] in A2. rewrite Hrep in A2. rewrite Hdc, Htot.
           cbn [tally]. destruct (reportsTo j done); lia.
        -- specialize (A2 _ _ Hx'). cbn [tally] in A2. rewrite (Hother _ Hne) in A2.
           cbn [tally]. destruct (reportsTo x done); lia.
      * constructor; auto. eapply wired_mono; eauto.
      * exists j0. split; auto. unfold js'. rewrite list_lookup_insert_ne; auto.
  - (* other entries are still to call back *)
    apply Nat.eqb_neq in Hlast.
    assert (Hjc : isOpen jn' = true).
    { unfold isOpen. simpl. apply Nat.ltb_lt. lia. }
    constructor; simpl; auto.
    + intros x jx' Hx. specialize (Hnest x). fold js'.
      rewrite Hold, Hnew, Hjc in Hnest. cbn [andb] in Hnest.
      destruct (F2 _ _ Hx) as [[-> ->]|[Hne Hx']].
      * specialize (A2 _ _ Hjn). cbn [tally] in A2. rewrite Hrep in A2. rewrite Hdc, Htot. lia.
      * specialize (A2 _ _ Hx'). cbn [tally] in A2. rewrite (Hother _ Hne) in A2. lia.
    + destruct (decide (j = 0)) as [->|Hne].
      * exists jn'. split; [apply list_lookup_insert_eq; auto|].
        rewrite Hjc. exact Hq.
      * exists j0. split; [unfold js'; rewrite list_lookup_insert_ne; auto|].
        exact Hd0.
Qed.

(** Running a callback that was held. *)
Lemma accounted_invoke cb held w :
  accounted w (cb :: held) -> accounted (invoke cb None w) held.
Proof.
  revert held w. induction cb as [j i|j i done IH]; intros held w Hacc; simpl.
  - pose proof (accounted_entryDone j i _ _ _ Hacc eq_refl) as H.
    destruct (entryDone j i None w) as [w' [err|]]; auto.
    destruct H as [-> H]. exact H.
  - pose proof (accounted_entryDone j i _ _ _ Hacc eq_refl) as H.
    destruct (entryDone j i None w) as [w' [err|]]; auto.
    destruct H as [-> H]. apply IH. exact H.
Qed.

Lemma tally_entries x j done l :
  tally (reportsTo x) (map (fun i => Clb j i done) l)
  = if Nat.eqb j x then length l else 0.
Proof.
  induction l as [|i l IH]; simpl.
  - destruct (Nat.eqb j x); reflexivity.
  - rewrite IH. unfold reportsTo. simpl. destruct (Nat.eqb j x); reflexivity.
Qed.

Lemma tally_roots x j l :
  tally (reportsTo x) (map (PerEntry j) l)
  = if Nat.eqb j x then length l else 0.
Proof.
  induction l as [|i l IH]; simpl.
  - destruct (Nat.eqb j x); reflexivity.
  - rewrite IH. unfold reportsTo. simpl. destruct (Nat.eqb j x); reflexivity.
Qed.

(** [recurseWithNodeJS] starts a fan-out over [n] entries and gives it the
    callback it holds; it now holds the callbacks of the entries. *)
Lemma accounted_fork n done held w :
  0 < n -> accounted w (done :: held) ->
  accounted (withJoins (fun js => js ++ [newJoin n (Some done)]) w)
    (map (fun i => Clb (length (joins w)) i done) (seq 0 n) ++ held).
Proof.
  intros Hn [A1 A2 A3 A4 A5 A6 A7 A8].
  assert (Hw : wired (joins w) done) by (inversion A4; auto).
  assert (Hheld : Forall (wired (joins w)) held) by (inversion A4; auto).
  pose proof (wired_lt _ _ Hw) as Hlt.
  set (new := newJoin n (Some done)).
  assert (Hmono : forall cb, wired (joins w) cb -> wired (joins w ++ [new]) cb).
  { intros cb. apply wired_mono. intros j jn Hj. exists jn. split; auto.
    apply lookup_app_l_Some. exact Hj. }
  assert (Hnew : (joins w ++ [new]) !! length (joins w) = Some new).
  { rewrite lookup_app_r by lia. rewrite Nat.sub_diag. reflexivity. }
  assert (Hcase : forall x jx, (joins w ++ [new]) !! x = Some jx ->
            joins w !! x = Some jx \/ (x = length (joins w) /\ jx = new)).
  { intros x jx Hx. apply lookup_app_Some in Hx.
    destruct Hx as [Hx|[Hge Hx]]; auto. right.
    destruct (x - length (joins w)) as [|k] eqn:Hk; simpl in Hx; [|discriminate].
    injection Hx as <-. split; auto. lia. }
  assert (Ho : isOpen new = true) by (apply Nat.ltb_lt; exact Hn).
  constructor; simpl; auto.
  - intros x jx Hx. rewrite !tally_app, tally_entries, length_seq. cbn [tally].
    change (nestedIn x new) with (isOpen new && reportsTo x done). rewrite Ho.
    cbn [andb]. destruct (Hcase _ _ Hx) as [Hx'|[-> ->]].
    + specialize (A2 _ _ Hx'). cbn [tally] in A2.
      assert (Hne : Nat.eqb (length (joins w)) x = false).
      { apply Nat.eqb_neq. apply lookup_lt_Some in Hx'. lia. }
      rewrite Hne. lia.
    + rewrite Nat.eqb_refl.
      assert (Hd : reportsTo (length (joins w)) done = false).
      { unfold reportsTo. apply Nat.eqb_neq. lia. }
      rewrite Hd.
      rewrite (tally_none (waitsOn (length (joins w))) (pending w)).
      2:{ intros i p Hp. destruct (Forall_lookup_1 _ _ _ _ A3 Hp) as (cb & Hcb & Hwc).
          unfold waitsOn, reportsTo. rewrite Hcb. apply Nat.eqb_neq.
          apply wired_lt in Hwc. lia. }
      rewrite (tally_none (nestedIn (length (joins w))) (joins w)).
      2:{ intros i jn Hjn. unfold nestedIn.
          destruct (callback jn) as [d|] eqn:Hc; [|apply andb_false_r].
          specialize (A5 _ _ _ Hjn Hc). apply lookup_lt_Some in Hjn.
          unfold reportsTo. replace (Nat.eqb (headJoin d) (length (joins w))) with false.
          - apply andb_false_r.
          - symmetry. apply Nat.eqb_neq. lia. }
      rewrite (tally_none (reportsTo (length (joins w))) held).
      2:{ intros i cb Hcb. pose proof (Forall_lookup_1 _ _ _ _ Hheld Hcb) as Hwc.
          unfold reportsTo. apply Nat.eqb_neq. apply wired_lt in Hwc. lia. }
      simpl. lia.
  - eapply Forall_impl; [exact A3|]. intros p (cb & Hcb & Hwc). eauto.
  - apply Forall_app. split.
    + apply Forall_forall. intros cb Hin. apply list_elem_of_fmap in Hin.
      destruct Hin as (i & -> & _). simpl. split; [|auto].
      exists new. split; auto.
    + eapply Forall_impl; [exact Hheld|]. auto.
  - intros x jx d Hx Hc. destruct (Hcase _ _ Hx) as [Hx'|[-> ->]]; eauto.
    simpl in Hc. injection Hc as <-. exact Hlt.
  - intros x jx Hx Hc. destruct (Hcase _ _ Hx) as [Hx'|[-> ->]]; eauto.
    discriminate.
  - apply Forall_app. split; auto. constructor; auto. reflexivity.
  - destruct A8 as (j0 & H0 & Hd). exists j0. split; auto.
    apply lookup_app_l_Some. exact H0.
Qed.

(** [walk] starts the fan-out over the root paths. *)
Lemma accounted_roots n w :
  0 < n -> hung w = false -> joins w = [] -> pending w = [] ->
  doneCalls w = [] ->
  accounted (withJoins (fun js => js ++ [newJoin n None]) w)
    (map (PerEntry 0) (seq 0 n)).
Proof.
  intros Hn Hh Hj Hp Hd.
  assert (Ho : isOpen (newJoin n None) = true) by (apply Nat.ltb_lt; exact Hn).
  constructor; simpl; rewrite ?Hj, ?Hp; simpl; auto.
  - intros [|x] jx Hx; simpl in Hx; [|discriminate]. injection Hx as <-.
    rewrite tally_roots, length_seq. unfold nestedIn. simpl. rewrite andb_false_r.
    simpl. lia.
  - apply Forall_forall. intros cb Hin. apply list_elem_of_fmap in Hin.
    destruct Hin as (i & -> & _). simpl. eexists. split; reflexivity.
  - intros [|x] jx d Hx Hc; simpl in Hx; [|discriminate]. injection Hx as <-.
    discriminate.
  - intros [|x] jx Hx Hc; simpl in Hx; [auto|discriminate].
  - repeat constructor.
  - eexists. split; [reflexivity|]. rewrite Ho. exact Hd.
Qed.

(** The loop of [flow.parallel] uses up the callbacks of the entries, one
    for each entry. *)
Lemma forEachFrom_accounted {A : Type} (mk : nat -> Callback)
    (fn : nat -> A -> World -> World) held :
  (forall i x w rest, accounted w (mk i :: rest) -> accounted (fn i x w) rest) ->
  forall items i w,
    accounted w (map mk (seq i (length items)) ++ held) ->
    accounted (forEachFrom fn i items w) held.
Proof.
  intros Hfn. induction items as [|x items IH]; intros i w Hacc; simpl in *; auto.
Qed.

Section Accounting.

Context (env : Env).

Lemma recurseWithNodeJS_accounted a r files done held w :
  accounted w (done :: held) ->
  accounted (recurseWithNodeJS env a r files done w) held.
Proof.
  intros Hacc. unfold recurseWithNodeJS, parallel.
  destruct files as [|f rest] eqn:Hf; [apply accounted_invoke; exact Hacc|].
  assert (Hn : 0 < length files) by (rewrite Hf; simpl; lia).
  rewrite <- Hf. clear Hf.
  apply forEachFrom_accounted
    with (mk := fun i => Clb (length (joins w)) i done).
  - intros i x w' held' Hw'.
    repeat branch; auto using accounted_invoke.
    apply (accounted_request _ (Clb (length (joins w)) i done)); auto.
  - apply accounted_fork; auto.
Qed.

Lemma recurse_accounted a files done held w :
  accounted w (done :: held) -> accounted (recurse env a files done w) held.
Proof.
  intros Hacc. unfold recurse, recurseWithNativeCommand. branch.
  - apply recurseWithNodeJS_accounted.
    revert Hacc. apply accounted_frame; auto.
  - apply (accounted_request _ done); auto.
    revert Hacc. apply accounted_frame; auto.
Qed.

Lemma walkInto_accounted a files cb m held w :
  accounted w (cb :: held) -> accounted (walkInto env a files cb m w) held.
Proof.
  intros Hacc. unfold walkInto. apply recurse_accounted.
  destruct m; auto using accounted_onResult.
Qed.

Lemma walkChildren_accounted rp c r children cb held w :
  accounted w (cb :: held) ->
  accounted (walkChildren env rp c r children cb w) held.
Proof.
  intros Hacc. unfold walkChildren. branch; auto using accounted_invoke.
  apply recurseWithNodeJS_accounted.
  revert Hacc. apply accounted_frame; auto.
Qed.

Lemma nativeFile_accounted a m p cb held w :
  accounted w (cb :: held) -> accounted (nativeFile env a m p w) (cb :: held).
Proof.
  intros Hacc. unfold nativeFile. repeat branch; auto using accounted_report.
Qed.

(** The callback of a request either returns with the books balanced, or
    never returns (the loop over the parents of a folder listed by the native
    command): [done] has not been called then, and never will be. *)
Lemma handle_accounted p cb w :
  callbackOf p = Some cb -> accounted w [cb] ->
  accounted (handle env p w) [] \/
  (hung (handle env p w) = true /\ doneCalls (handle env p w) = []).
Proof.
  intros Hcb Hacc. destruct p; simpl in Hcb; try discriminate;
    injection Hcb as ->; simpl.
  - left. unfold onReaddirRoot, checkFilePatternRelativeMatch.
    repeat branch;
      auto using accounted_invoke, accounted_report, walkInto_accounted.
    all: apply (accounted_request _ cb); auto.
  - left. apply walkInto_accounted; auto.
  - left. unfold onReaddirEntry.
    repeat branch; auto using accounted_invoke, accounted_report.
    all: apply (accounted_request _ cb); auto.
  - left. unfold onLstatLink.
    repeat branch; auto using accounted_invoke, walkChildren_accounted.
    all: apply (accounted_request _ cb); auto.
  - left. unfold onRealpathLink.
    repeat branch; auto using accounted_invoke, walkChildren_accounted.
  - unfold onNativeClose.
    assert (H0 : accounted (withWalker (setRunningNative None) w) [cb]).
    { revert Hacc. apply accounted_frame; auto. }
    repeat branch.
    + left. apply accounted_invoke; auto.
    + left. apply accounted_invoke. apply fold_left_keeps; auto.
      intros x w'. apply nativeFile_accounted.
    + right. split; [reflexivity|].
      apply (held_quiet _ _ _ Hacc).
Qed.

(** [walk], once it knows whether the file pattern names a file. *)
Lemma walkRoots_accounted roots b w :
  hung w = false -> joins w = [] -> pending w = [] -> doneCalls w = [] ->
  match roots with
  | [] =>
      let w' := walkRoots roots b w in
      hung w' = false /\ joins w' = [] /\ pending w' = [] /\
      doneCalls w' = [(None, isLimitHit (walker w'))]
  | _ :: _ => accounted (walkRoots roots b w) []
  end.
Proof.
  intros Hh Hj Hp Hd. unfold walkRoots, parallel.
  set (w1 := match b, filePattern (walker w) with
             | true, Some pat => onResult pat w
             | _, _ => w
             end).
  assert (H1 : hung w1 = false /\ joins w1 = [] /\ pending w1 = [] /\
               doneCalls w1 = []).
  { unfold w1. repeat branch; auto. }
  destruct H1 as (Hh1 & Hj1 & Hp1 & Hd1).
  destruct roots as [|r rest] eqn:Hr.
  - simpl. rewrite doneCalls_done, Hd1. auto.
  - rewrite <- Hr. rewrite Hj1. simpl length at 1.
    apply forEachFrom_accounted with (mk := PerEntry 0) (held := []).
    + intros i x w' held' Hw'.
      apply (accounted_request _ (PerEntry 0 i)); auto.
    + rewrite app_nil_r. apply accounted_roots; auto.
      rewrite Hr. simpl. lia.
Qed.

End Accounting.

(** With no request outstanding and no callback held, every fan-out is
    closed: an open one would wait for a fan-out nested in it, which was
    started later and is open as well. *)
Lemma all_closed w :
  accounted w [] -> pending w = [] ->
  forall n j jn,
    length (joins w) <= j + n -> joins w !! j = Some jn -> isOpen jn = false.
Proof.
  intros Hacc Hp. induction n as [|n IH]; intros j jn Hn Hj.
  - apply lookup_lt_Some in Hj. lia.
  - pose proof (acc_balance _ _ Hacc _ _ Hj) as Hb. rewrite Hp in Hb.
    rewrite (tally_none (nestedIn j) (joins w)) in Hb.
    + simpl in Hb. unfold isOpen. apply Nat.ltb_ge. lia.
    + intros x jx Hx. unfold nestedIn.
      destruct (isOpen jx) eqn:Ho; [|reflexivity].
      destruct (callback jx) as [d|] eqn:Hc; [|reflexivity].
      unfold reportsTo. destruct (Nat.eqb (headJoin d) j) eqn:He; [|reflexivity].
      apply Nat.eqb_eq in He. pose proof (acc_parent _ _ Hacc _ _ _ Hx Hc) as Hlt.
      rewrite (IH x jx) in Ho; [discriminate|lia|exact Hx].
Qed.

(** The states of a search: blocked for good; waiting for the [fs.stat] of
    the file pattern; over without a root path to walk; walking. *)
Inductive orderly (w : World) : Prop :=
| orderly_blocked : hung w = true -> doneCalls w = [] -> orderly w
| orderly_starting pat roots :
    hung w = false -> joins w = [] -> doneCalls w = [] ->
    pending w = [StatFilePattern pat roots] -> orderly w
| orderly_nothing :
    hung w = false -> joins w = [] -> pending w = [] ->
    doneCalls w = [(None, isLimitHit (walker w))] -> orderly w
| orderly_walking : accounted w [] -> orderly w.

Section Orderly.

Context (env : Env).

Lemma walkRoots_orderly roots b w :
  hung w = false -> joins w = [] -> pending w = [] -> doneCalls w = [] ->
  orderly (walkRoots roots b w).
Proof.
  intros Hh Hj Hp Hd.
  pose proof (walkRoots_accounted roots b w Hh Hj Hp Hd) as H.
  destruct roots as [|r rest].
  - destruct H as (H1 & H2 & H3 & H4). apply orderly_nothing; auto.
  - apply orderly_walking. exact H.
Qed.

Lemma walk_orderly cfg roots : orderly (walk env roots (fresh env cfg)).
Proof.
  unfold walk, checkFilePatternAbsoluteMatch.
  repeat branch; try (apply walkRoots_orderly; reflexivity).
  eapply orderly_starting; reflexivity.
Qed.

Lemma step_orderly e w : orderly w -> orderly (step env e w).
Proof.
  intros Hw. destruct e as [i|]; simpl.
  - unfold fire. destruct (hung w) eqn:Hh; [exact Hw|].
    destruct (pending w !! i) as [p|] eqn:Hp; [|exact Hw].
    destruct Hw as [Hb _|pat roots _ Hj Hd Hq|_ _ Hq _|Hacc].
    + congruence.
    + rewrite Hq in Hp. destruct i as [|i]; simpl in Hp; [|discriminate].
      injection Hp as <-. simpl. apply walkRoots_orderly; simpl; auto.
      rewrite Hq. reflexivity.
    + rewrite Hq in Hp. discriminate.
    + destruct (Forall_lookup_1 _ _ _ _ (acc_pending _ _ Hacc) Hp)
        as (cb & Hcb & _).
      pose proof (accounted_take i p cb w [] Hp Hcb Hacc) as H0.
      destruct (handle_accounted env p cb _ Hcb H0) as [H|[H1 H2]].
      * apply orderly_walking. exact H.
      * apply orderly_blocked; auto.
  - assert (Hl : isLimitHit (walker (cancel w)) = isLimitHit (walker w)).
    { unfold cancel, terminateNative. simpl. branch; reflexivity. }
    destruct Hw as [Hb Hd|pat roots Hh Hj Hd Hq|Hh Hj Hq Hd|Hacc].
    + apply orderly_blocked; auto.
    + eapply orderly_starting; eauto.
    + apply orderly_nothing; auto. rewrite Hl. exact Hd.
    + apply orderly_walking. revert Hacc. apply accounted_frame; auto.
Qed.

Lemma search_orderly cfg roots events : orderly (search env cfg roots events).
Proof.
  unfold search. apply run_keeps; auto using step_orderly, walk_orderly.
Qed.

Lemma turns_orderly w n w' : orderly w -> turns env w n w' -> orderly w'.
Proof.
  intros Hw Ht. induction Ht; auto.
  - apply IHHt. apply (step_orderly (Fire i)). exact Hw.
  - apply IHHt. apply (step_orderly Cancel). exact Hw.
Qed.

End Orderly.

(** What an orderly search tells its caller: [done] is called at most once,
    without an error and with the limit flag; no request is outstanding once it
    has been called; and it has been called when no request is outstanding,
    unless the search is blocked. *)
Lemma orderly_done w :
  orderly w ->
  (doneCalls w = [] \/ doneCalls w = [(None, isLimitHit (walker w))]) /\
  (doneCalls w <> [] -> pending w = []) /\
  (pending w = [] -> hung w = false ->
   doneCalls w = [(None, isLimitHit (walker w))]).
Proof.
  intros [Hb Hd|pat roots Hh Hj Hd Hq|Hh Hj Hq Hd|Hacc].
  - rewrite Hd. repeat split; auto; congruence.
  - rewrite Hd, Hq. repeat split; auto; congruence.
  - rewrite Hd. repeat split; auto.
  - destruct (acc_walk _ _ Hacc) as (j0 & H0 & Hd). repeat split.
    + rewrite Hd. destruct (isOpen j0); auto.
    + intros Hne. destruct (pending w) as [|p ps] eqn:Hp; auto.
      exfalso. apply Hne. apply (pending_quiet w [] 0 p Hacc).
      rewrite Hp. reflexivity.
    + intros Hp _. rewrite Hd.
      rewrite (all_closed w Hacc Hp (length (joins w)) 0 j0 (Nat.le_refl _) H0).
      reflexivity.
Qed.

End FileWalkerFacts.

(** ** The claims about the file walker *)

Module WalkerClaims.

Import FileWalker FileWalkerFacts.

(** *** C7: what [walk] resets *)

Lemma walker_walkRoots roots w :
  walker (walkRoots roots false w) = walker w /\
  results (walkRoots roots false w) = results w.
Proof.
  unfold walkRoots, parallel. destruct roots as [|r rest]; [auto|].
  match goal with
  | |- context [forEachFrom ?fn ?i ?items ?w1] =>
      apply (forEachFrom_keeps
               (fun w' => walker w' = walker w /\ results w' = results w)
               fn items); [|auto]
  end.
  intros i x w' Hw'. exact Hw'.
Qed.

(** C7 (amended): [walk] starts by clearing [walkedPaths], [resultCount] and
    [isLimitHit] and by forgetting the native command; it does this before
    any request is made, and its own turn delivers no result.  [isCanceled] is
    not reset: it keeps the value it had before the call. *)
Theorem walk_resets_counters_not_cancel (env : Env) (roots : list string)
    (w : World) :
  walker (walk env roots w) = resetState (walker w) /\
  results (walk env roots w) = results w /\
  walkedPaths (resetState (walker w)) = ∅ /\
  resultCount (resetState (walker w)) = 0 /\
  isLimitHit (resetState (walker w)) = false /\
  runningNative (resetState (walker w)) = None /\
  isCanceled (resetState (walker w)) = isCanceled (walker w).
Proof.
  split; [|split].
  - unfold walk, checkFilePatternAbsoluteMatch.
    repeat branch; try reflexivity;
      apply (proj1 (walker_walkRoots roots (withWalker resetState w))).
  - unfold walk, checkFilePatternAbsoluteMatch.
    repeat branch; try reflexivity;
      apply (proj2 (walker_walkRoots roots (withWalker resetState w))).
  - unfold resetState, terminateNative. simpl.
    destruct (runningNative (walker w)) eqn:Hn; simpl; repeat split; auto.
Qed.

(** C7, as stated, fails: a walker that was cancelled stays cancelled through
    the next [walk], which then delivers nothing, while the same search on a
    walker that was never cancelled delivers both files. *)
Lemma walk_keeps_isCanceled :
  let E := Posix.env Posix.projDisk Posix.noListing in
  let cfg := Posix.plain None true in
  let cancelled := run E (fifo 6) (walk E ["/proj"] (cancel (fresh E cfg))) in
  let untouched := run E (fifo 6) (walk E ["/proj"] (fresh E cfg)) in
  isCanceled (walker (walk E ["/proj"] (cancel (fresh E cfg)))) = true /\
  results cancelled = [] /\
  doneCalls cancelled = [(None, false)] /\
  results untouched = ["/proj/a.txt"; "/proj/src/b.txt"].
Proof. vm_compute. repeat split. Qed.

(** *** C1: the cap on the results *)







(** *** C3: errors of directory reads *)








(** *** C4: symbolic link cycles *)

Lemma once_turns env w n w' :
  once env w -> turns env w n w' -> once env w'.
Proof.
  intros Hw Ht. induction Ht; auto.
  - apply IHHt. apply (once_step env (Fire i)). exact Hw.
  - apply IHHt. apply (once_step env Cancel). exact Hw.
Qed.

(** C4 (amended): on a finite tree of real folders with symbolic links,
    cycles included, the portable walk runs at most [bound] callbacks, none
    of which blocks, whatever the order in which the requests complete.  Each
    folder below a root is remembered in [walkedPaths] before it is walked,
    under the target of the link when it is reached through a link and under
    its own path otherwise, and no key is walked twice.  (The roots themselves
    are not remembered.)  [done] is called when the last callback has run,
    and not before. *)
Theorem portable_walk_ends (env : Env) (depth : string -> nat) (D B : nat)
    (R : list string) (cfg : IRawSearch) (roots : list string) (n : nat)
    (w : World) :
  finiteTree env depth D B R ->
  cfg_disableFastFileLookup cfg = true ->
  turns env (walk env roots (fresh env cfg)) n w ->
  n <= bound D B R roots /\
  hung w = false /\
  NoDup (visitedKeys w) /\
  (forall r, r ∈ visitedKeys w -> r ∈ walkedPaths (walker w)) /\
  Forall (keyedVisit env) (visits w) /\
  (pending w = [] -> doneCalls w = [(None, isLimitHit (walker w))]) /\
  (pending w <> [] -> doneCalls w = []).
Proof.
  intros Htree Hport Ht.
  destruct (orderly_done w
              (turns_orderly env _ _ _ (walk_orderly env cfg roots) Ht))
    as (_ & Hquiet & Hdone).
  destruct (walk_measure env depth D B R cfg roots) as [Hm Hwf].
  pose proof (turns_bounded env depth D B R Htree _ _ _ Hwf Ht) as Hn.
  pose proof (portable_turns env _ _ _ (portable_walk env cfg roots Hport) Ht)
    as (_ & Hh & _).
  pose proof (once_turns env _ _ _ (once_search env cfg roots []) Ht)
    as (Hnd & Hin & Hkey & _).
  repeat split; auto; [lia|].
  intros Hp. destruct (doneCalls w) as [|d ds]; [reflexivity|].
  destruct Hp. apply Hquiet. discriminate.
Qed.

(** The disk [loopDisk], whose link /r/l points back to /r, is a finite tree
    with links. *)
Section LoopDisk.

Import Posix.

Lemma app_cons c s t : String c s +:+ t = String c (s +:+ t).
Proof. reflexivity. Qed.
Lemma app_nil t : "" +:+ t = t.
Proof. reflexivity. Qed.

Lemma app_assoc3 a b c : (a +:+ b) +:+ c = a +:+ (b +:+ c).
Proof. induction a as [|x a IH]; [reflexivity|]. rewrite !app_cons, IH. reflexivity. Qed.

Lemma length_app a b :
  String.length (a +:+ b) = String.length a + String.length b.
Proof. induction a as [|x a IH]; [reflexivity|]. rewrite app_cons. simpl. rewrite IH. reflexivity. Qed.

Lemma splitLast_join p name :
  splitLast name = None -> splitLast (p +:+ "/" +:+ name) = Some (p, name).
Proof.
  intros Hn. induction p as [|c p IH].
  - rewrite app_nil, app_cons, app_nil. simpl. rewrite Hn. reflexivity.
  - rewrite app_cons. simpl. rewrite IH. reflexivity.
Qed.

Lemma readdir_loop p fs :
  Posix.readdir loopDisk p = IOOk fs -> real loopDisk p = "/r" /\ fs = ["f"; "l"].
Proof.
  unfold Posix.readdir. cbn -[String.eqb real].
  destruct (String.eqb "/r" (real loopDisk p)) eqn:Hr.
  - apply String.eqb_eq in Hr. intros [= <-]. auto.
  - destruct (String.eqb (real loopDisk p) "/r/f"); discriminate.
Qed.

Lemma below_app l p tail x :
  below l p = Some tail -> below l (p +:+ "/" +:+ x) = Some (tail +:+ "/" +:+ x).
Proof.
  unfold below. revert p. induction l as [|c l IH]; intros p.
  - destruct p as [|d p].
    + cbn. intros [= <-]. reflexivity.
    + rewrite app_cons. cbn -[Ascii.eqb String.append].
      destruct (Ascii.eqb d "/"); [|discriminate].
      intros [= <-]. reflexivity.
  - destruct p as [|d p]; [cbn; discriminate|].
    rewrite app_cons. cbn -[Ascii.eqb String.append].
    destruct (ascii_dec c d); [|discriminate].
    apply IH.
Qed.

Lemma resolve_file n : forall m p,
  resolve n loopDisk p = "/r" -> n <= m ->
  resolve m loopDisk (p +:+ "/" +:+ "f") = "/r/f".
Proof.
  induction n as [|n IH]; intros m p Hp Hle; simpl in Hp.
  - subst p. destruct m; reflexivity.
  - destruct (below "/r/l" p) as [tail|] eqn:Hb.
    + destruct m as [|m]; [lia|]. simpl.
      rewrite (below_app _ _ _ "f" Hb).
      rewrite <- app_assoc3. apply IH; [exact Hp|lia].
    + subst p. destruct m; reflexivity.
Qed.

Lemma loopDisk_finiteTree :
  finiteTree (env loopDisk noListing) (fun _ => 0) 0 2 ["/r"; "/r/f"].
Proof.
  split.
  - intros p fs Hp. apply readdir_loop in Hp as [_ ->]. simpl. lia.
  - intros p. lia.
  - intros p fs f ch Hp Hf Hc Hl. exfalso.
    apply readdir_loop in Hp as [Hp ->].
    apply readdir_loop in Hc as [Hc _].
    apply elem_of_cons in Hf as [->|Hf].
    + unfold env, FileWalker.join, join, real in Hc, Hp.
      rewrite (resolve_file _ _ p Hp) in Hc; [discriminate|].
      rewrite !length_app. simpl. lia.
    + apply list_elem_of_singleton in Hf as ->.
      revert Hl. unfold env, FileWalker.lstat, FileWalker.join, join, lstat.
      rewrite (splitLast_join p "l" eq_refl), Hp. cbn. discriminate.
  - intros p r _. unfold env, FileWalker.realpath, realpath, exists_.
    cbn -[String.eqb real].
    destruct (String.eqb (real loopDisk p) "/r/f") eqn:H1.
    + apply String.eqb_eq in H1. cbn. intros [= <-]. rewrite H1.
      apply list_elem_of_In. simpl. auto.
    + destruct (String.eqb "/r" (real loopDisk p)) eqn:H2; [|cbn; discriminate].
      apply String.eqb_eq in H2. cbn. intros [= <-]. rewrite <- H2.
      apply list_elem_of_In. simpl. auto.
Qed.

End LoopDisk.

Lemma portable_walk_ends_witness :
  let E := Posix.env Posix.loopDisk Posix.noListing in
  let started := walk E ["/r"] (fresh E (Posix.plain None true)) in
  let w := run E (fifo 9) started in
  9 <= bound 0 2 ["/r"; "/r/f"] ["/r"] /\
  hung w = false /\
  NoDup (visitedKeys w) /\
  (forall r, r ∈ visitedKeys w -> r ∈ walkedPaths (walker w)) /\
  Forall (keyedVisit E) (visits w) /\
  (pending w = [] -> doneCalls w = [(None, isLimitHit (walker w))]) /\
  (pending w <> [] -> doneCalls w = []).
Proof.
  intros E started w.
  assert (Ht : turns E started 9 w).
  { unfold w.
    change (run E (fifo 9) started)
      with (fire E 0 (fire E 0 (fire E 0 (fire E 0 (fire E 0
             (fire E 0 (fire E 0 (fire E 0 (fire E 0 started))))))))).
    do 9 (eapply (turns_fire _ _ 0);
            [vm_compute; reflexivity|vm_compute; reflexivity|]).
    apply turns_stop. }
  exact (portable_walk_ends E (fun _ => 0) 0 2 ["/r"; "/r/f"]
           (Posix.plain None true) ["/r"] 9 w loopDisk_finiteTree eq_refl Ht).
Defined.

(** C4, as stated, fails: /r holds a link l to /r itself.  The walk reads the
    root /r and then walks /r/l, whose real path is /r again, so the real
    folder /r is walked twice and its file is reported twice. *)
Lemma linked_root_walked_twice :
  let E := Posix.env Posix.loopDisk Posix.noListing in
  let w := search E (Posix.plain None true) ["/r"] (fifo 9) in
  map dir (rev (visits w)) = ["/r"; "/r/l"] /\
  map (realpath E) (map dir (rev (visits w))) = [IOOk "/r"; IOOk "/r"] /\
  results w = ["/r/f"; "/r/l/f"] /\
  doneCalls w = [(None, false)] /\
  pending w = [].
Proof. vm_compute. repeat split. Qed.

(** *** C2: results after the limit or a cancellation *)

(** Where the file pattern is a plain name, C2 holds: once [isCanceled] or
    [isLimitHit] is set, no callback and no call of [cancel] delivers a further
    result, and the results delivered before stay as they are. *)
Lemma plain_walk_stays_quiet (env : Env) (cfg : IRawSearch)
    (roots : list string) (before after : list Event) :
  isPlainPattern env cfg = true ->
  let w := search env cfg roots before in
  stopped (walker w) = true ->
  results (run env after w) = results w /\
  stopped (walker (run env after w)) = true.
Proof.
  intros Hplain w Hs.
  assert (Hw : quiet env None w).
  { unfold w, search. apply run_keeps; auto using quiet_step, quiet_walk. }
  assert (Hq : quiet env (Some (results w)) w).
  { destruct Hw as [H1 H2 _]. split; auto. intros r [= <-]. auto. }
  assert (Hafter : quiet env (Some (results w)) (run env after w)).
  { apply run_keeps; auto using quiet_step. }
  destruct (quiet_results _ _ _ Hafter _ eq_refl) as [H1 H2]. auto.
Qed.

(** C2 fails on this run: the file pattern is the absolute path of an
    existing file, and the owner cancels while the [fs.stat] of
    [checkFilePatternAbsoluteMatch] is outstanding.  The callback of the stat
    reports the file although [isCanceled] is set; the callbacks that follow
    report nothing more. *)
Lemma result_delivered_after_cancel :
  let E := Posix.env Posix.projDisk Posix.noListing in
  let cfg := Posix.withPattern "/proj/a.txt" (Posix.plain None true) in
  let started := walk E ["/proj/src"] (fresh E cfg) in
  let cancelled := cancel started in
  let after := fire E 0 cancelled in
  pending started = [StatFilePattern "/proj/a.txt" ["/proj/src"]] /\
  isCanceled (walker cancelled) = true /\
  results cancelled = [] /\
  results after = ["/proj/a.txt"] /\
  results (run E (fifo 4) after) = ["/proj/a.txt"] /\
  doneCalls (run E (fifo 4) after) = [(None, false)].
Proof. vm_compute. repeat split. Qed.

(** The same happens after the limit: with [maxResults = 1] the two roots
    that are files use up the limit while the [fs.stat] of
    [checkFilePatternRelativeMatch] for the root /proj is outstanding; its
    callback then reports /proj/src/b.txt although [isLimitHit] is set. *)
Lemma result_delivered_after_limit :
  let E := Posix.env Posix.rootsDisk Posix.noListing in
  let cfg := Posix.withPattern "src/b.txt" (Posix.plain (Some 1) true) in
  let started := walk E ["/proj"; "/x/src/b.txt"; "/y/src/b.txt"] (fresh E cfg) in
  let limited := run E (fifo 3) started in
  let after := fire E 0 limited in
  results limited = ["/x/src/b.txt"] /\
  isLimitHit (walker limited) = true /\
  pending limited = [StatRelative "/proj" "/proj/src/b.txt" ["a.txt"; "src"]
                       (PerEntry 0 0)] /\
  results after = ["/x/src/b.txt"; "/proj/src/b.txt"].
Proof. vm_compute. repeat split. Qed.

End WalkerClaims.

(** ** Properties of the embedded JavaScript mode *)

Module JavaScriptFacts.

Import JavaScriptMode.

(** *** Offsets and positions *)

(** [lo < x1 < x2 < ... <= hi] *)
Fixpoint ascending (lo : nat) (l : list nat) (hi : nat) : Prop :=
  match l with
  | [] => lo <= hi
  | x :: rest => lo < x /\ ascending x rest hi
  end.

Lemma lineOffsetsFrom_cons i c rest :
  lineOffsetsFrom i (String c rest) =
  if Ascii.eqb c CR then
    match rest with
    | String d rest' =>
        if Ascii.eqb d LF then (i + 2) :: lineOffsetsFrom (i + 2) rest'
        else (i + 1) :: lineOffsetsFrom (i + 1) rest
    | EmptyString => [i + 1]
    end
  else if Ascii.eqb c LF then (i + 1) :: lineOffsetsFrom (i + 1) rest
  else lineOffsetsFrom (i + 1) rest.
Proof. reflexivity. Qed.

Lemma ascending_from lo lo' l hi : lo <= lo' -> ascending lo' l hi -> ascending lo l hi.
Proof.
  destruct l; simpl; [lia|]. intros Hle [Hlt Hasc]. split; [lia|exact Hasc].
Qed.

Lemma lineOffsetsFrom_ascending n : forall text i,
  String.length text <= n ->
  ascending i (lineOffsetsFrom i text) (i + String.length text).
Proof.
  induction n as [|n IH]; intros text i Hn.
  - destruct text; simpl in *; lia.
  - destruct text as [|c rest]; [simpl; lia|].
    rewrite lineOffsetsFrom_cons.
    assert (Hrest : ascending (i + 1) (lineOffsetsFrom (i + 1) rest)
                      (i + String.length (String c rest))).
    { replace (i + String.length (String c rest))
        with (i + 1 + String.length rest) by (simpl; lia).
      apply IH. simpl in Hn. lia. }
    destruct (Ascii.eqb c CR).
    + destruct rest as [|d rest'].
      * simpl. lia.
      * destruct (Ascii.eqb d LF).
        -- split; [lia|].
           replace (i + String.length (String c (String d rest')))
             with (i + 2 + String.length rest') by (simpl; lia).
           apply IH. simpl in Hn. lia.
        -- split; [lia|]. exact Hrest.
    + destruct (Ascii.eqb c LF).
      * split; [lia|]. exact Hrest.
      * apply (ascending_from i (i + 1)); [lia|exact Hrest].
Qed.

(** [lineAt] finds the line that contains the offset. *)
Lemma lineAt_finds starts : forall s0 line0 offset hi,
  ascending s0 starts hi -> s0 <= offset ->
  exists s,
    line0 <= lineAt starts offset line0 /\
    (s0 :: starts) !! (lineAt starts offset line0 - line0) = Some s /\
    s <= offset /\
    match (s0 :: starts) !! S (lineAt starts offset line0 - line0) with
    | Some next => offset < next
    | None => True
    end.
Proof.
  induction starts as [|o rest IH]; intros s0 line0 offset hi Hasc Hle; simpl.
  - exists s0. rewrite Nat.sub_diag. simpl. auto.
  - destruct Hasc as [Hlt Hasc].
    destruct (Nat.leb o offset) eqn:Ho.
    + apply Nat.leb_le in Ho.
      destruct (IH o (S line0) offset hi Hasc Ho) as (s & H1 & H2 & H3 & H4).
      exists s.
      replace (lineAt rest offset (S line0) - line0)
        with (S (lineAt rest offset (S line0) - S line0)) by lia.
      simpl. repeat split; auto. lia.
    + apply Nat.leb_gt in Ho. exists s0. rewrite Nat.sub_diag. simpl. auto.
Qed.

Lemma offsetAt_positionAt (d : TextDocument) (offset : nat) :
  offsetAt d (positionAt d offset)
  = Nat.min offset (String.length (getText d)).
Proof.
  unfold offsetAt, positionAt, getLineOffsets. cbn [line character].
  set (off := Nat.min offset (String.length (getText d))).
  set (L := lineOffsetsFrom 0 (getText d)).
  set (k := lineAt L off 0).
  pose proof (lineOffsetsFrom_ascending _ (getText d) 0 (le_n _)) as Hasc.
  destruct (lineAt_finds L 0 0 off _ Hasc (Nat.le_0_l _))
    as (s & _ & Hs & Hle & Hnext).
  rewrite Nat.sub_0_r in Hs, Hnext. fold k in Hs, Hnext.
  rewrite Hs, (nth_lookup_Some _ _ 0 _ Hs).
  destruct ((0 :: L) !! S k); lia.
Qed.

(** *** Signatures *)

Lemma to_uint_nonnil n : Nat.to_uint n <> Decimal.Nil.
Proof.
  rewrite <- (DecimalNat.Unsigned.of_to n) at 1.
  rewrite DecimalNat.Unsigned.to_of. apply DecimalFacts.unorm_nonnil.
Qed.

Lemma ofNat_inj n m : Str.ofNat n = Str.ofNat m -> n = m.
Proof.
  unfold Str.ofNat. intros H.
  apply (f_equal NilZero.uint_of_string) in H.
  rewrite !NilZero.usu in H by apply to_uint_nonnil.
  injection H as H. apply DecimalNat.Unsigned.to_uint_inj, H.
Qed.

Lemma ofNat_defined n : Str.ofNat n <> "undefined".
Proof.
  unfold Str.ofNat. intros H.
  apply (f_equal NilZero.uint_of_string) in H.
  rewrite NilZero.usu in H by apply to_uint_nonnil. discriminate.
Qed.

Lemma startToString_inj a b : startToString a = startToString b -> a = b.
Proof.
  destruct a as [n|], b as [m|]; simpl; intros H; auto.
  - f_equal. apply ofNat_inj, H.
  - destruct (ofNat_defined _ H).
  - symmetry in H. destruct (ofNat_defined _ H).
Qed.

Lemma append_cancel s x y : s +:+ x = s +:+ y -> x = y.
Proof.
  induction s as [|c s IH]; intros H; [exact H|].
  apply IH. change (String c (s +:+ x) = String c (s +:+ y)) in H.
  congruence.
Qed.

(** Items with the same name and kind have the same signature only when
    they start at the same offset. *)
Lemma signature_start a b :
  itemText a = itemText b -> itemKind a = itemKind b ->
  signature a = signature b -> start (itemSpan a) = start (itemSpan b).
Proof.
  unfold signature. intros -> -> H.
  apply startToString_inj. eapply append_cancel, append_cancel, H.
Qed.

(** *** [findDocumentSymbols] over the items in document order *)

Section Symbols.

Context (document jsDocument : TextDocument).

Lemma item_induction (P : NavigationBarItem -> Prop) :
  (forall t k s children, Forall P children -> P (NavItem t k s children)) ->
  forall item, P item.
Proof.
  intros H. fix IH 1. intros [t k s children]. apply H.
  induction children as [|c rest IHrest]; constructor; [apply IH|exact IHrest].
Qed.

(** The walk of [collectSymbols] laid flat: the items in document order,
    the symbols collected, the keys of [existing], and the container label
    that [collectSymbols] passes down, kept by the path of the item that set
    it. *)
Record Flat := {
  collected : list SymbolInformation;
  seen : gset string;
  labelled : gmap (list nat) string
}.

(** [item.kind !== 'script' && !existing[sig]] *)
Definition fresh (item : NavigationBarItem) (existing : gset string) : bool :=
  negb (String.eqb (itemKind item) "script")
  && negb (bool_decide (signature item ∈ existing)).

Definition collect (f : Flat) (node : list nat * NavigationBarItem) : Flat :=
  let (path, item) := node in
  if fresh item (seen f) then
    {| collected :=
         collected f ++
         [symbolOf document jsDocument item (nearest (labelled f) path)];
       seen := {[signature item]} ∪ seen f;
       labelled := <[path := itemText item]> (labelled f) |}
  else f.

Definition nothing : Flat :=
  {| collected := []; seen := ∅; labelled := ∅ |}.

Lemma collectSymbols_unfold t k s children label st :
  collectSymbols document jsDocument (NavItem t k s children) label st =
  fold_left
    (fun acc child =>
       collectSymbols document jsDocument child
         (if fresh (NavItem t k s children) (existing st) then Some t else label)
         acc)
    children
    (if fresh (NavItem t k s children) (existing st)
     then {| result :=
               result st ++
               [symbolOf document jsDocument (NavItem t k s children) label];
             existing := {[signature (NavItem t k s children)]} ∪ existing st |}
     else st).
Proof. reflexivity. Qed.

Definition agrees (st : Symbols) (w : Flat) : Prop :=
  result st = collected w /\ existing st = seen w.

Lemma nearest_agree (Y Y' : gmap (list nat) string) path i i' :
  (forall q, q `suffix_of` path -> Y' !! q = Y !! q) ->
  nearest Y' (i :: path) = nearest Y (i' :: path).
Proof.
  revert i i'. induction path as [|j path IH]; intros i i' H; simpl.
  - rewrite (H [] (suffix_nil _)). reflexivity.
  - rewrite (H (j :: path) (reflexivity _)).
    destruct (Y !! (j :: path)); [reflexivity|].
    apply (IH j j). intros q Hq. apply H. apply suffix_cons_r, Hq.
Qed.

Lemma suffix_same_length (a b q : list nat) :
  a `suffix_of` q -> b `suffix_of` q -> List.length a = List.length b -> a = b.
Proof.
  intros [ka ->] [kb Hb] Hlen.
  apply app_inj_2 in Hb as [_ Hb]; auto.
Qed.

(** The items of a list of children agree when each of them does. *)
Lemma children_refine path (children : list NavigationBarItem) :
  Forall
    (fun item =>
       forall path st w,
         agrees st w ->
         (forall q, path `suffix_of` q -> labelled w !! q = None) ->
         agrees
           (collectSymbols document jsDocument item (nearest (labelled w) path) st)
           (fold_left collect (nodes path item) w) /\
         forall q, ~ path `suffix_of` q ->
           labelled (fold_left collect (nodes path item) w) !! q
           = labelled w !! q)
    children ->
  forall i0 st w label,
    agrees st w ->
    (forall j q, i0 <= j -> (j :: path) `suffix_of` q -> labelled w !! q = None) ->
    label = nearest (labelled w) (i0 :: path) ->
    agrees
      (fold_left
         (fun acc child => collectSymbols document jsDocument child label acc)
         children st)
      (fold_left collect
         (eachChild (fun i child => nodes (i :: path) child) children i0) w) /\
    forall q, (forall j, i0 <= j -> ~ (j :: path) `suffix_of` q) ->
      labelled
        (fold_left collect
           (eachChild (fun i child => nodes (i :: path) child) children i0) w) !! q
      = labelled w !! q.
Proof.
  induction 1 as [|c rest Hc Hrest IH]; intros i0 st w label Hag Hnone Hlabel.
  - simpl. auto.
  - simpl. rewrite fold_left_app. subst label.
    destruct (Hc (i0 :: path) st w Hag) as [Hag1 Hframe1].
    { intros q Hq. apply (Hnone i0 q); auto. }
    set (w1 := fold_left collect (nodes (i0 :: path) c) w) in *.
    destruct (IH (S i0)
                (collectSymbols document jsDocument c
                   (nearest (labelled w) (i0 :: path)) st)
                w1 (nearest (labelled w) (i0 :: path)) Hag1)
      as [Hag2 Hframe2].
    + intros j q Hj Hq. rewrite Hframe1.
      * apply (Hnone j q); [lia|exact Hq].
      * intros Hq0.
        pose proof (suffix_same_length _ _ _ Hq Hq0 eq_refl) as Heq.
        injection Heq as Heq. lia.
    + symmetry. apply nearest_agree. intros q Hq. apply Hframe1.
      intros Hq0. apply suffix_length in Hq, Hq0. simpl in Hq0. lia.
    + split; [exact Hag2|].
      intros q Hq. rewrite Hframe2.
      * apply Hframe1. apply (Hq i0). lia.
      * intros j Hj. apply Hq. lia.
Qed.

Lemma item_refines item :
  forall path st w,
    agrees st w ->
    (forall q, path `suffix_of` q -> labelled w !! q = None) ->
    agrees
      (collectSymbols document jsDocument item (nearest (labelled w) path) st)
      (fold_left collect (nodes path item) w) /\
    forall q, ~ path `suffix_of` q ->
      labelled (fold_left collect (nodes path item) w) !! q
      = labelled w !! q.
Proof.
  induction item as [t k s children IH] using item_induction.
  intros path st w [Hres Hex] Hnone.
  rewrite collectSymbols_unfold.
  change (nodes path (NavItem t k s children))
    with ((path, NavItem t k s children)
          :: eachChild (fun i child => nodes (i :: path) child) children 0).
  cbn [fold_left]. unfold collect at 2 4. cbn [fst snd].
  rewrite Hex.
  destruct (fresh (NavItem t k s children) (seen w)) eqn:Hy.
  - match goal with
    | |- context [fold_left _ children ?st1] =>
        match goal with
        | |- context [fold_left _ (eachChild _ children 0) ?w1] =>
            destruct (children_refine path children IH 0 st1 w1 (Some t))
              as [Hag Hframe]
        end
    end.
    + split; simpl; congruence.
    + intros j q _ Hq. simpl. rewrite lookup_insert_ne.
      * apply Hnone. eapply suffix_cons_l, Hq.
      * intros ->. apply suffix_length in Hq. simpl in Hq. lia.
    + simpl. rewrite lookup_insert_eq. reflexivity.
    + split; [exact Hag|].
      intros q Hq. rewrite Hframe.
      * simpl. apply lookup_insert_ne. intros ->. apply Hq. reflexivity.
      * intros j _ Hj. apply Hq. eapply suffix_cons_l, Hj.
  - destruct (children_refine path children IH 0 st w (nearest (labelled w) path))
      as [Hag Hframe].
    + split; assumption.
    + intros j q _ Hq. apply Hnone. eapply suffix_cons_l, Hq.
    + simpl. rewrite (Hnone path (reflexivity _)). reflexivity.
    + split; [exact Hag|].
      intros q Hq. apply Hframe.
      intros j _ Hj. apply Hq. eapply suffix_cons_l, Hj.
Qed.

(** The symbols [findDocumentSymbols] collects are those of the flat walk. *)
Lemma collectAll_flat items :
  result
    (collectAll document jsDocument None items {| result := []; existing := ∅ |})
  = collected (fold_left collect (forestNodes [] items) nothing).
Proof.
  unfold collectAll, nothing, forestNodes.
  destruct (children_refine [] items
              (proj2 (Forall_forall _ _) (fun item _ => item_refines item))
              0 {| result := []; existing := ∅ |}
              {| collected := []; seen := ∅; labelled := ∅ |} None)
    as [[Hres _] _]; auto.
  - split; reflexivity.
Qed.

(** *** The signature string and the triple *)

(** The signature string tells the triples of the items apart. *)
Definition separated (items : list NavigationBarItem) : Prop :=
  forall x y, x ∈ items -> y ∈ items ->
    signature x = signature y -> triple x = triple y.

Lemma signature_triple x y : triple x = triple y -> signature x = signature y.
Proof. unfold triple, signature. intros [= -> -> ->]. reflexivity. Qed.

(** The flat walk and the walk of the spec have come to the same symbols and
    labels, and have seen the same items of [all]. *)
Definition same (all : list NavigationBarItem) (f : Flat) (w : Walk) : Prop :=
  collected f = symbols w /\ labelled f = yielded w /\
  forall y, y ∈ all -> signature y ∈ seen f <-> triple y ∈ signatures w.

Lemma same_collect all f w node :
  separated all -> snd node ∈ all -> same all f w ->
  same all (collect f node) (visit document jsDocument w node).
Proof.
  intros Hsep Hin (Hc & Hl & Hs). destruct node as [path item].
  cbn [snd] in Hin. unfold collect, visit, fresh, yields.
  assert (Hdec : bool_decide (signature item ∈ seen f)
                 = bool_decide (triple item ∈ signatures w)).
  { apply bool_decide_ext, Hs, Hin. }
  rewrite Hdec.
  destruct (negb (String.eqb (itemKind item) "script")
            && negb (bool_decide (triple item ∈ signatures w)));
    [|repeat split; auto; apply Hs; auto].
  split; [|split]; cbn [collected symbols labelled yielded seen signatures].
  - rewrite Hc, Hl. reflexivity.
  - rewrite Hl. reflexivity.
  - intros y Hy. rewrite !elem_of_union, !elem_of_singleton, (Hs y Hy).
    split; (intros [Heq|Hold]; [left|right; exact Hold]).
    + apply Hsep; auto.
    + apply signature_triple, Heq.
Qed.

Lemma same_fold all ns : forall f w,
  separated all -> Forall (fun node => snd node ∈ all) ns -> same all f w ->
  same all (fold_left collect ns f) (fold_left (visit document jsDocument) ns w).
Proof.
  induction ns as [|n ns IH]; intros f w Hsep Hall Hsame; [exact Hsame|].
  apply Forall_cons in Hall as [Hn Hall]. simpl.
  apply IH; auto. apply same_collect; auto.
Qed.

(** Where the signature string tells the triples of the items apart, the
    symbols [findDocumentSymbols] collects are those of the spec. *)
Lemma collectAll_refines items :
  separated (map snd (forestNodes [] items)) ->
  result
    (collectAll document jsDocument None items {| result := []; existing := ∅ |})
  = symbolsSpec document jsDocument items.
Proof.
  intros Hsep. rewrite collectAll_flat. unfold symbolsSpec.
  apply (same_fold (map snd (forestNodes [] items)) (forestNodes [] items)
           nothing {| symbols := []; signatures := ∅; yielded := ∅ |});
    [exact Hsep| |].
  - apply Forall_forall. intros node Hnode.
    apply list_elem_of_fmap. exists node. auto.
  - repeat split; intros Hy; [apply elem_of_empty in Hy|apply elem_of_empty in Hy];
      destruct Hy.
Qed.

(** The items that yielded the symbols of the spec so far, in order: their
    triples are the signatures seen, without repetition, and every item
    visited that is not a script has its triple among them. *)
Definition traced (visited : list (list nat * NavigationBarItem)) (w : Walk)
  : Prop :=
  exists origins : list NavigationBarItem,
    NoDup (map triple origins) /\
    (forall x, x ∈ signatures w <-> x ∈ map triple origins) /\
    Forall2 (fun o sym => exists c, sym = symbolOf document jsDocument o c)
      origins (symbols w) /\
    (forall n, n ∈ map snd visited -> itemKind n <> "script" ->
               triple n ∈ signatures w).

Lemma traced_visit visited w node :
  traced visited w ->
  traced (visited ++ [node]) (visit document jsDocument w node).
Proof.
  intros (origins & Hnd & Hsig & Hsym & Hall).
  destruct node as [path item]. unfold visit.
  destruct (yields item (signatures w)) eqn:Hy.
  - unfold yields in Hy. apply andb_true_iff in Hy as [Hk Hnew].
    apply negb_true_iff, bool_decide_eq_false in Hnew.
    exists (origins ++ [item]). rewrite !map_app. simpl.
    split; [|split; [|split]].
    + apply NoDup_app. split; [exact Hnd|]. split.
      * intros x Hx Hx'. apply list_elem_of_singleton in Hx' as ->.
        apply Hnew, Hsig, Hx.
      * apply NoDup_singleton.
    + intros x. rewrite elem_of_union, elem_of_singleton, elem_of_app,
        list_elem_of_singleton, Hsig. tauto.
    + apply Forall2_app; [exact Hsym|]. constructor; [eauto|constructor].
    + intros n Hn Hkn. apply elem_of_app in Hn as [Hn|Hn].
      * apply elem_of_union_r. apply Hall; auto.
      * apply list_elem_of_singleton in Hn as ->.
        apply elem_of_union_l, elem_of_singleton. reflexivity.
  - exists origins. rewrite !map_app. simpl.
    split; [exact Hnd|]. split; [exact Hsig|]. split; [exact Hsym|].
    intros n Hn Hkn. apply elem_of_app in Hn as [Hn|Hn]; [apply Hall; auto|].
    apply list_elem_of_singleton in Hn as ->.
    unfold yields in Hy. apply andb_false_iff in Hy as [Hy|Hy].
    + apply negb_false_iff, String.eqb_eq in Hy. contradiction.
    + apply negb_false_iff, bool_decide_eq_true in Hy. exact Hy.
Qed.

Lemma traced_fold ns : forall visited w,
  traced visited w ->
  traced (visited ++ ns) (fold_left (visit document jsDocument) ns w).
Proof.
  induction ns as [|n ns IH]; intros visited w Hw; simpl.
  - rewrite app_nil_r. exact Hw.
  - replace (visited ++ n :: ns) with ((visited ++ [n]) ++ ns)
      by (rewrite <- app_assoc; reflexivity).
    apply IH, traced_visit, Hw.
Qed.

(** In the symbols of the spec, two items of the tree with one name and
    kind, not scripts, that start at different offsets have two entries. *)
Lemma spec_separates items (a b : NavigationBarItem) (text kind : string)
    (o1 o2 : nat) :
  a ∈ map snd (forestNodes [] items) -> b ∈ map snd (forestNodes [] items) ->
  itemText a = text -> itemText b = text ->
  itemKind a = kind -> itemKind b = kind -> kind <> "script" ->
  start (itemSpan a) = Some o1 -> start (itemSpan b) = Some o2 -> o1 <> o2 ->
  exists i j ea eb,
    i <> j /\
    symbolsSpec document jsDocument items !! i = Some ea /\
    symbolsSpec document jsDocument items !! j = Some eb /\
    name ea = text /\ name eb = text /\
    JavaScriptMode.kind ea = convertSymbolKind kind /\
    JavaScriptMode.kind eb = convertSymbolKind kind /\
    range_start (loc_range (location ea)) = positionAt jsDocument o1 /\
    range_start (loc_range (location eb)) = positionAt jsDocument o2.
Proof.
  intros Ha Hb Hta Htb Hka Hkb Hk Hsa Hsb Hne.
  destruct (traced_fold (forestNodes [] items) []
              {| symbols := []; signatures := ∅; yielded := ∅ |})
    as (origins & Hnd & Hsig & Hsym & Hall).
  { exists []. simpl. repeat split; try constructor.
    - intros Hx. apply elem_of_empty in Hx. destruct Hx.
    - intros Hx. apply elem_of_nil in Hx. destruct Hx.
    - intros n Hn. apply elem_of_nil in Hn. destruct Hn. }
  simpl in Hall. fold (symbolsSpec document jsDocument items) in Hsym.
  assert (Hfind : forall n o,
             n ∈ map snd (forestNodes [] items) -> itemText n = text ->
             itemKind n = kind -> start (itemSpan n) = Some o ->
             exists i sym,
               map triple origins !! i = Some (text, kind, Some o) /\
               symbolsSpec document jsDocument items !! i = Some sym /\
               name sym = text /\
               JavaScriptMode.kind sym = convertSymbolKind kind /\
               range_start (loc_range (location sym)) = positionAt jsDocument o).
  { intros n o Hn Htn Hkn Hsn.
    assert (Hs : triple n ∈ map triple origins).
    { apply Hsig, Hall; [exact Hn|]. rewrite Hkn. exact Hk. }
    unfold triple at 1 in Hs. rewrite Htn, Hkn, Hsn in Hs.
    apply list_elem_of_lookup in Hs as [i Hi].
    pose proof Hi as Hi'. rewrite list_lookup_fmap in Hi'.
    destruct (origins !! i) as [orig|] eqn:Ho; [|discriminate].
    injection Hi' as Hto Hko Hso.
    destruct (Forall2_lookup_l _ _ _ _ _ Hsym Ho) as (sym & Hsymi & c & ->).
    exists i, (symbolOf document jsDocument orig c).
    split; [exact Hi|]. split; [exact Hsymi|].
    simpl. rewrite Hto, Hko. repeat split.
    unfold convertRange. rewrite Hso. reflexivity. }
  destruct (Hfind a o1 Ha Hta Hka Hsa) as (i & ea & Hia & Hea & Hna & Hkea & Hra).
  destruct (Hfind b o2 Hb Htb Hkb Hsb) as (j & eb & Hjb & Heb & Hnb & Hkeb & Hrb).
  exists i, j, ea, eb. repeat split; auto.
  intros ->. rewrite Hia in Hjb. injection Hjb as Hsame. contradiction.
Qed.

End Symbols.

End JavaScriptFacts.

(** ** The claims about the embedded JavaScript mode *)

Module ModeClaims.

Import JavaScriptMode JavaScriptFacts.

(** *** C9: spans and ranges *)

(** C9 (amended): for a span with a defined start that ends within the
    document ([start + length] is at most the length of the text), converting
    it to a range and the ends of the range back to offsets gives [start] and
    [start + length] again; a length that is not defined counts as 0, as in
    [convertRange]. *)
Theorem convertRange_round_trip (document : TextDocument) (span : Span)
    (st : nat) :
  start span = Some st ->
  st + orZero (length span) <= String.length (getText document) ->
  let range := convertRange document span in
  offsetAt document (range_start range) = st /\
  offsetAt document (range_end range) = st + orZero (length span).
Proof.
  intros Hst Hle. unfold convertRange. rewrite Hst.
  cbn [range_start range_end]. rewrite !offsetAt_positionAt. lia.
Qed.

Lemma convertRange_round_trip_witness :
  let document := ModeExamples.script ("ab" +:+ String LF "cd") in
  let range := convertRange document {| start := Some 1; length := Some 3 |} in
  offsetAt document (range_start range) = 1 /\
  offsetAt document (range_end range) = 1 + 3.
Proof.
  apply (convertRange_round_trip
           (ModeExamples.script ("ab" +:+ String LF "cd"))
           {| start := Some 1; length := Some 3 |} 1).
  - reflexivity.
  - vm_compute. lia.
Defined.

(** C9, as stated, fails: a start within the document is not enough.
    [positionAt] takes an offset past the end of the text as the end of the
    text, so the span (1, 5), which starts inside the document "ab" of
    length 2, comes back as the offsets 1 and 2, not 1 and 6. *)
Lemma span_beyond_the_end_comes_back_shorter :
  let document := ModeExamples.script "ab" in
  let range := convertRange document {| start := Some 1; length := Some 5 |} in
  String.length (getText document) = 2 /\
  offsetAt document (range_start range) = 1 /\
  offsetAt document (range_end range) = 2.
Proof. vm_compute. repeat split. Qed.

(** *** C10: definitions and references stay in the document *)

(** C10: every location that [findDefinition] or [findReferences] returns
    carries the uri of the document that was asked about, and comes from an
    entry of the engine whose file name is the uri of the embedded document
    (definitions) or its de-schemed path (references); the entries of other
    files are dropped. *)
Theorem navigation_stays_in_the_document (env : Env) (workspace : Workspace)
    (document : TextDocument) (position : Position) (h : Host) :
  let jsDocument := getEmbeddedDocument env document in
  match findDefinition env workspace document position h with
  | (h1, Returned (Some locations)) =>
      Forall (fun l => loc_uri l = uri document) locations /\
      exists definition,
        getDefinitionAtPosition env h1 (deschemeURI env (uri jsDocument))
          (offsetAt jsDocument position) = Some definition /\
        locations =
          map (toLocation document jsDocument)
            (List.filter (fun d => String.eqb (fileName d) (uri jsDocument))
               definition)
  | _ => True
  end /\
  match findReferences env workspace document position h with
  | (h1, Returned locations) =>
      Forall (fun l => loc_uri l = uri document) locations /\
      exists references,
        (getReferencesAtPosition env h1 (deschemeURI env (uri jsDocument))
           (offsetAt jsDocument position) = Some references \/
         references = []) /\
        locations =
          map (toLocation document jsDocument)
            (List.filter
               (fun d => String.eqb (fileName d) (deschemeURI env (uri jsDocument)))
               references)
  | _ => True
  end.
Proof.
  intros jsDocument.
  assert (Huri : forall ds,
             Forall (fun l => loc_uri l = uri document)
               (map (toLocation document jsDocument) ds)).
  { intros ds. apply Forall_forall. intros l Hl.
    apply list_elem_of_fmap in Hl as (d & -> & _). reflexivity. }
  split.
  - unfold findDefinition. fold jsDocument. simpl.
    destruct (jsLanguageService h); [|exact I].
    match goal with
    | |- context [getDefinitionAtPosition env ?h1 ?f ?o] =>
        destruct (getDefinitionAtPosition env h1 f o) as [definition|] eqn:Hd
    end; [|exact I].
    split; [apply Huri|]. exists definition. split; [exact Hd|reflexivity].
  - unfold findReferences. fold jsDocument. simpl.
    destruct (jsLanguageService h); [|exact I].
    match goal with
    | |- context [getReferencesAtPosition env ?h1 ?f ?o] =>
        destruct (getReferencesAtPosition env h1 f o) as [references|] eqn:Hr
    end.
    + split; [apply Huri|]. exists references. split; [left; exact Hr|reflexivity].
    + split; [constructor|]. exists []. split; [right; reflexivity|reflexivity].
Qed.

(** *** C5: one engine, the latest document *)

Lemma requests_same (calls : list (TextDocument * Workspace)) :
  forall (h : Host) (seen : list (Promise nat)) (p0 : Promise nat),
    jsLanguageService h = p0 -> Forall (fun p => p = p0) seen ->
    let r := fold_left
               (fun acc call =>
                  let (h1, p) :=
                    getLanguageService (fst call) (snd call) (fst acc) in
                  (h1, snd acc ++ [p]))
               calls (h, seen) in
    jsLanguageService (fst r) = p0 /\ loads (fst r) = loads h /\
    Forall (fun p => p = p0) (snd r).
Proof.
  induction calls as [|call calls IH]; intros h seen p0 Hp Hseen; simpl.
  - auto.
  - match goal with
    | |- context [fold_left _ calls (?h1, ?seen1)] =>
        destruct (IH h1 seen1 p0) as (H1 & H2 & H3)
    end; simpl; auto.
    apply Forall_app. split; auto.
Qed.

(** C5: all calls of [getLanguageService] on one host adapter get the promise
    that was made when the adapter was created, hence the same engine; the
    library is loaded once however many calls are made; and each call makes
    its document and workspace the current ones, so that the engine, which
    reads through the host, sees the file name, the version and the text of
    the document requested last. *)
Theorem getLanguageService_shares_one_engine (env : Env) (kind : ScriptKind)
    (imported : bool) (engine : nat) (calls : list (TextDocument * Workspace))
    (jsDocument : TextDocument) (workspace : Workspace) :
  let host := getLanguageServiceHost kind imported engine in
  let earlier := requests calls host in
  let latest := getLanguageService jsDocument workspace (fst earlier) in
  Forall (fun p => p = jsLanguageService host) (snd earlier ++ [snd latest]) /\
  (imported = true ->
   Forall (fun p => p = Fulfilled engine) (snd earlier ++ [snd latest])) /\
  loads (fst latest) = 1 /\
  currentTextDocument (fst latest) = jsDocument /\
  currentWorkspace (fst latest) = Some workspace /\
  getScriptFileNames env (fst latest)
    = [deschemeURI env (uri jsDocument); "jquery"] /\
  getScriptVersion env (fst latest) (deschemeURI env (uri jsDocument))
    = Str.ofNat (version jsDocument) /\
  getScriptSnapshot env (fst latest) (deschemeURI env (uri jsDocument))
    = Some (getText jsDocument).
Proof.
  intros host earlier latest.
  destruct (requests_same calls host [] (jsLanguageService host) eq_refl
              (Forall_nil_2 _)) as (H1 & H2 & H3).
  fold (requests calls host) in H1, H2, H3. fold earlier in H1, H2, H3.
  assert (Hall : Forall (fun p => p = jsLanguageService host)
                   (snd earlier ++ [snd latest])).
  { apply Forall_app. split; auto. }
  split; [exact Hall|]. split.
  - intros ->. exact Hall.
  - unfold latest, getScriptVersion, getScriptSnapshot, getScriptFileNames.
    simpl. rewrite String.eqb_refl. repeat split; auto.
Qed.

(** *** C6: resolving a completion item *)

(** C6 (amended): with the engine loaded, [doResolve] asks the engine
    for the details of the label of the item at the offset in its [data]
    payload.  When the engine has details, the item comes back with the text
    of their display parts as its detail, the text of their documentation as
    its documentation, and without the payload; when it has none, the item
    comes back as it was, and resolving it again gives it back again.
    Resolving needs the payload: on an item without it, and so on an item that
    has been resolved, [doResolve] throws a [TypeError]. *)
Theorem doResolve_needs_its_data (env : Env) (workspace : Workspace)
    (document : TextDocument) (item : CompletionItem) (h : Host)
    (service : nat) :
  jsLanguageService h = Fulfilled service ->
  let jsDocument := getEmbeddedDocument env document in
  let h1 := fst (getLanguageService jsDocument workspace h) in
  match data item with
  | None => doResolve env workspace document item h = (h1, Threw "TypeError")
  | Some d =>
      match
        getCompletionEntryDetails env h1 (deschemeURI env (uri jsDocument))
          (data_offset d) (label item)
      with
      | Some details =>
          let resolved :=
            {| label := label item;
               detail := Some (displayPartsToString (displayParts details));
               documentation :=
                 Some (displayPartsToString (documentation_parts details));
               data := None |} in
          doResolve env workspace document item h = (h1, Returned resolved) /\
          doResolve env workspace document resolved h1 = (h1, Threw "TypeError")
      | None =>
          doResolve env workspace document item h = (h1, Returned item) /\
          doResolve env workspace document item h1 = (h1, Returned item)
      end
  end.
Proof.
  intros Hs jsDocument h1. unfold doResolve. fold jsDocument.
  unfold getLanguageService in *. cbn [fst] in h1. fold h1.
  cbn [jsLanguageService]. rewrite Hs.
  assert (Hagain : {| scriptKind := scriptKind h1;
                      experimentalDecorators := experimentalDecorators h1;
                      currentTextDocument := jsDocument;
                      currentWorkspace := Some workspace;
                      jsLanguageService := jsLanguageService h1;
                      loads := loads h1 |} = h1) by reflexivity.
  destruct (data item) as [d|] eqn:Hd; [|reflexivity].
  destruct (getCompletionEntryDetails env h1 (deschemeURI env (uri jsDocument))
              (data_offset d) (label item)) as [details|] eqn:Hdet.
  - split; [reflexivity|]. cbn [data]. rewrite Hagain.
    change (jsLanguageService h1) with (jsLanguageService h).
    rewrite Hs. reflexivity.
  - split; [reflexivity|]. rewrite Hagain.
    change (jsLanguageService h1) with (jsLanguageService h).
    rewrite Hs, Hdet. reflexivity.
Qed.

Lemma doResolve_needs_its_data_witness :
  let E := ModeExamples.engine in
  let document := ModeExamples.script "console." in
  let h1 :=
    fst (getLanguageService document ModeExamples.emptyWorkspace ModeExamples.host) in
  let resolved :=
    {| label := "log";
       detail := Some "(method) log(): void";
       documentation := Some "Prints to the console.";
       data := None |} in
  doResolve E ModeExamples.emptyWorkspace document ModeExamples.logItem
    ModeExamples.host = (h1, Returned resolved) /\
  doResolve E ModeExamples.emptyWorkspace document resolved h1
  = (h1, Threw "TypeError").
Proof.
  exact (doResolve_needs_its_data ModeExamples.engine ModeExamples.emptyWorkspace
           (ModeExamples.script "console.") ModeExamples.logItem
           ModeExamples.host 0 eq_refl).
Defined.

(** C6, as stated, fails: the first call resolves the item and clears its
    payload, the second call on the resolved item throws. *)
Lemma second_doResolve_throws :
  let E := ModeExamples.engine in
  let document := ModeExamples.script "console." in
  let first := doResolve E ModeExamples.emptyWorkspace document
                 ModeExamples.logItem ModeExamples.host in
  exists h1 item1,
    first = (h1, Returned item1) /\
    data item1 = None /\
    detail item1 = Some "(method) log(): void" /\
    snd (doResolve E ModeExamples.emptyWorkspace document item1 h1)
      = Threw "TypeError".
Proof. vm_compute. eexists. eexists. repeat split. Qed.

(** *** C8: the symbols of a document *)

Lemma findDocumentSymbols_unfold (env : Env) (workspace : Workspace)
    (document : TextDocument) (h : Host) :
  findDocumentSymbols env workspace document h =
  let jsDocument := getEmbeddedDocument env document in
  let h1 := fst (getLanguageService jsDocument workspace h) in
  (h1,
   match jsLanguageService h with
   | Rejected reason => Threw reason
   | Fulfilled _ =>
       match getNavigationBarItems env h1 (deschemeURI env (uri jsDocument)) with
       | Some items =>
           Returned
             (result (collectAll document jsDocument None items
                        {| result := []; existing := ∅ |}))
       | None => Returned []
       end
   end).
Proof.
  unfold findDocumentSymbols, getLanguageService. simpl.
  destruct (jsLanguageService h); [|reflexivity].
  destruct (getNavigationBarItems env _ _); reflexivity.
Qed.

(** C8 (amended): [findDocumentSymbols] tells symbols apart by the string
    [item.text + item.kind + start].  Where that string tells the triples
    (name, kind, start offset) of the items of the document apart
    ([separated]), what it returns is what the spec describes ([symbolsSpec]:
    the items in document order, scripts skipped, one symbol per triple, each
    with the name of the nearest enclosing item that yielded a symbol as its
    container); in particular two items with one name and kind that start at
    different offsets, such as two functions [foo], then yield two symbols of
    that name and kind, at their two start positions. *)
Theorem findDocumentSymbols_keeps_offsets_apart (env : Env)
    (workspace : Workspace) (document : TextDocument) (h : Host) (service : nat)
    (items : list NavigationBarItem) (a b : NavigationBarItem)
    (text kind : string) (o1 o2 : nat) :
  let jsDocument := getEmbeddedDocument env document in
  let h1 := fst (getLanguageService jsDocument workspace h) in
  jsLanguageService h = Fulfilled service ->
  getNavigationBarItems env h1 (deschemeURI env (uri jsDocument)) = Some items ->
  separated (map snd (forestNodes [] items)) ->
  a ∈ map snd (forestNodes [] items) -> b ∈ map snd (forestNodes [] items) ->
  itemText a = text -> itemText b = text ->
  itemKind a = kind -> itemKind b = kind -> kind <> "script" ->
  start (itemSpan a) = Some o1 -> start (itemSpan b) = Some o2 -> o1 <> o2 ->
  exists syms,
    findDocumentSymbols env workspace document h = (h1, Returned syms) /\
    syms = symbolsSpec document jsDocument items /\
    exists i j ea eb,
      i <> j /\ syms !! i = Some ea /\ syms !! j = Some eb /\
      name ea = text /\ name eb = text /\
      JavaScriptMode.kind ea = convertSymbolKind kind /\
      JavaScriptMode.kind eb = convertSymbolKind kind /\
      range_start (loc_range (location ea)) = positionAt jsDocument o1 /\
      range_start (loc_range (location eb)) = positionAt jsDocument o2.
Proof.
  intros jsDocument h1 Hs Hitems Hsep Ha Hb Hta Htb Hka Hkb Hk Hsa Hsb Hne.
  exists (symbolsSpec document jsDocument items). split; [|split; [reflexivity|]].
  - rewrite findDocumentSymbols_unfold. cbn zeta. fold jsDocument. fold h1.
    rewrite Hs, Hitems, (collectAll_refines document jsDocument items Hsep).
    reflexivity.
  - apply (spec_separates document jsDocument items a b text kind o1 o2);
      assumption.
Qed.

Lemma twoFoos_nodes :
  map snd (forestNodes [] ModeExamples.twoFoos)
  = [NavItem "<global>" "script" (ModeExamples.span 0 60)
       [ModeExamples.func "foo" 0; ModeExamples.func "foo" 30];
     ModeExamples.func "foo" 0; ModeExamples.func "foo" 30;
     ModeExamples.func "foo" 0; ModeExamples.func "foo" 30].
Proof. reflexivity. Qed.

Lemma findDocumentSymbols_keeps_offsets_apart_witness :
  let document := ModeExamples.script "function foo(){} /* and again */ function foo(){}" in
  let h1 :=
    fst (getLanguageService document ModeExamples.emptyWorkspace ModeExamples.host) in
  exists syms,
    findDocumentSymbols ModeExamples.engine ModeExamples.emptyWorkspace document
      ModeExamples.host = (h1, Returned syms) /\
    syms = symbolsSpec document document ModeExamples.twoFoos /\
    exists i j ea eb,
      i <> j /\ syms !! i = Some ea /\ syms !! j = Some eb /\
      name ea = "foo" /\ name eb = "foo" /\
      JavaScriptMode.kind ea = convertSymbolKind "function" /\
      JavaScriptMode.kind eb = convertSymbolKind "function" /\
      range_start (loc_range (location ea)) = positionAt document 0 /\
      range_start (loc_range (location eb)) = positionAt document 30.
Proof.
  intros document h1.
  apply (findDocumentSymbols_keeps_offsets_apart ModeExamples.engine
           ModeExamples.emptyWorkspace document ModeExamples.host 0
           ModeExamples.twoFoos
           (ModeExamples.func "foo" 0) (ModeExamples.func "foo" 30)
           "foo" "function" 0 30);
    try reflexivity.
  - rewrite twoFoos_nodes. intros x y Hx Hy Hsig.
    apply list_elem_of_In in Hx, Hy. simpl in Hx, Hy.
    destruct Hx as [<-|[<-|[<-|[<-|[<-|[]]]]]];
      destruct Hy as [<-|[<-|[<-|[<-|[<-|[]]]]]];
      first [reflexivity | vm_compute in Hsig; discriminate].
  - rewrite twoFoos_nodes. apply list_elem_of_In. simpl. auto.
  - rewrite twoFoos_nodes. apply list_elem_of_In. simpl. auto.
  - discriminate.
  - lia.
Defined.

(** C8, as stated, fails: the key is the concatenation, not the triple.  In
    [collision] the item ("foofunction", "", 30) and the function
    ("foo", "function", 30) both have the key "foofunction30": the second
    function [foo] is taken for a duplicate, and of the two functions [foo]
    at the offsets 0 and 30 only the first has an entry, where the spec has an
    entry for each. *)
Lemma colliding_signatures_are_merged :
  let document :=
    ModeExamples.script "function foo(){} /* and again */ function foo(){}" in
  let syms :=
    match snd (findDocumentSymbols ModeExamples.collisionEngine
                 ModeExamples.emptyWorkspace document ModeExamples.host) with
    | Returned syms => syms
    | Threw _ => []
    end in
  map triple ModeExamples.collision
  = [("foo", "function", Some 0); ("foofunction", "", Some 30);
     ("foo", "function", Some 30)] /\
  map signature ModeExamples.collision
  = ["foofunction0"; "foofunction30"; "foofunction30"] /\
  map name syms = ["foo"; "foofunction"] /\
  map name (symbolsSpec document document ModeExamples.collision)
  = ["foo"; "foofunction"; "foo"].
Proof. vm_compute. repeat split. Qed.

End ModeClaims.

(** ** Further properties of the file walker and of the search engine *)

Module WalkerExtras.

Import FileWalker FileWalkerFacts SearchEngine.

(** *** After a cancellation *)

(** The callbacks that can still run for a request once the search is
    cancelled: its own, and those of the requests its callback makes without
    looking at [isCanceled]. *)
Definition afterCancel (p : Pending) : nat :=
  match p with
  | StatFilePattern _ rootPaths => 1 + length rootPaths
  | ReaddirRoot _ _ => 1
  | StatRelative _ _ _ _ => 2
  | ReaddirEntry _ _ _ _ _ _ _ => 3
  | LstatLink _ _ _ _ _ _ _ => 2
  | RealpathLink _ _ _ _ _ _ _ => 1
  | NativeClose _ _ _ => 1
  end.

Definition toRun (w : World) : nat := sum_list_with afterCancel (pending w).

(** [w'] has [n] more callbacks to run than [w] at most, is cancelled and
    blocked as [w] is. *)
Definition winds (n : nat) (w w' : World) : Prop :=
  toRun w' <= toRun w + n /\
  isCanceled (walker w') = isCanceled (walker w) /\
  hung w' = hung w.

Lemma winds_same w w' :
  pending w' = pending w -> walker w' = walker w -> hung w' = hung w ->
  winds 0 w w'.
Proof.
  intros Hp Hk Hh. unfold winds, toRun. rewrite Hp, Hk, Hh. repeat split; lia.
Qed.

Lemma winds_trans n m w1 w2 w3 :
  winds n w1 w2 -> winds m w2 w3 -> winds (n + m) w1 w3.
Proof.
  intros (H1 & H2 & H3) (H4 & H5 & H6). repeat split; try congruence. lia.
Qed.

Lemma winds_le n m w w' : n <= m -> winds n w w' -> winds m w w'.
Proof. intros Hle (H1 & H2 & H3). repeat split; auto. lia. Qed.

Lemma invoke_hung cb e w : hung (invoke cb e w) = hung w.
Proof.
  revert e w. induction cb as [j i|j i done IH]; intros e w; simpl.
  - destruct (entryDone j i e w) as [w' r] eqn:He.
    assert (Hh : hung w' = hung w).
    { revert He. unfold entryDone. repeat branch; intros [= <- <-]; auto. }
    destruct r; simpl; auto.
  - destruct (entryDone j i e w) as [w' r] eqn:He.
    assert (Hh : hung w' = hung w).
    { revert He. unfold entryDone. repeat branch; intros [= <- <-]; auto. }
    destruct r; simpl; auto. rewrite IH. exact Hh.
Qed.

Lemma winds_invoke cb e w : winds 0 w (invoke cb e w).
Proof.
  destruct (invoke_frame cb e w) as [Hp _].
  destruct (invoke_walker cb e w) as [Hk _].
  apply winds_same; auto using invoke_hung.
Qed.

Lemma winds_request p w : winds (afterCancel p) w (request p w).
Proof.
  unfold winds, toRun. simpl. rewrite sum_list_with_app. simpl.
  repeat split; lia.
Qed.

Section Cancelled.

Context (env : Env).

Lemma winds_recurseWithNodeJS a r files done w :
  isCanceled (walker w) = true ->
  winds 0 w (recurseWithNodeJS env a r files done w).
Proof.
  intros Hc. unfold recurseWithNodeJS, parallel.
  destruct files as [|f rest] eqn:Hf; [apply winds_invoke|]. rewrite <- Hf.
  match goal with
  | |- winds 0 w (forEachFrom ?fn ?i ?items ?w1) =>
      apply (forEachFrom_keeps (fun w' => winds 0 w w') fn items)
  end.
  - intros i x w' Hw'. destruct Hw' as (H1 & H2 & H3).
    cbv zeta. rewrite H2, Hc, orb_true_l. cbv iota.
    apply (winds_trans 0 0 w w'); [repeat split; auto|apply winds_invoke].
  - apply winds_same; auto.
Qed.

Lemma winds_recurse a files done w :
  isCanceled (walker w) = true -> winds 1 w (recurse env a files done w).
Proof.
  intros Hc. unfold recurse, recurseWithNativeCommand. branch.
  - apply (winds_le 0); [lia|].
    apply (winds_trans 0 0 w (noteVisit {| dir := a; key := None |} w)).
    + apply winds_same; auto.
    + apply winds_recurseWithNodeJS. exact Hc.
  - apply (winds_trans 0 1 w
             (withWalker (setRunningNative (Some (nextPid w)))
                (withNextPid (S (nextPid w)) w))).
    + unfold winds, toRun. simpl. repeat split; auto. lia.
    + apply (winds_request (NativeClose (nextPid w) a done)).
Qed.

Lemma winds_walkInto a files cb m w :
  isCanceled (walker w) = true -> winds 1 w (walkInto env a files cb m w).
Proof.
  intros Hc. unfold walkInto.
  apply (winds_trans 0 1 w (match m with Some x => onResult x w | None => w end)).
  - destruct m; apply winds_same; auto.
  - apply winds_recurse. destruct m; exact Hc.
Qed.

Lemma winds_walkChildren rp c r children cb w :
  isCanceled (walker w) = true ->
  winds 0 w (walkChildren env rp c r children cb w).
Proof.
  intros Hc. unfold walkChildren. branch; [apply winds_invoke|].
  match goal with
  | |- winds 0 w (recurseWithNodeJS _ _ _ _ _ ?w1) =>
      apply (winds_trans 0 0 w w1);
        [unfold winds, toRun; simpl; repeat split; auto; lia
        |apply winds_recurseWithNodeJS; exact Hc]
  end.
Qed.

Lemma winds_forEach {A : Type} (fn : nat -> A -> World -> World) (c : nat)
    (items : list A) :
  (forall i x w, winds c w (fn i x w)) ->
  forall i w, winds (length items * c) w (forEachFrom fn i items w).
Proof.
  intros Hfn. induction items as [|x items IH]; intros i w; simpl.
  - apply winds_same; auto.
  - apply (winds_trans c (length items * c) w (fn i x w)); auto.
Qed.

Lemma winds_walkRoots roots b w :
  winds (length roots) w (walkRoots roots b w).
Proof.
  unfold walkRoots, parallel.
  set (w1 := match b, filePattern (walker w) with
             | true, Some pat => onResult pat w
             | _, _ => w
             end).
  assert (H1 : winds 0 w w1).
  { unfold w1. repeat branch; apply winds_same; auto. }
  destruct roots as [|r rest] eqn:Hr.
  - apply (winds_trans 0 0 w w1); auto. apply winds_same; auto.
  - rewrite <- Hr.
    apply (winds_trans 0 (length roots) w w1); auto.
    match goal with
    | |- winds _ w1 (forEachFrom ?fn ?i ?items ?w2) =>
        apply (winds_trans 0 (length roots) w1 w2);
          [apply winds_same; auto|];
        apply (winds_le (length items * 1)); [lia|];
        apply (winds_forEach fn 1 items)
    end.
    intros i x w'. apply (winds_request (ReaddirRoot x _)).
Qed.

(** The callback of a request of a cancelled search: one callback less is
    left to run. *)
Lemma winds_handle p w :
  isCanceled (walker w) = true ->
  winds (afterCancel p - 1) w (handle env p w).
Proof.
  intros Hc. destruct p; simpl.
  - rewrite Nat.sub_0_r. apply winds_walkRoots.
  - unfold onReaddirRoot. rewrite Hc. simpl. apply winds_invoke.
  - apply winds_walkInto. exact Hc.
  - unfold onReaddirEntry. destruct (readdir env currentPath) as [e|children].
    + rewrite Hc, andb_false_r. simpl.
      apply (winds_le 0); [lia|apply winds_invoke].
    + apply (winds_request
               (LstatLink absolutePath files file currentPath relativeFilePath
                  children clb)).
  - unfold onLstatLink. destruct (lstat env currentPath) as [e|[|]].
    + apply (winds_le 0); [lia|apply winds_invoke].
    + apply (winds_request
               (RealpathLink absolutePath files file currentPath
                  relativeFilePath children clb)).
    + apply (winds_le 0); [lia|apply winds_walkChildren; exact Hc].
  - unfold onRealpathLink. destruct (realpath env currentPath) as [e|rp].
    + apply winds_invoke.
    + apply winds_walkChildren. exact Hc.
  - unfold onNativeClose.
    change (isCanceled (walker (withWalker (setRunningNative None) w)))
      with (isCanceled (walker w)).
    rewrite Hc.
    apply (winds_trans 0 0 w (withWalker (setRunningNative None) w)).
    + unfold winds, toRun. simpl. repeat split; auto. lia.
    + apply winds_invoke.
Qed.

Lemma afterCancel_pos p : 1 <= afterCancel p.
Proof. destruct p; simpl; lia. Qed.

Lemma toRun_delete w i p :
  pending w !! i = Some p ->
  toRun (withPending (delete i) w) + afterCancel p = toRun w.
Proof.
  unfold toRun. simpl. generalize (pending w). intros l. revert i.
  induction l as [|q l IH]; intros [|i] H; simpl in *; try discriminate.
  - injection H as ->. lia.
  - specialize (IH _ H). lia.
Qed.

Lemma fire_winds_down w i p :
  isCanceled (walker w) = true -> hung w = false ->
  pending w !! i = Some p ->
  toRun (fire env i w) < toRun w /\
  isCanceled (walker (fire env i w)) = true /\
  hung (fire env i w) = false.
Proof.
  intros Hc Hh Hp. unfold fire. rewrite Hh, Hp.
  pose proof (toRun_delete w i p Hp) as Hd.
  destruct (winds_handle p (withPending (delete i) w) Hc) as (H1 & H2 & H3).
  pose proof (afterCancel_pos p).
  repeat split; [lia|rewrite H2; exact Hc|rewrite H3; exact Hh].
Qed.

Lemma turns_wind_down w n w' :
  isCanceled (walker w) = true -> turns env w n w' ->
  n + toRun w' <= toRun w /\ isCanceled (walker w') = true /\
  (hung w = false -> hung w' = false).
Proof.
  intros Hc Ht. induction Ht as [w|w i p n w' Hh Hp Ht IH|w n w' Ht IH].
  - repeat split; auto.
  - destruct (fire_winds_down w i p Hc Hh Hp) as (H1 & H2 & H3).
    destruct (IH H2) as (H4 & H5 & H6). repeat split; auto. lia.
  - assert (Hc' : isCanceled (walker (cancel w)) = true).
    { unfold cancel, terminateNative. simpl. branch; reflexivity. }
    destruct (IH Hc') as (H4 & H5 & H6). repeat split; auto.
Qed.

End Cancelled.

(** *** What is reported

    The paths a search can deliver, for the settings [k0] of the walker and
    the root paths of the search. *)

Section Found.

Context (env : Env) (k0 : Walker) (roots : list string).

(** [strings.trim([relativeParentPath, file].join('/'), '/')] *)
Definition relativeOf (relativeParentPath file : string) : string :=
  Str.trimSlash (relativeParentPath +:+ "/" +:+ file).

(** The siblings handed to the exclude pattern. *)
Definition siblingsOf (files : list string) (file : string) : list string :=
  if isExactPattern k0 file then [] else files.

(** The folders the portable walk lists, with their path relative to the
    root: a root, or an entry of such a folder that the exclude pattern lets
    through and that can be listed itself. *)
Inductive reached : string -> string -> Prop :=
| reached_root r files :
    r ∈ roots -> readdir env r = IOOk files -> reached r ""
| reached_entry a rp files file children :
    reached a rp -> readdir env a = IOOk files -> file ∈ files ->
    glob_match env (excludePattern k0) (relativeOf rp file)
      (Some (siblingsOf files file)) = false ->
    readdir env (join env a file) = IOOk children ->
    reached (join env a file) (relativeOf rp file).

(** A line of the native command as [perPathHandler] keeps it. *)
Definition normalized (line : string) : string :=
  if needsNFCNormalization env then normalizeNFC env line else line.

Inductive found : string -> Prop :=
| found_pattern pat :
    filePattern k0 = Some pat -> truthy (Some pat) = true ->
    isAbsolute env pat = true -> existsb (String.eqb pat) roots = false ->
    isExistingFile (stat env pat) = true ->
    found pat
| found_below r files pat :
    r ∈ roots -> readdir env r = IOOk files ->
    filePattern k0 = Some pat -> truthy (Some pat) = true ->
    isAbsolute env pat = false -> searchInPath k0 = true ->
    isExistingFile (stat env (join env r pat)) = true ->
    found (join env r pat)
| found_root r e :
    r ∈ roots -> readdir env r = IOErr e -> code e = ENOTDIR ->
    glob_match env (excludePattern k0) r None = false ->
    isFilePatternMatch env k0 (basename env r) r = true ->
    included env k0 r None = true ->
    found r
| found_entry a rp files file e :
    disableFastFileLookup k0 = true ->
    reached a rp -> readdir env a = IOOk files -> file ∈ files ->
    glob_match env (excludePattern k0) (relativeOf rp file)
      (Some (siblingsOf files file)) = false ->
    readdir env (join env a file) = IOErr e -> code e = ENOTDIR ->
    isFilePatternMatch env k0 file (relativeOf rp file) = true ->
    included env k0 (relativeOf rp file) None = true ->
    found (join env a file)
| found_listed r files line siblings :
    disableFastFileLookup k0 = false ->
    r ∈ roots -> readdir env r = IOOk files ->
    line ∈ nativeLines env r -> line <> "" ->
    let p := normalized line in
    let relativeFilePath := toRelativeWithSlash env r p in
    (exists fuel,
       folderKept env fuel k0 (toRelativeWithSlash env r (dirname env p))
       = Some true) ->
    glob_match env (excludePattern k0) relativeFilePath siblings = false ->
    isFilePatternMatch env k0 (basename env p) relativeFilePath = true ->
    included env k0 relativeFilePath siblings = true ->
    found p.

(** The settings of the walker do not change during a search. *)
Definition agree (k : Walker) : Prop :=
  config k = config k0 /\ filePattern k = filePattern k0 /\
  excludePattern k = excludePattern k0 /\
  includePattern k = includePattern k0 /\ matchFuzzy k = matchFuzzy k0 /\
  searchInPath k = searchInPath k0 /\
  disableFastFileLookup k = disableFastFileLookup k0.

(** What an outstanding request was made for. *)
Definition justified (p : Pending) : Prop :=
  match p with
  | StatFilePattern path rootPaths =>
      rootPaths = roots /\ filePattern k0 = Some path /\
      truthy (Some path) = true /\ isAbsolute env path = true /\
      existsb (String.eqb path) roots = false
  | ReaddirRoot a _ => a ∈ roots
  | StatRelative basePath absolutePath files _ =>
      basePath ∈ roots /\ readdir env basePath = IOOk files /\
      exists pat, filePattern k0 = Some pat /\ truthy (Some pat) = true /\
        isAbsolute env pat = false /\ searchInPath k0 = true /\
        absolutePath = join env basePath pat
  | ReaddirEntry a rp files file rel cur _ =>
      disableFastFileLookup k0 = true /\
      reached a rp /\ readdir env a = IOOk files /\ file ∈ files /\
      rel = relativeOf rp file /\ cur = join env a file /\
      glob_match env (excludePattern k0) rel (Some (siblingsOf files file))
      = false
  | LstatLink _ _ _ cur rel children _ =>
      disableFastFileLookup k0 = true /\
      reached cur rel /\ readdir env cur = IOOk children
  | RealpathLink _ _ _ cur rel children _ =>
      disableFastFileLookup k0 = true /\
      reached cur rel /\ readdir env cur = IOOk children
  | NativeClose _ a _ =>
      disableFastFileLookup k0 = false /\ a ∈ roots /\
      exists files, readdir env a = IOOk files
  end.

Record sound (w : World) : Prop := {
  sound_settings : agree (walker w);
  sound_pending : Forall justified (pending w);
  sound_results : Forall found (results w)
}.

Lemma sound_frame w w' :
  agree (walker w') -> pending w' = pending w -> results w' = results w ->
  sound w -> sound w'.
Proof. intros Hk Hp Hr [H1 H2 H3]. split; rewrite ?Hp, ?Hr; auto. Qed.

Lemma results_onResult path w : results (onResult path w) = results w ++ [path].
Proof. reflexivity. Qed.

Lemma sound_onResult path w : found path -> sound w -> sound (onResult path w).
Proof.
  intros Hf [H1 H2 H3]. split; auto.
  rewrite results_onResult. apply Forall_app. split; auto.
Qed.

Lemma sound_request p w : justified p -> sound w -> sound (request p w).
Proof.
  intros Hp [H1 H2 H3]. split; auto. simpl. apply Forall_app. split; auto.
Qed.

Lemma sound_invoke cb e w : sound w -> sound (invoke cb e w).
Proof.
  intros Hw. destruct (invoke_frame cb e w) as [Hp _].
  destruct (invoke_walker cb e w) as [Hk Hr].
  apply (sound_frame w); auto. rewrite Hk. apply Hw.
Qed.

Lemma agree_match k name path :
  agree k -> isFilePatternMatch env k name path = isFilePatternMatch env k0 name path.
Proof.
  intros (_ & H2 & _ & _ & H5 & H6 & _). unfold isFilePatternMatch.
  rewrite H2, H5, H6. reflexivity.
Qed.

Lemma agree_included k path siblings :
  agree k -> included env k path siblings = included env k0 path siblings.
Proof.
  intros (_ & _ & _ & H4 & _). unfold included. rewrite H4. reflexivity.
Qed.

Lemma agree_exact k name : agree k -> isExactPattern k name = isExactPattern k0 name.
Proof. intros (H1 & _). unfold isExactPattern. rewrite H1. reflexivity. Qed.

Lemma agree_exclude k : agree k -> excludePattern k = excludePattern k0.
Proof. intros (_ & _ & H3 & _). exact H3. Qed.

Lemma agree_kept k fuel rel :
  agree k -> folderKept env fuel k rel = folderKept env fuel k0 rel.
Proof.
  intros Hk. revert rel. induction fuel as [|fuel IH]; intros rel; simpl;
    rewrite (agree_exclude k Hk); [reflexivity|].
  rewrite IH. reflexivity.
Qed.

Lemma sound_report path w : found path -> sound w -> sound (report path w).
Proof.
  intros Hf [H1 H2 H3]. unfold report. repeat branch.
  all: try (apply sound_onResult; [exact Hf|]).
  all: split; auto.
Qed.

Lemma forEachFrom_keeps_in {A : Type} (P : World -> Prop)
    (fn : nat -> A -> World -> World) (items : list A) :
  (forall i x w, x ∈ items -> P w -> P (fn i x w)) ->
  forall i w, P w -> P (forEachFrom fn i items w).
Proof.
  induction items as [|x rest IH]; intros Hfn i w Hw; simpl; auto.
  apply IH.
  - intros i' x' w' Hin. apply Hfn. right. exact Hin.
  - apply Hfn; [left|exact Hw].
Qed.

Lemma fold_left_keeps_in {A B : Type} (P : B -> Prop) (f : B -> A -> B)
    (items : list A) :
  (forall x acc, x ∈ items -> P acc -> P (f acc x)) ->
  forall acc, P acc -> P (fold_left f items acc).
Proof.
  induction items as [|x rest IH]; intros Hf acc Hacc; simpl; auto.
  apply IH.
  - intros x' acc' Hin. apply Hf. right. exact Hin.
  - apply Hf; [left|exact Hacc].
Qed.

Lemma sound_recurseWithNodeJS a rp files done w :
  disableFastFileLookup k0 = true ->
  reached a rp -> readdir env a = IOOk files ->
  sound w -> sound (recurseWithNodeJS env a rp files done w).
Proof.
  intros Hport Hr Hfiles Hw. unfold recurseWithNodeJS, parallel.
  destruct files as [|f rest] eqn:Hf; [apply sound_invoke; exact Hw|].
  rewrite <- Hf in *. clear Hf.
  apply forEachFrom_keeps_in.
  - intros i x w' Hin Hw'. cbv zeta.
    destruct (isCanceled (walker w') || isLimitHit (walker w'));
      [apply sound_invoke; exact Hw'|].
    pose proof (sound_settings _ Hw') as Hk.
    rewrite (agree_exact _ x Hk), (agree_exclude _ Hk).
    destruct (glob_match env (excludePattern k0) _ _) eqn:Hg;
      [apply sound_invoke; exact Hw'|].
    apply sound_request; [|exact Hw'].
    simpl. repeat split; auto.
  - apply (sound_frame w); auto. apply Hw.
Qed.

(** The folders and files [perPathHandler] has filed: each file is a line of
    the command, filed under its parent. *)
Definition filed (lines : list string) (m : list (string * list string)) : Prop :=
  forall f items p, (f, items) ∈ m -> p ∈ items ->
    f = dirname env p /\
    exists line, line ∈ lines /\ line <> "" /\ p = normalized line.

Lemma pushTo_elem folder item m f items p :
  (f, items) ∈ pushTo folder item m -> p ∈ items ->
  (exists items', (f, items') ∈ m /\ p ∈ items') \/ (f = folder /\ p = item).
Proof.
  induction m as [|[f' items'] m IH]; simpl; intros Hin Hp.
  - apply list_elem_of_singleton in Hin. injection Hin as -> ->.
    apply list_elem_of_singleton in Hp. auto.
  - destruct (String.eqb f' folder) eqn:He.
    + apply String.eqb_eq in He. subst f'.
      apply elem_of_cons in Hin as [Hin|Hin].
      * injection Hin as -> ->. apply elem_of_app in Hp as [Hp|Hp].
        -- left. exists items'. split; [left|exact Hp].
        -- apply list_elem_of_singleton in Hp. auto.
      * left. exists items. split; [right; exact Hin|exact Hp].
    + apply elem_of_cons in Hin as [Hin|Hin].
      * injection Hin as -> ->. left. exists items'. split; [left|exact Hp].
      * destruct (IH Hin Hp) as [(items'' & H1 & H2)|H]; auto.
        left. exists items''. split; [right; exact H1|exact H2].
Qed.

Lemma filed_lines lines :
  filed lines (fst (fold_left (perPathHandler env) lines ([], []))).
Proof.
  apply (fold_left_keeps_in (fun maps => filed lines (fst maps))).
  - intros line maps Hin Hm. unfold perPathHandler.
    destruct (String.eqb line "") eqn:He; [exact Hm|].
    apply String.eqb_neq in He. simpl.
    intros f items p Hf Hp.
    destruct (pushTo_elem _ _ _ _ _ _ Hf Hp) as [(items' & H1 & H2)|[-> ->]].
    + apply (Hm f items'); auto.
    + split; [reflexivity|]. exists line. auto.
  - intros f items p Hf. apply elem_of_nil in Hf. destruct Hf.
Qed.

Lemma childrenOf_elem f m items :
  childrenOf f m = Some items -> (f, items) ∈ m.
Proof.
  induction m as [|[f' items'] m IH]; simpl; [discriminate|].
  destruct (String.eqb f' f) eqn:He.
  - apply String.eqb_eq in He. intros [= <-]. subst. left.
  - intros H. right. auto.
Qed.

Lemma keptFolders_kept k a l folders f :
  keptFolders env k a l = Some folders -> f ∈ folders ->
  exists fuel, folderKept env fuel k (toRelativeWithSlash env a f) = Some true.
Proof.
  revert folders. induction l as [|p l IH]; simpl; intros folders Hk Hf.
  - injection Hk as <-. apply elem_of_nil in Hf. destruct Hf.
  - destruct (folderKept env _ k (toRelativeWithSlash env a p)) as [keep|] eqn:Hp;
      [|discriminate].
    destruct (keptFolders env k a l) as [rest|]; [|discriminate].
    injection Hk as <-. destruct keep.
    + apply elem_of_cons in Hf as [->|Hf]; eauto.
    + eauto.
Qed.

Lemma sound_nativeFile a m p w :
  (forall siblings,
     glob_match env (excludePattern k0) (toRelativeWithSlash env a p) siblings
     = false ->
     isFilePatternMatch env k0 (basename env p) (toRelativeWithSlash env a p)
     = true ->
     included env k0 (toRelativeWithSlash env a p) siblings = true ->
     found p) ->
  sound w -> sound (nativeFile env a m p w).
Proof.
  intros Hp Hw. unfold nativeFile. cbv zeta.
  destruct (isLimitHit (walker w)); [exact Hw|].
  pose proof (sound_settings _ Hw) as Hk.
  rewrite (agree_exact _ _ Hk), (agree_exclude _ Hk), (agree_match _ _ _ Hk),
    (agree_included _ _ _ Hk).
  destruct (glob_match env (excludePattern k0) _ _) eqn:Hg; [exact Hw|].
  destruct (isFilePatternMatch env k0 _ _ && included env k0 _ _) eqn:Hm;
    [|exact Hw].
  apply andb_true_iff in Hm as [Hm Hi].
  apply sound_report; [|exact Hw]. eapply Hp; eauto.
Qed.

Lemma sound_onNativeClose a done w :
  disableFastFileLookup k0 = false -> a ∈ roots ->
  (exists files, readdir env a = IOOk files) ->
  sound w -> sound (onNativeClose env a done w).
Proof.
  intros Hfast Ha [files Hfiles] Hw. unfold onNativeClose. cbv zeta.
  assert (H0 : sound (withWalker (setRunningNative None) w)).
  { apply (sound_frame w); auto. apply Hw. }
  destruct (isCanceled _); [apply sound_invoke; exact H0|].
  set (maps := fold_left (perPathHandler env) (nativeLines env a) ([], [])).
  destruct (keptFolders env _ a (map fst (fst maps))) as [folders|] eqn:Hk.
  - apply sound_invoke. apply fold_left_keeps_in; [|exact H0].
    intros p w' Hin Hw'. apply sound_nativeFile; [|exact Hw'].
    apply list_elem_of_In, in_concat in Hin. destruct Hin as (items & Hitems & Hp).
    apply list_elem_of_In in Hitems, Hp.
    apply list_elem_of_omap in Hitems as (f & Hf & Hc).
    apply childrenOf_elem in Hc.
    destruct (filed_lines (nativeLines env a) f items p Hc Hp)
      as (-> & line & Hl & Hne & ->).
    destruct (keptFolders_kept _ _ _ _ _ Hk Hf) as [fuel Hfuel].
    rewrite (agree_kept _ _ _ (sound_settings _ H0)) in Hfuel.
    intros siblings Hg Hm Hi.
    apply (found_listed a files line siblings); eauto.
  - apply (sound_frame (withWalker (setRunningNative None) w)); auto.
    apply H0.
Qed.

Lemma sound_recurse a files done w :
  a ∈ roots -> readdir env a = IOOk files ->
  sound w -> sound (recurse env a files done w).
Proof.
  intros Ha Hfiles Hw. unfold recurse, recurseWithNativeCommand.
  pose proof (sound_settings _ Hw) as Hk.
  destruct Hk as (_ & _ & _ & _ & _ & _ & Hfast).
  destruct (disableFastFileLookup (walker w)) eqn:Hd.
  - apply (sound_recurseWithNodeJS a "" files); auto.
    + apply (reached_root a files); auto.
    + apply (sound_frame w); auto. apply Hw.
  - apply sound_request; [simpl; eauto 6|].
    apply (sound_frame w); auto. apply Hw.
Qed.

Lemma sound_walkInto a files cb m w :
  a ∈ roots -> readdir env a = IOOk files ->
  (forall path, m = Some path -> found path) ->
  sound w -> sound (walkInto env a files cb m w).
Proof.
  intros Ha Hfiles Hm Hw. unfold walkInto. apply sound_recurse; auto.
  destruct m as [path|]; auto. apply sound_onResult; auto.
Qed.

Lemma sound_relativeMatch a files cb w :
  a ∈ roots -> readdir env a = IOOk files ->
  sound w -> sound (checkFilePatternRelativeMatch env a files cb w).
Proof.
  intros Ha Hfiles Hw. unfold checkFilePatternRelativeMatch. cbv zeta.
  pose proof (sound_settings _ Hw) as (_ & Hpat & _ & _ & _ & Hin & _).
  destruct (filePattern (walker w)) as [pat|] eqn:Hp.
  - destruct (negb (truthy (Some pat)) || isAbsolute env pat
              || negb (searchInPath (walker w))) eqn:Hc.
    + apply sound_walkInto; auto. discriminate.
    + apply orb_false_iff in Hc as [Hc H3].
      apply orb_false_iff in Hc as [H1 H2].
      apply negb_false_iff in H1, H3.
      apply sound_request; [|exact Hw]. simpl. repeat split; auto.
      exists pat. repeat split; auto; congruence.
  - apply sound_walkInto; auto. discriminate.
Qed.

Lemma sound_walkRoots b w :
  (b = true -> forall pat, filePattern k0 = Some pat -> found pat) ->
  sound w -> sound (walkRoots roots b w).
Proof.
  intros Hb Hw. unfold walkRoots, parallel.
  pose proof (sound_settings _ Hw) as (_ & Hpat & _).
  set (w1 := match b, filePattern (walker w) with
             | true, Some pat => onResult pat w
             | _, _ => w
             end).
  assert (H1 : sound w1).
  { unfold w1. destruct b; auto.
    destruct (filePattern (walker w)) as [pat|] eqn:Hp; auto.
    apply sound_onResult; auto. }
  destruct roots as [|r rest] eqn:Hr.
  - apply (sound_frame w1); auto. apply H1.
  - rewrite <- Hr. apply forEachFrom_keeps_in.
    + intros i x w' Hin Hw'. apply sound_request; auto.
    + apply (sound_frame w1); auto. apply H1.
Qed.

Lemma sound_walkChildren rp c r children cb w :
  disableFastFileLookup k0 = true ->
  reached c r -> readdir env c = IOOk children ->
  sound w -> sound (walkChildren env rp c r children cb w).
Proof.
  intros Hport Hr Hc Hw. unfold walkChildren.
  branch; [apply sound_invoke; exact Hw|].
  apply sound_recurseWithNodeJS; auto.
  apply (sound_frame w); auto. apply Hw.
Qed.

Lemma sound_handle p w : justified p -> sound w -> sound (handle env p w).
Proof.
  intros Hp Hw. pose proof (sound_settings _ Hw) as Hk.
  destruct p; simpl in Hp |- *.
  - destruct Hp as (-> & H1 & H2 & H3 & H4).
    apply sound_walkRoots; auto.
    intros Hb pat Hpat. rewrite H1 in Hpat. injection Hpat as <-.
    apply found_pattern; auto.
  - unfold onReaddirRoot. cbv zeta.
    destruct (isCanceled (walker w) || isLimitHit (walker w)) eqn:Hs;
      [apply sound_invoke; exact Hw|].
    destruct (readdir env absolutePath) as [e|files] eqn:Hr.
    + apply sound_invoke.
      rewrite (agree_exclude _ Hk), (agree_match _ _ _ Hk),
        (agree_included _ _ _ Hk).
      destruct (String.eqb (code e) ENOTDIR) eqn:He; [|exact Hw].
      destruct (negb (isCanceled (walker w))); [|exact Hw].
      destruct (negb (isLimitHit (walker w))); [|exact Hw]. simpl.
      destruct (glob_match env (excludePattern k0) absolutePath None) eqn:Hg;
        [exact Hw|].
      destruct (isFilePatternMatch env k0 _ _ && included env k0 _ _) eqn:Hm;
        [|exact Hw].
      apply andb_true_iff in Hm as [Hm Hi]. apply String.eqb_eq in He.
      apply sound_report; [|exact Hw]. apply (found_root absolutePath e); auto.
    + apply sound_relativeMatch; auto.
  - destruct Hp as (H1 & H2 & pat & H3 & H4 & H5 & H6 & ->).
    apply sound_walkInto; auto.
    intros path. destruct (isExistingFile (stat env (join env basePath pat))) eqn:Hs;
      [|discriminate].
    intros [= <-]. apply (found_below basePath files pat); auto.
  - destruct Hp as (Hport & H1 & H2 & H3 & -> & -> & H6).
    unfold onReaddirEntry.
    destruct (readdir env (join env absolutePath file)) as [e|children] eqn:Hr.
    + apply sound_invoke. cbv zeta.
      rewrite (agree_match _ _ _ Hk), (agree_included _ _ _ Hk).
      destruct (String.eqb (code e) ENOTDIR) eqn:He; [|exact Hw].
      destruct (negb (isCanceled (walker w))); [|exact Hw].
      destruct (negb (isLimitHit (walker w))); [|exact Hw]. simpl.
      destruct (isFilePatternMatch env k0 _ _ && included env k0 _ _) eqn:Hm;
        [|exact Hw].
      apply andb_true_iff in Hm as [Hm Hi]. apply String.eqb_eq in He.
      apply sound_report; [|exact Hw].
      apply (found_entry absolutePath relativeParentPath files file e); auto.
    + apply sound_request; [|exact Hw]. simpl. repeat split; auto.
      apply (reached_entry absolutePath relativeParentPath files file children);
        auto.
  - destruct Hp as (Hport & H1 & H2). unfold onLstatLink.
    destruct (lstat env currentPath) as [e|[|]].
    + apply sound_invoke; exact Hw.
    + apply sound_request; [|exact Hw]. simpl. auto.
    + apply sound_walkChildren; auto.
  - destruct Hp as (Hport & H1 & H2). unfold onRealpathLink.
    destruct (realpath env currentPath) as [e|rp].
    + apply sound_invoke; exact Hw.
    + apply sound_walkChildren; auto.
  - destruct Hp as (H1 & H2 & H3). apply sound_onNativeClose; auto.
Qed.

Lemma sound_step e w : sound w -> sound (step env e w).
Proof.
  intros Hw. destruct e as [i|]; simpl.
  - unfold fire. destruct (hung w); auto.
    destruct (pending w !! i) as [p|] eqn:Hp; auto.
    apply sound_handle.
    + eapply Forall_lookup_1; [apply (sound_pending _ Hw)|exact Hp].
    + destruct Hw as [H1 H2 H3]. split; auto. simpl. apply Forall_delete; auto.
  - destruct Hw as [H1 H2 H3]. split; auto.
    unfold cancel, terminateNative. simpl. branch; exact H1.
Qed.

End Found.

Lemma sound_walk env cfg roots :
  sound env (new env cfg) roots (walk env roots (fresh env cfg)).
Proof.
  assert (H0 : sound env (new env cfg) roots
                 (withWalker resetState (fresh env cfg))).
  { split; simpl; [|constructor|constructor].
    unfold resetState, terminateNative. simpl. repeat split. }
  unfold walk, checkFilePatternAbsoluteMatch.
  pose proof (sound_settings _ _ _ _ H0) as (_ & Hpat & _).
  destruct (filePattern (walker (withWalker resetState (fresh env cfg))))
    as [pat|] eqn:Hp.
  - destruct (negb (truthy (Some pat)) || negb (isAbsolute env pat)) eqn:Hc.
    + apply sound_walkRoots; auto. discriminate.
    + apply orb_false_iff in Hc as [H1 H2]. apply negb_false_iff in H1, H2.
      destruct (existsb (String.eqb pat) roots) eqn:He.
      * apply sound_walkRoots; auto. discriminate.
      * apply sound_request; auto. simpl. repeat split; auto.
  - apply sound_walkRoots; auto. discriminate.
Qed.


(** *** Without a limit

    [config.maxResults || null]: without [maxResults], or with 0, there is no
    limit.  For a file pattern that is a plain name or absent, every file that
    is accepted is delivered. *)

Section Unlimited.

Context (env : Env).

Record unlimited (w : World) : Prop := {
  unlimited_max : maxResults (walker w) = None;
  unlimited_plain : plainName env (walker w);
  unlimited_pending : Forall (fun p => isStat p = false) (pending w);
  unlimited_flag : isLimitHit (walker w) = false;
  unlimited_count : length (results w) = resultCount (walker w)
}.

Lemma unlimited_frame w w' :
  walker w' = walker w -> pending w' = pending w -> results w' = results w ->
  unlimited w -> unlimited w'.
Proof.
  intros Hk Hp Hr [H1 H2 H3 H4 H5]. split; rewrite ?Hk, ?Hp, ?Hr; auto.
Qed.

Lemma unlimited_request p w :
  isStat p = false -> unlimited w -> unlimited (request p w).
Proof.
  intros Hp [H1 H2 H3 H4 H5]. split; auto. simpl. apply Forall_app; split; auto.
Qed.

Lemma unlimited_report path w : unlimited w -> unlimited (report path w).
Proof.
  intros [H1 H2 H3 H4 H5]. unfold report. simpl. rewrite H1. simpl. rewrite H4.
  split; auto. rewrite results_onResult, length_app.
  change (results (withWalker _ w)) with (results w). simpl. lia.
Qed.

Lemma unlimited_invoke cb e w : unlimited w -> unlimited (invoke cb e w).
Proof.
  destruct (invoke_frame cb e w) as [Hp _].
  destruct (invoke_walker cb e w) as [Hk Hr].
  apply unlimited_frame; auto.
Qed.

Lemma unlimited_parallel {A : Type} (items : list A) fn k final w :
  (forall j i x w, unlimited w -> unlimited (fn j i x w)) ->
  (forall w, unlimited w -> unlimited (final w)) ->
  unlimited w -> unlimited (parallel items fn k final w).
Proof.
  intros Hfn Hfinal Hw. unfold parallel. destruct items as [|x rest]; auto.
  apply forEachFrom_keeps; auto. revert Hw. apply unlimited_frame; auto.
Qed.

Lemma unlimited_recurseWithNodeJS a r fs done w :
  unlimited w -> unlimited (recurseWithNodeJS env a r fs done w).
Proof.
  intros Hw. unfold recurseWithNodeJS. apply unlimited_parallel.
  - intros j i x w' Hw'. repeat branch;
      auto using unlimited_invoke, unlimited_request.
  - intros w'. apply unlimited_invoke.
  - exact Hw.
Qed.

Lemma unlimited_recurse a fs done w :
  unlimited w -> unlimited (recurse env a fs done w).
Proof.
  intros Hw. unfold recurse, recurseWithNativeCommand. branch.
  - apply unlimited_recurseWithNodeJS. revert Hw. apply unlimited_frame; auto.
  - apply unlimited_request; auto. destruct Hw as [H1 H2 H3 H4 H5]. split; auto.
Qed.

Lemma unlimited_walkRoots roots w :
  unlimited w -> unlimited (walkRoots roots false w).
Proof.
  intros Hw. unfold walkRoots. apply unlimited_parallel.
  - intros. apply unlimited_request; auto.
  - intros w'. apply unlimited_frame; auto.
  - exact Hw.
Qed.

Lemma unlimited_walkChildren rp c r ch cb w :
  unlimited w -> unlimited (walkChildren env rp c r ch cb w).
Proof.
  intros Hw. unfold walkChildren. branch; auto using unlimited_invoke.
  apply unlimited_recurseWithNodeJS. destruct Hw as [H1 H2 H3 H4 H5]. split; auto.
Qed.

Lemma unlimited_nativeFile a m p w :
  unlimited w -> unlimited (nativeFile env a m p w).
Proof.
  intros Hw. unfold nativeFile. repeat branch; auto using unlimited_report.
Qed.

Lemma unlimited_relativeMatch a fs cb w :
  unlimited w -> unlimited (checkFilePatternRelativeMatch env a fs cb w).
Proof.
  intros Hw. unfold checkFilePatternRelativeMatch, walkInto.
  pose proof (unlimited_plain _ Hw) as Hp. unfold plainName in Hp.
  destruct (filePattern (walker w)) as [pat|]; auto using unlimited_recurse.
  destruct (truthy (Some pat)) eqn:Ht; simpl; auto using unlimited_recurse.
  destruct (Hp eq_refl) as [Ha Hs]. rewrite Ha, Hs. simpl.
  auto using unlimited_recurse.
Qed.

Lemma unlimited_handle p w :
  isStat p = false -> unlimited w -> unlimited (handle env p w).
Proof.
  intros Hp Hw. destruct p; simpl; try discriminate.
  - unfold onReaddirRoot.
    repeat branch;
      auto using unlimited_invoke, unlimited_report, unlimited_relativeMatch.
  - unfold onReaddirEntry.
    repeat branch;
      auto using unlimited_invoke, unlimited_request, unlimited_report.
  - unfold onLstatLink.
    repeat branch;
      auto using unlimited_invoke, unlimited_request, unlimited_walkChildren.
  - unfold onRealpathLink.
    repeat branch; auto using unlimited_invoke, unlimited_walkChildren.
  - unfold onNativeClose.
    assert (H0 : unlimited (withWalker (setRunningNative None) w))
      by (destruct Hw; split; auto).
    repeat branch; auto using unlimited_invoke.
    + apply unlimited_invoke. apply fold_left_keeps; auto.
      intros. apply unlimited_nativeFile; auto.
    + destruct H0; split; auto.
Qed.

Lemma unlimited_step e w : unlimited w -> unlimited (step env e w).
Proof.
  intros Hw. destruct e as [i|]; simpl.
  - unfold fire. destruct (hung w); auto.
    destruct (pending w !! i) as [p|] eqn:Hp; auto.
    apply unlimited_handle.
    + pose proof (unlimited_pending _ Hw) as Hall.
      eapply Forall_lookup_1 in Hall; eauto.
    + destruct Hw as [H1 H2 H3 H4 H5]. split; simpl; auto.
      apply Forall_delete; auto.
  - destruct Hw; split; auto;
      unfold cancel, terminateNative; simpl; branch; auto.
Qed.

Lemma unlimited_walk cfg roots :
  orNull (cfg_maxResults cfg) = None -> isPlainPattern env cfg = true ->
  unlimited (walk env roots (fresh env cfg)).
Proof.
  intros Hmax Hplain.
  assert (Hin : searchInPath (new env cfg) = false).
  { unfold isPlainPattern in Hplain. simpl. unfold truthy.
    destruct (cfg_filePattern cfg) as [pat|]; auto.
    destruct (String.eqb pat ""); simpl in *; auto.
    apply andb_true_iff in Hplain as [_ Hs].
    apply negb_true_iff in Hs. exact Hs. }
  assert (Hpat : filePattern (new env cfg) = cfg_filePattern cfg).
  { simpl in *. rewrite Hin. reflexivity. }
  assert (H0 : unlimited (withWalker resetState (fresh env cfg))).
  { split; try reflexivity; [exact Hmax| |constructor].
    unfold plainName.
    change (filePattern (walker (withWalker resetState (fresh env cfg))))
      with (filePattern (new env cfg)).
    change (searchInPath (walker (withWalker resetState (fresh env cfg))))
      with (searchInPath (new env cfg)).
    rewrite Hpat, Hin.
    unfold isPlainPattern in Hplain.
    destruct (cfg_filePattern cfg) as [pat|]; auto.
    intros Ht. unfold truthy in Ht. apply negb_true_iff in Ht.
    rewrite Ht in Hplain. simpl in Hplain.
    apply andb_true_iff in Hplain as [Ha _].
    apply negb_true_iff in Ha. split; auto. }
  unfold walk, checkFilePatternAbsoluteMatch.
  pose proof (unlimited_plain _ H0) as Hp. unfold plainName in Hp.
  destruct (filePattern (walker (withWalker resetState (fresh env cfg))))
    as [pat|]; auto using unlimited_walkRoots.
  destruct (truthy (Some pat)) eqn:Ht; simpl; auto using unlimited_walkRoots.
  destruct (Hp eq_refl) as [Ha _]. rewrite Ha. simpl.
  auto using unlimited_walkRoots.
Qed.

End Unlimited.

Lemma search_sound env cfg roots events :
  Forall (found env (new env cfg) roots) (results (search env cfg roots events)).
Proof.
  apply sound_results. unfold search.
  apply run_keeps; auto using sound_step, sound_walk.
Qed.

(** *** The properties *)

(** X1: whatever the order in which the requests of a search complete and
    whenever [cancel] is called, [done] is called at most once, without an
    error and with the value [isLimitHit] has at the end; no request is
    outstanding when it has been called; and it has been called once no
    request is outstanding, unless the search is blocked. *)
Theorem done_is_called_once (env : Env) (cfg : IRawSearch)
    (roots : list string) (events : list Event) :
  let e := engine_run env events (engine_search env (newEngine env cfg roots)) in
  let w := engine_walker e in
  (doneCalls w = [] \/ doneCalls w = [(None, isLimitHit (walker w))]) /\
  (doneCalls w <> [] -> pending w = []) /\
  (pending w = [] -> hung w = false ->
   doneCalls w = [(None, isLimitHit (walker w))]).
Proof.
  intros e w. apply orderly_done. apply (search_orderly env cfg roots events).
Qed.

(** X2: for a file pattern that is a plain name or absent, an engine that is
    stopped (cancelled, or with the limit hit) delivers no further result,
    whatever callbacks run afterwards, and stays stopped. *)
Theorem stopped_engine_delivers_nothing_more (env : Env) (cfg : IRawSearch)
    (roots : list string) (before after : list Event) :
  isPlainPattern env cfg = true ->
  let e := engine_run env before (engine_search env (newEngine env cfg roots)) in
  stopped (walker (engine_walker e)) = true ->
  results (engine_walker (engine_run env after e)) = results (engine_walker e) /\
  stopped (walker (engine_walker (engine_run env after e))) = true.
Proof.
  intros Hplain e Hs.
  assert (Hw : quiet env None (engine_walker e)).
  { unfold e, engine_run, engine_search, newEngine. cbn [engine_walker rootPaths].
    apply run_keeps; auto using quiet_step, quiet_walk. }
  assert (Hq : quiet env (Some (results (engine_walker e))) (engine_walker e)).
  { destruct Hw as [H1 H2 _]. split; auto. intros r [= <-]. auto. }
  assert (Hafter : quiet env (Some (results (engine_walker e)))
                     (engine_walker (engine_run env after e))).
  { unfold engine_run at 1. cbn [engine_walker].
    apply run_keeps; auto using quiet_step. }
  destruct (quiet_results _ _ _ Hafter _ eq_refl) as [H1 H2]. auto.
Qed.

Lemma stopped_engine_delivers_nothing_more_witness :
  let E := Posix.env Posix.projDisk Posix.noListing in
  let e := engine_run E [Fire 0; Fire 0; Cancel]
             (engine_search E (newEngine E (Posix.plain None true) ["/proj"])) in
  results (engine_walker (engine_run E (fifo 4) e)) = results (engine_walker e) /\
  stopped (walker (engine_walker (engine_run E (fifo 4) e))) = true.
Proof.
  apply (stopped_engine_delivers_nothing_more
           (Posix.env Posix.projDisk Posix.noListing) (Posix.plain None true)
           ["/proj"] [Fire 0; Fire 0; Cancel] (fifo 4));
    reflexivity.
Defined.

(** X3: once an engine is cancelled, its search comes to an end on any file
    system: each callback that runs leaves fewer to run, at most three for a
    request that is outstanding (one and one for each root path for the
    [fs.stat] of the file pattern), no callback blocks, and [done] is called
    when the last one has run. *)
Theorem cancelled_engine_winds_down (env : Env) (cfg : IRawSearch)
    (roots : list string) (before : list Event) (n : nat) (w' : World) :
  let e := engine_cancel
             (engine_run env before (engine_search env (newEngine env cfg roots))) in
  turns env (engine_walker e) n w' ->
  n + toRun w' <= toRun (engine_walker e) /\
  isCanceled (walker w') = true /\
  (hung (engine_walker e) = false ->
   hung w' = false /\
   (pending w' = [] -> doneCalls w' = [(None, isLimitHit (walker w'))])).
Proof.
  intros e Ht.
  assert (Hc : isCanceled (walker (engine_walker e)) = true).
  { unfold e, engine_cancel, cancel, terminateNative. simpl. branch; reflexivity. }
  destruct (turns_wind_down env _ _ _ Hc Ht) as (H1 & H2 & H3).
  repeat split; auto.
  intros Hp.
  assert (Ho : orderly w').
  { apply (turns_orderly env _ _ _) with (2 := Ht).
    apply (step_orderly env Cancel). apply (search_orderly env cfg roots before). }
  destruct (orderly_done w' Ho) as (_ & _ & Hd). auto.
Qed.

Lemma cancelled_engine_winds_down_witness :
  let E := Posix.env Posix.projDisk Posix.noListing in
  let e := engine_cancel
             (engine_run E [Fire 0]
                (engine_search E (newEngine E (Posix.plain None true) ["/proj"]))) in
  let w' := run E (fifo 3) (engine_walker e) in
  3 + toRun w' <= toRun (engine_walker e) /\
  isCanceled (walker w') = true /\
  (hung (engine_walker e) = false ->
   hung w' = false /\
   (pending w' = [] -> doneCalls w' = [(None, isLimitHit (walker w'))])).
Proof.
  intros E e w'.
  assert (Ht : turns E (engine_walker e) 3 w').
  { unfold w'.
    change (run E (fifo 3) (engine_walker e))
      with (fire E 0 (fire E 0 (fire E 0 (engine_walker e)))).
    do 3 (eapply (turns_fire _ _ 0);
            [vm_compute; reflexivity|vm_compute; reflexivity|]).
    apply turns_stop. }
  exact (cancelled_engine_winds_down E (Posix.plain None true) ["/proj"]
           [Fire 0] 3 w' Ht).
Defined.

(** X4: every path a search delivers is accounted for by the file system
    and the settings ([found]): it is the file pattern itself, an absolute path
    of an existing file that is not a root; or the file pattern below a root;
    or a root that is not a folder and passes the filters; or, in the portable
    walk, an entry that is not a folder, passes the filters and lies in a
    folder reached from a root through folders the exclude pattern let
    through; or, with the native command, a line the command printed for a
    root, in a folder none of whose parents is excluded, that passes the
    filters. *)
Theorem every_result_is_found (env : Env) (cfg : IRawSearch)
    (roots : list string) (events : list Event) :
  Forall (found env (new env cfg) roots) (results (search env cfg roots events)).
Proof. apply search_sound. Qed.

(** X7: the portable walk with a file pattern that is a plain name or absent
    delivers only paths that [readdir] refuses with ENOTDIR: never a folder,
    and nothing that does not exist. *)
Theorem portable_walk_reports_no_folder (env : Env) (cfg : IRawSearch)
    (roots : list string) (events : list Event) :
  cfg_disableFastFileLookup cfg = true -> isPlainPattern env cfg = true ->
  Forall (fun r => exists e, readdir env r = IOErr e /\ code e = ENOTDIR)
    (results (search env cfg roots events)).
Proof.
  intros Hport Hplain.
  assert (Hin : searchInPath (new env cfg) = false).
  { unfold isPlainPattern in Hplain. simpl. unfold truthy.
    destruct (cfg_filePattern cfg) as [pat|]; auto.
    destruct (String.eqb pat ""); simpl in *; auto.
    apply andb_true_iff in Hplain as [_ Hs].
    apply negb_true_iff in Hs. exact Hs. }
  assert (Hpat : filePattern (new env cfg) = cfg_filePattern cfg).
  { simpl in *. rewrite Hin. reflexivity. }
  eapply Forall_impl; [apply (search_sound env cfg roots events)|].
  intros r Hr. destruct Hr as [pat H1 H2 H3 _ _| | | |].
  - exfalso. rewrite Hpat in H1. unfold isPlainPattern in Hplain.
    rewrite H1 in Hplain. unfold truthy in H2. apply negb_true_iff in H2.
    rewrite H2, H3 in Hplain. discriminate.
  - congruence.
  - eauto.
  - eauto.
  - exfalso. simpl in *. congruence.
Qed.

Lemma portable_walk_reports_no_folder_witness :
  let E := Posix.env Posix.projDisk Posix.noListing in
  Forall (fun r => exists e, readdir E r = IOErr e /\ code e = ENOTDIR)
    (results (search E (Posix.plain None true) ["/proj"] (fifo 6))).
Proof.
  apply (portable_walk_reports_no_folder
           (Posix.env Posix.projDisk Posix.noListing) (Posix.plain None true)
           ["/proj"] (fifo 6)); reflexivity.
Defined.

(** X8: without [maxResults], or with [maxResults = 0], there is no limit:
    for a file pattern that is a plain name or absent, [isLimitHit] is never
    set, every file that was accepted has been delivered, and [done] receives
    [false]. *)
Theorem no_limit_without_maxResults (env : Env) (cfg : IRawSearch)
    (roots : list string) (events : list Event) :
  cfg_maxResults cfg = None \/ cfg_maxResults cfg = Some 0 ->
  isPlainPattern env cfg = true ->
  let w := search env cfg roots events in
  isLimitHit (walker w) = false /\
  length (results w) = resultCount (walker w) /\
  (pending w = [] -> hung w = false -> doneCalls w = [(None, false)]).
Proof.
  intros Hmax Hplain w.
  assert (Hnull : orNull (cfg_maxResults cfg) = None).
  { destruct Hmax as [-> | ->]; reflexivity. }
  assert (Hw : unlimited env w).
  { unfold w, search. apply run_keeps; auto using unlimited_step, unlimited_walk. }
  destruct Hw as [H1 H2 H3 H4 H5]. repeat split; auto.
  intros Hp Hh.
  destruct (orderly_done w (search_orderly env cfg roots events)) as (_ & _ & Hd).
  rewrite <- H4. auto.
Qed.

Lemma no_limit_without_maxResults_witness :
  let w := search (Posix.env Posix.projDisk Posix.noListing)
             (Posix.plain (Some 0) true) ["/proj"] (fifo 6) in
  isLimitHit (walker w) = false /\
  length (results w) = resultCount (walker w) /\
  (pending w = [] -> hung w = false -> doneCalls w = [(None, false)]).
Proof.
  apply (no_limit_without_maxResults
           (Posix.env Posix.projDisk Posix.noListing) (Posix.plain (Some 0) true)
           ["/proj"] (fifo 6)); [right|]; reflexivity.
Defined.

End WalkerExtras.

Module WalkerComplete.

Import FileWalker FileWalkerFacts WalkerExtras.

(** The folders visited so far. *)
Definition dirs (w : World) : list string := map dir (visits w).

(** [w'] comes later than [w] in a search, with the same folders visited. *)
Record onward (w w' : World) : Prop := {
  onward_stopped : stopped (walker w) = true -> stopped (walker w') = true;
  onward_pending : forall q, q ∈ pending w -> q ∈ pending w';
  onward_results : forall r, r ∈ results w -> r ∈ results w';
  onward_visits : visits w' = visits w;
  onward_keys : walkedPaths (walker w') = walkedPaths (walker w)
}.

Lemma onward_refl w : onward w w.
Proof. split; auto. Qed.

Lemma onward_trans w1 w2 w3 : onward w1 w2 -> onward w2 w3 -> onward w1 w3.
Proof.
  intros [A1 A2 A3 A4 A5] [B1 B2 B3 B4 B5]. split; auto; congruence.
Qed.

Lemma onward_frame w w' :
  walker w' = walker w -> pending w' = pending w -> results w' = results w ->
  visits w' = visits w -> onward w w'.
Proof. intros H1 H2 H3 H4. split; rewrite ?H1, ?H2, ?H3; auto. Qed.

Lemma onward_invoke cb e w : onward w (invoke cb e w).
Proof.
  destruct (invoke_walker cb e w) as [H1 H2].
  destruct (invoke_frame cb e w) as [H3 _].
  apply onward_frame; auto. apply invoke_visits.
Qed.

Lemma onward_request q w : onward w (request q w).
Proof.
  split; auto. intros q' Hq. simpl. apply elem_of_app. left. exact Hq.
Qed.

Lemma requested q w : q ∈ pending (request q w).
Proof. simpl. apply elem_of_app. right. apply list_elem_of_here. Qed.

Lemma onward_onResult path w : onward w (onResult path w).
Proof.
  split; auto. intros r Hr. rewrite results_onResult.
  apply elem_of_app. left. exact Hr.
Qed.

Lemma onward_report path w : onward w (report path w).
Proof.
  unfold report. cbv zeta.
  set (w1 := withWalker (fun k => setResultCount (S (resultCount k)) k) w).
  assert (H1 : onward w w1) by (split; auto).
  set (w2 := match maxResults (walker w1) with
             | Some m =>
                 if Nat.ltb m (resultCount (walker w1))
                 then withWalker (setLimitHit true) w1 else w1
             | None => w1
             end).
  assert (H2 : onward w1 w2).
  { unfold w2. destruct (maxResults (walker w1)); [|apply onward_refl].
    destruct (Nat.ltb _ _); [|apply onward_refl].
    split; auto. intros _. unfold stopped. simpl. apply orb_true_r. }
  apply (onward_trans _ w1); [exact H1|]. apply (onward_trans _ w2); [exact H2|].
  destruct (isLimitHit (walker w2)); [apply onward_refl|apply onward_onResult].
Qed.

Lemma reported path w :
  stopped (walker (report path w)) = false -> path ∈ results (report path w).
Proof.
  unfold report. cbv zeta.
  match goal with
  | |- context [if isLimitHit (walker ?x) then _ else _] => set (w2 := x)
  end.
  destruct (isLimitHit (walker w2)) eqn:E.
  - unfold stopped. rewrite E, orb_true_r. discriminate.
  - intros _. rewrite results_onResult. apply elem_of_app. right.
    apply list_elem_of_here.
Qed.

Lemma onward_forEach {A : Type} (fn : nat -> A -> World -> World)
    (items : list A) :
  (forall i x w, onward w (fn i x w)) ->
  forall i w, onward w (forEachFrom fn i items w).
Proof.
  intros Hfn. induction items as [|x rest IH]; intros i w; simpl.
  - apply onward_refl.
  - apply (onward_trans _ (fn i x w)); auto.
Qed.

Lemma onward_recurseWithNodeJS env a rp files done w :
  onward w (recurseWithNodeJS env a rp files done w).
Proof.
  unfold recurseWithNodeJS, parallel.
  destruct files as [|f rest]; [apply onward_invoke|].
  eapply onward_trans; [|apply onward_forEach].
  - apply onward_frame; reflexivity.
  - intros i x w'. cbv zeta.
    repeat branch; auto using onward_invoke, onward_request.
Qed.

Lemma in_delete {A : Type} (l : list A) i p q :
  l !! i = Some p -> q ∈ l -> q = p \/ q ∈ delete i l.
Proof.
  revert i. induction l as [|x l IH]; intros i Hi Hq.
  - apply elem_of_nil in Hq. contradiction.
  - destruct i as [|i]; simpl in *.
    + injection Hi as ->. apply elem_of_cons in Hq as [->|Hq]; auto.
    + apply elem_of_cons in Hq as [->|Hq].
      * right. apply list_elem_of_here.
      * destruct (IH i Hi Hq) as [->|H]; auto.
        right. apply list_elem_of_further. exact H.
Qed.

(** The requests [walkRoots] makes. *)
Lemma rootsRequested j : forall items i w r,
  r ∈ items ->
  exists cb,
    ReaddirRoot r cb
    ∈ pending
        (forEachFrom
           (fun i absolutePath =>
              request (ReaddirRoot absolutePath (PerEntry j i)))
           i items w).
Proof.
  induction items as [|x items IH]; intros i w r Hin.
  - apply elem_of_nil in Hin. contradiction.
  - cbn [forEachFrom]. apply elem_of_cons in Hin as [->|Hin].
    + exists (PerEntry j i).
      apply (onward_pending _ _
               (onward_forEach _ items (fun i x w => onward_request _ w) (S i) _)).
      apply requested.
    + apply IH. exact Hin.
Qed.

Lemma onward_walkRoots roots b w : onward w (walkRoots roots b w).
Proof.
  unfold walkRoots, parallel. cbv zeta.
  set (w1 := match b, filePattern (walker w) with
             | true, Some pat => onResult pat w
             | _, _ => w
             end).
  assert (H1 : onward w w1).
  { unfold w1. destruct b; [|apply onward_refl].
    destruct (filePattern (walker w)); [apply onward_onResult|apply onward_refl]. }
  apply (onward_trans _ w1); [exact H1|].
  destruct roots as [|r rest].
  - apply onward_frame; reflexivity.
  - eapply onward_trans; [|apply onward_forEach; intros; apply onward_request].
    apply onward_frame; reflexivity.
Qed.

Section Complete.

Context (env : Env) (k0 : Walker) (roots : list string).

Hypothesis portable : disableFastFileLookup k0 = true.

(** No folder that the walk lists is a symbolic link. *)
Hypothesis noLinks :
  forall a rp, reached env k0 roots a rp -> lstat env a = IOOk false.

(** A folder that the walk lists is listed under one relative path. *)
Hypothesis oneName :
  forall a rp rp',
    reached env k0 roots a rp -> reached env k0 roots a rp' -> rp = rp'.

(** A request is outstanding, or it is the one whose callback is running. *)
Definition waits (running : list Pending) (w : World) (q : Pending) : Prop :=
  q ∈ running \/ q ∈ pending w.

Definition accepted (file rel : string) : bool :=
  isFilePatternMatch env k0 file rel && included env k0 rel None.

(** The entry at [cur] is done with: a folder has been visited, a file that
    passes the filters has been delivered. *)
Definition entrySettled (w : World) (cur file rel : string) : Prop :=
  match readdir env cur with
  | IOOk _ => cur ∈ dirs w
  | IOErr e =>
      code e = ENOTDIR -> accepted file rel = true -> cur ∈ results w
  end.

Definition entryStatus (running : list Pending) (w : World)
    (b rb : string) (files : list string) (file : string) : Prop :=
  let cur := join env b file in
  let rel := relativeOf rb file in
  (exists clb, waits running w (ReaddirEntry b rb files file rel cur clb))
  \/ (exists a fs f children clb,
        waits running w (LstatLink a fs f cur rel children clb))
  \/ entrySettled w cur file rel.

(** The file pattern below a root that is a folder has been looked up. *)
Definition belowSettled (w : World) (r : string) : Prop :=
  forall pat,
    filePattern k0 = Some pat -> truthy (Some pat) = true ->
    isAbsolute env pat = false -> searchInPath k0 = true ->
    isExistingFile (stat env (join env r pat)) = true ->
    join env r pat ∈ results w.

Definition rootSettled (w : World) (r : string) : Prop :=
  match readdir env r with
  | IOOk _ => r ∈ dirs w /\ belowSettled w r
  | IOErr e =>
      code e = ENOTDIR ->
      glob_match env (excludePattern k0) r None = false ->
      isFilePatternMatch env k0 (basename env r) r = true ->
      included env k0 r None = true ->
      r ∈ results w
  end.

Definition rootStatus (running : list Pending) (w : World) (r : string) : Prop :=
  (exists path, waits running w (StatFilePattern path roots))
  \/ (exists cb, waits running w (ReaddirRoot r cb))
  \/ (exists a files cb, waits running w (StatRelative r a files cb))
  \/ rootSettled w r.

Definition patternSettled (w : World) : Prop :=
  forall pat,
    filePattern k0 = Some pat -> truthy (Some pat) = true ->
    isAbsolute env pat = true -> existsb (String.eqb pat) roots = false ->
    isExistingFile (stat env pat) = true ->
    pat ∈ results w.

Definition patternStatus (running : list Pending) (w : World) : Prop :=
  (exists path, waits running w (StatFilePattern path roots))
  \/ patternSettled w.

(** Every entry of a folder that has been visited is waited for or done
    with, the entries [todo] of the folder that is being visited apart. *)
Definition visitedStatus (running : list Pending)
    (todo : option (string * list string)) (w : World) : Prop :=
  forall b rb files file,
    reached env k0 roots b rb -> b ∈ dirs w ->
    readdir env b = IOOk files -> file ∈ files ->
    glob_match env (excludePattern k0) (relativeOf rb file)
      (Some (siblingsOf k0 files file)) = false ->
    entryStatus running w b rb files file
    \/ exists rest, todo = Some (b, rest) /\ file ∈ rest.

Definition notRealpath (p : Pending) : Prop :=
  match p with
  | RealpathLink _ _ _ _ _ _ _ => False
  | _ => True
  end.

Record cover (running : list Pending) (todo : option (string * list string))
    (w : World) : Prop := {
  cover_keys : forall k, k ∈ walkedPaths (walker w) -> k ∈ dirs w;
  cover_links : Forall notRealpath (pending w);
  cover_pattern : stopped (walker w) = false -> patternStatus running w;
  cover_roots :
    stopped (walker w) = false -> forall r, r ∈ roots -> rootStatus running w r;
  cover_visited : stopped (walker w) = false -> visitedStatus running todo w
}.

Lemma waits_onward running w w' q :
  (forall q, q ∈ pending w -> q ∈ pending w') ->
  waits running w q -> waits running w' q.
Proof. intros H [Hq|Hq]; [left|right]; auto. Qed.

Lemma entryStatus_onward running w w' b rb files file :
  (forall q, q ∈ pending w -> q ∈ pending w') ->
  (forall r, r ∈ results w -> r ∈ results w') ->
  (forall d, d ∈ dirs w -> d ∈ dirs w') ->
  entryStatus running w b rb files file -> entryStatus running w' b rb files file.
Proof.
  intros Hp Hr Hd [(clb & H)|[(a & fs & f & ch & clb & H)|H]].
  - left. exists clb. eapply waits_onward; eauto.
  - right. left. exists a, fs, f, ch, clb. eapply waits_onward; eauto.
  - right. right. unfold entrySettled in *.
    destruct (readdir env (join env b file)); auto.
Qed.

Lemma rootStatus_onward running w w' r :
  (forall q, q ∈ pending w -> q ∈ pending w') ->
  (forall r, r ∈ results w -> r ∈ results w') ->
  (forall d, d ∈ dirs w -> d ∈ dirs w') ->
  rootStatus running w r -> rootStatus running w' r.
Proof.
  intros Hp Hr Hd [(path & H)|[(cb & H)|[(a & files & cb & H)|H]]].
  - left. exists path. eapply waits_onward; eauto.
  - right. left. exists cb. eapply waits_onward; eauto.
  - right. right. left. exists a, files, cb. eapply waits_onward; eauto.
  - right. right. right. unfold rootSettled, belowSettled in *.
    destruct (readdir env r); auto. destruct H as [H1 H2]. split; auto.
Qed.

Lemma patternStatus_onward running w w' :
  (forall q, q ∈ pending w -> q ∈ pending w') ->
  (forall r, r ∈ results w -> r ∈ results w') ->
  patternStatus running w -> patternStatus running w'.
Proof.
  intros Hp Hr [(path & H)|H].
  - left. exists path. eapply waits_onward; eauto.
  - right. intros pat A1 A2 A3 A4 A5. apply Hr. apply (H pat); auto.
Qed.

Lemma dirs_onward w w' : visits w' = visits w -> dirs w' = dirs w.
Proof. unfold dirs. intros ->. reflexivity. Qed.

Lemma stopped_before w w' :
  onward w w' -> stopped (walker w') = false -> stopped (walker w) = false.
Proof.
  intros Hg Hs. destruct (stopped (walker w)) eqn:E; auto.
  rewrite (onward_stopped _ _ Hg E) in Hs. discriminate.
Qed.

Lemma cover_onward running todo w w' :
  onward w w' -> Forall notRealpath (pending w') ->
  cover running todo w -> cover running todo w'.
Proof.
  intros Hg Hl [H1 H2 H3 H4 H5].
  pose proof (dirs_onward _ _ (onward_visits _ _ Hg)) as Hd.
  assert (Hd' : forall d, d ∈ dirs w -> d ∈ dirs w') by (rewrite Hd; auto).
  split.
  - rewrite (onward_keys _ _ Hg), Hd. exact H1.
  - exact Hl.
  - intros Hs. apply (patternStatus_onward running w); try apply Hg.
    apply H3. eapply stopped_before; eauto.
  - intros Hs r Hr. apply (rootStatus_onward running w); try apply Hg; auto.
    apply H4; auto. eapply stopped_before; eauto.
  - intros Hs b rb files file A1 A2 A3 A4 A5. rewrite Hd in A2.
    destruct (H5 (stopped_before _ _ Hg Hs) b rb files file A1 A2 A3 A4 A5)
      as [H|H]; [left|right; exact H].
    apply (entryStatus_onward running w); try apply Hg; auto.
Qed.

(** The request whose callback runs leaves the outstanding ones. *)
Lemma cover_take i p w :
  pending w !! i = Some p ->
  cover [] None w -> cover [p] None (withPending (delete i) w).
Proof.
  intros Hi [H1 H2 H3 H4 H5].
  assert (Hw : forall q, waits [] w q -> waits [p] (withPending (delete i) w) q).
  { intros q [Hq|Hq]; [apply elem_of_nil in Hq; contradiction|].
    destruct (in_delete _ _ _ _ Hi Hq) as [->|H].
    - left. apply list_elem_of_here.
    - right. exact H. }
  split; simpl.
  - exact H1.
  - apply Forall_delete. exact H2.
  - intros Hs. destruct (H3 Hs) as [(path & H)|H]; [left; eauto|right; exact H].
  - intros Hs r Hr.
    destruct (H4 Hs r Hr) as [(path & H)|[(cb & H)|[(a & files & cb & H)|H]]].
    + left. eauto.
    + right. left. eauto.
    + right. right. left. eauto 6.
    + right. right. right. exact H.
  - intros Hs b rb files file A1 A2 A3 A4 A5.
    destruct (H5 Hs b rb files file A1 A2 A3 A4 A5) as [H|(rest & H & _)];
      [|discriminate].
    left. destruct H as [(clb & H)|[(a & fs & f & ch & clb & H)|H]].
    + left. eauto.
    + right. left. eauto 10.
    + right. right. exact H.
Qed.

(** What the callback of a request has to bring about. *)
Definition resolved (p : Pending) (w : World) : Prop :=
  match p with
  | StatFilePattern _ _ =>
      patternSettled w /\ forall r, r ∈ roots -> rootStatus [] w r
  | ReaddirRoot r _ => rootStatus [] w r
  | StatRelative r _ _ _ => rootStatus [] w r
  | ReaddirEntry b rb files file _ _ _ => entryStatus [] w b rb files file
  | LstatLink _ _ _ cur rel _ _ => forall file, entrySettled w cur file rel
  | RealpathLink _ _ _ _ _ _ _ => True
  | NativeClose _ _ _ => True
  end.

Lemma cover_resolve p w :
  (stopped (walker w) = false -> resolved p w) ->
  cover [p] None w -> cover [] None w.
Proof.
  intros Hres [H1 H2 H3 H4 H5]. split; auto.
  - intros Hs. destruct (H3 Hs) as [(path & [Hq|Hq])|H].
    + apply list_elem_of_singleton in Hq. subst p.
      right. apply (Hres Hs).
    + left. exists path. right. exact Hq.
    + right. exact H.
  - intros Hs r Hr.
    destruct (H4 Hs r Hr)
      as [(path & [Hq|Hq])|[(cb & [Hq|Hq])|[(a & files & cb & [Hq|Hq])|H]]].
    + apply list_elem_of_singleton in Hq. subst p. apply (Hres Hs). exact Hr.
    + left. exists path. right. exact Hq.
    + apply list_elem_of_singleton in Hq. subst p. apply (Hres Hs).
    + right. left. exists cb. right. exact Hq.
    + apply list_elem_of_singleton in Hq. subst p. apply (Hres Hs).
    + right. right. left. exists a, files, cb. right. exact Hq.
    + right. right. right. exact H.
  - intros Hs b rb files file A1 A2 A3 A4 A5.
    destruct (H5 Hs b rb files file A1 A2 A3 A4 A5) as [H|(rest & H & _)];
      [|discriminate].
    left.
    destruct H as [(clb & [Hq|Hq])|[(a & fs & f & ch & clb & [Hq|Hq])|H]].
    + apply list_elem_of_singleton in Hq. subst p. apply (Hres Hs).
    + left. exists clb. right. exact Hq.
    + apply list_elem_of_singleton in Hq. subst p.
      right. right. apply (Hres Hs).
    + right. left. exists a, fs, f, ch, clb. right. exact Hq.
    + right. right. exact H.
Qed.

(** A folder is visited: its entries are to do. *)
Lemma cover_open running b files w w' :
  stopped (walker w') = stopped (walker w) ->
  pending w' = pending w -> results w' = results w ->
  dirs w' = b :: dirs w ->
  (forall k, k ∈ walkedPaths (walker w') -> k = b \/ k ∈ walkedPaths (walker w)) ->
  readdir env b = IOOk files ->
  cover running None w -> cover running (Some (b, files)) w'.
Proof.
  intros Hs Hp Hr Hd Hk Hb [H1 H2 H3 H4 H5].
  assert (Hd' : forall d, d ∈ dirs w -> d ∈ dirs w').
  { intros d H. rewrite Hd. apply list_elem_of_further. exact H. }
  assert (Hp' : forall q, q ∈ pending w -> q ∈ pending w') by (rewrite Hp; auto).
  assert (Hr' : forall r, r ∈ results w -> r ∈ results w') by (rewrite Hr; auto).
  split.
  - intros k Hin. destruct (Hk k Hin) as [->|H].
    + rewrite Hd. apply list_elem_of_here.
    + auto.
  - rewrite Hp. exact H2.
  - rewrite Hs. intros Hs'. apply (patternStatus_onward running w); auto.
  - rewrite Hs. intros Hs' r Hin. apply (rootStatus_onward running w); auto.
  - rewrite Hs. intros Hs' b' rb files' file A1 A2 A3 A4 A5.
    rewrite Hd in A2. apply elem_of_cons in A2 as [->|A2].
    + right. exists files. split; auto. congruence.
    + destruct (H5 Hs' b' rb files' file A1 A2 A3 A4 A5) as [H|(rest & H & _)];
        [|discriminate].
      left. apply (entryStatus_onward running w); auto.
Qed.

(** One entry of the folder that is being visited has been started. *)
Lemma cover_next running b rp files x rest w w' :
  onward w w' -> Forall notRealpath (pending w') ->
  reached env k0 roots b rp -> readdir env b = IOOk files ->
  (stopped (walker w') = false ->
   glob_match env (excludePattern k0) (relativeOf rp x)
     (Some (siblingsOf k0 files x)) = false ->
   exists clb,
     ReaddirEntry b rp files x (relativeOf rp x) (join env b x) clb ∈ pending w') ->
  cover running (Some (b, x :: rest)) w -> cover running (Some (b, rest)) w'.
Proof.
  intros Hg Hl Hb Hfiles Hx Hw.
  pose proof (dirs_onward _ _ (onward_visits _ _ Hg)) as Hd.
  destruct Hw as [H1 H2 H3 H4 H5]. split.
  - rewrite (onward_keys _ _ Hg), Hd. exact H1.
  - exact Hl.
  - intros Hs. apply (patternStatus_onward running w); try apply Hg.
    apply H3. eapply stopped_before; eauto.
  - intros Hs r Hr. apply (rootStatus_onward running w); try apply Hg.
    + rewrite Hd. auto.
    + apply H4; auto. eapply stopped_before; eauto.
  - intros Hs b' rb files' file A1 A2 A3 A4 A5. rewrite Hd in A2.
    destruct (H5 (stopped_before _ _ Hg Hs) b' rb files' file A1 A2 A3 A4 A5)
      as [H|(rest' & [= -> <-] & Hin)].
    + left. apply (entryStatus_onward running w); try apply Hg; auto.
      rewrite Hd. auto.
    + apply elem_of_cons in Hin as [->|Hin]; [|right; eauto].
      left. left.
      assert (rb = rp) by (eapply oneName; eauto). subst rb.
      assert (files' = files) by congruence. subst files'.
      destruct (Hx Hs A5) as (clb & Hclb). exists clb. right. exact Hclb.
Qed.

Lemma cover_close running b w :
  cover running (Some (b, [])) w -> cover running None w.
Proof.
  intros [H1 H2 H3 H4 H5]. split; auto.
  intros Hs b' rb files file A1 A2 A3 A4 A5.
  destruct (H5 Hs b' rb files file A1 A2 A3 A4 A5) as [H|(rest & [= _ <-] & Hin)];
    [left; exact H|].
  apply elem_of_nil in Hin. contradiction.
Qed.

(** *** The callbacks *)

Lemma notRealpath_request q w :
  notRealpath q -> Forall notRealpath (pending w) ->
  Forall notRealpath (pending (request q w)).
Proof. intros Hq Hw. simpl. apply Forall_app. split; auto. Qed.

Lemma notRealpath_invoke cb e w :
  Forall notRealpath (pending w) -> Forall notRealpath (pending (invoke cb e w)).
Proof. destruct (invoke_frame cb e w) as [-> _]. auto. Qed.

Lemma cover_invoke running todo cb e w :
  cover running todo w -> cover running todo (invoke cb e w).
Proof.
  intros Hw. apply (cover_onward running todo w); auto using onward_invoke.
  apply notRealpath_invoke. apply Hw.
Qed.

Lemma stopped_split k :
  stopped k = false -> isCanceled k = false /\ isLimitHit k = false.
Proof. unfold stopped. apply orb_false_iff. Qed.

(** The loop of [recurseWithNodeJS] over the entries of a folder. *)
Lemma cover_entries running b rp files done j : forall rest i w,
  agree k0 (walker w) ->
  reached env k0 roots b rp -> readdir env b = IOOk files ->
  cover running (Some (b, rest)) w ->
  cover running None
    (forEachFrom
       (fun i file w =>
          let clb := Clb j i done in
          let k := walker w in
          if isCanceled k || isLimitHit k then invoke clb None w
          else
            let siblings := if isExactPattern k file then [] else files in
            let relativeFilePath := Str.trimSlash (rp +:+ "/" +:+ file) in
            if glob_match env (excludePattern k) relativeFilePath (Some siblings)
            then invoke clb None w
            else
              let currentPath := join env b file in
              request (ReaddirEntry b rp files file relativeFilePath
                         currentPath clb) w)
       i rest w).
Proof.
  induction rest as [|x rest IH]; intros i w Hk Hb Hfiles Hw.
  - simpl. apply (cover_close running b). exact Hw.
  - cbn [forEachFrom]. cbv zeta.
    fold (stopped (walker w)).
    rewrite (agree_exact k0 _ x Hk), (agree_exclude k0 _ Hk).
    fold (siblingsOf k0 files x). fold (relativeOf rp x).
    destruct (stopped (walker w)) eqn:Hs.
    + apply IH; auto.
      * destruct (invoke_walker (Clb j i done) None w) as [-> _]. exact Hk.
      * apply (cover_next running b rp files x rest w); auto using onward_invoke.
        -- apply notRealpath_invoke. apply Hw.
        -- destruct (invoke_walker (Clb j i done) None w) as [-> _].
           rewrite Hs. discriminate.
    + destruct (glob_match env (excludePattern k0) (relativeOf rp x)
                  (Some (siblingsOf k0 files x))) eqn:Hg.
      * apply IH; auto.
        -- destruct (invoke_walker (Clb j i done) None w) as [-> _]. exact Hk.
        -- apply (cover_next running b rp files x rest w); auto using onward_invoke.
           ++ apply notRealpath_invoke. apply Hw.
           ++ intros _ Hg'. rewrite Hg in Hg'. discriminate.
      * apply IH; auto.
        apply (cover_next running b rp files x rest w); auto using onward_request.
        -- apply notRealpath_request; [exact I|apply Hw].
        -- intros _ _. exists (Clb j i done). apply requested.
Qed.

Lemma cover_recurseWithNodeJS running b rp files done w :
  agree k0 (walker w) ->
  reached env k0 roots b rp -> readdir env b = IOOk files ->
  cover running (Some (b, files)) w ->
  cover running None (recurseWithNodeJS env b rp files done w).
Proof.
  intros Hk Hb Hfiles Hw. unfold recurseWithNodeJS, parallel.
  destruct files as [|f rest] eqn:Hf.
  - apply cover_invoke. apply (cover_close running b). exact Hw.
  - rewrite <- Hf in *. clear Hf.
    apply cover_entries; auto.
    apply (cover_onward running _ w); auto.
    + apply onward_frame; reflexivity.
    + apply Hw.
Qed.

(** [w'] comes after [w], with more folders visited perhaps. *)
Record extends (w w' : World) : Prop := {
  ext_pending : forall q, q ∈ pending w -> q ∈ pending w';
  ext_results : forall r, r ∈ results w -> r ∈ results w';
  ext_dirs : forall d, d ∈ dirs w -> d ∈ dirs w'
}.

Lemma extends_onward w w' : onward w w' -> extends w w'.
Proof.
  intros Hg. split; try apply Hg.
  rewrite (dirs_onward _ _ (onward_visits _ _ Hg)). auto.
Qed.

Lemma extends_trans w1 w2 w3 : extends w1 w2 -> extends w2 w3 -> extends w1 w3.
Proof. intros [A1 A2 A3] [B1 B2 B3]. split; auto. Qed.

Lemma agree_portable k : agree k0 k -> disableFastFileLookup k = true.
Proof. intros (_ & _ & _ & _ & _ & _ & H). rewrite H. exact portable. Qed.

Lemma cover_recurse running r files cb w :
  agree k0 (walker w) ->
  reached env k0 roots r "" -> readdir env r = IOOk files ->
  cover running None w ->
  cover running None (recurse env r files cb w) /\
  extends w (recurse env r files cb w) /\
  r ∈ dirs (recurse env r files cb w) /\
  stopped (walker (recurse env r files cb w)) = stopped (walker w).
Proof.
  intros Hk Hr Hfiles Hw. unfold recurse. rewrite (agree_portable _ Hk).
  set (w1 := noteVisit {| dir := r; key := None |} w).
  pose proof (onward_recurseWithNodeJS env r "" files cb w1) as Hg.
  pose proof (dirs_onward _ _ (onward_visits _ _ Hg)) as Hd.
  split; [|split; [|split]].
  - apply cover_recurseWithNodeJS; auto.
    apply (cover_open running r files w); auto.
  - apply (extends_trans _ w1); [|apply extends_onward; exact Hg].
    split; auto. intros d Hin. apply list_elem_of_further. exact Hin.
  - rewrite Hd. apply list_elem_of_here.
  - unfold recurseWithNodeJS, parallel.
    destruct files as [|f rest].
    + destruct (invoke_walker cb None w1) as [-> _]. reflexivity.
    + assert (H : forall (l : list string) i w fn,
                (forall i x w, walker (fn i x w) = walker w) ->
                walker (forEachFrom fn i l w) = walker w).
      { induction l as [|x l IH]; intros i w' fn Hfn; simpl; auto.
        rewrite IH by exact Hfn. apply Hfn. }
      rewrite H; [reflexivity|].
      intros i x w'. cbv zeta.
      repeat branch; try apply invoke_walker; reflexivity.
Qed.

Lemma walker_recurseWithNodeJS b rp files done w :
  walker (recurseWithNodeJS env b rp files done w) = walker w.
Proof.
  unfold recurseWithNodeJS, parallel.
  destruct files as [|f rest].
  - apply invoke_walker.
  - assert (H : forall (l : list string) i w fn,
              (forall i x w, walker (fn i x w) = walker w) ->
              walker (forEachFrom fn i l w) = walker w).
    { induction l as [|x l IH]; intros i w' fn Hfn; simpl; auto.
      rewrite IH by exact Hfn. apply Hfn. }
    rewrite H; [reflexivity|].
    intros i x w'. cbv zeta.
    repeat branch; try apply invoke_walker; reflexivity.
Qed.

Lemma cover_walkChildren running cur rel children clb w :
  agree k0 (walker w) ->
  reached env k0 roots cur rel -> readdir env cur = IOOk children ->
  cover running None w ->
  cover running None (walkChildren env cur cur rel children clb w) /\
  extends w (walkChildren env cur cur rel children clb w) /\
  cur ∈ dirs (walkChildren env cur cur rel children clb w) /\
  stopped (walker (walkChildren env cur cur rel children clb w))
  = stopped (walker w).
Proof.
  intros Hk Hr Hc Hw. unfold walkChildren.
  destruct (bool_decide (cur ∈ walkedPaths (walker w))) eqn:E.
  - apply bool_decide_eq_true in E.
    pose proof (onward_invoke clb None w) as Hg.
    split; [apply cover_invoke; exact Hw|].
    split; [apply extends_onward; exact Hg|]. split.
    + rewrite (dirs_onward _ _ (onward_visits _ _ Hg)).
      apply (cover_keys _ _ _ Hw). exact E.
    + destruct (invoke_walker clb None w) as [-> _]. reflexivity.
  - set (w1 := noteVisit {| dir := cur; key := Some cur |}
                 (withWalker
                    (fun k => setWalkedPaths ({[cur]} ∪ walkedPaths k) k) w)).
    pose proof (onward_recurseWithNodeJS env cur rel children clb w1) as Hg.
    pose proof (dirs_onward _ _ (onward_visits _ _ Hg)) as Hd.
    split; [|split; [|split]].
    + apply cover_recurseWithNodeJS; auto.
      apply (cover_open running cur children w); auto.
      intros k Hin. simpl in Hin. apply elem_of_union in Hin as [Hin|Hin]; auto.
      left. apply elem_of_singleton in Hin. exact Hin.
    + apply (extends_trans _ w1); [|apply extends_onward; exact Hg].
      split; auto. intros d Hin. apply list_elem_of_further. exact Hin.
    + rewrite Hd. apply list_elem_of_here.
    + rewrite walker_recurseWithNodeJS. reflexivity.
Qed.

Lemma notRealpath_walkRoots b w :
  Forall notRealpath (pending w) ->
  Forall notRealpath (pending (walkRoots roots b w)).
Proof.
  intros Hw. unfold walkRoots, parallel. cbv zeta.
  set (w1 := match b, filePattern (walker w) with
             | true, Some pat => onResult pat w
             | _, _ => w
             end).
  assert (H1 : Forall notRealpath (pending w1)).
  { unfold w1. destruct b; auto. destruct (filePattern (walker w)); auto. }
  destruct roots as [|r rest]; [exact H1|].
  apply (forEachFrom_keeps (fun w => Forall notRealpath (pending w))).
  - intros i x w' Hw'. apply notRealpath_request; [exact I|exact Hw'].
  - exact H1.
Qed.

Lemma walkRoots_resolved path b w :
  agree k0 (walker w) ->
  (forall pat,
     filePattern k0 = Some pat -> truthy (Some pat) = true ->
     isAbsolute env pat = true -> existsb (String.eqb pat) roots = false ->
     isExistingFile (stat env pat) = true -> b = true) ->
  resolved (StatFilePattern path roots) (walkRoots roots b w).
Proof.
  intros Hk Hb. split.
  - intros pat A1 A2 A3 A4 A5. pose proof (Hb pat A1 A2 A3 A4 A5) as ->.
    unfold walkRoots, parallel. cbv zeta.
    destruct Hk as (_ & Hpat & _). rewrite Hpat, A1.
    assert (Hin : pat ∈ results (onResult pat w)).
    { rewrite results_onResult. apply elem_of_app. right. apply list_elem_of_here. }
    destruct roots as [|r rest]; [exact Hin|].
    eapply onward_results; [|exact Hin].
    eapply onward_trans; [|apply onward_forEach; intros; apply onward_request].
    apply onward_frame; reflexivity.
  - intros r Hr. right. left. unfold walkRoots, parallel. cbv zeta.
    destruct roots as [|r0 rest] eqn:E;
      [apply elem_of_nil in Hr; contradiction|].
    rewrite <- E in *.
    destruct (rootsRequested (List.length (joins
               match b, filePattern (walker w) with
               | true, Some pat => onResult pat w
               | _, _ => w
               end)) roots 0
               (withJoins (fun js => js ++ [newJoin (List.length roots) None])
                  match b, filePattern (walker w) with
                  | true, Some pat => onResult pat w
                  | _, _ => w
                  end) r Hr) as (cb & Hcb).
    exists cb. right. exact Hcb.
Qed.

Lemma pending_report path w : pending (report path w) = pending w.
Proof. unfold report. repeat branch; reflexivity. Qed.

Lemma cover_report running todo path w :
  cover running todo w -> cover running todo (report path w).
Proof.
  intros Hw. apply (cover_onward running todo w); auto using onward_report.
  rewrite pending_report. apply Hw.
Qed.

Lemma cover_onResult running todo path w :
  cover running todo w -> cover running todo (onResult path w).
Proof.
  intros Hw. apply (cover_onward running todo w); auto using onward_onResult.
  apply Hw.
Qed.

Lemma cover_request running todo q w :
  notRealpath q -> cover running todo w -> cover running todo (request q w).
Proof.
  intros Hq Hw. apply (cover_onward running todo w); auto using onward_request.
  apply notRealpath_request; [exact Hq|apply Hw].
Qed.

Lemma cover_walkInto running r files cb m w :
  agree k0 (walker w) ->
  r ∈ roots -> readdir env r = IOOk files ->
  cover running None w ->
  cover running None (walkInto env r files cb m w) /\
  r ∈ dirs (walkInto env r files cb m w) /\
  (forall x, m = Some x -> x ∈ results (walkInto env r files cb m w)).
Proof.
  intros Hk Hr Hfiles Hw. unfold walkInto.
  set (w1 := match m with Some x => onResult x w | None => w end).
  assert (Hw1 : cover running None w1)
    by (unfold w1; destruct m; auto using cover_onResult).
  assert (Hk1 : agree k0 (walker w1)) by (unfold w1; destruct m; exact Hk).
  assert (Hreach : reached env k0 roots r "")
    by (apply (reached_root env k0 roots r files); auto).
  destruct (cover_recurse running r files cb w1 Hk1 Hreach Hfiles Hw1)
    as (A1 & A2 & A3 & _).
  split; [exact A1|]. split; [exact A3|].
  intros x ->. apply (ext_results _ _ A2). unfold w1.
  rewrite results_onResult. apply elem_of_app. right. apply list_elem_of_here.
Qed.

Lemma cover_handle p w :
  sound env k0 roots w -> justified env k0 roots p -> notRealpath p ->
  cover [p] None w -> cover [] None (handle env p w).
Proof.
  intros Hsound Hp Hnot Hw. pose proof (sound_settings _ _ _ _ Hsound) as Hk.
  destruct p as [path rootPaths|r cb|r a files cb|b rb files file rel cur clb
                |a fs f cur rel children clb| |]; simpl in Hp |- *.
  - (* the stat of an absolute file pattern *)
    destruct Hp as (-> & H1 & H2 & H3 & H4).
    apply (cover_resolve (StatFilePattern path roots)).
    + intros _. apply walkRoots_resolved; auto.
      intros pat A1 A2 A3 A4 A5. congruence.
    + apply (cover_onward _ _ w); auto using onward_walkRoots.
      apply notRealpath_walkRoots. apply Hw.
  - (* the listing of a root *)
    unfold onReaddirRoot. cbv zeta. fold (stopped (walker w)).
    destruct (stopped (walker w)) eqn:Hs.
    { apply (cover_resolve (ReaddirRoot r cb)); [|apply cover_invoke; exact Hw].
      destruct (invoke_walker cb None w) as [-> _]. rewrite Hs. discriminate. }
    destruct (stopped_split _ Hs) as [Hc Hl].
    destruct (readdir env r) as [e|files] eqn:Hr.
    + rewrite Hc, Hl, andb_true_r, andb_true_r.
      rewrite (agree_exclude k0 _ Hk), (agree_match env k0 _ _ _ Hk),
        (agree_included env k0 _ _ _ Hk).
      set (w1 := if String.eqb (code e) ENOTDIR
                 then if glob_match env (excludePattern k0) r None then w
                      else if isFilePatternMatch env k0 (basename env r) r
                              && included env k0 r None
                           then report r w else w
                 else w).
      apply (cover_resolve (ReaddirRoot r cb)).
      * intros Hs'. right. right. right. unfold rootSettled. rewrite Hr.
        intros A1 A2 A3 A4.
        apply (onward_results _ _ (onward_invoke cb None w1)).
        destruct (invoke_walker cb None w1) as [Hwk _]. rewrite Hwk in Hs'.
        unfold w1 in *. apply String.eqb_eq in A1. rewrite A1, A2, A3, A4 in *.
        simpl in *. apply reported. exact Hs'.
      * apply cover_invoke. unfold w1.
        repeat branch; auto using cover_report.
    + unfold checkFilePatternRelativeMatch. cbv zeta.
      pose proof Hk as (_ & Hpat & _ & _ & _ & Hsp & _).
      rewrite Hpat, Hsp.
      assert (Hplain :
                (forall pat, filePattern k0 = Some pat ->
                   truthy (Some pat) = true -> isAbsolute env pat = false ->
                   searchInPath k0 = true -> False) ->
                cover [] None (walkInto env r files cb None w)).
      { intros Hno.
        destruct (cover_walkInto [ReaddirRoot r cb] r files cb None w)
          as (A1 & A2 & _); auto.
        apply (cover_resolve (ReaddirRoot r cb)); [|exact A1].
        intros _. right. right. right. unfold rootSettled. rewrite Hr.
        split; [exact A2|].
        intros pat B1 B2 B3 B4 _. destruct (Hno pat B1 B2 B3 B4). }
      destruct (filePattern k0) as [pat|] eqn:Hfp; [|apply Hplain; discriminate].
      destruct (negb (truthy (Some pat)) || isAbsolute env pat
                || negb (searchInPath k0)) eqn:Hb.
      * apply Hplain. intros pat' [= <-] B2 B3 B4.
        rewrite B2, B3, B4 in Hb. discriminate.
      * apply (cover_resolve (ReaddirRoot r cb)).
        -- intros _. right. right. left.
           exists (join env r pat), files, cb. right. apply requested.
        -- apply cover_request; [exact I|exact Hw].
  - (* the stat of the file pattern below a root *)
    destruct Hp as (H1 & H2 & pat & H3 & H4 & H5 & H6 & ->).
    destruct (cover_walkInto [StatRelative r (join env r pat) files cb] r files cb
                (if isExistingFile (stat env (join env r pat))
                 then Some (join env r pat) else None) w)
      as (A1 & A2 & A3); auto.
    apply (cover_resolve (StatRelative r (join env r pat) files cb)); [|exact A1].
    intros _. right. right. right. unfold rootSettled. rewrite H2.
    split; [exact A2|].
    intros pat' B1 B2 B3 B4 B5. assert (pat' = pat) by congruence. subst pat'.
    apply A3. rewrite B5. reflexivity.
  - (* the listing of an entry *)
    destruct Hp as (_ & H1 & H2 & H3 & -> & -> & H6).
    unfold onReaddirEntry.
    destruct (readdir env (join env b file)) as [e|children] eqn:Hr.
    + cbv zeta.
      rewrite (agree_match env k0 _ _ _ Hk), (agree_included env k0 _ _ _ Hk).
      set (w1 := if String.eqb (code e) ENOTDIR
                    && negb (isCanceled (walker w))
                    && negb (isLimitHit (walker w))
                 then if isFilePatternMatch env k0 file (relativeOf rb file)
                         && included env k0 (relativeOf rb file) None
                      then report (join env b file) w else w
                 else w).
      apply (cover_resolve
               (ReaddirEntry b rb files file (relativeOf rb file)
                  (join env b file) clb)).
      * intros Hs'. right. right. unfold entrySettled. rewrite Hr.
        intros A1 A2.
        apply (onward_results _ _ (onward_invoke clb None w1)).
        destruct (invoke_walker clb None w1) as [Hwk _]. rewrite Hwk in Hs'.
        assert (Hs : stopped (walker w) = false).
        { apply (stopped_before w w1); [|exact Hs'].
          unfold w1. repeat branch; auto using onward_refl, onward_report. }
        destruct (stopped_split _ Hs) as [Hc Hl].
        unfold accepted in A2. unfold w1 in *.
        apply String.eqb_eq in A1. rewrite A1, Hc, Hl, A2 in *.
        simpl in *. apply reported. exact Hs'.
      * apply cover_invoke. unfold w1.
        repeat branch; auto using cover_report.
    + apply (cover_resolve
               (ReaddirEntry b rb files file (relativeOf rb file)
                  (join env b file) clb)).
      * intros _. right. left.
        exists b, files, file, children, clb. right. apply requested.
      * apply cover_request; [exact I|exact Hw].
  - (* the lstat of a folder *)
    destruct Hp as (_ & H1 & H2). unfold onLstatLink.
    rewrite (noLinks cur rel H1).
    destruct (cover_walkChildren
                [LstatLink a fs f cur rel children clb] cur rel children clb w)
      as (A1 & A2 & A3 & _); auto.
    apply (cover_resolve (LstatLink a fs f cur rel children clb)); [|exact A1].
    intros _ file. unfold entrySettled. rewrite H2. exact A3.
  - destruct Hnot.
  - destruct Hp as (H1 & _). rewrite portable in H1. discriminate.
Qed.

Lemma cover_step e w :
  sound env k0 roots w -> cover [] None w -> cover [] None (step env e w).
Proof.
  intros Hsound Hw. destruct e as [i|]; simpl.
  - unfold fire. destruct (hung w); auto.
    destruct (pending w !! i) as [p|] eqn:Hp; auto.
    apply cover_handle.
    + destruct Hsound as [H1 H2 H3]. split; auto. simpl.
      apply Forall_delete; auto.
    + eapply Forall_lookup_1; [apply (sound_pending _ _ _ _ Hsound)|exact Hp].
    + eapply Forall_lookup_1; [apply (cover_links _ _ _ Hw)|exact Hp].
    + apply cover_take; auto.
  - destruct Hw as [H1 H2 H3 H4 H5].
    assert (Hs : stopped (walker (cancel w)) = true).
    { unfold cancel, terminateNative, stopped. simpl. branch; reflexivity. }
    split; try (rewrite Hs; discriminate).
    + unfold cancel, terminateNative. simpl. branch; exact H1.
    + exact H2.
Qed.

(** Both invariants of a search. *)
Definition thorough (w : World) : Prop :=
  sound env k0 roots w /\ cover [] None w.

Lemma thorough_step e w : thorough w -> thorough (step env e w).
Proof.
  intros [H1 H2]. split; [apply sound_step; exact H1|apply cover_step; auto].
Qed.

(** When nothing is outstanding, every folder the walk can list has been
    visited. *)
Lemma reached_visited w a rp :
  cover [] None w -> pending w = [] -> stopped (walker w) = false ->
  reached env k0 roots a rp -> a ∈ dirs w.
Proof.
  intros Hw Hp Hs Hr.
  assert (Hno : forall q, ~ waits [] w q).
  { intros q [H|H]; [apply elem_of_nil in H; exact H|].
    rewrite Hp in H. apply elem_of_nil in H. exact H. }
  induction Hr as [r files Hin Hfiles|a rp files file children Hr IH Hfiles Hin Hg Hc].
  - destruct (cover_roots _ _ _ Hw Hs r Hin)
      as [(q & H)|[(q & H)|[(q1 & q2 & q3 & H)|H]]];
      try (destruct (Hno _ H)).
    unfold rootSettled in H. rewrite Hfiles in H. apply H.
  - destruct (cover_visited _ _ _ Hw Hs a rp files file Hr IH Hfiles Hin Hg)
      as [H|(rest & H & _)]; [|discriminate].
    destruct H as [(q & H)|[(q1 & q2 & q3 & q4 & q5 & H)|H]];
      try (destruct (Hno _ H)).
    unfold entrySettled in H. rewrite Hc in H. exact H.
Qed.

Lemma found_delivered w p :
  cover [] None w -> pending w = [] -> stopped (walker w) = false ->
  found env k0 roots p -> p ∈ results w.
Proof.
  intros Hw Hp Hs Hf.
  assert (Hno : forall q, ~ waits [] w q).
  { intros q [H|H]; [apply elem_of_nil in H; exact H|].
    rewrite Hp in H. apply elem_of_nil in H. exact H. }
  destruct Hf as [pat A1 A2 A3 A4 A5|r files pat A1 A2 A3 A4 A5 A6 A7
                 |r e A1 A2 A3 A4 A5 A6|a rp files file e A1 A2 A3 A4 A5 A6 A7 A8 A9
                 |r files line siblings A1].
  - destruct (cover_pattern _ _ _ Hw Hs) as [(q & H)|H]; [destruct (Hno _ H)|].
    apply (H pat); auto.
  - destruct (cover_roots _ _ _ Hw Hs r A1)
      as [(q & H)|[(q & H)|[(q1 & q2 & q3 & H)|H]]];
      try (destruct (Hno _ H)).
    unfold rootSettled in H. rewrite A2 in H. destruct H as [_ H].
    apply (H pat); auto.
  - destruct (cover_roots _ _ _ Hw Hs r A1)
      as [(q & H)|[(q & H)|[(q1 & q2 & q3 & H)|H]]];
      try (destruct (Hno _ H)).
    unfold rootSettled in H. rewrite A2 in H. auto.
  - pose proof (reached_visited w a rp Hw Hp Hs A2) as Hv.
    destruct (cover_visited _ _ _ Hw Hs a rp files file A2 Hv A3 A4 A5)
      as [H|(rest & H & _)]; [|discriminate].
    destruct H as [(q & H)|[(q1 & q2 & q3 & q4 & q5 & H)|H]];
      try (destruct (Hno _ H)).
    unfold entrySettled in H. rewrite A6 in H. apply H; auto.
    unfold accepted. rewrite A8, A9. reflexivity.
  - rewrite portable in A1. discriminate.
Qed.

Lemma cover_walk w :
  agree k0 (walker w) -> pending w = [] -> visits w = [] ->
  cover [] None (walk env roots w).
Proof.
  intros Hk0 Hp Hv.
  set (w0 := withWalker resetState w).
  assert (Hk : agree k0 (walker w0)).
  { unfold w0, resetState, terminateNative. simpl. branch; exact Hk0. }
  assert (H0 : forall path, cover [StatFilePattern path roots] None w0).
  { intros path. split.
    - intros k Hin. unfold w0, resetState, terminateNative in Hin.
      simpl in Hin. revert Hin. branch; simpl; intros Hin;
        apply elem_of_empty in Hin; contradiction.
    - simpl. rewrite Hp. constructor.
    - intros _. left. exists path. left. apply list_elem_of_here.
    - intros _ r _. left. exists path. left. apply list_elem_of_here.
    - intros _ b rb files file _ Hin. unfold dirs in Hin. simpl in Hin.
      rewrite Hv in Hin. apply elem_of_nil in Hin. contradiction. }
  assert (Hfalse :
            (forall pat,
               filePattern k0 = Some pat -> truthy (Some pat) = true ->
               isAbsolute env pat = true ->
               existsb (String.eqb pat) roots = false -> False) ->
            cover [] None (walkRoots roots false w0)).
  { intros Hno. apply (cover_resolve (StatFilePattern "" roots)).
    - intros _. apply walkRoots_resolved; auto.
      intros pat A1 A2 A3 A4 _. destruct (Hno pat A1 A2 A3 A4).
    - apply (cover_onward _ _ w0); auto using onward_walkRoots.
      apply notRealpath_walkRoots. simpl. rewrite Hp. constructor. }
  unfold walk, checkFilePatternAbsoluteMatch. fold w0.
  pose proof Hk as (_ & Hpat & _). rewrite Hpat.
  destruct (filePattern k0) as [pat|] eqn:Hfp; [|apply Hfalse; discriminate].
  destruct (negb (truthy (Some pat)) || negb (isAbsolute env pat)) eqn:Hc.
  - apply Hfalse. intros pat' [= <-] A2 A3 _. rewrite A2, A3 in Hc. discriminate.
  - destruct (existsb (String.eqb pat) roots) eqn:He.
    + apply Hfalse. intros pat' [= <-] _ _ A4. congruence.
    + pose proof (cover_request _ _ (StatFilePattern pat roots) w0 I (H0 pat))
        as [A1 A2 A3 A4 A5].
      split; auto.
      * intros _. left. exists pat. right. apply requested.
      * intros _ r _. left. exists pat. right. apply requested.
      * intros _ b rb files file _ Hin. unfold dirs in Hin. simpl in Hin.
        rewrite Hv in Hin. apply elem_of_nil in Hin. contradiction.
Qed.

End Complete.

(** *** The property *)

(** X5: the portable walk delivers exactly the files that are there to be
    found.  When a search has ended (nothing is outstanding) without having
    been cancelled and without the limit hit, a path has been delivered if and
    only if it is accounted for by the file system and the settings ([found]),
    provided no folder the walk lists is a symbolic link and none is listed
    under two relative paths. *)
Theorem portable_walk_finds_every_file (env : Env) (cfg : IRawSearch)
    (roots : list string) (events : list Event) (p : string) :
  cfg_disableFastFileLookup cfg = true ->
  (forall a rp,
     reached env (new env cfg) roots a rp -> lstat env a = IOOk false) ->
  (forall a rp rp',
     reached env (new env cfg) roots a rp ->
     reached env (new env cfg) roots a rp' -> rp = rp') ->
  let w := search env cfg roots events in
  pending w = [] -> isCanceled (walker w) = false ->
  isLimitHit (walker w) = false ->
  p ∈ results w <-> found env (new env cfg) roots p.
Proof.
  intros Hport Hlinks Hnames w Hp Hc Hl. split.
  - intros Hin.
    pose proof (search_sound env cfg roots events) as Hs.
    rewrite Forall_forall in Hs. apply Hs. exact Hin.
  - assert (Hw : thorough env (new env cfg) roots w).
    { unfold w, search. apply run_keeps.
      - intros e w'. apply thorough_step; auto.
      - split; [apply sound_walk|apply cover_walk; auto].
        simpl. repeat split. }
    destruct Hw as [_ Hw].
    apply (found_delivered env (new env cfg) roots Hport w p Hw Hp).
    unfold stopped. rewrite Hc, Hl. reflexivity.
Qed.

(** The folders of [Posix.projDisk] that a walk of [/proj] lists. *)
Lemma projDisk_reached a rp :
  reached (Posix.env Posix.projDisk Posix.noListing)
    (new (Posix.env Posix.projDisk Posix.noListing) (Posix.plain None true))
    ["/proj"] a rp ->
  (a, rp) = ("/proj", "") \/ (a, rp) = ("/proj/src", "src").
Proof.
  intros H.
  induction H as [r files Hin _|a rp files file children _ IH Hfiles Hin _ Hc].
  - apply list_elem_of_singleton in Hin. subst r. left. reflexivity.
  - destruct IH as [[= -> ->]|[= -> ->]].
    + vm_compute in Hfiles. injection Hfiles as <-.
      apply elem_of_cons in Hin as [->|Hin];
        [vm_compute in Hc; discriminate|].
      apply list_elem_of_singleton in Hin. subst file. right. reflexivity.
    + vm_compute in Hfiles. injection Hfiles as <-.
      apply list_elem_of_singleton in Hin. subst file.
      vm_compute in Hc. discriminate.
Qed.

Lemma portable_walk_finds_every_file_witness :
  let E := Posix.env Posix.projDisk Posix.noListing in
  "/proj/src/b.txt" ∈ results (search E (Posix.plain None true) ["/proj"] (fifo 6))
  <-> found E (new E (Posix.plain None true)) ["/proj"] "/proj/src/b.txt".
Proof.
  apply (portable_walk_finds_every_file
           (Posix.env Posix.projDisk Posix.noListing) (Posix.plain None true)
           ["/proj"] (fifo 6) "/proj/src/b.txt"); try reflexivity.
  - intros a rp H. destruct (projDisk_reached a rp H) as [[= -> ->]|[= -> ->]];
      reflexivity.
  - intros a rp rp' H H'.
    destruct (projDisk_reached a rp H) as [[= -> ->]|[= -> ->]];
      destruct (projDisk_reached _ rp' H') as [[= ->]|[= ->]];
      try reflexivity; discriminate.
Defined.

End WalkerComplete.

Module WalkerNative.

Import FileWalker FileWalkerFacts WalkerExtras WalkerComplete.

Section Native.

Context (env : Env) (k0 : Walker) (roots : list string).

Hypothesis native : disableFastFileLookup k0 = false.

(** A path the native command lists for the root [r], in a folder that is
    kept, and that passes the filters whatever its siblings. *)
Definition listed (r p : string) : Prop :=
  (exists files, readdir env r = IOOk files) /\
  (exists line,
     line ∈ nativeLines env r /\ line <> "" /\ p = normalized env line) /\
  (exists fuel,
     folderKept env fuel k0 (toRelativeWithSlash env r (dirname env p))
     = Some true) /\
  (forall siblings,
     glob_match env (excludePattern k0) (toRelativeWithSlash env r p) siblings
     = false) /\
  isFilePatternMatch env k0 (basename env p) (toRelativeWithSlash env r p)
  = true /\
  (forall siblings,
     included env k0 (toRelativeWithSlash env r p) siblings = true).

Definition nativeSettled (w : World) (r : string) : Prop :=
  forall p, listed r p -> p ∈ results w.

Definition nativeStatus (running : list Pending) (w : World) (r : string)
  : Prop :=
  (exists path, waits running w (StatFilePattern path roots))
  \/ (exists cb, waits running w (ReaddirRoot r cb))
  \/ (exists a files cb, waits running w (StatRelative r a files cb))
  \/ (exists pid cb, waits running w (NativeClose pid r cb))
  \/ nativeSettled w r.

(** The search is blocked or stopped, or every root is waited for or done
    with. *)
Definition combed (running : list Pending) (w : World) : Prop :=
  hung w = false -> stopped (walker w) = false ->
  forall r, r ∈ roots -> nativeStatus running w r.

Lemma nativeStatus_onward running w w' r :
  (forall q, q ∈ pending w -> q ∈ pending w') ->
  (forall x, x ∈ results w -> x ∈ results w') ->
  nativeStatus running w r -> nativeStatus running w' r.
Proof.
  intros Hp Hr
    [(path & H)|[(cb & H)|[(a & files & cb & H)|[(pid & cb & H)|H]]]].
  - left. exists path. eapply waits_onward; eauto.
  - right. left. exists cb. eapply waits_onward; eauto.
  - right. right. left. exists a, files, cb. eapply waits_onward; eauto.
  - right. right. right. left. exists pid, cb. eapply waits_onward; eauto.
  - right. right. right. right. intros p Hl. auto.
Qed.

Lemma combed_onward running w w' :
  onward w w' -> hung w' = hung w -> combed running w -> combed running w'.
Proof.
  intros Hg Hh Hw Hh' Hs r Hr. rewrite Hh in Hh'.
  apply (nativeStatus_onward running w); try apply Hg.
  apply Hw; auto. eapply stopped_before; eauto.
Qed.

Lemma combed_take i p w :
  pending w !! i = Some p ->
  combed [] w -> combed [p] (withPending (delete i) w).
Proof.
  intros Hi Hw Hh Hs r Hr.
  assert (Hq : forall q, waits [] w q -> waits [p] (withPending (delete i) w) q).
  { intros q [Hq|Hq]; [apply elem_of_nil in Hq; contradiction|].
    destruct (in_delete _ _ _ _ Hi Hq) as [->|H].
    - left. apply list_elem_of_here.
    - right. exact H. }
  destruct (Hw Hh Hs r Hr)
    as [(path & H)|[(cb & H)|[(a & files & cb & H)|[(pid & cb & H)|H]]]].
  - left. eauto.
  - right. left. eauto.
  - right. right. left. eauto 6.
  - right. right. right. left. eauto 6.
  - right. right. right. right. exact H.
Qed.

(** What the callback of a request has to bring about. *)
Definition settles (p : Pending) (w : World) : Prop :=
  match p with
  | StatFilePattern _ _ => forall r, r ∈ roots -> nativeStatus [] w r
  | ReaddirRoot r _ => nativeStatus [] w r
  | StatRelative r _ _ _ => nativeStatus [] w r
  | NativeClose _ r _ => nativeStatus [] w r
  | _ => True
  end.

Lemma combed_settle p w :
  (hung w = false -> stopped (walker w) = false -> settles p w) ->
  combed [p] w -> combed [] w.
Proof.
  intros Hres Hw Hh Hs r Hr.
  destruct (Hw Hh Hs r Hr)
    as [(path & [Hq|Hq])|[(cb & [Hq|Hq])|[(a & files & cb & [Hq|Hq])
       |[(pid & cb & [Hq|Hq])|H]]]].
  - apply list_elem_of_singleton in Hq. subst p. apply (Hres Hh Hs). exact Hr.
  - left. exists path. right. exact Hq.
  - apply list_elem_of_singleton in Hq. subst p. apply (Hres Hh Hs).
  - right. left. exists cb. right. exact Hq.
  - apply list_elem_of_singleton in Hq. subst p. apply (Hres Hh Hs).
  - right. right. left. exists a, files, cb. right. exact Hq.
  - apply list_elem_of_singleton in Hq. subst p. apply (Hres Hh Hs).
  - right. right. right. left. exists pid, cb. right. exact Hq.
  - right. right. right. right. exact H.
Qed.

(** *** The folders and files of a listing *)

Lemma pushTo_keeps folder item m f items p :
  childrenOf f m = Some items -> p ∈ items ->
  exists items', childrenOf f (pushTo folder item m) = Some items' /\ p ∈ items'.
Proof.
  induction m as [|[f' its] m IH]; simpl; [discriminate|].
  destruct (String.eqb f' f) eqn:Hf.
  - intros [= ->] Hp. destruct (String.eqb f' folder) eqn:He; simpl; rewrite Hf.
    + eexists. split; [reflexivity|]. apply elem_of_app. left. exact Hp.
    + eauto.
  - intros Hc Hp. destruct (String.eqb f' folder) eqn:He; simpl; rewrite Hf; eauto.
Qed.

Lemma pushTo_adds folder item m :
  exists items, childrenOf folder (pushTo folder item m) = Some items /\ item ∈ items.
Proof.
  induction m as [|[f' its] m IH]; simpl.
  - rewrite String.eqb_refl. eexists. split; [reflexivity|]. apply list_elem_of_here.
  - destruct (String.eqb f' folder) eqn:He; simpl; rewrite He.
    + eexists. split; [reflexivity|]. apply elem_of_app. right.
      apply list_elem_of_here.
    + exact IH.
Qed.

Lemma listing_files lines : forall maps line,
  line ∈ lines -> line <> "" ->
  let p := normalized env line in
  exists items,
    childrenOf (dirname env p) (fst (fold_left (perPathHandler env) lines maps))
    = Some items /\ p ∈ items.
Proof.
  assert (Hkeep : forall lines maps f items p,
            childrenOf f (fst maps) = Some items -> p ∈ items ->
            exists items',
              childrenOf f (fst (fold_left (perPathHandler env) lines maps))
              = Some items' /\ p ∈ items').
  { induction lines0 as [|l lines0 IH]; intros maps f items p Hc Hp; simpl; eauto.
    unfold perPathHandler at 2. destruct (String.eqb l ""); [eauto|].
    destruct (pushTo_keeps (dirname env (if needsNFCNormalization env
                                         then normalizeNFC env l else l))
                (if needsNFCNormalization env then normalizeNFC env l else l)
                (fst maps) f items p Hc Hp) as (items' & H1 & H2).
    eapply IH; eauto. }
  induction lines as [|l lines IH]; intros maps line Hin Hne p.
  - apply elem_of_nil in Hin. contradiction.
  - apply elem_of_cons in Hin as [->|Hin].
    + simpl. unfold perPathHandler at 2.
      apply String.eqb_neq in Hne. rewrite Hne.
      destruct (pushTo_adds (dirname env p) p (fst maps)) as (items & H1 & H2).
      eapply Hkeep; eauto.
    + simpl. apply IH; auto.
Qed.

Lemma childrenOf_listed f m items :
  childrenOf f m = Some items -> f ∈ map fst m.
Proof.
  induction m as [|[f' its] m IH]; simpl; [discriminate|].
  destruct (String.eqb f' f) eqn:He.
  - apply String.eqb_eq in He. subst. intros _. apply list_elem_of_here.
  - intros H. apply list_elem_of_further. auto.
Qed.

(** More turns of the loop do not change what it returns. *)
Lemma folderKept_same k f1 : forall f2 rel b1 b2,
  folderKept env f1 k rel = Some b1 -> folderKept env f2 k rel = Some b2 ->
  b1 = b2.
Proof.
  induction f1 as [|f1 IH]; intros f2 rel b1 b2; destruct f2 as [|f2]; simpl;
    destruct (glob_match env (excludePattern k) rel None); try congruence;
    destruct (String.eqb (dirname env rel) "."); try congruence.
  apply IH.
Qed.

Lemma keptFolders_keeps k a l folders f fuel :
  keptFolders env k a l = Some folders -> f ∈ l ->
  folderKept env fuel k (toRelativeWithSlash env a f) = Some true ->
  f ∈ folders.
Proof.
  revert folders. induction l as [|x l IH]; simpl; intros folders Hk Hf Hfuel.
  - apply elem_of_nil in Hf. contradiction.
  - destruct (folderKept env _ k (toRelativeWithSlash env a x)) as [keep|] eqn:Hx;
      [|discriminate].
    destruct (keptFolders env k a l) as [rest|]; [|discriminate].
    injection Hk as <-.
    apply elem_of_cons in Hf as [->|Hf].
    + rewrite (folderKept_same _ _ _ _ _ _ Hx Hfuel). apply list_elem_of_here.
    + destruct keep; [apply list_elem_of_further|]; apply IH; auto.
Qed.

(** *** The callbacks *)

Lemma onward_nativeFile a m p w : onward w (nativeFile env a m p w).
Proof.
  unfold nativeFile. cbv zeta. repeat branch; auto using onward_refl, onward_report.
Qed.

Lemma hung_nativeFile a m p w : hung (nativeFile env a m p w) = hung w.
Proof.
  unfold nativeFile, report. cbv zeta. repeat branch; reflexivity.
Qed.

Lemma onward_nativeFiles a m l : forall w,
  onward w (fold_left (fun w p => nativeFile env a m p w) l w).
Proof.
  induction l as [|p l IH]; intros w; simpl; [apply onward_refl|].
  eapply onward_trans; [apply onward_nativeFile|apply IH].
Qed.

Lemma hung_nativeFiles a m l : forall w,
  hung (fold_left (fun w p => nativeFile env a m p w) l w) = hung w.
Proof.
  induction l as [|p l IH]; intros w; simpl; [reflexivity|].
  rewrite IH. apply hung_nativeFile.
Qed.

Lemma nativeFiles_report a m p l : forall w,
  agree k0 (walker w) ->
  p ∈ l ->
  (forall siblings,
     glob_match env (excludePattern k0) (toRelativeWithSlash env a p) siblings
     = false) ->
  isFilePatternMatch env k0 (basename env p) (toRelativeWithSlash env a p)
  = true ->
  (forall siblings,
     included env k0 (toRelativeWithSlash env a p) siblings = true) ->
  stopped (walker (fold_left (fun w p => nativeFile env a m p w) l w)) = false ->
  p ∈ results (fold_left (fun w p => nativeFile env a m p w) l w).
Proof.
  induction l as [|x l IH]; intros w Hk Hin Hg Hm Hi Hs.
  - apply elem_of_nil in Hin. contradiction.
  - simpl in *. apply elem_of_cons in Hin as [->|Hin].
    + apply (onward_results _ _ (onward_nativeFiles a m l _)).
      pose proof (stopped_before _ _ (onward_nativeFiles a m l _) Hs) as Hs1.
      pose proof (stopped_before _ _ (onward_nativeFile a m x w) Hs1) as Hs0.
      destruct (stopped_split _ Hs0) as [_ Hl].
      revert Hs1. unfold nativeFile. cbv zeta. rewrite Hl.
      rewrite (agree_exact k0 _ _ Hk), (agree_exclude k0 _ Hk),
        (agree_match env k0 _ _ _ Hk), (agree_included env k0 _ _ _ Hk).
      rewrite Hg, Hm, Hi. cbn [andb]. apply reported.
    + apply IH; auto.
      unfold nativeFile, report. cbv zeta. repeat branch; exact Hk.
Qed.

Lemma onward_recurse r files cb w :
  agree k0 (walker w) ->
  onward w (recurse env r files cb w) /\
  hung (recurse env r files cb w) = hung w /\
  exists pid, NativeClose pid r cb ∈ pending (recurse env r files cb w).
Proof.
  intros (_ & _ & _ & _ & _ & _ & Hk). unfold recurse. rewrite Hk, native.
  unfold recurseWithNativeCommand. cbv zeta.
  split; [|split; [reflexivity|]].
  - split; auto. intros q Hq. simpl. apply elem_of_app. left. exact Hq.
  - exists (nextPid w). simpl. apply elem_of_app. right. apply list_elem_of_here.
Qed.

Lemma settle_walkInto running r files cb m w :
  agree k0 (walker w) ->
  combed running w ->
  combed running (walkInto env r files cb m w) /\
  exists pid, NativeClose pid r cb ∈ pending (walkInto env r files cb m w).
Proof.
  intros Hk Hw. unfold walkInto.
  set (w1 := match m with Some x => onResult x w | None => w end).
  assert (H1 : onward w w1)
    by (unfold w1; destruct m; auto using onward_refl, onward_onResult).
  assert (Hk1 : agree k0 (walker w1)) by (unfold w1; destruct m; exact Hk).
  assert (Hh1 : hung w1 = hung w) by (unfold w1; destruct m; reflexivity).
  destruct (onward_recurse r files cb w1 Hk1) as (A1 & A2 & A3).
  split; [|exact A3].
  apply (combed_onward running w).
  - eapply onward_trans; eauto.
  - congruence.
  - exact Hw.
Qed.

Lemma hung_walkRoots b w : hung (walkRoots roots b w) = hung w.
Proof.
  unfold walkRoots, parallel. cbv zeta.
  set (w1 := match b, filePattern (walker w) with
             | true, Some pat => onResult pat w
             | _, _ => w
             end).
  assert (H1 : hung w1 = hung w).
  { unfold w1. destruct b; auto. destruct (filePattern (walker w)); auto. }
  destruct roots as [|r rest]; [exact H1|].
  rewrite <- H1.
  apply (forEachFrom_keeps (fun w => hung w = hung w1)); auto.
Qed.

Lemma rootsListed b w r :
  r ∈ roots -> exists cb, ReaddirRoot r cb ∈ pending (walkRoots roots b w).
Proof.
  intros Hr. unfold walkRoots, parallel. cbv zeta.
  destruct roots as [|r0 rest] eqn:E;
    [apply elem_of_nil in Hr; contradiction|].
  rewrite <- E in Hr |- *. apply rootsRequested. exact Hr.
Qed.

Lemma combed_handle p w :
  sound env k0 roots w -> justified env k0 roots p -> hung w = false ->
  combed [p] w ->
  hung (handle env p w) = true \/ combed [] (handle env p w).
Proof.
  intros Hsound Hp Hh Hw. pose proof (sound_settings _ _ _ _ Hsound) as Hk.
  destruct p as [path rootPaths|r cb|r a files cb|b rb files file rel cur clb
                |a fs f cur rel children clb|a fs f cur rel children clb
                |pid r done]; simpl in Hp |- *.
  - (* the stat of an absolute file pattern *)
    destruct Hp as (-> & _). right.
    apply (combed_settle (StatFilePattern path roots)).
    + intros _ _ r Hr. right. left.
      destruct (rootsListed (isExistingFile (stat env path)) w r Hr) as (cb & H).
      exists cb. right. exact H.
    + apply (combed_onward _ w); auto using onward_walkRoots, hung_walkRoots.
  - (* the listing of a root *)
    right. unfold onReaddirRoot. cbv zeta. fold (stopped (walker w)).
    destruct (stopped (walker w)) eqn:Hs.
    { intros _ Hs'. destruct (invoke_walker cb None w) as [Hwk _].
      rewrite Hwk, Hs in Hs'. discriminate. }
    destruct (readdir env r) as [e|files] eqn:Hr.
    + set (w1 := if String.eqb (code e) ENOTDIR && negb (isCanceled (walker w))
                    && negb (isLimitHit (walker w))
                 then if glob_match env (excludePattern (walker w)) r None then w
                      else if isFilePatternMatch env (walker w) (basename env r) r
                              && included env (walker w) r None
                           then report r w else w
                 else w).
      assert (Hg : onward w w1)
        by (unfold w1; repeat branch; auto using onward_refl, onward_report).
      assert (Hh1 : hung w1 = hung w)
        by (unfold w1, report; repeat branch; reflexivity).
      apply (combed_settle (ReaddirRoot r cb)).
      * intros _ _. right. right. right. right.
        intros p ((files & Hfiles) & _). congruence.
      * apply (combed_onward _ w); auto.
        -- eapply onward_trans; [exact Hg|apply onward_invoke].
        -- rewrite invoke_hung. exact Hh1.
    + unfold checkFilePatternRelativeMatch. cbv zeta.
      assert (Hinto : forall m,
                combed [] (walkInto env r files cb m w)).
      { intros m.
        destruct (settle_walkInto [ReaddirRoot r cb] r files cb m w Hk Hw)
          as (A1 & pid & A2).
        apply (combed_settle (ReaddirRoot r cb)); [|exact A1].
        intros _ _. right. right. right. left. exists pid, cb. right. exact A2. }
      destruct (filePattern (walker w)) as [pat|]; [|apply Hinto].
      destruct (negb (truthy (Some pat)) || isAbsolute env pat
                || negb (searchInPath (walker w))); [apply Hinto|].
      apply (combed_settle (ReaddirRoot r cb)).
      * intros _ _. right. right. left.
        exists (join env r pat), files, cb. right. apply requested.
      * apply (combed_onward _ w); auto using onward_request.
  - (* the stat of the file pattern below a root *)
    right.
    destruct (settle_walkInto [StatRelative r a files cb] r files cb
                (if isExistingFile (stat env a) then Some a else None) w Hk Hw)
      as (A1 & pid & A2).
    apply (combed_settle (StatRelative r a files cb)); [|exact A1].
    intros _ _. right. right. right. left. exists pid, cb. right. exact A2.
  - destruct Hp as (H1 & _). rewrite native in H1. discriminate.
  - destruct Hp as (H1 & _). rewrite native in H1. discriminate.
  - destruct Hp as (H1 & _). rewrite native in H1. discriminate.
  - (* the close of the native command *)
    destruct Hp as (_ & Hroot & files & Hfiles).
    unfold onNativeClose. cbv zeta.
    set (w0 := withWalker (setRunningNative None) w).
    assert (H0 : onward w w0) by (split; auto).
    assert (Hk0 : agree k0 (walker w0)) by exact Hk.
    destruct (isCanceled (walker w0)) eqn:Hc.
    { right. intros _ Hs'. destruct (invoke_walker done None w0) as [Hwk _].
      rewrite Hwk in Hs'. unfold stopped in Hs'. rewrite Hc in Hs'. discriminate. }
    set (maps := fold_left (perPathHandler env) (nativeLines env r) ([], [])).
    destruct (keptFolders env (walker w0) r (map fst (fst maps)))
      as [folders|] eqn:Hkept; [|left; reflexivity].
    right.
    set (listing := concat (omap (fun p => childrenOf p (fst maps)) folders)).
    set (w1 := fold_left (fun w p => nativeFile env r (snd maps) p w) listing w0).
    apply (combed_settle (NativeClose pid r done)).
    + intros _ Hs'. right. right. right. right.
      destruct (invoke_walker done None w1) as [Hwk Hres]. rewrite Hwk in Hs'.
      intros p (_ & (line & Hline & Hne & ->) & (fuel & Hfuel) & Hg & Hm & Hi).
      rewrite Hres.
      apply (nativeFiles_report r (snd maps) _ listing w0 Hk0); auto.
      unfold listing.
      destruct (listing_files (nativeLines env r) ([], []) line Hline Hne)
        as (items & Hitems & Hin).
      apply list_elem_of_In, in_concat. exists items.
      split; apply list_elem_of_In; [|exact Hin].
      apply list_elem_of_omap. exists (dirname env (normalized env line)).
      split; [|exact Hitems].
      apply (keptFolders_keeps _ _ _ _ _ fuel Hkept).
      * apply (childrenOf_listed _ _ _ Hitems).
      * rewrite (agree_kept env k0 _ _ _ Hk0). exact Hfuel.
    + apply (combed_onward _ w); auto.
      * eapply onward_trans; [exact H0|].
        eapply onward_trans; [apply onward_nativeFiles|apply onward_invoke].
      * rewrite invoke_hung. unfold w1. rewrite hung_nativeFiles. reflexivity.
Qed.

(** The invariant of a search with the native command. *)
Definition listedAll (w : World) : Prop :=
  sound env k0 roots w /\ (hung w = true \/ combed [] w).

Lemma listedAll_step e w : listedAll w -> listedAll (step env e w).
Proof.
  intros [Hsound Hw]. split; [apply sound_step; exact Hsound|].
  destruct e as [i|]; simpl.
  - unfold fire. destruct (hung w) eqn:Hh; [left; exact Hh|].
    destruct Hw as [Hw|Hw]; [congruence|].
    destruct (pending w !! i) as [p|] eqn:Hp; [|right; exact Hw].
    apply combed_handle.
    + destruct Hsound as [H1 H2 H3]. split; auto. simpl.
      apply Forall_delete; auto.
    + eapply Forall_lookup_1; [apply (sound_pending _ _ _ _ Hsound)|exact Hp].
    + exact Hh.
    + apply combed_take; auto.
  - destruct Hw as [Hw|Hw]; [left; exact Hw|]. right.
    intros _ Hs.
    assert (Hs' : stopped (walker (cancel w)) = true).
    { unfold cancel, terminateNative, stopped. simpl. branch; reflexivity. }
    congruence.
Qed.

Lemma combed_walk w : combed [] (walk env roots w).
Proof.
  unfold walk, checkFilePatternAbsoluteMatch.
  set (w0 := withWalker resetState w).
  assert (Hroots : forall b, combed [] (walkRoots roots b w0)).
  { intros b _ _ r Hr. right. left.
    destruct (rootsListed b w0 r Hr) as (cb & H). exists cb. right. exact H. }
  destruct (filePattern (walker w0)) as [pat|]; [|apply Hroots].
  destruct (negb (truthy (Some pat)) || negb (isAbsolute env pat));
    [apply Hroots|].
  destruct (existsb (String.eqb pat) roots); [apply Hroots|].
  intros _ _ r Hr. left. exists pat. right. apply requested.
Qed.

End Native.

(** *** The property *)

(** X6: the native command delivers every file it lists.  When a search
    with the native command has ended (nothing is outstanding and the event
    loop is not blocked) without having been cancelled and without the limit
    hit, every path has been delivered that the command printed for a root
    that is a folder, in a folder that is not excluded together with its
    parents, and that passes both patterns and the file pattern whatever its
    siblings. *)
Theorem native_walk_finds_every_listed_file (env : Env) (cfg : IRawSearch)
    (roots : list string) (events : list Event) (r p : string) :
  cfg_disableFastFileLookup cfg = false ->
  let w := search env cfg roots events in
  pending w = [] -> hung w = false ->
  isCanceled (walker w) = false -> isLimitHit (walker w) = false ->
  r ∈ roots -> listed env (new env cfg) r p ->
  p ∈ results w.
Proof.
  intros Hnative w Hp Hh Hc Hl Hr Hlisted.
  assert (Hw : listedAll env (new env cfg) roots w).
  { unfold w, search. apply run_keeps.
    - intros e w'. apply listedAll_step. exact Hnative.
    - split; [apply sound_walk|]. right. apply combed_walk. }
  destruct Hw as [_ [Hw|Hw]]; [congruence|].
  assert (Hs : stopped (walker w) = false)
    by (unfold stopped; rewrite Hc, Hl; reflexivity).
  assert (Hno : forall q, ~ waits [] w q).
  { intros q [H|H]; [apply elem_of_nil in H; exact H|].
    rewrite Hp in H. apply elem_of_nil in H. exact H. }
  destruct (Hw Hh Hs r Hr)
    as [(q & H)|[(q & H)|[(q1 & q2 & q3 & H)|[(q1 & q2 & H)|H]]]];
    try (destruct (Hno _ H)).
  apply H. exact Hlisted.
Qed.

(** What [find] prints for [/proj] on [Posix.projDisk]; the output ends with
    a line feed, so the last line is empty. *)
Definition findProj (folder : string) : list string :=
  if String.eqb folder "/proj" then ["/proj/a.txt"; "/proj/src/b.txt"; ""]
  else [].

Lemma native_walk_finds_every_listed_file_witness :
  "/proj/src/b.txt"
  ∈ results (search (Posix.env Posix.projDisk findProj) (Posix.plain None false)
               ["/proj"] (fifo 2)).
Proof.
  apply (native_walk_finds_every_listed_file
           (Posix.env Posix.projDisk findProj) (Posix.plain None false)
           ["/proj"] (fifo 2) "/proj" "/proj/src/b.txt"); try reflexivity.
  - apply list_elem_of_here.
  - split; [eexists; reflexivity|]. split.
    + exists "/proj/src/b.txt". split; [|split; [discriminate|reflexivity]].
      apply list_elem_of_further, list_elem_of_here.
    + split; [exists 1; reflexivity|]. repeat split; reflexivity.
Defined.

End WalkerNative.

Module ModeOperationsFacts.

Import JavaScriptMode ModeOperations.

Lemma str_app_cons c s t : String c s +:+ t = String c (s +:+ t).
Proof. reflexivity. Qed.

Lemma str_app_nil_l t : "" +:+ t = t.
Proof. reflexivity. Qed.

Lemma str_app_nil_r s : s +:+ "" = s.
Proof. induction s as [|c s IH]; [reflexivity|]. rewrite str_app_cons, IH. reflexivity. Qed.

Lemma str_app_assoc a b c : (a +:+ b) +:+ c = a +:+ (b +:+ c).
Proof.
  induction a as [|x a IH]; [reflexivity|]. rewrite !str_app_cons, IH. reflexivity.
Qed.

Lemma substr_app a b : Str.substr (String.length a) (a +:+ b) = b.
Proof. induction a as [|x a IH]; [destruct b; reflexivity|]. rewrite str_app_cons. exact IH. Qed.

(** *** Signature help *)

Definition labelOf (p : SignatureHelpParameter) : string :=
  displayPartsToString (param_displayParts p).

Definition toParameter (p : SignatureHelpParameter) : ParameterInformation :=
  {| pi_label := labelOf p;
     pi_documentation := displayPartsToString (param_documentation p) |}.

(** The signature as a whole: the prefix, the labels of the parameters joined
    by the separator, and the suffix. *)
Definition joined (item : SignatureHelpItem) : SignatureInformation :=
  {| si_label :=
       displayPartsToString (prefixDisplayParts item)
       +:+ String.concat (displayPartsToString (separatorDisplayParts item))
             (map labelOf (parameters item))
       +:+ displayPartsToString (suffixDisplayParts item);
     si_documentation := None;
     si_parameters := map toParameter (parameters item) |}.

Lemma eachParameter_joins separator ps : forall i n signature,
  n = i + List.length ps ->
  eachParameter separator n ps i signature =
  {| si_label :=
       si_label signature
       +:+ String.concat (displayPartsToString separator) (map labelOf ps);
     si_documentation := si_documentation signature;
     si_parameters := si_parameters signature ++ map toParameter ps |}.
Proof.
  induction ps as [|p rest IH]; intros i n signature Hn.
  - simpl. rewrite str_app_nil_r, app_nil_r. destruct signature; reflexivity.
  - cbn [eachParameter]. cbv zeta.
    destruct rest as [|q rest].
    + replace (Nat.ltb i (n - 1)) with false
        by (symmetry; apply Nat.ltb_ge; simpl in Hn; lia).
      reflexivity.
    + replace (Nat.ltb i (n - 1)) with true
        by (symmetry; apply Nat.ltb_lt; simpl in Hn; lia).
      rewrite (IH (S i) n) by (simpl in *; lia).
      cbn [si_label si_documentation si_parameters].
      f_equal.
      * change (String.concat (displayPartsToString separator)
                  (map labelOf (p :: q :: rest)))
          with (labelOf p +:+ displayPartsToString separator
                +:+ String.concat (displayPartsToString separator)
                      (map labelOf (q :: rest))).
        rewrite !str_app_assoc. reflexivity.
      * rewrite <- app_assoc. reflexivity.
Qed.

Lemma toSignature_joined item : toSignature item = joined item.
Proof.
  unfold toSignature. cbv zeta.
  rewrite (eachParameter_joins _ (parameters item) 0
             (List.length (parameters item)) _ eq_refl).
  cbn [si_label si_documentation si_parameters].
  unfold joined. rewrite str_app_nil_l, str_app_assoc. reflexivity.
Qed.

Lemma push_each {A B : Type} (f : A -> B) (l : list A) : forall acc,
  fold_left (fun ret x => ret ++ [f x]) l acc = acc ++ map f l.
Proof.
  induction l as [|x l IH]; intros acc; simpl.
  - rewrite app_nil_r. reflexivity.
  - rewrite IH, <- app_assoc. reflexivity.
Qed.

(** *** Indentation *)

Lemma countIndent_spaces tabSize n : forall rest nChars,
  countIndent tabSize (times n " " +:+ rest) nChars =
  countIndent tabSize rest (nChars + n).
Proof.
  induction n as [|n IH]; intros rest nChars.
  - simpl. rewrite str_app_nil_l. f_equal. lia.
  - cbn [times]. rewrite str_app_assoc, str_app_cons, str_app_nil_l.
    cbn [countIndent]. change (Ascii.eqb " " " ") with true. cbv iota.
    rewrite IH. f_equal. lia.
Qed.

Lemma countIndent_tabs tabSize n : forall rest nChars,
  countIndent tabSize (times n (String TAB "") +:+ rest) nChars =
  countIndent tabSize rest (nChars + n * tabSize).
Proof.
  induction n as [|n IH]; intros rest nChars.
  - simpl. rewrite str_app_nil_l. f_equal. lia.
  - cbn [times]. rewrite str_app_assoc, str_app_cons, str_app_nil_l.
    cbn [countIndent]. change (Ascii.eqb TAB " ") with false.
    change (Ascii.eqb TAB TAB) with true. cbv iota.
    rewrite IH. f_equal. lia.
Qed.

Lemma countIndent_stops tabSize rest nChars :
  startsBlank rest = false -> countIndent tabSize rest nChars = nChars.
Proof.
  destruct rest as [|ch rest]; [reflexivity|]. simpl.
  intros H. apply orb_false_iff in H as [-> ->]. reflexivity.
Qed.

(** *** The path of a resource *)

Lemma hasChar_app c a b : hasChar c (a +:+ b) = hasChar c a || hasChar c b.
Proof.
  induction a as [|x a IH]; [reflexivity|].
  rewrite str_app_cons. simpl. rewrite IH, orb_assoc. reflexivity.
Qed.

Lemma hasChar_substr c n : forall s, hasChar c s = false -> hasChar c (Str.substr n s) = false.
Proof.
  induction n as [|n IH]; intros s H; [destruct s; exact H|].
  destruct s as [|x s]; [reflexivity|]. simpl in *.
  apply orb_false_iff in H as [_ H]. auto.
Qed.

Lemma hasChar_replaceAllChar c to s :
  hasChar c to = false -> hasChar c (Str.replaceAllChar c to s) = false.
Proof.
  intros Hto. induction s as [|x s IH]; [reflexivity|].
  simpl. destruct (Ascii.eqb x c) eqn:E.
  - rewrite hasChar_app, Hto, IH. reflexivity.
  - simpl. rewrite E, IH. reflexivity.
Qed.

Lemma hasChar_replaceFirst c from to : forall s,
  hasChar c to = false -> hasChar c s = false ->
  hasChar c (Str.replaceFirst from to s) = false.
Proof.
  intros s Hto. induction s as [|x s IH]; intros Hs.
  - cbn [Str.replaceFirst]. destruct (String.prefix from ""); [|reflexivity].
    rewrite hasChar_app, Hto. simpl. apply hasChar_substr. reflexivity.
  - cbn [Str.replaceFirst]. destruct (String.prefix from (String x s)).
    + rewrite hasChar_app, Hto. simpl. apply hasChar_substr. exact Hs.
    + simpl in *. apply orb_false_iff in Hs as [-> Hs]. simpl. auto.
Qed.

(** *** The properties *)

(** X9: the label of every signature that [doSignatureHelp] returns is the
    prefix, then the labels of the parameters with the separator between
    them (and neither before the first nor after the last), then the suffix;
    it has one parameter for each parameter of the engine's signature and one
    signature for each of the engine's, in the same order. *)
Theorem signature_label_joins_the_parameters (env : Env) (services : Services)
    (workspace : Workspace) (document : TextDocument) (position : Position)
    (h h1 : Host) (help : SignatureHelp) :
  doSignatureHelp env services workspace document position h
  = (h1, Returned (Some help)) ->
  let jsDocument := getEmbeddedDocument env document in
  exists signHelp,
    getSignatureHelpItems services h1 (deschemeURI env (uri jsDocument))
      (offsetAt jsDocument position) = Some signHelp /\
    activeSignature help = selectedItemIndex signHelp /\
    activeParameter help = argumentIndex signHelp /\
    signatures help = map joined (items signHelp).
Proof.
  unfold doSignatureHelp, getLanguageService. cbv zeta.
  destruct (jsLanguageService h) as [service|reason]; [|discriminate].
  match goal with
  | |- context [getSignatureHelpItems services ?h' ?f ?o] =>
      destruct (getSignatureHelpItems services h' f o) as [signHelp|] eqn:E
  end; [|discriminate].
  intros [= <- <-]. exists signHelp. repeat split; auto.
  cbn [signatures]. rewrite push_each. simpl.
  apply map_ext. apply toSignature_joined.
Qed.

Lemma signature_label_joins_the_parameters_witness :
  exists help,
    snd (doSignatureHelp ModeExamples.engine OperationExamples.services
           ModeExamples.emptyWorkspace (ModeExamples.script "console.log(")
           {| line := 0; character := 12 |} ModeExamples.host)
    = Returned (Some help) /\
    map si_label (signatures help) = ["log(message: any, ...rest: any[]): void"].
Proof.
  destruct (signature_label_joins_the_parameters ModeExamples.engine
              OperationExamples.services ModeExamples.emptyWorkspace
              (ModeExamples.script "console.log(")
              {| line := 0; character := 12 |} ModeExamples.host _ _ eq_refl)
    as (signHelp & H1 & _ & _ & H2).
  eexists. split; [reflexivity|].
  rewrite H2. injection H1 as <-. reflexivity.
Defined.

(** X10: every item that [doComplete] returns can be resolved: it carries
    the language, the uri of the document and the offset of the position it
    was asked at, and [doResolve] on it does not throw but asks the engine for
    the details of its label at that offset, with the host in the state
    [doComplete] left it in. *)
Theorem completed_items_resolve (env : Env) (services : Services)
    (languageId : string) (workspace : Workspace) (document : TextDocument)
    (position : Position) (h h1 : Host) (completions : CompletionList)
    (item : CompletedItem) :
  doComplete env services languageId workspace document position h
  = (h1, Returned completions) ->
  item ∈ list_items completions ->
  let jsDocument := getEmbeddedDocument env document in
  let offset := offsetAt jsDocument position in
  data (base item)
  = Some {| data_languageId := languageId; data_uri := uri document;
            data_offset := offset |} /\
  doResolve env workspace document (base item) h1
  = (h1,
     Returned
       match
         getCompletionEntryDetails env h1 (deschemeURI env (uri jsDocument))
           offset (label (base item))
       with
       | Some details =>
           {| label := label (base item);
              detail := Some (displayPartsToString (displayParts details));
              documentation :=
                Some (displayPartsToString (documentation_parts details));
              data := None |}
       | None => base item
       end).
Proof.
  unfold doComplete, getLanguageService. cbv zeta.
  destruct (jsLanguageService h) as [service|reason] eqn:Hs; [|discriminate].
  match goal with
  | |- context [getCompletionsAtPosition services ?h' ?f ?o] =>
      destruct (getCompletionsAtPosition services h' f o) as [entries|]
  end.
  - intros [= <- <-] Hin. cbn [list_items] in Hin.
    apply list_elem_of_fmap in Hin as (entry & -> & _).
    cbn [base data label]. split; [reflexivity|].
    unfold doResolve, getLanguageService. cbv zeta.
    cbn [jsLanguageService data data_offset label scriptKind
         experimentalDecorators currentTextDocument currentWorkspace loads].
    match goal with
    | |- context [getCompletionEntryDetails env ?h' ?f ?o ?l] =>
        destruct (getCompletionEntryDetails env h' f o l)
    end; reflexivity.
  - intros [= <- <-] Hin. cbn [list_items] in Hin.
    apply elem_of_nil in Hin. contradiction.
Qed.

Lemma completed_items_resolve_witness :
  let document := ModeExamples.script "console.lo" in
  let position := {| line := 0; character := 10 |} in
  exists h1 completions item resolved,
    doComplete ModeExamples.engine OperationExamples.services "javascript"
      ModeExamples.emptyWorkspace document position ModeExamples.host
    = (h1, Returned completions) /\
    item ∈ list_items completions /\
    doResolve ModeExamples.engine ModeExamples.emptyWorkspace document
      (base item) h1 = (h1, Returned resolved) /\
    detail resolved = Some "(method) log(): void" /\
    data resolved = None.
Proof.
  intros document position.
  eexists _, _, _, _.
  split; [reflexivity|]. split; [apply list_elem_of_here|].
  split.
  - eapply (completed_items_resolve ModeExamples.engine
              OperationExamples.services "javascript"
              ModeExamples.emptyWorkspace document position ModeExamples.host).
    + reflexivity.
    + apply list_elem_of_here.
  - split; reflexivity.
Defined.

(** X11: [computeInitialIndent] undoes [generateIndent]: on a line that
    starts with the indentation generated for a level, followed by a text that
    starts with neither a space nor a tab, the level comes back.  This needs
    tabs, or a tab size that is not zero: with spaces and a tab size of zero
    the indentation generated is empty whatever the level. *)
Theorem computeInitialIndent_undoes_generateIndent (services : Services)
    (document : TextDocument) (range : Range) (options : FormattingOptions)
    (level : nat) (before rest : string) :
  (forall s n, repeat services s n = times n s) ->
  insertSpaces options = false \/ 0 < tabSize options ->
  offsetAt document {| line := line (range_start range); character := 0 |}
  = String.length before ->
  getText document = before +:+ generateIndent services level options +:+ rest ->
  startsBlank rest = false ->
  computeInitialIndent document range options = level.
Proof.
  intros Hrepeat Hsize Hline Htext Hrest.
  unfold computeInitialIndent. cbv zeta.
  rewrite Hline, Htext, substr_app.
  unfold generateIndent. rewrite !Hrepeat.
  destruct (insertSpaces options).
  - destruct Hsize as [?|Hsize]; [discriminate|].
    replace (Nat.eqb (tabSize options) 0) with false
      by (symmetry; apply Nat.eqb_neq; lia).
    rewrite countIndent_spaces, countIndent_stops by exact Hrest.
    simpl. apply Nat.div_mul. lia.
  - rewrite countIndent_tabs, countIndent_stops by exact Hrest.
    simpl. apply Nat.div_mul. destruct (Nat.eqb (tabSize options) 0) eqn:E.
    + discriminate.
    + apply Nat.eqb_neq in E. exact E.
Qed.

Lemma computeInitialIndent_undoes_generateIndent_witness :
  computeInitialIndent OperationExamples.indented
    {| range_start := {| line := 1; character := 2 |};
       range_end := {| line := 1; character := 8 |} |}
    {| tabSize := 0; insertSpaces := false |} = 2.
Proof.
  apply (computeInitialIndent_undoes_generateIndent OperationExamples.services
           OperationExamples.indented _ {| tabSize := 0; insertSpaces := false |}
           2 (String "{" (String LF "")) "x = 1;");
    try reflexivity.
  left. reflexivity.
Defined.

(** X12: the current directory the host gives the engine always starts the
    path of the current document: it is the path of the first folder of the
    workspace that does, whether or not a later folder lies deeper, and it is
    empty without such a folder and before the first call of
    [getLanguageService]. *)
Theorem getCurrentDirectory_contains_the_document (env : Env) (h : Host) :
  let path := deschemeURI env (uri (currentTextDocument h)) in
  let inside ws := Str.startsWith (deschemeURI env (folder_uri ws)) path in
  Str.startsWith (getCurrentDirectory env h) path = true /\
  (currentWorkspace h = None -> getCurrentDirectory env h = "") /\
  (forall workspace, currentWorkspace h = Some workspace ->
     Forall (fun ws => inside ws = false) (folders workspace) /\
     getCurrentDirectory env h = ""
     \/
     exists before ws after,
       folders workspace = before ++ ws :: after /\
       Forall (fun ws => inside ws = false) before /\
       inside ws = true /\
       getCurrentDirectory env h = deschemeURI env (folder_uri ws)).
Proof.
  intros path inside. unfold getCurrentDirectory. fold path.
  assert (Hempty : forall s, Str.startsWith "" s = true) by (intros []; reflexivity).
  destruct (currentWorkspace h) as [workspace|];
    [|repeat split; auto; discriminate].
  assert (Hfind : forall l,
            List.find inside l = None /\ Forall (fun ws => inside ws = false) l
            \/ exists before ws after,
                 l = before ++ ws :: after /\
                 Forall (fun ws => inside ws = false) before /\
                 inside ws = true /\ List.find inside l = Some ws).
  { induction l as [|x l IH]; [left; split; [reflexivity|constructor]|].
    simpl. destruct (inside x) eqn:E.
    - right. exists [], x, l. repeat split; auto.
    - destruct IH as [[H1 H2]|(before & ws & after & -> & H2 & H3 & H4)].
      + left. split; auto.
      + right. exists (x :: before), ws, after. repeat split; auto. }
  destruct (Hfind (folders workspace))
    as [[H1 H2]|(before & ws & after & H1 & H2 & H3 & H4)].
  - change (List.find _ (folders workspace)) with (List.find inside (folders workspace)).
    rewrite H1. split; [apply Hempty|]. split; [discriminate|].
    intros ? [= <-]. left. auto.
  - change (List.find _ (folders workspace)) with (List.find inside (folders workspace)).
    rewrite H4. split; [exact H3|]. split; [discriminate|].
    intros ? [= <-]. right. exists before, ws, after. auto.
Qed.

(** X13: the path [deschemeURI] makes of a [file://] uri holds no
    separator of the platform, where that is neither a slash nor a colon. *)
Theorem deschemeURI_leaves_no_separator (env : Env) (uri : string) :
  Str.startsWith "file://" uri = true ->
  sep env <> "/"%char -> sep env <> ":"%char ->
  hasChar (sep env) (deschemeURI env uri) = false.
Proof.
  intros Hfile Hslash Hcolon. unfold deschemeURI. rewrite Hfile. cbn [negb].
  assert (H1 : hasChar (sep env) "/" = false).
  { cbn [hasChar]. rewrite orb_false_r. apply Ascii.eqb_neq. congruence. }
  assert (H2 : hasChar (sep env) ":" = false).
  { cbn [hasChar]. rewrite orb_false_r. apply Ascii.eqb_neq. congruence. }
  destruct (win32 env); cbn [negb].
  - apply hasChar_replaceFirst; auto. apply hasChar_substr.
    apply hasChar_replaceAllChar; auto.
  - apply hasChar_replaceAllChar; auto.
Qed.

Lemma deschemeURI_leaves_no_separator_witness :
  deschemeURI OperationExamples.windows "file:///c%3A/Users/a.html"
  = "c:/Users/a.html" /\
  hasChar "\" (deschemeURI OperationExamples.windows "file:///c%3A/Users/a.html")
  = false.
Proof.
  split; [reflexivity|].
  apply (deschemeURI_leaves_no_separator OperationExamples.windows
           "file:///c%3A/Users/a.html"); [reflexivity|discriminate|discriminate].
Defined.

End ModeOperationsFacts.

Module GitEditorFacts.

Import GitEditorDefs.

(** The request has written at most once, and has resolved only after that. *)
Definition writtenOnce (r : Request) : Prop :=
  match handling r with
  | Listening uri path =>
      count isWrite r = 0 /\ count isResolve r = 0 /\
      exists id, uri = commitUri id path
  | Finished => count isWrite r = 1 /\ count isResolve r = 1
  | _ => count isWrite r <= 1 /\ count isResolve r = 0
  end.

Lemma count_app p r more :
  List.length (List.filter p (calls r ++ more))
  = count p r + List.length (List.filter p more).
Proof. unfold count. rewrite List.filter_app, List.length_app. reflexivity. Qed.

Lemma writtenOnce_handle commitMessagePath id opens shows :
  writtenOnce (handle commitMessagePath id opens shows).
Proof.
  unfold handle, writtenOnce, count.
  destruct commitMessagePath as [path|]; [|simpl; auto].
  destruct (String.eqb path ""); [simpl; auto|].
  destruct opens; [|simpl; auto]. destruct shows; simpl; eauto.
Qed.

Lemma writtenOnce_onDidChange change r : writtenOnce r -> writtenOnce (onDidChange change r).
Proof.
  unfold onDidChange, writtenOnce.
  destruct (handling r) as [| |uri path| |] eqn:E; rewrite ?E; auto.
  intros (H1 & H2 & H3).
  destruct (existsb (String.eqb uri) (editors change)); [rewrite E; auto|].
  destruct (content change) as [text|]; simpl.
  - destruct (writes change); simpl.
    + destruct (deletes change); simpl; unfold count; simpl;
        rewrite <- ?app_assoc, !List.filter_app, !List.length_app; simpl;
        fold (count isWrite r); fold (count isResolve r); lia.
    + unfold count; simpl.
      rewrite <- ?app_assoc, !List.filter_app, !List.length_app; simpl.
      fold (count isWrite r); fold (count isResolve r). lia.
  - unfold count; simpl. rewrite !List.filter_app, !List.length_app; simpl.
    fold (count isWrite r); fold (count isResolve r). lia.
Qed.

Lemma writtenOnce_run changes : forall r, writtenOnce r -> writtenOnce (run changes r).
Proof.
  induction changes as [|c changes IH]; intros r Hr; simpl; auto.
  apply IH. apply writtenOnce_onDidChange. exact Hr.
Qed.

(** Nothing happens once the request has failed or finished. *)
Lemma run_over changes r :
  (forall uri path, handling r <> Listening uri path) -> run changes r = r.
Proof.
  intros H. induction changes as [|c changes IH]; simpl; auto.
  replace (onDidChange c r) with r; [exact IH|].
  unfold onDidChange. destruct (handling r) eqn:E; auto.
  destruct (H _ _ eq_refl).
Qed.

(** While the document stays visible, nothing happens. *)
Lemma run_visible uri path r changes :
  handling r = Listening uri path ->
  Forall (fun c => existsb (String.eqb uri) (editors c) = true) changes ->
  run changes r = r.
Proof.
  intros Hr Hall. induction Hall as [|c changes Hc _ IH]; simpl; auto.
  replace (onDidChange c r) with r; [exact IH|].
  unfold onDidChange. rewrite Hr, Hc. reflexivity.
Qed.

(** *** The properties *)

(** X18: whatever changes of the visible editors follow a request, the
    commit message file is written at most once and the promise of [handle]
    is resolved at most once, and only when the file has been written.  The
    first change that no longer shows the document of the commit message
    settles the request: the listener is disposed, the content read then is
    written to the commit message path, the document is deleted and the
    promise resolved; when reading, writing or deleting fails, the promise is
    never resolved, whatever follows. *)
Theorem commit_message_is_written_once (commitMessagePath : option string)
    (id : string) (opens shows : bool) (changes : list Change) :
  let r := run changes (handle commitMessagePath id opens shows) in
  count isWrite r <= 1 /\ count isResolve r <= count isWrite r /\
  (forall path shown c later,
     commitMessagePath = Some path -> path <> "" ->
     opens = true -> shows = true ->
     changes = shown ++ c :: later ->
     Forall (fun c => existsb (String.eqb (commitUri id path)) (editors c) = true)
       shown ->
     existsb (String.eqb (commitUri id path)) (editors c) = false ->
     match content c with
     | Some text =>
         if writes c && deletes c
         then
           calls r
           = [OpenTextDocument (commitUri id path);
              ShowTextDocument (commitUri id path);
              ListenToVisibleTextEditors; Dispose;
              ReadFile (commitUri id path); WriteFile path text;
              Delete (commitUri id path); Resolve]
         else count isResolve r = 0
     | None => count isWrite r = 0 /\ count isResolve r = 0
     end).
Proof.
  intros r.
  pose proof (writtenOnce_run changes _ (writtenOnce_handle commitMessagePath id opens shows))
    as Hr.
  fold r in Hr. unfold writtenOnce in Hr.
  split; [|split].
  - destruct (handling r); lia.
  - destruct (handling r); lia.
  - intros path shown c later -> Hpath -> -> -> Hshown Hc.
    unfold r, run. rewrite fold_left_app. cbn [fold_left].
    fold (run shown (handle (Some path) id true true)).
    assert (H0 : handle (Some path) id true true
                 = {| handling := Listening (commitUri id path) path;
                      calls := [OpenTextDocument (commitUri id path);
                                ShowTextDocument (commitUri id path);
                                ListenToVisibleTextEditors] |}).
    { unfold handle. apply String.eqb_neq in Hpath. rewrite Hpath. reflexivity. }
    rewrite H0.
    rewrite (run_visible (commitUri id path) path
               {| handling := Listening (commitUri id path) path;
                  calls := [OpenTextDocument (commitUri id path);
                            ShowTextDocument (commitUri id path);
                            ListenToVisibleTextEditors] |}
               shown eq_refl Hshown).
    unfold onDidChange. cbn [handling calls]. rewrite Hc.
    fold (run later).
    destruct (content c) as [text|].
    + destruct (writes c); cbn [negb andb].
      * destruct (deletes c); cbn [negb];
          rewrite run_over by (intros ? ?; discriminate); reflexivity.
      * rewrite run_over by (intros ? ?; discriminate). reflexivity.
    + rewrite run_over by (intros ? ?; discriminate). split; reflexivity.
Qed.

End GitEditorFacts.

Module WorkspaceTrustFacts.

Import WorkspaceTrust.

(** *** The depth of a folder *)

Lemma parent_succ env j path :
  parent env j (dirname env path) = parent env (S j) path.
Proof. unfold parent. symmetry. apply Nat.iter_succ_r. Qed.

Lemma climb_bounds env fuel : forall path depth,
  depth <= climb env fuel path depth <= depth + fuel.
Proof.
  induction fuel as [|fuel IH]; intros path depth; simpl; [lia|].
  destruct (negb _); [|lia]. specialize (IH (dirname env path) (S depth)). lia.
Qed.

Lemma climb_proper env fuel : forall path depth j,
  depth + j < climb env fuel path depth ->
  parent env (S j) path <> parent env j path.
Proof.
  induction fuel as [|fuel IH]; intros path depth j; simpl; [lia|].
  destruct (String.eqb (dirname env path) path) eqn:E; simpl; [lia|].
  intros Hj. destruct j as [|j].
  - simpl. apply String.eqb_neq. exact E.
  - rewrite <- !parent_succ. apply (IH _ (S depth)). lia.
Qed.

Lemma climb_top env fuel : forall path depth,
  climb env fuel path depth < depth + fuel ->
  let d := climb env fuel path depth - depth in
  parent env (S d) path = parent env d path.
Proof.
  induction fuel as [|fuel IH]; intros path depth; simpl; [lia|].
  destruct (String.eqb (dirname env path) path) eqn:E; simpl.
  - intros _. rewrite Nat.sub_diag. simpl. apply String.eqb_eq. exact E.
  - intros Hlt.
    pose proof (climb_bounds env fuel (dirname env path) (S depth)) as Hb.
    specialize (IH (dirname env path) (S depth)). simpl in IH.
    replace (climb env fuel (dirname env path) (S depth) - depth)
      with (S (climb env fuel (dirname env path) (S depth) - S depth)) by lia.
    rewrite <- !parent_succ. apply IH. lia.
Qed.

Lemma climb_shift env fuel k : forall path depth,
  climb env fuel path (depth + k) = climb env fuel path depth + k.
Proof.
  induction fuel as [|fuel IH]; intros path depth; simpl; [reflexivity|].
  destruct (negb _); [|reflexivity]. apply (IH _ (S depth)).
Qed.

Lemma climb_more env fuel k : forall path depth,
  climb env fuel path depth < depth + fuel ->
  climb env (fuel + k) path depth = climb env fuel path depth.
Proof.
  induction fuel as [|fuel IH]; intros path depth; simpl; [lia|].
  destruct (negb _); [|reflexivity]. intros H. apply IH. lia.
Qed.

Lemma climb_steps env j : forall fuel path depth,
  depth + j <= climb env fuel path depth ->
  climb env fuel path depth = climb env (fuel - j) (parent env j path) (depth + j).
Proof.
  induction j as [|j IH]; intros fuel path depth Hj.
  - simpl. rewrite Nat.sub_0_r, Nat.add_0_r. reflexivity.
  - destruct fuel as [|fuel]; simpl in *; [lia|].
    destruct (negb _); [|lia].
    rewrite (IH fuel (dirname env path) (S depth)) by lia.
    rewrite parent_succ. f_equal. lia.
Qed.

Lemma getDepth_below env folder uri j :
  resolve env uri = parent env j (resolve env folder) ->
  j <= getDepth env folder -> getDepth env folder < 100 ->
  getDepth env folder = getDepth env uri + j.
Proof.
  unfold getDepth. intros Hup Hj Hlt.
  rewrite (climb_steps env j 100 (resolve env folder) 0) in * by exact Hj.
  rewrite <- Hup in *. change (0 + j) with (0 + j) in *.
  rewrite (climb_shift env (100 - j) j (resolve env uri) 0) in *.
  replace 100 with ((100 - j) + j) at 2 by lia.
  rewrite climb_more; [reflexivity|]. lia.
Qed.

(** *** The request dialog *)

Lemma findCancel_finds buttons : forall i,
  existsb (fun b => String.eqb (button_type b) "Cancel") buttons = true ->
  exists before cancel after,
    buttons = before ++ cancel :: after /\
    Forall (fun b => button_type b <> "Cancel") before /\
    button_type cancel = "Cancel" /\
    findCancel buttons i = (i + Z.of_nat (List.length before))%Z.
Proof.
  induction buttons as [|b rest IH]; intros i; simpl; [discriminate|].
  destruct (String.eqb (button_type b) "Cancel") eqn:E; simpl.
  - intros _. exists [], b, rest. repeat split; auto.
    + apply String.eqb_eq. exact E.
    + simpl. lia.
  - intros H. destruct (IH (i + 1)%Z H) as (before & cancel & after & -> & H1 & H2 & H3).
    exists (b :: before), cancel, after. repeat split; auto.
    + constructor; auto. apply String.eqb_neq. exact E.
    + rewrite H3. simpl. lia.
Qed.

Lemma dialogButtons_has_cancel requestOptions :
  existsb (fun b => String.eqb (button_type b) "Cancel")
    (dialogButtons requestOptions) = true.
Proof.
  unfold dialogButtons. cbv zeta.
  set (bs := match buttons requestOptions with
             | Some bs => bs
             | None => defaultButtons
             end).
  destruct (existsb _ bs) eqn:E; [exact E|].
  rewrite existsb_app. simpl. apply orb_true_r.
Qed.

(** *** The properties *)

(** X14: the depth of a folder is the number of times [dirname] changes
    its resolved path, counted up to 100: every parent up to the depth differs
    from the path below it, and where the depth is less than 100 the path
    reached is its own parent. *)
Theorem getDepth_counts_the_parents (env : Env) (folder : string) :
  let depth := getDepth env folder in
  let path := resolve env folder in
  depth <= 100 /\
  (forall j, j < depth -> parent env (S j) path <> parent env j path) /\
  (depth < 100 -> parent env (S depth) path = parent env depth path).
Proof.
  intros depth path. unfold depth, getDepth. fold path.
  pose proof (climb_bounds env 100 path 0) as Hb.
  split; [lia|]. split.
  - intros j Hj. apply (climb_proper env 100 path 0). exact Hj.
  - intros Hlt. pose proof (climb_top env 100 path 0 Hlt) as Ht.
    simpl in Ht. rewrite Nat.sub_0_r in Ht. exact Ht.
Qed.

(** X15: when the trust of the workspace changes to trusted, the event
    logged for a folder of the workspace that is trusted through its [j]th
    parent has a delta of [j], provided the folder is less than 100 levels
    deep and no path between the two is its own parent. *)
Theorem delta_counts_the_levels (env : Env) (folder uri : string) (j : nat) :
  isWorkspaceTrustEnabled env = true ->
  folder ∈ workspaceFolders env ->
  getFolderTrustStateInfo env folder = (true, uri) ->
  resolve env uri = parent env j (resolve env folder) ->
  j <= getDepth env folder -> getDepth env folder < 100 ->
  WorkspaceFolderDepthBelowTrustedFolder (getDepth env folder)
    (getDepth env folder - j) (Z.of_nat j)
  ∈ logWorkspaceTrustChangeEvent env true.
Proof.
  intros Hon Hin Htrust Hup Hj Hlt.
  unfold logWorkspaceTrustChangeEvent. rewrite Hon. cbn [negb].
  apply list_elem_of_further. apply list_elem_of_In, in_flat_map.
  exists folder. split; [apply list_elem_of_In; exact Hin|].
  rewrite Htrust. cbn [negb]. cbv zeta.
  pose proof (getDepth_below env folder uri j Hup Hj Hlt) as Hd.
  left. f_equal; lia.
Qed.

Lemma delta_counts_the_levels_witness :
  WorkspaceFolderDepthBelowTrustedFolder 4 2 2
  ∈ logWorkspaceTrustChangeEvent home true.
Proof.
  apply (delta_counts_the_levels home "/home/me/code/app" "/home/me" 2);
    try reflexivity.
  - apply list_elem_of_here.
  - vm_compute. lia.
  - vm_compute. lia.
Defined.

(** X16: the dialog of a modal trust request can always be cancelled: it
    has a button of type Cancel, pushed after the others where the request has
    none, and its [cancelId] is the index of the first such button.  Closing
    the dialog with that choice cancels the request and does nothing else.
    The button that was pushed stays on the request: the same request shows
    the same buttons again. *)
Theorem trust_request_can_be_cancelled
    (requestOptions : WorkspaceTrustRequestOptions) (h : Handler)
    (checkboxChecked : bool) :
  modal requestOptions = true ->
  let opened := onDidInitiateWorkspaceTrustRequest requestOptions h in
  let buttons := dialogButtons requestOptions in
  exists (cancelId : nat) (cancel : Button) (detail : string)
         (earlier : list Awaited),
    buttons !! cancelId = Some cancel /\
    button_type cancel = "Cancel" /\
    (forall i b, i < cancelId -> buttons !! i = Some b -> button_type b <> "Cancel") /\
    last (calls (fst opened))
    = Some (Show "Warning" "Do you trust the files in this folder?"
              (map button_label buttons) (Z.of_nat cancelId) (Some detail)) /\
    awaited (fst opened) = earlier ++ [TrustRequest buttons] /\
    (let closed :=
       step (Answer (List.length earlier) cancelId checkboxChecked) (fst opened) in
     calls closed = calls (fst opened) ++ [CancelRequest] /\
     awaited closed = earlier) /\
    dialogButtons (snd opened) = buttons.
Proof.
  intros Hmodal opened buttons.
  destruct (findCancel_finds buttons 0 (dialogButtons_has_cancel requestOptions))
    as (before & cancel & after & Hb & H1 & H2 & H3).
  exists (List.length before), cancel.
  unfold opened, onDidInitiateWorkspaceTrustRequest. rewrite Hmodal. cbv zeta.
  fold buttons. cbn [fst snd].
  eexists _, (awaited (toggleRequestBadge true h)).
  assert (Hat : buttons !! List.length before = Some cancel).
  { rewrite Hb. rewrite lookup_app_r by reflexivity.
    rewrite Nat.sub_diag. reflexivity. }
  split; [exact Hat|]. split; [exact H2|]. split.
  { intros i b Hi Hib. rewrite Hb in Hib.
    rewrite lookup_app_l in Hib by exact Hi.
    exact (Forall_lookup_1 _ _ _ _ H1 Hib). }
  split.
  { cbn [call await calls]. rewrite last_snoc, H3. reflexivity. }
  split; [reflexivity|]. split.
  - cbv zeta. generalize (toggleRequestBadge true h). intros h1.
    assert (Hdel : forall (l : list Awaited) a, delete (List.length l) (l ++ [a]) = l).
    { induction l as [|x l IH]; intros a; [reflexivity|]. simpl. f_equal. apply IH. }
    unfold step, await, call, resume.
    cbn [awaited calls badge shouldShowIntroduction doNotShowAgain].
    rewrite lookup_app_r by reflexivity. rewrite Nat.sub_diag.
    cbn [lookup list_lookup isDialog]. unfold answer. rewrite Hat, Hdel, H2.
    change ("Cancel" =? "ContinueWithTrust") with false.
    change ("Cancel" =? "ContinueWithoutTrust") with false.
    change ("Cancel" =? "Manage") with false.
    change ("Cancel" =? "Cancel") with true.
    cbv iota. split; reflexivity.
  - unfold dialogButtons at 1. cbn [WorkspaceTrust.buttons]. cbv zeta.
    destruct (WorkspaceTrust.buttons requestOptions) as [bs|] eqn:E.
    + unfold buttons at 1.
      rewrite (dialogButtons_has_cancel requestOptions). reflexivity.
    + unfold buttons, dialogButtons. rewrite E. reflexivity.
Qed.

Lemma trust_request_can_be_cancelled_witness :
  let request :=
    {| modal := true; message := None;
       buttons := Some [{| button_label := "Trust";
                           button_type := "ContinueWithTrust" |}] |} in
  let opened := onDidInitiateWorkspaceTrustRequest request (newHandler false) in
  let buttons := dialogButtons request in
  exists (cancelId : nat) (cancel : Button) (detail : string)
         (earlier : list Awaited),
    buttons !! cancelId = Some cancel /\
    button_type cancel = "Cancel" /\
    (forall i b, i < cancelId -> buttons !! i = Some b -> button_type b <> "Cancel") /\
    last (calls (fst opened))
    = Some (Show "Warning" "Do you trust the files in this folder?"
              (map button_label buttons) (Z.of_nat cancelId) (Some detail)) /\
    awaited (fst opened) = earlier ++ [TrustRequest buttons] /\
    (let closed :=
       step (Answer (List.length earlier) cancelId false) (fst opened) in
     calls closed = calls (fst opened) ++ [CancelRequest] /\
     awaited closed = earlier) /\
    dialogButtons (snd opened) = buttons.
Proof.
  exact (trust_request_can_be_cancelled
           {| modal := true; message := None;
              buttons := Some [{| button_label := "Trust";
                                  button_type := "ContinueWithTrust" |}] |}
           (newHandler false) false eq_refl).
Defined.

(** X17: whatever happens, the handler completes a request as trusted only
    when the dialog of a modal request is closed with a button of type
    ContinueWithTrust: no other event, no other button and no choice in the
    introduction dialog makes it call [completeRequest(true)], and the calls
    it has made stay as they are. *)
Theorem trust_is_granted_only_by_choice (e : Event) (h : Handler) :
  exists new,
    calls (step e h) = calls h ++ new /\
    (CompleteRequest (Some true) ∈ new ->
     exists i choice checkboxChecked buttons b,
       e = Answer i choice checkboxChecked /\
       awaited h !! i = Some (TrustRequest buttons) /\
       buttons !! choice = Some b /\
       button_type b = "ContinueWithTrust" /\
       new = [CompleteRequest (Some true)]).
Proof.
  assert (Hnone : forall l, calls h = l ->
            exists new, l = calls h ++ new /\
              (CompleteRequest (Some true) ∈ new -> False)).
  { intros l <-. exists []. rewrite app_nil_r. split; [reflexivity|].
    intros H. apply elem_of_nil in H. exact H. }
  assert (Hweak : forall l : list Call,
            (exists new, l = calls h ++ new /\
               (CompleteRequest (Some true) ∈ new -> False)) ->
            exists new, l = calls h ++ new /\
              (CompleteRequest (Some true) ∈ new ->
               exists i choice checkboxChecked buttons b,
                 e = Answer i choice checkboxChecked /\
                 awaited h !! i = Some (TrustRequest buttons) /\
                 buttons !! choice = Some b /\
                 button_type b = "ContinueWithTrust" /\
                 new = [CompleteRequest (Some true)])).
  { intros l (new & H1 & H2). exists new. split; [exact H1|].
    intros H. destruct (H2 H). }
  assert (Hother : forall new,
            Forall (fun c => c <> CompleteRequest (Some true)) new ->
            exists new', calls h ++ new = calls h ++ new' /\
              (CompleteRequest (Some true) ∈ new' -> False)).
  { intros new Hall. exists new. split; [reflexivity|].
    intros Hin. rewrite Forall_forall in Hall. exact (Hall _ Hin eq_refl). }
  assert (Htoggle : forall b,
            exists new, calls (toggleRequestBadge b h) = calls h ++ new /\
              Forall (fun c => c <> CompleteRequest (Some true)) new).
  { intros b. unfold toggleRequestBadge. destruct b; simpl.
    - destruct (negb (doNotShowAgain h) && shouldShowIntroduction h); simpl.
      + eexists. split; [reflexivity|]. repeat constructor. discriminate.
      + exists []. rewrite app_nil_r. split; [reflexivity|constructor].
    - exists []. rewrite app_nil_r. split; [reflexivity|constructor]. }
  destruct e as [requestOptions|trusted|trusted| |i choice checkboxChecked|i ok];
    cbn [step].
  - apply Hweak. unfold onDidInitiateWorkspaceTrustRequest. cbv zeta.
    destruct (Htoggle true) as (new & H1 & H2).
    destruct (modal requestOptions); cbn [fst await call calls].
    + rewrite H1, <- app_assoc. apply Hother.
      apply Forall_app. split; [exact H2|]. repeat constructor. discriminate.
    + rewrite H1. apply Hother. exact H2.
  - apply Hweak. destruct trusted as [[|]|]; auto.
  - apply Hweak. destruct trusted; auto.
  - apply Hweak. apply Hnone. reflexivity.
  - destruct (awaited h !! i) as [a|] eqn:Ha; [|apply Hweak; auto].
    destruct a as [| buttons | |]; cbn [isDialog]; [| |apply Hweak; auto..].
    + apply Hweak. unfold answer.
      destruct choice as [|[|choice]]; [|destruct checkboxChecked..];
        cbn [await call store resume calls];
        first [apply Hnone; reflexivity
              |rewrite <- ?app_assoc; apply Hother; repeat constructor;
               discriminate].
    + unfold answer. destruct (buttons !! choice) as [b|] eqn:Hb;
        [|apply Hweak; auto].
      destruct (String.eqb (button_type b) "ContinueWithTrust") eqn:E.
      * exists [CompleteRequest (Some true)]. split; [reflexivity|].
        intros _. exists i, choice, checkboxChecked, buttons, b.
        repeat split; auto. apply String.eqb_eq. exact E.
      * apply Hweak.
        repeat match goal with
               | |- context [if ?c then _ else _] => destruct c
               end;
          cbn [await call store resume calls];
          first [apply Hnone; reflexivity
                |rewrite <- ?app_assoc; apply Hother; repeat constructor;
                 discriminate].
  - apply Hweak. destruct (awaited h !! i) as [a|]; auto.
    destruct a as [| |checked|]; cbn [isDialog settled]; auto.
    destruct (ok && checked); cbn [store call resume calls]; auto.
Qed.

End WorkspaceTrustFacts.

Module ThemeFacts.

Import ThemeDefs.

(** A theme document for running the loader: the colours it sets and what
    it includes. *)
Definition themeDocument (colors : list (string * Value)) (include : Value)
  : Value :=
  Object [("syntaxTokens", Array []); ("colors", Object colors);
          ("include", include)].

(** Two documents: [/t/dark.json] includes [base.json], and both set the
    colour of the editor background; [/t/loop.json] includes itself. *)
Definition library : Env (Color := string) :=
  {| readFile := fun p =>
       if String.eqb p "/t/dark.json" || String.eqb p "/t/base.json"
          || String.eqb p "/t/loop.json"
       then Some p else None;
     extname := fun _ => ".json";
     dirname := fun _ => "/t";
     join := fun dir v =>
       match v with Text name => Some (dir +:+ "/" +:+ name) | _ => None end;
     parseJson := fun content =>
       if String.eqb content "/t/dark.json"
       then (themeDocument [("editor.background", Text "#000000")]
               (Text "base.json"), [])
       else if String.eqb content "/t/base.json"
       then (themeDocument [("editor.background", Text "#ffffff");
                            ("editor.foreground", Text "#333333")]
               Undefined, [])
       else (themeDocument [] (Text "loop.json"), []);
     parsePlist := fun _ => None;
     fromHex := fun v => match v with Text hex => Some hex | _ => None end;
     initializeColorMapsFromSettings := fun _ colors => Some colors;
     generateStyleSheetContent := fun selector _ => Some selector;
     getBaseThemeId := fun _ => "vs-dark";
     getSyntaxThemeId := fun id => id |}.

Section Loader.

Context {Color : Type} (env : Env (Color := Color)).

(** A JSON document in the format with [syntaxTokens] and [colors]. *)
Definition document (themePath : string) (fields : list (string * Value))
  : Prop :=
  exists content,
    readFile env themePath = Some content /\
    String.eqb (extname env themePath) ".json" = true /\
    parseJson env content = (Object fields, []) /\
    isArray (field "settings" fields) = false.

Lemma setColors_others colors : forall (resultColors result : gmap string Color) colorId,
  setColors env colors resultColors = Some result ->
  colorId ∉ map fst colors -> result !! colorId = resultColors !! colorId.
Proof.
  induction colors as [|[k v] rest IH]; intros m m' colorId; simpl.
  - intros [= <-] _. reflexivity.
  - destruct (fromHex env v) as [c|]; [|discriminate].
    intros Hset Hnot. apply not_elem_of_cons in Hnot as [Hk Hnot].
    rewrite (IH _ _ _ Hset Hnot). apply lookup_insert_ne. congruence.
Qed.

Lemma setColors_sets colors :
  forall (resultColors result : gmap string Color) colorId colorHex,
  setColors env colors resultColors = Some result ->
  NoDup (map fst colors) -> (colorId, colorHex) ∈ colors ->
  result !! colorId = fromHex env colorHex /\ fromHex env colorHex <> None.
Proof.
  induction colors as [|[k v] rest IH]; intros m m' colorId colorHex; simpl.
  - intros _ _ Hin. apply elem_of_nil in Hin. contradiction.
  - destruct (fromHex env v) as [c|] eqn:Hc; [|discriminate].
    intros Hset Hnd Hin. apply NoDup_cons in Hnd as [Hk Hnd].
    apply elem_of_cons in Hin as [[= -> ->]|Hin].
    + rewrite (setColors_others _ _ _ _ Hset Hk).
      rewrite lookup_insert_eq, Hc. split; [reflexivity|discriminate].
    + apply (IH _ _ _ _ Hset Hnd Hin).
Qed.

Lemma load_json fuel baseTheme themePath content
    (resultRules : list Value) (resultColors : gmap string Color) :
  readFile env themePath = Some content ->
  String.eqb (extname env themePath) ".json" = true ->
  _loadThemeDocument env (S fuel) baseTheme themePath resultRules resultColors
  = match defaultRules baseTheme with
    | None => Rejected
    | Some defaults =>
        match readJson env content (resultRules ++ defaults) resultColors with
        | None => Rejected
        | Some (rules, colors, include) =>
            if truthy include then
              match join env (dirname env themePath) include with
              | None => Rejected
              | Some path => _loadThemeDocument env fuel baseTheme path rules colors
              end
            else Fulfilled (rules, colors)
        end
    end.
Proof. intros Hr He. cbn [_loadThemeDocument]. rewrite Hr, He. reflexivity. Qed.

Lemma readJson_document content fields (resultRules rules : list Value)
    (resultColors colors : gmap string Color) include :
  parseJson env content = (Object fields, []) ->
  isArray (field "settings" fields) = false ->
  readJson env content resultRules resultColors = Some (rules, colors, include) ->
  include = field "include" fields /\
  (exists more, rules = resultRules ++ more) /\
  (forall entries, field "colors" fields = Object entries ->
     setColors env entries resultColors = Some colors).
Proof.
  intros Hparse Hset. unfold readJson. rewrite Hparse.
  cbn [property member].
  destruct (field "settings" fields) eqn:Hs; try discriminate.
  all: destruct (negb (isArray (field "syntaxTokens" fields))
                 && negb (isObjectType (field "colors" fields))); [discriminate|].
  all: destruct (truthy (field "syntaxTokens" fields)).
  all: try (destruct (spread (field "syntaxTokens" fields)) as [tokens|];
            cbn [option_map]; [|discriminate]).
  all: destruct (truthy (field "colors" fields)) eqn:Ht.
  all: try (destruct (setColors env (entries (field "colors" fields)) resultColors)
              as [set|] eqn:Hc; cbn [option_map]; [|discriminate]).
  all: intros [= <- <- <-]; split; [reflexivity|]; split;
    [first [exists tokens; reflexivity|exists []; rewrite app_nil_r; reflexivity]|].
  all: intros colorEntries Hobj; rewrite Hobj in *; cbn [entries] in *;
    first [exact Hc|discriminate].
Qed.

Lemma load_extends fuel baseTheme : forall themePath (resultRules rules : list Value)
    (resultColors colors : gmap string Color),
  _loadThemeDocument env fuel baseTheme themePath resultRules resultColors
  = Fulfilled (rules, colors) ->
  exists defaults more,
    defaultRules baseTheme = Some defaults /\
    rules = resultRules ++ defaults ++ more.
Proof.
  induction fuel as [|fuel IH]; intros themePath rules0 rules colors0 colors;
    [discriminate|].
  cbn [_loadThemeDocument].
  destruct (readFile env themePath) as [content|]; [|discriminate].
  destruct (defaultRules baseTheme) as [defaults|] eqn:Hd; [|discriminate].
  destruct (String.eqb (extname env themePath) ".json").
  - destruct (readJson env content (rules0 ++ defaults) colors0)
      as [[[rules1 colors1] include]|] eqn:Hj; [|discriminate].
    assert (Hmore : exists more, rules1 = (rules0 ++ defaults) ++ more).
    { revert Hj. unfold readJson.
      destruct (parseJson env content) as [contentValue errors].
      destruct errors; [|discriminate].
      destruct (property contentValue "settings") as [settings|]; [|discriminate].
      destruct settings.
      all: try (destruct (negb (isArray (member contentValue "syntaxTokens"))
                      && negb (isObjectType (member contentValue "colors")));
                [discriminate|]).
      all: try (destruct (truthy (member contentValue "syntaxTokens"))).
      all: try (destruct (spread (member contentValue "syntaxTokens")) as [tokens|];
                cbn [option_map]; [|discriminate]).
      all: try (destruct (truthy (member contentValue "colors"))).
      all: try (destruct (setColors env (entries (member contentValue "colors")) colors0);
                cbn [option_map]; [|discriminate]).
      all: try (destruct (initializeColorMapsFromSettings env items colors0);
                [|discriminate]).
      all: intros [= <- <- <-]; eauto.
      all: exists []; rewrite app_nil_r; reflexivity. }
    destruct Hmore as (more & ->).
    destruct (truthy include).
    + destruct (join env (dirname env themePath) include) as [path|]; [|discriminate].
      intros Hload. destruct (IH _ _ _ _ _ Hload) as (d & more' & Hd' & ->).
      exists defaults, (more ++ defaults ++ more'). split; [reflexivity|].
      assert (d = defaults) by congruence. subst d.
      rewrite <- !app_assoc. reflexivity.
    + intros [= <- <-]. exists defaults, more. split; [reflexivity|].
      rewrite <- app_assoc. reflexivity.
  - unfold readPlist.
    destruct (parsePlist env content) as [contentValue|]; [|discriminate].
    destruct (property contentValue "settings") as [[]|]; try discriminate.
    destruct (initializeColorMapsFromSettings env items colors0); [|discriminate].
    intros [= <- <-]. exists defaults, items. split; [reflexivity|].
    rewrite <- app_assoc. reflexivity.
Qed.

(** The documents that include one another without end. *)
Definition endless (themePath : string -> Prop) : Prop :=
  forall path, themePath path ->
    exists content,
      readFile env path = Some content /\
      String.eqb (extname env path) ".json" = true /\
      forall (resultRules : list Value) (resultColors : gmap string Color),
        exists rules colors include next,
          readJson env content resultRules resultColors
          = Some (rules, colors, include) /\
          truthy include = true /\
          join env (dirname env path) include = Some next /\
          themePath next.

(** *** The properties *)

(** X19: [ensureLoaded] is all or nothing.  On a theme that is loaded it
    changes nothing.  When its promise is fulfilled the theme is loaded, and
    its token colours are those of the documents after the default rules of
    its base theme; when the promise is rejected or does not settle, the theme
    is as it was, not loaded and without the rules and colours read so far. *)
Theorem ensureLoaded_is_all_or_nothing (fuel : nat)
    (theme : ColorThemeData (Color := Color)) :
  let after := fst (ensureLoaded env fuel theme) in
  let promise := snd (ensureLoaded env fuel theme) in
  (isLoaded theme = true -> after = theme /\ promise = Fulfilled tt) /\
  (promise = Fulfilled tt -> isLoaded after = true) /\
  (promise <> Fulfilled tt -> after = theme) /\
  (isLoaded theme = false -> promise = Fulfilled tt ->
   exists defaults more,
     defaultRules (getBaseThemeId env (id theme)) = Some defaults /\
     tokenColors after = Some (defaults ++ more) /\
     colorMap after <> None /\ styleSheetContent after <> None).
Proof.
  unfold ensureLoaded. cbv zeta.
  destruct (isLoaded theme) eqn:Hl; cbn [negb fst snd].
  { repeat split; auto; discriminate. }
  destruct (_loadThemeDocument env fuel (getBaseThemeId env (id theme))
              (path theme) [] ∅) as [[rules colors]| |] eqn:Hload.
  - destruct (generateStyleSheetContent env _ colors) as [content|];
      cbn [fst snd].
    + split; [discriminate|]. split; [reflexivity|].
      split; [intros H; destruct (H eq_refl)|].
      intros _ _. destruct (load_extends _ _ _ _ _ _ _ Hload)
        as (defaults & more & Hd & ->).
      exists defaults, more. repeat split; auto; discriminate.
    + repeat split; auto; discriminate.
  - repeat split; auto; discriminate.
  - repeat split; auto; discriminate.
Qed.

(** X20: a theme document that includes itself, or documents that include
    one another in a circle, never load: however many documents are read, the
    promise of [_loadThemeDocument] is neither fulfilled nor rejected, and
    [ensureLoaded] leaves the theme not loaded. *)
Theorem circular_include_never_loads (themePath : string -> Prop)
    (fuel : nat) (theme : ColorThemeData (Color := Color)) :
  endless themePath -> themePath (path theme) -> isLoaded theme = false ->
  defaultRules (getBaseThemeId env (id theme)) <> None ->
  ensureLoaded env fuel theme = (theme, Unsettled).
Proof.
  intros Hend Hpath Hl Hd.
  assert (H : forall fuel path (rules : list Value) (colors : gmap string Color),
            themePath path ->
            _loadThemeDocument env fuel (getBaseThemeId env (id theme)) path
              rules colors = Unsettled).
  { clear Hpath. intros f. induction f as [|n IH]; intros p rules colors Hp;
      [reflexivity|].
    destruct (Hend p Hp) as (content & Hr & He & Hj).
    rewrite (load_json _ _ _ content) by assumption.
    destruct (defaultRules (getBaseThemeId env (id theme))) as [defaults|];
      [|destruct (Hd eq_refl)].
    destruct (Hj (rules ++ defaults) colors)
      as (rules' & colors' & include & next & -> & -> & -> & Hnext).
    apply IH. exact Hnext. }
  unfold ensureLoaded. rewrite Hl. cbn [negb]. rewrite H by exact Hpath.
  reflexivity.
Qed.

(** X21: the colours of an included document win.  When a document in the
    format with [syntaxTokens] and [colors] includes another such document,
    which includes nothing, every colour the included document sets has, once
    the theme is loaded, the value the included document gives it, whatever
    the including document gave it. *)
Theorem included_colours_win (fuel : nat) (baseTheme themePath included : string)
    (fields includedFields colors : list (string * Value))
    (resultRules rules : list Value) (resultColors loaded : gmap string Color)
    (colorId : string) (colorHex : Value) :
  document themePath fields ->
  truthy (field "include" fields) = true ->
  join env (dirname env themePath) (field "include" fields) = Some included ->
  document included includedFields ->
  truthy (field "include" includedFields) = false ->
  field "colors" includedFields = Object colors ->
  NoDup (map fst colors) -> (colorId, colorHex) ∈ colors ->
  _loadThemeDocument env fuel baseTheme themePath resultRules resultColors
  = Fulfilled (rules, loaded) ->
  loaded !! colorId = fromHex env colorHex /\ fromHex env colorHex <> None.
Proof.
  intros (content & A1 & A2 & A3 & A4) Hinc Hjoin (content' & B1 & B2 & B3 & B4)
    Hlast Hcolors Hnd Hin.
  destruct fuel as [|fuel]; [discriminate|].
  rewrite (load_json _ _ _ content) by assumption.
  destruct (defaultRules baseTheme) as [defaults|] eqn:Hd; [|discriminate].
  destruct (readJson env content (resultRules ++ defaults) resultColors)
    as [[[rules1 colors1] include]|] eqn:Hj; [|discriminate].
  destruct (readJson_document _ _ _ _ _ _ _ A3 A4 Hj) as (-> & _ & _).
  rewrite Hinc, Hjoin.
  destruct fuel as [|fuel]; [discriminate|].
  rewrite (load_json _ _ _ content') by assumption. rewrite Hd.
  destruct (readJson env content' (rules1 ++ defaults) colors1)
    as [[[rules2 colors2] include2]|] eqn:Hj'; [|discriminate].
  destruct (readJson_document _ _ _ _ _ _ _ B3 B4 Hj') as (-> & _ & Hset).
  rewrite Hlast. intros Heq. injection Heq as _ Heq. rewrite <- Heq.
  apply (setColors_sets colors colors1); auto.
Qed.

End Loader.

Lemma circular_include_never_loads_witness :
  let theme :=
    {| id := "loop"; path := "/t/loop.json"; tokenColors := None;
       colorMap := None; styleSheetContent := None; isLoaded := false |} in
  ensureLoaded library 1000 theme = (theme, Unsettled).
Proof.
  apply (circular_include_never_loads library (fun p => p = "/t/loop.json")
           1000); try reflexivity; [|discriminate].
  intros p ->. exists "/t/loop.json". split; [reflexivity|].
  split; [reflexivity|].
  intros rules colors. eexists _, _, _, _.
  split; [reflexivity|]. split; [reflexivity|]. split; reflexivity.
Defined.

Lemma included_colours_win_witness :
  exists rules loaded,
    _loadThemeDocument library 2 "vs-dark" "/t/dark.json" [] ∅
    = Fulfilled (rules, loaded) /\
    loaded !! "editor.background" = Some "#ffffff".
Proof.
  eexists _, _. split; [reflexivity|].
  eapply (included_colours_win library 2 "vs-dark" "/t/dark.json"
            "/t/base.json"
            [("syntaxTokens", Array []);
             ("colors", Object [("editor.background", Text "#000000")]);
             ("include", Text "base.json")]
            [("syntaxTokens", Array []);
             ("colors", Object [("editor.background", Text "#ffffff");
                                ("editor.foreground", Text "#333333")]);
             ("include", Undefined)]
            [("editor.background", Text "#ffffff");
             ("editor.foreground", Text "#333333")]
            [] _ ∅ _ "editor.background" (Text "#ffffff")).
  - exists "/t/dark.json". repeat split; reflexivity.
  - reflexivity.
  - reflexivity.
  - exists "/t/base.json". repeat split; reflexivity.
  - reflexivity.
  - reflexivity.
  - simpl. apply NoDup_cons. split; [|apply NoDup_singleton].
    intros H. apply list_elem_of_singleton in H. discriminate.
  - apply list_elem_of_here.
  - reflexivity.
Defined.

End ThemeFacts.
